(** * Skybridge path worker: a shallow embedding and its checked properties

    The development embeds the background path-generation worker of
    [BioluminescenceScene.ts] (the part after the scene class: message
    types, [selectPair], [buildPaths] with its nested helpers, and
    [ctx.onmessage]).

    Conventions of the embedding:
    - integer quantities (node indices, counts, stamps, usage counters)
      are [Z]; the typed arrays that hold them are lists read and written
      through [geti]/[seti], which reproduce the out-of-range behaviour of
      JavaScript typed arrays (a read yields [undefined], a write is
      dropped);
    - finite JavaScript numbers are exact rationals [Q]; scores that may be
      infinite or [NaN] are [num]; the rounding of doubles is not
      modelled, the rounding of a number stored into a [Float32Array]
      cell is ([fround], [toFloat32]);
    - the floating-point geometry of the collision oracle, [Math.sqrt],
      [Math.random] and the engine's error text are fields of the class
      [Platform];
    - loops are structural recursions on a fuel argument; every fuel is
      computed from the loop's own bound, and is shown not to run out
      ([placementLoop_stops] for the placement loop, [siftUp_fuel] and
      [siftDown_fuel] for the heap, [searchLoop_fuel] and [aStar_fuel]
      for the search on lattices whose counts are not negative). *)

From Stdlib Require Import ZArith QArith Qabs Qround Qpower List Bool Lia String.
From stdpp Require Import base list.
Import ListNotations.
Open Scope Z_scope.

(** ** JavaScript values *)

(** A score held in a [Float32Array] cell or computed from one. *)
Inductive num : Type :=
| Fin (q : Q)
| PosInf
| NegInf
| NaN.

Definition Qltb (a b : Q) : bool := negb (Qle_bool b a).
Definition Qabs' (a : Q) : Q := if Qle_bool 0 a then a else (- a)%Q.

(** [x + c] for a finite [c]. *)
Definition num_add (x : num) (c : Q) : num :=
  match x with
  | Fin q => Fin (q + c)
  | PosInf => PosInf
  | NegInf => NegInf
  | NaN => NaN
  end.

(** [x < y]; every comparison with [NaN] is false. *)
Definition num_lt (x y : num) : bool :=
  match x, y with
  | Fin a, Fin b => Qltb a b
  | Fin _, PosInf => true
  | NegInf, Fin _ => true
  | NegInf, PosInf => true
  | _, _ => false
  end.

(** [x <= y]. *)
Definition num_le (x y : num) : bool :=
  match x, y with
  | Fin a, Fin b => Qle_bool a b
  | Fin _, PosInf => true
  | PosInf, PosInf => true
  | NegInf, Fin _ => true
  | NegInf, PosInf => true
  | NegInf, NegInf => true
  | _, _ => false
  end.

(** [x >= y]. *)
Definition num_ge (x y : num) : bool := num_le y x.

(** *** [Float32Array] cells *)

(** The exponent [e] of the binade of a positive number [a]:
    [2 ^ e <= a < 2 ^ (e + 1)]. *)
Definition binade (a : Q) : Z :=
  let e := Z.log2 (Qnum a) - Z.log2 (Zpos (Qden a)) in
  if Qle_bool (2 ^ e) a then e else e - 1.

(** Rounding to the nearest integer, a half to the even neighbour. *)
Definition roundEven (q : Q) : Z :=
  let f := Qfloor q in
  match (q - inject_Z f ?= 1 # 2)%Q with
  | Lt => f
  | Gt => f + 1
  | Eq => if Z.even f then f else f + 1
  end.

(** The spacing of the float32 numbers around a non-negative number:
    24 significant bits from [2 ^ -126] upwards, [2 ^ -149] below. *)
Definition float32Ulp (a : Q) : Q := 2 ^ (Z.max (binade a) (-126) - 23).

(** The float32 number nearest to a non-negative number, a tie going to
    the even significand; the exponent is not bounded above. *)
Definition roundMagnitude (a : Q) : Q :=
  (inject_Z (roundEven (a / float32Ulp a)) * float32Ulp a)%Q.

(** [Math.fround] on a number within the float32 range: the float32
    number that a [Float32Array] cell holds once the number is stored
    into it. *)
Definition fround (q : Q) : Q :=
  Qred (if Qle_bool 0 q then roundMagnitude q else - roundMagnitude (- q))%Q.

(** From [2 ^ 128] on, the rounded number has left the float32 range. *)
Definition float32Limit : Q := 2 ^ 128.

(** The value of a [Float32Array] cell after [x] is stored into it. *)
Definition toFloat32 (x : num) : num :=
  match x with
  | Fin q =>
      let r := fround q in
      if Qle_bool float32Limit r then PosInf
      else if Qle_bool r (- float32Limit) then NegInf
      else Fin r
  | other => other
  end.

(** Typed-array read: [None] is JavaScript's [undefined]. *)
Definition geti {A : Type} (l : list A) (i : Z) : option A :=
  if i <? 0 then None else l !! Z.to_nat i.

(** Typed-array write: dropped when the index is out of range. *)
Definition seti {A : Type} (l : list A) (i : Z) (v : A) : list A :=
  if i <? 0 then l else <[Z.to_nat i := v]> l.

(** Reading a cell and storing it into an [Int32Array] turns [undefined]
    into [0]; into a [Float32Array] it becomes [NaN]. *)
Definition getInt (l : list Z) (i : Z) : Z := default 0 (geti l i).
Definition getNum (l : list num) (i : Z) : num := default NaN (geti l i).

(** [array[i] === v], [array[i] !== v] and [array[i] >= v]. *)
Definition cellIs (l : list Z) (i v : Z) : bool :=
  match geti l i with Some x => x =? v | None => false end.
Definition cellIsNot (l : list Z) (i v : Z) : bool := negb (cellIs l i v).
Definition cellGe (l : list Z) (i v : Z) : bool :=
  match geti l i with Some x => v <=? x | None => false end.

(** [Math.round] rounds halves towards plus infinity. *)
Definition Math_round (x : Q) : Z := Qfloor (x + (1 # 2)).
Definition Math_floor (x : Q) : Z := Qfloor x.

(** ** Messages *)

Record WorkerGrid : Type := {
  countX : Z;
  countY : Z;
  countZ : Z;
  startX : Q;
  startY : Q;
  startZ : Q;
  voxelSizeXZ : Q;
  voxelHeight : Q;
  basePlatformHeight : Q;
  xEdgesOpen : bool;
  zEdgesOpen : bool;
  twoSided : bool;
  gridX : Z;
  gridZ : Z;
  gridStartX : Q;
  gridStartZ : Q;
  step : Q;
  instanceCount : Z;
  (** Block C of the packed parameters, four numbers per instance; the
      fourth is the direction sign.  Blocks A and B and the height, taper
      and padding ranges only feed the frustum geometry ([frustumsHit]). *)
  paramC : list Q
}.

Record BuildMessage : Type := {
  msg_id : Z;
  grid : WorkerGrid;
  maxPaths : Z;
  maxTries : Z;
  maxPathsPerVertex : Q
}.

Inductive InboundMessage : Type :=
| Build (message : BuildMessage)
| Cancel (cancel_id : Z).

Inductive DebugStage : Type := StageStart | StageValid | StagePath | StageDone.

Inductive DetailValue : Type :=
| DNum (z : Z)
| DBool (b : bool).

Inductive OutboundMessage : Type :=
| PathMessage (pid : Z) (path : list Z)
| DoneMessage (did placed validCount : Z) (boundaryFlags : list Z)
| ErrorMessage (eid : Z) (text : string)
| DebugMessage (gid : Z) (stage : DebugStage) (detail : list (string * DetailValue)).

Inductive PathResult : Type :=
| Found (path : list Z)
| Failed
| Cancelled.

(** ** The platform: what the embedding does not compute *)

Class Platform : Type := {
  (** [Math.sqrt] on the finite non-negative numbers it is applied to. *)
  Math_sqrt : Q -> Q;
  (** The value returned by the [n]-th call of [Math.random]. *)
  Math_random : nat -> Q;
  Math_random_range : forall n, (0 <= Math_random n)%Q /\ (Math_random n < 1)%Q;
  (** Broad phase of [segmentHitsBuildings]: the instance indices
      [baseInstance + i] visited by the row and column loops for the
      segment from one node to another, in visiting order. *)
  candidateInstances : WorkerGrid -> Z -> Z -> list Z;
  (** The platform, pedestal and tower tests of [segmentHitsInstance] for
      an instance that is present. *)
  frustumsHit : WorkerGrid -> Z -> Z -> Z -> bool;
  (** Message of the RangeError raised by a typed-array constructor. *)
  rangeErrorMessage : Z -> string
}.

Section Model.
Context `{Platform}.

(** ** Values derived at the start of [buildPaths] *)

(** [Math.min(0xffff, Math.max(1, Math.round(message.maxPathsPerVertex)))]. *)
Definition usageCap (message : BuildMessage) : Z :=
  Z.min 65535 (Z.max 1 (Math_round (maxPathsPerVertex message))).

Definition vertexCountX (g : WorkerGrid) : Z := countX g + 1.
Definition vertexCountY (g : WorkerGrid) : Z := countY g + 1.
Definition vertexCountZ (g : WorkerGrid) : Z := countZ g + 1.
Definition totalVertices (g : WorkerGrid) : Z :=
  vertexCountX g * vertexCountY g * vertexCountZ g.
Definition maxVertexX (g : WorkerGrid) : Z := vertexCountX g - 1.
Definition maxVertexZ (g : WorkerGrid) : Z := vertexCountZ g - 1.
Definition baseVertexCount (g : WorkerGrid) : Z := totalVertices g.
Definition useHoleCenters (g : WorkerGrid) : bool :=
  Qltb (Qabs' (voxelSizeXZ g - step g)) (1 # 1000000).
Definition cellCount (g : WorkerGrid) : Z := gridX g * gridZ g.
Definition holeCenterBaseIndex (g : WorkerGrid) : Z := baseVertexCount g.
Definition strideY (g : WorkerGrid) : Z := vertexCountX g.
Definition strideZ (g : WorkerGrid) : Z := vertexCountX g * vertexCountY g.

Definition isBoundaryEdge (g : WorkerGrid) (ix nx iz nz : Z) : bool :=
  (negb (xEdgesOpen g) &&
     ((ix =? 0) || (nx =? 0) || (ix =? maxVertexX g) || (nx =? maxVertexX g)))
  || (negb (zEdgesOpen g) &&
     ((iz =? 0) || (nz =? 0) || (iz =? maxVertexZ g) || (nz =? maxVertexZ g))).

Definition perCell (g : WorkerGrid) : Z := if twoSided g then 2 else 1.

(** The value stored in [instanceDirection[i]] by the derivation loop.  A
    missing parameter reads as [undefined]: [Math.abs] of it is [NaN], the
    test [< 0.5] fails and [undefined >= 0] is false, so the side is -1. *)
Definition directionOf (g : WorkerGrid) (i : Z) : Z :=
  match geti (paramC g) (i * 4 + 3) with
  | Some directionValue =>
      if Qltb (Qabs' directionValue) (1 # 2) then 0
      else if Qle_bool 0 directionValue then 1 else -1
  | None => -1
  end.

Definition instanceDirection (g : WorkerGrid) : list Z :=
  map (directionOf g) (seqZ 0 (instanceCount g)).

(** One pass of the hole-cell registration loop. *)
Definition registerHole (g : WorkerGrid) (acc : list Z * list Z) (cell : Z)
  : list Z * list Z :=
  let '(holeIndexByCell, holeCells) := acc in
  let baseInstance := cell * perCell g in
  if instanceCount g <=? baseInstance then acc
  else if cellIsNot (instanceDirection g) baseInstance 0 then acc
  else (seti holeIndexByCell cell (Z.of_nat (length holeCells)), holeCells ++ [cell]).

(** [holeIndexByCell] and [holeCells] after the registration block. *)
Definition holeRegistration (g : WorkerGrid) : list Z * list Z :=
  let initial := (replicate (Z.to_nat (cellCount g)) (-1), []) in
  if useHoleCenters g && (0 <? cellCount g)
  then fold_left (registerHole g) (seqZ 0 (cellCount g)) initial
  else initial.

Definition holeIndexByCell (g : WorkerGrid) : list Z := fst (holeRegistration g).
Definition holeCells (g : WorkerGrid) : list Z := snd (holeRegistration g).

Definition holeCenterCount (g : WorkerGrid) : Z :=
  if useHoleCenters g && (0 <? cellCount g)
  then Z.of_nat (length (holeCells g)) * vertexCountY g
  else 0.

Definition totalNodeCount (g : WorkerGrid) : Z :=
  if useHoleCenters g && (0 <? cellCount g)
  then baseVertexCount g + holeCenterCount g
  else baseVertexCount g.

(** The hole-center nodes of a cell: one per Y level when the cell is
    registered, none otherwise. *)
Definition holeNodesOfCell (g : WorkerGrid) (cell : Z) : list Z :=
  match geti (holeIndexByCell g) cell with
  | Some holeIndex =>
      if holeIndex <? 0 then []
      else map (fun iy => holeCenterBaseIndex g + holeIndex * vertexCountY g + iy)
               (seqZ 0 (vertexCountY g))
  | None => []
  end.

Record NeighborOffset : Type := {
  dx : Z;
  dy : Z;
  dz : Z;
  delta : Z;
  cost : Q
}.

Definition axisSteps : list Z := [-1; 0; 1].

(** The 26-neighbourhood in the order of the three nested loops ([dz]
    outermost, [dx] innermost), with the anisotropic Euclidean cost. *)
Definition neighborOffsets (g : WorkerGrid) : list NeighborOffset :=
  flat_map (fun dz0 =>
    flat_map (fun dy0 =>
      flat_map (fun dx0 =>
        if (dx0 =? 0) && (dy0 =? 0) && (dz0 =? 0) then []
        else [ {| dx := dx0; dy := dy0; dz := dz0;
                  delta := dx0 + dy0 * strideY g + dz0 * strideZ g;
                  cost := Math_sqrt
                    ((inject_Z dx0 * voxelSizeXZ g) * (inject_Z dx0 * voxelSizeXZ g)
                     + (inject_Z dy0 * voxelHeight g) * (inject_Z dy0 * voxelHeight g)
                     + (inject_Z dz0 * voxelSizeXZ g) * (inject_Z dz0 * voxelSizeXZ g))%Q |} ])
        axisSteps) axisSteps) axisSteps.

Definition cornerOffsets : list (Z * Z) := [(0, 0); (1, 0); (0, 1); (1, 1)].

Definition vertexStartX (g : WorkerGrid) : Q := (startX g - voxelSizeXZ g * (1 # 2))%Q.
Definition vertexStartY (g : WorkerGrid) : Q := (startY g - voxelHeight g * (1 # 2))%Q.
Definition vertexStartZ (g : WorkerGrid) : Q := (startZ g - voxelSizeXZ g * (1 # 2))%Q.

(** Lattice coordinates of a vertex index: [idx % vertexCountX],
    [Math.floor(idx / strideY) % vertexCountY], [Math.floor(idx / strideZ)]. *)
Definition ixOf (g : WorkerGrid) (idx : Z) : Z := Z.rem idx (vertexCountX g).
Definition iyOf (g : WorkerGrid) (idx : Z) : Z :=
  Z.rem (idx / strideY g) (vertexCountY g).
Definition izOf (g : WorkerGrid) (idx : Z) : Z := idx / strideZ g.

(** ** Collision oracle *)

(** [segmentHitsInstance]: an absent instance ([side === 0]) is never hit;
    for a present one the frustum tests decide. *)
Definition segmentHitsInstance (g : WorkerGrid) (instanceIndex a b : Z) : bool :=
  if cellIs (instanceDirection g) instanceIndex 0 then false
  else frustumsHit g instanceIndex a b.

(** [segmentHitsBuildings] for the segment from node [a] to node [b]:
    true on the first candidate instance that is hit. *)
Definition segmentHitsBuildings (g : WorkerGrid) (a b : Z) : bool :=
  existsb (fun instanceIndex =>
             if instanceCount g <=? instanceIndex then false
             else segmentHitsInstance g instanceIndex a b)
          (candidateInstances g a b).

(** ** Visibility classifier *)

Definition cancelMask : Z := 16383.

(** The negation of the out-of-bounds test applied to a neighbour. *)
Definition inLattice (g : WorkerGrid) (nx ny nz : Z) : bool :=
  negb ((nx <? 0) || (ny <? 0) || (nz <? 0)
        || (vertexCountX g <=? nx) || (vertexCountY g <=? ny)
        || (vertexCountZ g <=? nz)).

(** The loop over [neighborOffsets] of the classifier, with its [continue]
    and [break] statements; the pair is ([hasClear], [hasBlocked]). *)
Fixpoint scanNeighbors (g : WorkerGrid) (idx : Z) (offsets : list NeighborOffset)
  (hasClear hasBlocked : bool) : bool * bool :=
  match offsets with
  | [] => (hasClear, hasBlocked)
  | neighbor :: rest =>
      let ix := ixOf g idx in
      let iy := iyOf g idx in
      let iz := izOf g idx in
      let nx := ix + dx neighbor in
      let ny := iy + dy neighbor in
      let nz := iz + dz neighbor in
      if negb (inLattice g nx ny nz) then scanNeighbors g idx rest hasClear hasBlocked
      else if isBoundaryEdge g ix nx iz nz then scanNeighbors g idx rest hasClear true
      else
        let nIdx := idx + delta neighbor in
        let blocked := segmentHitsBuildings g idx nIdx in
        let hasBlocked' := if blocked then true else hasBlocked in
        let hasClear' := if blocked then hasClear else true in
        if hasClear' && hasBlocked' then (hasClear', hasBlocked')
        else scanNeighbors g idx rest hasClear' hasBlocked'
  end.

(** The cells visited by the [cellDx]/[cellDz] loops around a lattice
    vertex, after their range tests. *)
Definition adjacentCells (g : WorkerGrid) (ix iz : Z) : list (Z * Z) :=
  flat_map (fun cellDx =>
    let cellX := ix - cellDx in
    if (cellX <? 0) || (gridX g <=? cellX) then []
    else flat_map (fun cellDz =>
      let cellZ := iz - cellDz in
      if (cellZ <? 0) || (gridZ g <=? cellZ) then []
      else [(cellX, cellZ)]) [0; 1]) [0; 1].

(** [holeIndexByCell[cellZ * gridX + cellX]] when it is not negative.  The
    cell index is in range for the cells of [adjacentCells]. *)
Definition holeIndexAt (g : WorkerGrid) (cellX cellZ : Z) : option Z :=
  match geti (holeIndexByCell g) (cellZ * gridX g + cellX) with
  | Some holeIndex => if holeIndex <? 0 then None else Some holeIndex
  | None => None
  end.

Definition touchesHole (g : WorkerGrid) (ix iz : Z) : bool :=
  existsb (fun c => match holeIndexAt g (fst c) (snd c) with
                    | Some _ => true
                    | None => false
                    end) (adjacentCells g ix iz).

(** ([hasClear], [hasBlocked]) of a vertex after both scans. *)
Definition vertexFlags (g : WorkerGrid) (idx : Z) : bool * bool :=
  let '(hasClear, hasBlocked) := scanNeighbors g idx (neighborOffsets g) false false in
  let hasClear' :=
    if 0 <? holeCenterCount g
    then hasClear || touchesHole g (ixOf g idx) (izOf g idx)
    else hasClear in
  (hasClear', hasBlocked).

Record Pools : Type := {
  anyClearIndices : list Z;
  boundaryIndices : list Z;
  anyClearPositive : list Z;
  anyClearNegative : list Z;
  boundaryPositive : list Z;
  boundaryNegative : list Z;
  boundaryFlags : list Z
}.

Definition initialPools (g : WorkerGrid) : Pools :=
  {| anyClearIndices := []; boundaryIndices := [];
     anyClearPositive := []; anyClearNegative := [];
     boundaryPositive := []; boundaryNegative := [];
     boundaryFlags := replicate (Z.to_nat (totalVertices g)) 0 |}.

Definition pushIf (condition : bool) (l : list Z) (v : Z) : list Z :=
  if condition then l ++ [v] else l.

(** The tail of one classifier iteration: flag and pool updates. *)
Definition classifyVertex (g : WorkerGrid) (pools : Pools) (idx : Z) : Pools :=
  let '(hasClear, hasBlocked) := vertexFlags g idx in
  if negb hasClear then pools
  else
    let y0 := (vertexStartY g + inject_Z (iyOf g idx) * voxelHeight g)%Q in
    let positive := Qle_bool (basePlatformHeight g) y0 in
    {| boundaryFlags :=
         if hasBlocked then seti (boundaryFlags pools) idx 1 else boundaryFlags pools;
       anyClearIndices := anyClearIndices pools ++ [idx];
       boundaryIndices := pushIf hasBlocked (boundaryIndices pools) idx;
       anyClearPositive :=
         pushIf (twoSided g && positive) (anyClearPositive pools) idx;
       boundaryPositive :=
         pushIf (twoSided g && positive && hasBlocked) (boundaryPositive pools) idx;
       anyClearNegative :=
         pushIf (twoSided g && negb positive) (anyClearNegative pools) idx;
       boundaryNegative :=
         pushIf (twoSided g && negb positive && hasBlocked) (boundaryNegative pools) idx |}.

(** [shouldCancel()] at the iteration whose counter value is [counter]. *)
Definition shouldCancel (counter token activeToken : Z) : bool :=
  (Z.land counter cancelMask =? 0) && negb (token =? activeToken).

(** The classification loop; [None] is the silent [return] on cancel.
    [cancelCounter] equals the vertex index, being incremented once per
    iteration from zero. *)
Fixpoint classifyFrom (g : WorkerGrid) (token activeToken : Z) (indices : list Z)
  (pools : Pools) : option Pools :=
  match indices with
  | [] => Some pools
  | idx :: rest =>
      if shouldCancel idx token activeToken then None
      else classifyFrom g token activeToken rest (classifyVertex g pools idx)
  end.

Definition classify (g : WorkerGrid) (token activeToken : Z) : option Pools :=
  classifyFrom g token activeToken (seqZ 0 (totalVertices g)) (initialPools g).

Definition startPool (g : WorkerGrid) (pools : Pools) : list Z :=
  if twoSided g
  then (if 0 <? Z.of_nat (length (boundaryPositive pools))
        then boundaryPositive pools else anyClearPositive pools)
  else (if 0 <? Z.of_nat (length (boundaryIndices pools))
        then boundaryIndices pools else anyClearIndices pools).

Definition endPool (g : WorkerGrid) (pools : Pools) : list Z :=
  if twoSided g
  then (if 0 <? Z.of_nat (length (boundaryNegative pools))
        then boundaryNegative pools else anyClearNegative pools)
  else (if 0 <? Z.of_nat (length (boundaryIndices pools))
        then boundaryIndices pools else anyClearIndices pools).

Definition validCount (g : WorkerGrid) (pools : Pools) : Z :=
  if twoSided g
  then Z.of_nat (length (startPool g pools)) + Z.of_nat (length (endPool g pools))
  else Z.of_nat (length (startPool g pools)).

(** ** Path search (A-star) *)

(** The scratch arrays allocated once per build and the search stamp. *)
Record Scratch : Type := {
  parents : list Z;
  closed : list Z;
  gScore : list num;
  gStamp : list Z;
  heapIndices : list Z;
  heapScores : list num;
  stamp : Z
}.

Definition initialScratch (g : WorkerGrid) : Scratch :=
  let n := Z.to_nat (totalNodeCount g) in
  {| parents := replicate n 0; closed := replicate n 0;
     gScore := replicate n (Fin 0); gStamp := replicate n 0;
     heapIndices := replicate n 0; heapScores := replicate n (Fin 0);
     stamp := 1 |}.

(** The [while (i > 0)] loop of [heapPush].  [i] strictly decreases, so
    the loop body runs at most [i] times ([siftUp_fuel]).  The parent's
    cell is compared with the score as it was passed, a double; what is
    written into a cell is the float32 nearest to it. *)
Fixpoint siftUp (fuel : nat) (indices : list Z) (scores : list num)
  (i idx : Z) (score : num) : list Z * list num :=
  match fuel with
  | O => (indices, scores)
  | S fuel' =>
      if i <=? 0 then (indices, scores)
      else
        let parent := Z.shiftr (i - 1) 1 in
        if num_le (getNum scores parent) score then (indices, scores)
        else
          let indices1 := seti indices i (getInt indices parent) in
          let scores1 := seti scores i (getNum scores parent) in
          let indices2 := seti indices1 parent idx in
          let scores2 := seti scores1 parent (toFloat32 score) in
          siftUp fuel' indices2 scores2 parent idx score
  end.

Definition heapPush (sc : Scratch) (idx : Z) (score : num) (size : Z) : Scratch * Z :=
  let indices0 := seti (heapIndices sc) size idx in
  let scores0 := seti (heapScores sc) size (toFloat32 score) in
  let '(indices, scores) := siftUp (Z.to_nat size) indices0 scores0 size idx score in
  ({| parents := parents sc; closed := closed sc; gScore := gScore sc;
      gStamp := gStamp sc; heapIndices := indices; heapScores := scores;
      stamp := stamp sc |}, size + 1).

(** The [while (true)] loop of [heapPop]; it returns the arrays and the
    final [i].  [i] strictly increases and the loop leaves as soon as
    [2 i + 1 >= lastIndex] ([siftDown_fuel]). *)
Fixpoint siftDown (fuel : nat) (indices : list Z) (scores : list num)
  (i lastIndex : Z) (lastScore : num) : list Z * list num * Z :=
  match fuel with
  | O => (indices, scores, i)
  | S fuel' =>
      let left := i * 2 + 1 in
      let right := left + 1 in
      if lastIndex <=? left then (indices, scores, i)
      else
        let child :=
          if (right <? lastIndex) && num_lt (getNum scores right) (getNum scores left)
          then right else left in
        if num_ge (getNum scores child) lastScore then (indices, scores, i)
        else
          let indices1 := seti indices i (getInt indices child) in
          let scores1 := seti scores i (getNum scores child) in
          siftDown fuel' indices1 scores1 child lastIndex lastScore
  end.

(** [heapPop]; [None] is the [null] returned for an empty heap. *)
Definition heapPop (sc : Scratch) (size : Z) : option (Z * num * Scratch * Z) :=
  if size =? 0 then None
  else
    let idx := getInt (heapIndices sc) 0 in
    let score := getNum (heapScores sc) 0 in
    let lastIndex := size - 1 in
    let '(indices, scores) :=
      if 0 <? lastIndex then
        let lastIdx := getInt (heapIndices sc) lastIndex in
        let lastScore := getNum (heapScores sc) lastIndex in
        let '(indices1, scores1, i) :=
          siftDown (Z.to_nat lastIndex) (heapIndices sc) (heapScores sc) 0 lastIndex lastScore in
        (seti indices1 i lastIdx, seti scores1 i lastScore)
      else (heapIndices sc, heapScores sc) in
    Some (idx, score,
          {| parents := parents sc; closed := closed sc; gScore := gScore sc;
             gStamp := gStamp sc; heapIndices := indices; heapScores := scores;
             stamp := stamp sc |}, lastIndex).

Definition Coords : Type := (Q * Q * Q)%type.

(** [getNodeCoords]; an undefined [holeCells] entry is read as cell 0 (the
    function is only applied to start and end nodes, which are lattice
    vertices). *)
Definition getNodeCoords (g : WorkerGrid) (idx : Z) : Coords :=
  if idx <? holeCenterBaseIndex g then
    ((vertexStartX g + inject_Z (ixOf g idx) * voxelSizeXZ g)%Q,
     (vertexStartY g + inject_Z (iyOf g idx) * voxelHeight g)%Q,
     (vertexStartZ g + inject_Z (izOf g idx) * voxelSizeXZ g)%Q)
  else
    let holeVertexIndex := idx - holeCenterBaseIndex g in
    let holeIndex := holeVertexIndex / vertexCountY g in
    let iy := holeVertexIndex - holeIndex * vertexCountY g in
    let cellIndex := getInt (holeCells g) holeIndex in
    let cellX := Z.rem cellIndex (gridX g) in
    let cellZ := cellIndex / gridX g in
    ((gridStartX g + inject_Z cellX * step g)%Q,
     (vertexStartY g + inject_Z iy * voxelHeight g)%Q,
     (gridStartZ g + inject_Z cellZ * step g)%Q).

Definition heuristic (endCoords : Coords) (x y z : Q) : Q :=
  let '(ex, ey, ez) := endCoords in
  let ddx := (x - ex)%Q in
  let ddy := (y - ey)%Q in
  let ddz := (z - ez)%Q in
  Math_sqrt (ddx * ddx + ddy * ddy + ddz * ddz)%Q.

Definition slack : Q := 1 # 1000000.

(** The relaxation that ends every edge case of the search:
    [if (gStamp[nIdx] !== stamp || tentative < gScore[nIdx] - 1e-6)]
    record the score, the stamp and the parent, and push the node.
    [gScore] is a [Float32Array]: the cell takes the float32 nearest to
    [tentative], while the pushed score is computed from [tentative]
    itself. *)
Definition relax (sc : Scratch) (heapSize idx nIdx : Z) (tentative : num) (h : Q)
  : Scratch * Z :=
  if cellIsNot (gStamp sc) nIdx (stamp sc)
     || num_lt tentative (num_add (getNum (gScore sc) nIdx) (- slack))
  then
    heapPush
      {| parents := seti (parents sc) nIdx idx; closed := closed sc;
         gScore := seti (gScore sc) nIdx (toFloat32 tentative);
         gStamp := seti (gStamp sc) nIdx (stamp sc);
         heapIndices := heapIndices sc; heapScores := heapScores sc;
         stamp := stamp sc |}
      nIdx (num_add tentative h) heapSize
  else (sc, heapSize).

(** [gStamp[idx] === stamp ? gScore[idx] : Number.POSITIVE_INFINITY]. *)
Definition baseCostOf (sc : Scratch) (idx : Z) : num :=
  if cellIs (gStamp sc) idx (stamp sc) then getNum (gScore sc) idx else PosInf.

Section Search.
Variable g : WorkerGrid.
Variable maxPathsPerVertexCap : Z.
Variable nodeUsage : list Z.
Variable endCoords : Coords.

(** One pass of the loop over [neighborOffsets] from lattice vertex [idx]. *)
Definition relaxNeighbor (idx : Z) (baseCost : num) (st : Scratch * Z)
  (neighbor : NeighborOffset) : Scratch * Z :=
  let '(sc, heapSize) := st in
  let ix := ixOf g idx in
  let iy := iyOf g idx in
  let iz := izOf g idx in
  let nx := ix + dx neighbor in
  let ny := iy + dy neighbor in
  let nz := iz + dz neighbor in
  if negb (inLattice g nx ny nz) then st
  else if isBoundaryEdge g ix nx iz nz then st
  else
    let nIdx := idx + delta neighbor in
    if cellGe nodeUsage nIdx maxPathsPerVertexCap then st
    else if cellIs (closed sc) nIdx (stamp sc) then st
    else if segmentHitsBuildings g idx nIdx then st
    else
      let x1 := (vertexStartX g + inject_Z ix * voxelSizeXZ g
                 + inject_Z (dx neighbor) * voxelSizeXZ g)%Q in
      let y1 := (vertexStartY g + inject_Z iy * voxelHeight g
                 + inject_Z (dy neighbor) * voxelHeight g)%Q in
      let z1 := (vertexStartZ g + inject_Z iz * voxelSizeXZ g
                 + inject_Z (dz neighbor) * voxelSizeXZ g)%Q in
      relax sc heapSize idx nIdx (num_add baseCost (cost neighbor))
            (heuristic endCoords x1 y1 z1).

(** One pass of the hole-column loops from lattice vertex [idx]. *)
Definition relaxHoleCenter (idx : Z) (baseCost : num) (st : Scratch * Z)
  (cell : Z * Z) : Scratch * Z :=
  let '(sc, heapSize) := st in
  let '(cellX, cellZ) := cell in
  match holeIndexAt g cellX cellZ with
  | None => st
  | Some holeIndex =>
      let iy := iyOf g idx in
      let nIdx := holeCenterBaseIndex g + holeIndex * vertexCountY g + iy in
      if cellGe nodeUsage nIdx maxPathsPerVertexCap then st
      else if cellIs (closed sc) nIdx (stamp sc) then st
      else
        let x0 := (vertexStartX g + inject_Z (ixOf g idx) * voxelSizeXZ g)%Q in
        let y0 := (vertexStartY g + inject_Z iy * voxelHeight g)%Q in
        let z0 := (vertexStartZ g + inject_Z (izOf g idx) * voxelSizeXZ g)%Q in
        let centerX := (gridStartX g + inject_Z cellX * step g)%Q in
        let centerZ := (gridStartZ g + inject_Z cellZ * step g)%Q in
        let ddx := (centerX - x0)%Q in
        let ddz := (centerZ - z0)%Q in
        let edgeCost := Math_sqrt (ddx * ddx + ddz * ddz)%Q in
        relax sc heapSize idx nIdx (num_add baseCost edgeCost)
              (heuristic endCoords centerX y0 centerZ)
  end.

(** The branch [idx < holeCenterBaseIndex] of the main loop body. *)
Definition expandLattice (idx : Z) (st : Scratch * Z) : Scratch * Z :=
  let baseCost := baseCostOf (fst st) idx in
  let st1 := fold_left (relaxNeighbor idx baseCost) (neighborOffsets g) st in
  if 0 <? holeCenterCount g
  then fold_left (relaxHoleCenter idx baseCost)
                 (adjacentCells g (ixOf g idx) (izOf g idx)) st1
  else st1.

(** One pass of the loop over [cornerOffsets] from the hole-center node
    [idx] of cell ([cellX], [cellZ]) at level [iy]. *)
Definition relaxCorner (idx cellX cellZ iy : Z) (baseCost : num) (st : Scratch * Z)
  (corner : Z * Z) : Scratch * Z :=
  let '(sc, heapSize) := st in
  let ix := cellX + fst corner in
  let iz := cellZ + snd corner in
  let nIdx := ix + iy * strideY g + iz * strideZ g in
  if cellGe nodeUsage nIdx maxPathsPerVertexCap then st
  else if cellIs (closed sc) nIdx (stamp sc) then st
  else
    let x0 := (gridStartX g + inject_Z cellX * step g)%Q in
    let y0 := (vertexStartY g + inject_Z iy * voxelHeight g)%Q in
    let z0 := (gridStartZ g + inject_Z cellZ * step g)%Q in
    let x1 := (vertexStartX g + inject_Z ix * voxelSizeXZ g)%Q in
    let z1 := (vertexStartZ g + inject_Z iz * voxelSizeXZ g)%Q in
    let ddx := (x1 - x0)%Q in
    let ddz := (z1 - z0)%Q in
    let edgeCost := Math_sqrt (ddx * ddx + ddz * ddz)%Q in
    relax sc heapSize idx nIdx (num_add baseCost edgeCost)
          (heuristic endCoords x1 y0 z1).

(** A vertical edge to [nIdx = idx - 1] or [idx + 1], once its usage test
    has passed; [y1] is the level of the target. *)
Definition relaxVertical (idx nIdx : Z) (baseCost : num) (x0 y1 z0 : Q)
  (st : Scratch * Z) : Scratch * Z :=
  let '(sc, heapSize) := st in
  if cellIsNot (closed sc) nIdx (stamp sc)
  then relax sc heapSize idx nIdx (num_add baseCost (voxelHeight g))
             (heuristic endCoords x0 y1 z0)
  else st.

(** The [else] branch of the main loop body (a hole-center node).  The
    [continue] statements inside the two vertical blocks leave the whole
    iteration: when the node below is at its cap the node above is not
    examined. *)
Definition expandHole (idx : Z) (st : Scratch * Z) : Scratch * Z :=
  let holeVertexIndex := idx - holeCenterBaseIndex g in
  let holeIndex := holeVertexIndex / vertexCountY g in
  if (holeIndex <? 0) || (Z.of_nat (length (holeCells g)) <=? holeIndex) then st
  else
    let iy := holeVertexIndex - holeIndex * vertexCountY g in
    let cellIndex := getInt (holeCells g) holeIndex in
    let cellX := Z.rem cellIndex (gridX g) in
    let cellZ := cellIndex / gridX g in
    let x0 := (gridStartX g + inject_Z cellX * step g)%Q in
    let y0 := (vertexStartY g + inject_Z iy * voxelHeight g)%Q in
    let z0 := (gridStartZ g + inject_Z cellZ * step g)%Q in
    let baseCost := baseCostOf (fst st) idx in
    let st1 := fold_left (relaxCorner idx cellX cellZ iy baseCost) cornerOffsets st in
    if (0 <? iy) && cellGe nodeUsage (idx - 1) maxPathsPerVertexCap then st1
    else
      let st2 :=
        if 0 <? iy
        then relaxVertical idx (idx - 1) baseCost x0 (y0 - voxelHeight g)%Q z0 st1
        else st1 in
      if (iy + 1 <? vertexCountY g) && cellGe nodeUsage (idx + 1) maxPathsPerVertexCap
      then st2
      else if iy + 1 <? vertexCountY g
      then relaxVertical idx (idx + 1) baseCost x0 (y0 + voxelHeight g)%Q z0 st2
      else st2.

Definition setClosed (sc : Scratch) (idx : Z) : Scratch :=
  {| parents := parents sc; closed := seti (closed sc) idx (stamp sc);
     gScore := gScore sc; gStamp := gStamp sc;
     heapIndices := heapIndices sc; heapScores := heapScores sc;
     stamp := stamp sc |}.

Inductive SearchExit : Type :=
| LoopEnded (sc : Scratch)
| LoopCancelled (sc : Scratch)
| LoopFuel (sc : Scratch).

Variable token : Z.
Variable activeToken : Z.
Variable endIndex : Z.

(** The [while (heapSize > 0)] loop of [aStar]. *)
Fixpoint searchLoop (fuel : nat) (sc : Scratch) (heapSize iterations : Z)
  : SearchExit :=
  match fuel with
  | O => LoopFuel sc
  | S fuel' =>
      if heapSize <=? 0 then LoopEnded sc
      else if shouldCancel iterations token activeToken then LoopCancelled sc
      else
        match heapPop sc heapSize with
        | None => LoopEnded sc
        | Some (idx, _, sc1, size1) =>
            if cellIs (closed sc1) idx (stamp sc1)
            then searchLoop fuel' sc1 size1 (iterations + 1)
            else
              let sc2 := setClosed sc1 idx in
              if idx =? endIndex then LoopEnded sc2
              else
                let '(sc3, size3) :=
                  if idx <? holeCenterBaseIndex g
                  then expandLattice idx (sc2, size1)
                  else expandHole idx (sc2, size1) in
                searchLoop fuel' sc3 size3 (iterations + 1)
        end
  end.

End Search.

(** The path reconstruction loop
    [while (current !== startIndex && safety < totalNodeCount)]; [None] is
    the [failed] returned from inside the loop. *)
Fixpoint walkParents (safety : nat) (sc : Scratch) (startIndex current : Z)
  (path : list Z) : option (list Z * Z) :=
  match safety with
  | O => Some (path, current)
  | S safety' =>
      if current =? startIndex then Some (path, current)
      else if cellIsNot (gStamp sc) current (stamp sc) then None
      else walkParents safety' sc startIndex (getInt (parents sc) current)
                       (path ++ [current])
  end.

(** The stamp increment at the head of [aStar], with the full clears. *)
Definition bumpStamp (sc : Scratch) : Scratch :=
  if 2147483646 <=? stamp sc + 1
  then {| parents := parents sc;
          closed := replicate (length (closed sc)) 0;
          gScore := gScore sc;
          gStamp := replicate (length (gStamp sc)) 0;
          heapIndices := heapIndices sc; heapScores := heapScores sc;
          stamp := 1 |}
  else {| parents := parents sc; closed := closed sc; gScore := gScore sc;
          gStamp := gStamp sc; heapIndices := heapIndices sc;
          heapScores := heapScores sc; stamp := stamp sc + 1 |}.

Definition markStart (sc : Scratch) (startIndex : Z) : Scratch :=
  {| parents := seti (parents sc) startIndex startIndex; closed := closed sc;
     gScore := seti (gScore sc) startIndex (Fin 0);
     gStamp := seti (gStamp sc) startIndex (stamp sc);
     heapIndices := heapIndices sc; heapScores := heapScores sc;
     stamp := stamp sc |}.

(** Every iteration of the main loop removes one heap entry; an iteration
    that closes a node adds at most thirty.  [searchFuel] exceeds the
    number of iterations this allows ([searchLoop_fuel] below). *)
Definition searchFuel (sc : Scratch) : nat :=
  (31 * length (closed sc) + 2)%nat.

(** [aStar].  The result carries the scratch arrays, which the next search
    reuses.  The main loop is not left for lack of fuel ([aStar_fuel]); the
    case is listed with the normal end of the loop for totality. *)
Definition aStar (g : WorkerGrid) (cap token activeToken : Z) (nodeUsage : list Z)
  (sc : Scratch) (startIndex endIndex : Z) : PathResult * Scratch :=
  let sc0 := bumpStamp sc in
  if cellGe nodeUsage startIndex cap || cellGe nodeUsage endIndex cap
  then (Failed, sc0)
  else
    let endCoords := getNodeCoords g endIndex in
    let '(sx, sy, sz) := getNodeCoords g startIndex in
    let sc1 := markStart sc0 startIndex in
    let '(sc2, heapSize) :=
      heapPush sc1 startIndex (Fin (heuristic endCoords sx sy sz)) 0 in
    match searchLoop g cap nodeUsage endCoords token activeToken endIndex
                     (searchFuel sc2) sc2 heapSize 0 with
    | LoopCancelled sc3 => (Cancelled, sc3)
    | LoopEnded sc3 | LoopFuel sc3 =>
        if cellIsNot (closed sc3) endIndex (stamp sc3) then (Failed, sc3)
        else
          match walkParents (Z.to_nat (totalNodeCount g)) sc3 startIndex endIndex [] with
          | None => (Failed, sc3)
          | Some (path, current) =>
              if current =? startIndex
              then (Found (rev (path ++ [startIndex])), sc3)
              else (Failed, sc3)
          end
    end.

(** ** Endpoint selection *)

Definition lengthZ {A : Type} (l : list A) : Z := Z.of_nat (length l).

(** [pool[Math.floor(Math.random() * pool.length)]] at the [rng]-th call of
    [Math.random]. *)
Definition randomEntry (pool : list Z) (rng : nat) : option Z :=
  geti pool (Math_floor (Math_random rng * inject_Z (lengthZ pool))%Q).

Definition isAvoided (avoid : option Z) (value : Z) : bool :=
  match avoid with
  | Some a => value =? a
  | None => false
  end.

(** The rejection loop of [pickUnblocked]: up to [attempts] random draws.
    The draw is always inside the pool ([Math_random_range]); the branch
    for an undefined entry is there for totality only. *)
Fixpoint pickAttempts (attempts : nat) (pool : list Z) (avoid : option Z)
  (nodeUsage : list Z) (cap : Z) (rng : nat) : option Z * nat :=
  match attempts with
  | O => (None, rng)
  | S attempts' =>
      match randomEntry pool rng with
      | Some value =>
          if isAvoided avoid value then
            pickAttempts attempts' pool avoid nodeUsage cap (S rng)
          else if cellGe nodeUsage value cap then
            pickAttempts attempts' pool avoid nodeUsage cap (S rng)
          else (Some value, S rng)
      | None => pickAttempts attempts' pool avoid nodeUsage cap (S rng)
      end
  end.

Definition maxPickAttempts (pool : list Z) : nat :=
  Z.to_nat (Z.max 10 (lengthZ pool * 2)).

(** [pickUnblocked]: rejection sampling, then the linear fallback scan. *)
Definition pickUnblocked (pool : list Z) (avoid : option Z) (nodeUsage : list Z)
  (cap : Z) (rng : nat) : option Z * nat :=
  match pickAttempts (maxPickAttempts pool) pool avoid nodeUsage cap rng with
  | (Some value, rng') => (Some value, rng')
  | (None, rng') =>
      (List.find (fun value => negb (isAvoided avoid value)
                               && negb (cellGe nodeUsage value cap)) pool,
       rng')
  end.

(** [selectPair]; [None] is [null]. *)
Definition selectPair (startPool endPool : list Z) (useSides : bool)
  (nodeUsage : list Z) (cap : Z) (rng : nat) : option (Z * Z) * nat :=
  if (lengthZ startPool =? 0) || (lengthZ endPool =? 0) then (None, rng)
  else
    match pickUnblocked startPool None nodeUsage cap rng with
    | (None, rng1) => (None, rng1)
    | (Some startIndex, rng1) =>
        let avoid := if useSides then None else Some startIndex in
        match pickUnblocked endPool avoid nodeUsage cap rng1 with
        | (None, rng2) => (None, rng2)
        | (Some endIndex, rng2) => (Some (startIndex, endIndex), rng2)
        end
    end.

(** The test [!used.has(value) && !isBlocked(value)] of [pickDistinct];
    the set [used] holds exactly the values of [picks]. *)
Definition pickable (picks nodeUsage : list Z) (cap value : Z) : bool :=
  negb (existsb (Z.eqb value) picks) && negb (cellGe nodeUsage value cap).

(** The [while (picks.length < count && attempts < maxPickAttempts)] loop. *)
Fixpoint drawDistinct (attempts : nat) (pool : list Z) (count : Z)
  (nodeUsage : list Z) (cap : Z) (picks : list Z) (rng : nat) : list Z * nat :=
  match attempts with
  | O => (picks, rng)
  | S attempts' =>
      if lengthZ picks <? count then
        match randomEntry pool rng with
        | Some value =>
            if pickable picks nodeUsage cap value
            then drawDistinct attempts' pool count nodeUsage cap (picks ++ [value]) (S rng)
            else drawDistinct attempts' pool count nodeUsage cap picks (S rng)
        | None => drawDistinct attempts' pool count nodeUsage cap picks (S rng)
        end
      else (picks, rng)
  end.

(** The fallback scan [for (i = 0; i < pool.length && picks.length < count; ...)]. *)
Fixpoint scanDistinct (pool : list Z) (count : Z) (nodeUsage : list Z) (cap : Z)
  (picks : list Z) : list Z :=
  match pool with
  | [] => picks
  | value :: rest =>
      if lengthZ picks <? count then
        if pickable picks nodeUsage cap value
        then scanDistinct rest count nodeUsage cap (picks ++ [value])
        else scanDistinct rest count nodeUsage cap picks
      else picks
  end.

(** [pickDistinct]; [None] is [null]. *)
Definition pickDistinct (pool : list Z) (count : Z) (nodeUsage : list Z) (cap : Z)
  (rng : nat) : option (list Z) * nat :=
  if lengthZ pool <? count then (None, rng)
  else
    let '(picks, rng') :=
      drawDistinct (maxPickAttempts pool) pool count nodeUsage cap [] rng in
    let picks' :=
      if lengthZ picks <? count
      then scanDistinct pool count nodeUsage cap picks
      else picks in
    if lengthZ picks' <? count then (None, rng') else (Some picks', rng').

(** ** Accepting a path *)

(** [mergeSegments]: every segment but the first loses its first node. *)
Fixpoint mergeFrom (isFirst : bool) (segments : list (list Z)) : list Z :=
  match segments with
  | [] => []
  | segment :: rest =>
      (if isFirst then segment else tail segment) ++ mergeFrom false rest
  end.

Definition mergeSegments (segments : list (list Z)) : list Z :=
  mergeFrom true segments.

(** One pass of [blockPath]: [nodeUsage[idx]] becomes
    [next >= maxPathsPerVertex ? maxPathsPerVertex : next]. *)
Definition blockNode (cap : Z) (nodeUsage : list Z) (idx : Z) : list Z :=
  match geti nodeUsage idx with
  | Some u =>
      let next := u + 1 in
      seti nodeUsage idx (if cap <=? next then cap else next)
  | None => nodeUsage
  end.

Definition blockPath (cap : Z) (nodeUsage : list Z) (path : list Z) : list Z :=
  fold_left (blockNode cap) path nodeUsage.

(** [buildLoop]: two nodes from each pool and four chained searches. *)
Definition buildLoop (g : WorkerGrid) (cap token activeToken : Z)
  (startNodes endNodes nodeUsage : list Z) (sc : Scratch) (rng : nat)
  : PathResult * Scratch * nat :=
  let '(sideA, rng1) := pickDistinct startNodes 2 nodeUsage cap rng in
  let '(sideB, rng2) := pickDistinct endNodes 2 nodeUsage cap rng1 in
  match sideA, sideB with
  | Some (a1 :: a2 :: _), Some (b1 :: b2 :: _) =>
      match aStar g cap token activeToken nodeUsage sc a1 a2 with
      | (Found seg1, sc1) =>
          match aStar g cap token activeToken nodeUsage sc1 a2 b1 with
          | (Found seg2, sc2) =>
              match aStar g cap token activeToken nodeUsage sc2 b1 b2 with
              | (Found seg3, sc3) =>
                  match aStar g cap token activeToken nodeUsage sc3 b2 a1 with
                  | (Found seg4, sc4) =>
                      (Found (mergeSegments [seg1; seg2; seg3; seg4]), sc4, rng2)
                  | (other, sc4) => (other, sc4, rng2)
                  end
              | (other, sc3) => (other, sc3, rng2)
              end
          | (other, sc2) => (other, sc2, rng2)
          end
      | (other, sc1) => (other, sc1, rng2)
      end
  | _, _ => (Failed, sc, rng2)
  end.

(** ** Placement loop *)

Record LoopState : Type := {
  placed : Z;
  pairTries : Z;
  pairStart : Z;
  pairEnd : Z;
  attempts : Z;
  usage : list Z;
  scratch : Scratch;
  randomCalls : nat;
  emitted : list OutboundMessage
}.

(** How the [while (placed < maxPaths)] loop is left. *)
Inductive LoopExit : Type :=
| ExitPlaced            (* the loop condition [placed < maxPaths] is false *)
| ExitToken             (* [if (token !== activeToken) return] *)
| ExitAttempts          (* [if (attempts >= maxAttempts) break] *)
| ExitNoPair            (* [if (!pair) break] *)
| ExitSearchCancelled   (* [if (result.status === 'cancelled') return] *)
| ExitFuel.             (* never returned, see [placementLoop_stops] *)

Inductive StepResult : Type :=
| Continue (st : LoopState)
| Exit (why : LoopExit) (st : LoopState).

Definition maxAttemptsOf (message : BuildMessage) : Z :=
  Z.max 1 (maxPaths message * maxTries message).

Section Placement.
Variable message : BuildMessage.
Variable token : Z.
Variable activeToken : Z.
Variable startNodes : list Z.
Variable endNodes : list Z.

Let g : WorkerGrid := grid message.
Let cap : Z := usageCap message.
Let useLoopPaths : bool := twoSided (grid message).

(** The branch taken when the attempt produced a path. *)
Definition acceptPath (st : LoopState) (sc : Scratch) (rng : nat) (path : list Z)
  : LoopState :=
  let debug :=
    if placed st =? 0
    then [DebugMessage (msg_id message) StagePath [("pathLength"%string, DNum (lengthZ path))]]
    else [] in
  {| placed := placed st + 1;
     pairTries := if useLoopPaths then pairTries st else 0;
     pairStart := if useLoopPaths then pairStart st else -1;
     pairEnd := if useLoopPaths then pairEnd st else -1;
     attempts := attempts st;
     usage := blockPath cap (usage st) path;
     scratch := sc;
     randomCalls := rng;
     emitted := emitted st ++ debug ++ [PathMessage (msg_id message) path] |}.

(** The branch taken when the attempt failed. *)
Definition rejectAttempt (st : LoopState) (sc : Scratch) (rng : nat)
  (pairS pairE pairT : Z) : LoopState :=
  {| placed := placed st;
     pairTries := if useLoopPaths then pairT else pairT + 1;
     pairStart := pairS;
     pairEnd := pairE;
     attempts := attempts st + 1;
     usage := usage st;
     scratch := sc;
     randomCalls := rng;
     emitted := emitted st |}.

Definition withSearchState (st : LoopState) (sc : Scratch) (rng : nat)
  (pairS pairE pairT : Z) : LoopState :=
  {| placed := placed st; pairTries := pairT; pairStart := pairS; pairEnd := pairE;
     attempts := attempts st; usage := usage st; scratch := sc;
     randomCalls := rng; emitted := emitted st |}.

Definition afterAttempt (st : LoopState) (result : PathResult) (sc : Scratch)
  (rng : nat) (pairS pairE pairT : Z) : StepResult :=
  match result with
  | Cancelled => Exit ExitSearchCancelled (withSearchState st sc rng pairS pairE pairT)
  | Found path => Continue (acceptPath st sc rng path)
  | Failed => Continue (rejectAttempt st sc rng pairS pairE pairT)
  end.

(** One evaluation of the loop condition and, when it holds, of the body. *)
Definition placementStep (st : LoopState) : StepResult :=
  if negb (placed st <? maxPaths message) then Exit ExitPlaced st
  else if negb (token =? activeToken) then Exit ExitToken st
  else if maxAttemptsOf message <=? attempts st then Exit ExitAttempts st
  else if useLoopPaths then
    let '(result, sc, rng) :=
      buildLoop g cap token activeToken startNodes endNodes (usage st)
                (scratch st) (randomCalls st) in
    afterAttempt st result sc rng (pairStart st) (pairEnd st) (pairTries st)
  else if (pairStart st =? -1) || (pairEnd st =? -1)
          || (maxTries message <=? pairTries st) then
    match selectPair startNodes endNodes useLoopPaths (usage st) cap (randomCalls st) with
    | (None, rng) =>
        Exit ExitNoPair
             (withSearchState st (scratch st) rng (pairStart st) (pairEnd st) (pairTries st))
    | (Some (pairS, pairE), rng) =>
        let '(result, sc) :=
          aStar g cap token activeToken (usage st) (scratch st) pairS pairE in
        afterAttempt st result sc rng pairS pairE 0
    end
  else
    let '(result, sc) :=
      aStar g cap token activeToken (usage st) (scratch st) (pairStart st) (pairEnd st) in
    afterAttempt st result sc (randomCalls st) (pairStart st) (pairEnd st) (pairTries st).

Fixpoint placementLoop (fuel : nat) (st : LoopState) : LoopExit * LoopState :=
  match fuel with
  | O => (ExitFuel, st)
  | S fuel' =>
      match placementStep st with
      | Exit why st' => (why, st')
      | Continue st' => placementLoop fuel' st'
      end
  end.

(** Every pass that continues adds one to [placed] or to [attempts], and
    the loop is left once [placed] reaches [maxPaths] or [attempts]
    reaches [maxAttempts]. *)
Definition placementFuel : nat :=
  Z.to_nat (Z.max 0 (maxPaths message) + maxAttemptsOf message + 1).

End Placement.

(** The variables of the placement loop before its first pass, with the
    freshly allocated usage table and scratch arrays. *)
Definition initialLoopState (g : WorkerGrid) (rng : nat) (out : list OutboundMessage)
  : LoopState :=
  {| placed := 0; pairTries := 0; pairStart := -1; pairEnd := -1;
     attempts := 0;
     usage := replicate (Z.to_nat (totalNodeCount g)) 0;
     scratch := initialScratch g;
     randomCalls := rng;
     emitted := out |}.

(** ** [buildPaths] *)

Inductive Completion : Type :=
| Returned
| Threw (text : string).

Record Outcome : Type := {
  posted : list OutboundMessage;
  completion : Completion;
  randomAfter : nat
}.

Definition startDetail (message : BuildMessage) : list (string * DetailValue) :=
  let g := grid message in
  [("countX", DNum (countX g)); ("countY", DNum (countY g)); ("countZ", DNum (countZ g));
   ("vertexCountX", DNum (vertexCountX g)); ("vertexCountY", DNum (vertexCountY g));
   ("vertexCountZ", DNum (vertexCountZ g)); ("totalVertices", DNum (totalVertices g));
   ("holeCenterCount", DNum (holeCenterCount g)); ("maxPaths", DNum (maxPaths message));
   ("maxTries", DNum (maxTries message)); ("twoSided", DBool (twoSided g))]%string.

Definition doneMessages (message : BuildMessage) (placedCount valid attemptCount maxAttempts : Z)
  (flags : list Z) : list OutboundMessage :=
  [DebugMessage (msg_id message) StageDone
     [("placed", DNum placedCount); ("validCount", DNum valid);
      ("attempts", DNum attemptCount); ("maxAttempts", DNum maxAttempts)]%string;
   DoneMessage (msg_id message) placedCount valid flags].

(** [buildPaths (message, token)], run while the module variable
    [activeToken] has the given value and [Math.random] has been called
    [rng] times.  A typed-array constructor called with a negative length
    throws a RangeError. *)
Definition buildPaths (message : BuildMessage) (token activeToken : Z) (rng : nat)
  : Outcome :=
  let g := grid message in
  let threw out n :=
    {| posted := out; completion := Threw (rangeErrorMessage n); randomAfter := rng |} in
  let returned out r := {| posted := out; completion := Returned; randomAfter := r |} in
  if totalVertices g <? 0 then threw [] (totalVertices g)
  else if cellCount g <? 0 then threw [] (cellCount g)
  else if instanceCount g <? 0 then threw [] (instanceCount g)
  else if totalNodeCount g <? 0 then threw [] (totalNodeCount g)
  else
    let out0 := [DebugMessage (msg_id message) StageStart (startDetail message)] in
    if gridZ g <? 0 then threw out0 (gridZ g)
    else
      match classify g token activeToken with
      | None => returned out0 rng
      | Some pools =>
          let startNodes := startPool g pools in
          let endNodes := endPool g pools in
          let valid := validCount g pools in
          let out1 :=
            out0 ++ [DebugMessage (msg_id message) StageValid
                       [("validCount", DNum valid);
                        ("boundaryCount", DNum (lengthZ (boundaryIndices pools)))]%string] in
          let flags := boundaryFlags pools in
          if (lengthZ startNodes =? 0) || (lengthZ endNodes =? 0)
          then returned (out1 ++ doneMessages message 0 valid 0 0 flags) rng
          else if twoSided g && ((lengthZ startNodes <? 2) || (lengthZ endNodes <? 2))
          then returned (out1 ++ doneMessages message 0 valid 0 0 flags) rng
          else
            let '(why, st) :=
              placementLoop message token activeToken startNodes endNodes
                            (placementFuel message) (initialLoopState g rng out1) in
            match why with
            | ExitToken | ExitSearchCancelled => returned (emitted st) (randomCalls st)
            | _ =>
                if negb (token =? activeToken) then returned (emitted st) (randomCalls st)
                else returned
                       (emitted st ++ doneMessages message (placed st) valid (attempts st)
                                                   (maxAttemptsOf message) flags)
                       (randomCalls st)
            end
      end.

(** ** The message handler *)

Record WorkerState : Type := {
  activeTokenOf : Z;
  randomUsed : nat
}.

(** One message posted by the worker, with the value [activeToken] has
    when it is posted and the token captured by the build that posts it. *)
Record Posting : Type := {
  inForce : Z;
  captured : Z;
  payload : OutboundMessage
}.

(** [ctx.onmessage]: the new state and the messages posted while the
    handler runs. *)
Definition onmessage (w : WorkerState) (m : InboundMessage)
  : WorkerState * list Posting :=
  match m with
  | Cancel _ =>
      ({| activeTokenOf := activeTokenOf w + 1; randomUsed := randomUsed w |}, [])
  | Build message =>
      let activeToken := activeTokenOf w + 1 in
      let token := activeToken in
      let outcome := buildPaths message token activeToken (randomUsed w) in
      let out :=
        match completion outcome with
        | Returned => posted outcome
        | Threw text => posted outcome ++ [ErrorMessage (msg_id message) text]
        end in
      ({| activeTokenOf := activeToken; randomUsed := randomAfter outcome |},
       map (fun p => {| inForce := activeToken; captured := token; payload := p |}) out)
  end.

(** The worker handling a queue of inbound messages one after the other;
    a handler runs to completion before the next message is taken. *)
Fixpoint workerRun (w : WorkerState) (inbox : list InboundMessage) : list Posting :=
  match inbox with
  | [] => []
  | m :: rest =>
      let '(w', out) := onmessage w m in
      out ++ workerRun w' rest
  end.

Definition initialWorker : WorkerState := {| activeTokenOf := 0; randomUsed := 0 |}.

(** The state of the worker once a queue of messages has been handled. *)
Fixpoint workerAfter (w : WorkerState) (inbox : list InboundMessage) : WorkerState :=
  match inbox with
  | [] => w
  | m :: rest => workerAfter (fst (onmessage w m)) rest
  end.

End Model.

(** ** Sample platforms and messages *)

(** A rational stand-in for [Math.sqrt]: the square root rounded down to
    twelve decimals; exact on squares of such decimals. *)
Definition sqrtApprox (q : Q) : Q :=
  Z.sqrt (Qnum q * Zpos (Qden q) * 1000000000000000000000000)
  # (Qden q * 1000000000000)%positive.

Definition constantRandom (r : Q) (n : nat) : Q := r.

Definition constantRandom_zero_range (n : nat)
  : (0 <= constantRandom 0 n)%Q /\ (constantRandom 0 n < 1)%Q :=
  conj (Qle_refl 0) eq_refl.

(** A city without buildings in reach of any segment, and a random source
    that always returns 0. *)
Definition openCity : Platform :=
  {| Math_sqrt := sqrtApprox;
     Math_random := constantRandom 0;
     Math_random_range := constantRandom_zero_range;
     candidateInstances := fun _ _ _ => [];
     frustumsHit := fun _ _ _ _ => false;
     rangeErrorMessage := fun _ => "Invalid typed array length"%string |}.

(** A lattice of two vertices in a row, no building grid. *)
Definition sampleGrid : WorkerGrid :=
  {| countX := 1; countY := 0; countZ := 0;
     startX := 0; startY := 0; startZ := 0;
     voxelSizeXZ := 1; voxelHeight := 1; basePlatformHeight := 0;
     xEdgesOpen := true; zEdgesOpen := true; twoSided := false;
     gridX := 0; gridZ := 0; gridStartX := 0; gridStartZ := 0; step := 2;
     instanceCount := 0; paramC := [] |}.

(** A single-cell building grid aligned with a one-voxel lattice, with no
    instance at all ([instanceCount] is zero). *)
Definition emptySlotGrid : WorkerGrid :=
  {| countX := 1; countY := 1; countZ := 1;
     startX := 0; startY := 0; startZ := 0;
     voxelSizeXZ := 1; voxelHeight := 1; basePlatformHeight := 0;
     xEdgesOpen := true; zEdgesOpen := true; twoSided := false;
     gridX := 1; gridZ := 1; gridStartX := 0; gridStartZ := 0; step := 1;
     instanceCount := 0; paramC := [] |}.

(** The same grid in two-sided mode with both instances of the cell
    absent (direction 0). *)
Definition voidCellGrid : WorkerGrid :=
  {| countX := 1; countY := 1; countZ := 1;
     startX := 0; startY := 0; startZ := 0;
     voxelSizeXZ := 1; voxelHeight := 1; basePlatformHeight := 0;
     xEdgesOpen := true; zEdgesOpen := true; twoSided := true;
     gridX := 1; gridZ := 1; gridStartX := 0; gridStartZ := 0; step := 1;
     instanceCount := 2; paramC := [0; 0; 0; 0; 0; 0; 0; 0]%Q |}.

(** ** Statements of the specification, as predicates on the embedding *)

(** No instance of the cell is a building: each of its [perCell] instance
    slots either does not exist or holds direction 0. *)
Definition cellWithoutBuilding (g : WorkerGrid) (cell : Z) : Prop :=
  forall i, 0 <= i < perCell g ->
    cell * perCell g + i < instanceCount g ->
    directionOf g (cell * perCell g + i) = 0.

(** The cell receives one hole-center node per Y level. *)
Definition cellReceivesHoleNodes (g : WorkerGrid) (cell : Z) : Prop :=
  length (holeNodesOfCell g cell) = Z.to_nat (countY g + 1)
  /\ holeNodesOfCell g cell <> [].

(** ** Auxiliary predicates of the proofs *)

(** What the registration loop tests for a cell. *)
Definition registersCell (g : WorkerGrid) (cell : Z) : bool :=
  negb (instanceCount g <=? cell * perCell g)
  && negb (cellIsNot (instanceDirection g) (cell * perCell g) 0).

(** Entries of [holeIndexByCell] after the cells of [seen] were visited:
    non-negative exactly for the visited cells that were registered, and
    -1 elsewhere. *)
Definition holeIndexInv (g : WorkerGrid) (seen : list Z) (acc : list Z * list Z) : Prop :=
  forall cell h, geti (fst acc) cell = Some h ->
    (In cell seen /\ registersCell g cell = true /\ 0 <= h)
    \/ (~ (In cell seen /\ registersCell g cell = true) /\ h = -1).

(** The sentence of the specification on hole cells: with hole centers
    enabled, a cell receives its hole-center nodes exactly when it holds
    no building instance. *)
Definition holeNodesIffNoBuilding (g : WorkerGrid) : Prop :=
  useHoleCenters g = true ->
  forall cell, 0 <= cell < cellCount g ->
    (cellReceivesHoleNodes g cell <-> cellWithoutBuilding g cell).

(** A two-sided cell whose upper instance is absent and whose lower
    instance is present (direction -1). *)
Definition lowerOnlyGrid : WorkerGrid :=
  {| countX := 1; countY := 1; countZ := 1;
     startX := 0; startY := 0; startZ := 0;
     voxelSizeXZ := 1; voxelHeight := 1; basePlatformHeight := 0;
     xEdgesOpen := true; zEdgesOpen := true; twoSided := true;
     gridX := 1; gridZ := 1; gridStartX := 0; gridStartZ := 0; step := 1;
     instanceCount := 2; paramC := [0; 0; 0; 0; 0; 0; 0; -1]%Q |}.

(** The status of one neighbour offset of a lattice vertex, as the
    classifier's loop decides it: an offset that leaves the lattice is
    neither of the two. *)
Definition edgeBlocked `{Platform} (g : WorkerGrid) (idx : Z) (o : NeighborOffset) : bool :=
  inLattice g (ixOf g idx + dx o) (iyOf g idx + dy o) (izOf g idx + dz o)
  && (isBoundaryEdge g (ixOf g idx) (ixOf g idx + dx o) (izOf g idx) (izOf g idx + dz o)
      || segmentHitsBuildings g idx (idx + delta o)).

Definition edgeClear `{Platform} (g : WorkerGrid) (idx : Z) (o : NeighborOffset) : bool :=
  inLattice g (ixOf g idx + dx o) (iyOf g idx + dy o) (izOf g idx + dz o)
  && negb (isBoundaryEdge g (ixOf g idx) (ixOf g idx + dx o) (izOf g idx) (izOf g idx + dz o))
  && negb (segmentHitsBuildings g idx (idx + delta o)).

Definition hasBlockedEdge `{Platform} (g : WorkerGrid) (idx : Z) : bool :=
  existsb (edgeBlocked g idx) (neighborOffsets g).

Definition hasClearEdge `{Platform} (g : WorkerGrid) (idx : Z) : bool :=
  existsb (edgeClear g idx) (neighborOffsets g)
  || ((0 <? holeCenterCount g) && touchesHole g (ixOf g idx) (izOf g idx)).

(** The sentence of the specification on lattice bounds: a neighbour
    offset that falls outside the lattice makes the vertex blocked. *)
Definition outsideCountsAsBlocked `{Platform} (g : WorkerGrid) : Prop :=
  forall idx, 0 <= idx < totalVertices g ->
    (exists o, In o (neighborOffsets g)
               /\ inLattice g (ixOf g idx + dx o) (iyOf g idx + dy o)
                            (izOf g idx + dz o) = false) ->
    snd (vertexFlags g idx) = true.

(** The pools and flags after the vertices of [seen] were classified. *)
Definition classifiedInv `{Platform} (g : WorkerGrid) (seen : list Z) (pools : Pools) : Prop :=
  length (boundaryFlags pools) = Z.to_nat (totalVertices g)
  /\ (forall i x, geti (boundaryFlags pools) i = Some x ->
        x = if existsb (Z.eqb i) seen && hasClearEdge g i && hasBlockedEdge g i
            then 1 else 0)
  /\ (forall i, In i (boundaryIndices pools) <->
                In i seen /\ hasClearEdge g i && hasBlockedEdge g i = true)
  /\ (forall i, In i (anyClearIndices pools) <-> In i seen /\ hasClearEdge g i = true)
  /\ (forall i, In i (anyClearPositive pools) \/ In i (anyClearNegative pools)
                \/ In i (boundaryPositive pools) \/ In i (boundaryNegative pools) ->
                In i seen).

Definition isError (m : OutboundMessage) : bool :=
  match m with
  | ErrorMessage _ _ => true
  | _ => false
  end.

(** A lattice whose building grid has a negative row count: the row
    arrays cannot be allocated. *)
Definition negativeRowsGrid : WorkerGrid :=
  {| countX := 1; countY := 0; countZ := 0;
     startX := 0; startY := 0; startZ := 0;
     voxelSizeXZ := 1; voxelHeight := 1; basePlatformHeight := 0;
     xEdgesOpen := true; zEdgesOpen := true; twoSided := false;
     gridX := 0; gridZ := -1; gridStartX := 0; gridStartZ := 0; step := 2;
     instanceCount := 0; paramC := [] |}.

Definition negativeRowsMessage : BuildMessage :=
  {| msg_id := 42; grid := negativeRowsGrid; maxPaths := 1; maxTries := 1;
     maxPathsPerVertex := 1 |}.

(** The sentence of the specification on the placement loop: when the
    loop of a build is left, [placed] equals [maxPaths], or the attempts
    made so far, successful and failed together, have reached
    [maxPaths * maxTries], or the captured token differs from the global
    one. *)
Definition stopsOnThreeConditions `{Platform} (message : BuildMessage)
  (token activeToken : Z) (rng : nat) : Prop :=
  forall pools, classify (grid message) token activeToken = Some pools ->
    let run :=
      placementLoop message token activeToken
                    (startPool (grid message) pools) (endPool (grid message) pools)
                    (placementFuel message) (initialLoopState (grid message) rng []) in
    placed (snd run) = maxPaths message
    \/ maxPaths message * maxTries message <= placed (snd run) + attempts (snd run)
    \/ token <> activeToken.

(** What holds of the loop variables when the loop is left for the given
    reason. *)
Definition exitCondition `{Platform} (message : BuildMessage) (token activeToken : Z)
  (startNodes endNodes : list Z) (why : LoopExit) (st : LoopState) : Prop :=
  match why with
  | ExitPlaced => maxPaths message <= placed st
  | ExitToken => placed st < maxPaths message /\ token <> activeToken
  | ExitAttempts =>
      placed st < maxPaths message /\ token = activeToken
      /\ maxAttemptsOf message <= attempts st
  | ExitNoPair =>
      placed st < maxPaths message /\ token = activeToken
      /\ attempts st < maxAttemptsOf message
      /\ twoSided (grid message) = false
      /\ exists rng,
           fst (selectPair startNodes endNodes false (usage st) (usageCap message) rng)
           = None
  | ExitSearchCancelled => False
  | ExitFuel => False
  end.

(** Two paths are asked for on the two-vertex lattice, with three tries
    per pair and one path per vertex. *)
Definition twoPathsMessage : BuildMessage :=
  {| msg_id := 7; grid := sampleGrid; maxPaths := 2; maxTries := 3;
     maxPathsPerVertex := 1 |}.

(** ** The graph that the search explores *)

Section Graph.
Context `{Platform}.
Variable g : WorkerGrid.
Variable cap : Z.
Variable nodeUsage : list Z.

(** The edges out of lattice vertex [a] to lattice vertices: in-bounds
    offsets that cross no sealed boundary, whose target is below its cap
    and whose segment the oracle reports free; with their costs. *)
Definition latticeEdges (a : Z) : list (Z * Q) :=
  flat_map (fun o =>
    let nx := ixOf g a + dx o in
    let ny := iyOf g a + dy o in
    let nz := izOf g a + dz o in
    if inLattice g nx ny nz
       && negb (isBoundaryEdge g (ixOf g a) nx (izOf g a) nz)
       && negb (cellGe nodeUsage (a + delta o) cap)
       && negb (segmentHitsBuildings g a (a + delta o))
    then [(a + delta o, cost o)] else []) (neighborOffsets g).

(** The edges out of lattice vertex [a] to the hole-center nodes of the
    overlapping hole columns at the same level. *)
Definition holeEntryEdges (a : Z) : list (Z * Q) :=
  if 0 <? holeCenterCount g then
    flat_map (fun cell =>
      match holeIndexAt g (fst cell) (snd cell) with
      | Some holeIndex =>
          let b := holeCenterBaseIndex g + holeIndex * vertexCountY g + iyOf g a in
          if cellGe nodeUsage b cap then []
          else
            let x0 := (vertexStartX g + inject_Z (ixOf g a) * voxelSizeXZ g)%Q in
            let z0 := (vertexStartZ g + inject_Z (izOf g a) * voxelSizeXZ g)%Q in
            let centerX := (gridStartX g + inject_Z (fst cell) * step g)%Q in
            let centerZ := (gridStartZ g + inject_Z (snd cell) * step g)%Q in
            let ddx := (centerX - x0)%Q in
            let ddz := (centerZ - z0)%Q in
            [(b, Math_sqrt (ddx * ddx + ddz * ddz)%Q)]
      | None => []
      end) (adjacentCells g (ixOf g a) (izOf g a))
  else [].

(** The edges out of hole-center node [a]: to the four corner indices of
    its cell, then down and up its column.  The edge up is absent when
    the node below exists and is at its cap. *)
Definition holeEdges (a : Z) : list (Z * Q) :=
  let holeVertexIndex := a - holeCenterBaseIndex g in
  let holeIndex := holeVertexIndex / vertexCountY g in
  if (holeIndex <? 0) || (Z.of_nat (length (holeCells g)) <=? holeIndex) then []
  else
    let iy := holeVertexIndex - holeIndex * vertexCountY g in
    let cellIndex := getInt (holeCells g) holeIndex in
    let cellX := Z.rem cellIndex (gridX g) in
    let cellZ := cellIndex / gridX g in
    let x0 := (gridStartX g + inject_Z cellX * step g)%Q in
    let z0 := (gridStartZ g + inject_Z cellZ * step g)%Q in
    flat_map (fun corner =>
      let ix := cellX + fst corner in
      let iz := cellZ + snd corner in
      let b := ix + iy * strideY g + iz * strideZ g in
      if cellGe nodeUsage b cap then []
      else
        let x1 := (vertexStartX g + inject_Z ix * voxelSizeXZ g)%Q in
        let z1 := (vertexStartZ g + inject_Z iz * voxelSizeXZ g)%Q in
        let ddx := (x1 - x0)%Q in
        let ddz := (z1 - z0)%Q in
        [(b, Math_sqrt (ddx * ddx + ddz * ddz)%Q)]) cornerOffsets
    ++ (if (0 <? iy) && negb (cellGe nodeUsage (a - 1) cap)
        then [(a - 1, voxelHeight g)] else [])
    ++ (if (iy + 1 <? vertexCountY g)
           && negb ((0 <? iy) && cellGe nodeUsage (a - 1) cap)
           && negb (cellGe nodeUsage (a + 1) cap)
        then [(a + 1, voxelHeight g)] else []).

Definition edgesFrom (a : Z) : list (Z * Q) :=
  if a <? holeCenterBaseIndex g
  then latticeEdges a ++ holeEntryEdges a
  else holeEdges a.

(** [b] can be entered from [a]. *)
Definition searchEdge (a b : Z) : Prop :=
  exists c, In (b, c) (edgesFrom a).

Definition searchEdgeb (a b : Z) : bool :=
  existsb (fun e => fst e =? b) (edgesFrom a).

(** Consecutive nodes of the list are joined by edges. *)
Fixpoint linked (E : Z -> Z -> Prop) (l : list Z) : Prop :=
  match l with
  | [] => True
  | a :: rest =>
      match rest with
      | [] => True
      | b :: _ => E a b /\ linked E rest
      end
  end.

Fixpoint linkedb (E : Z -> Z -> bool) (l : list Z) : bool :=
  match l with
  | [] => true
  | a :: rest =>
      match rest with
      | [] => true
      | b :: _ => E a b && linkedb E rest
      end
  end.

(** A walk of the search graph from [startIndex] to [endIndex]. *)
Definition isWalk (startIndex endIndex : Z) (l : list Z) : Prop :=
  head l = Some startIndex /\ last l = Some endIndex /\ linked searchEdge l.

Definition isWalkb (startIndex endIndex : Z) (l : list Z) : bool :=
  match head l, last l with
  | Some s, Some e => (s =? startIndex) && (e =? endIndex) && linkedb searchEdgeb l
  | _, _ => false
  end.

(** The cost of the first edge from [a] to [b], zero when there is none. *)
Definition edgeCost (a b : Z) : Q :=
  match List.find (fun e => fst e =? b) (edgesFrom a) with
  | Some e => snd e
  | None => 0
  end.

(** The sum of the edge costs of a walk. *)
Fixpoint walkCost (l : list Z) : Q :=
  match l with
  | [] => 0
  | a :: rest =>
      match rest with
      | [] => 0
      | b :: _ => (edgeCost a b + walkCost rest)%Q
      end
  end.

End Graph.

(** ** Invariants of the search *)

(** Two scratch states that differ at most in their heap arrays and
    scores. *)
Definition sameCore (sc sc' : Scratch) : Prop :=
  parents sc' = parents sc /\ closed sc' = closed sc
  /\ gStamp sc' = gStamp sc /\ stamp sc' = stamp sc.

(** The invariant of one search with stamp [s] from [startIndex].  A node
    stamped by the search, other than the start, has a parent from which
    it can be entered; a parent inside the arrays is closed, and it was
    closed before its child ([rank] numbers the closed nodes in closing
    order, [closedCount] bounds the numbers in use). *)
Record SearchInv `{Platform} (g : WorkerGrid) (cap : Z) (nodeUsage : list Z)
  (startIndex s : Z) (rank : Z -> nat) (closedCount : nat) (sc : Scratch) : Prop := {
  inv_stamp : stamp sc = s;
  inv_len_gStamp : length (gStamp sc) = length nodeUsage;
  inv_len_closed : length (closed sc) = length nodeUsage;
  inv_len_parents : length (parents sc) = length nodeUsage;
  inv_fresh_gStamp : forall n x, geti (gStamp sc) n = Some x -> x <= s;
  inv_fresh_closed : forall n x, geti (closed sc) n = Some x -> x <= s;
  inv_label : forall n, cellIs (gStamp sc) n s = true ->
    n = startIndex
    \/ exists p, geti (parents sc) n = Some p
         /\ searchEdge g cap nodeUsage p n
         /\ (0 <= p < lengthZ nodeUsage -> cellIs (closed sc) p s = true)
         /\ (cellIs (closed sc) n s = true -> 0 <= p < lengthZ nodeUsage ->
             (rank p < rank n)%nat);
  inv_rank : forall n, cellIs (closed sc) n s = true -> (rank n < closedCount)%nat
}.

(** The stamps left in the arrays by earlier searches do not exceed the
    current stamp, and the arrays have the size of the usage table. *)
Record ScratchReady (nodeUsage : list Z) (sc : Scratch) : Prop := {
  ready_len_gStamp : length (gStamp sc) = length nodeUsage;
  ready_len_closed : length (closed sc) = length nodeUsage;
  ready_len_parents : length (parents sc) = length nodeUsage;
  ready_gStamp : forall n x, geti (gStamp sc) n = Some x -> x <= stamp sc;
  ready_closed : forall n x, geti (closed sc) n = Some x -> x <= stamp sc;
  ready_stamp : 1 <= stamp sc
}.

(** A pass that does not leave the loop: none of the exit conditions
    held, and the pass either accepted a path ([placed] grows by one,
    [attempts] is unchanged) or failed ([attempts] grows by one). *)
Definition passProgress (message : BuildMessage) (token activeToken : Z)
  (st st' : LoopState) : Prop :=
  placed st < maxPaths message /\ token = activeToken
  /\ attempts st < maxAttemptsOf message
  /\ ((placed st' = placed st + 1 /\ attempts st' = attempts st)
      \/ (placed st' = placed st /\ attempts st' = attempts st + 1)).

(** The invariant while node [idx] is being expanded. *)
Definition expanding `{Platform} (g : WorkerGrid) (cap : Z) (nodeUsage : list Z)
  (startIndex s : Z) (rank : Z -> nat) (k : nat) (idx : Z) (st : Scratch * Z) : Prop :=
  SearchInv g cap nodeUsage startIndex s rank k (fst st)
  /\ (0 <= idx < lengthZ nodeUsage -> cellIs (closed (fst st)) idx s = true).

Definition exitScratch (e : SearchExit) : Scratch :=
  match e with
  | LoopEnded sc => sc
  | LoopCancelled sc => sc
  | LoopFuel sc => sc
  end.

(** The invariant of the path reconstruction loop: [current] followed by
    the nodes pushed so far, latest first, is a duplicate-free chain of
    edges that ends at [endIndex]; the pushed nodes are stamped, closed,
    differ from the start and were closed after [current]. *)
Definition walkInv `{Platform} (g : WorkerGrid) (cap : Z) (nodeUsage : list Z)
  (startIndex endIndex s : Z) (rank : Z -> nat) (sc : Scratch)
  (current : Z) (path : list Z) : Prop :=
  linked (searchEdge g cap nodeUsage) (current :: rev path)
  /\ List.NoDup (current :: rev path)
  /\ last (current :: rev path) = Some endIndex
  /\ (forall x, In x path ->
        cellIs (gStamp sc) x s = true /\ x <> startIndex
        /\ cellIs (closed sc) x s = true
        /\ cellGe nodeUsage x cap = false
        /\ (0 <= current < lengthZ nodeUsage -> (rank current < rank x)%nat))
  /\ (0 <= current < lengthZ nodeUsage -> cellIs (closed sc) current s = true).

(** ** Counting the nodes of the accepted paths *)

(** The paths carried by the path messages of a list of postings. *)
Definition pathsOf (out : list OutboundMessage) : list (list Z) :=
  flat_map (fun m => match m with PathMessage _ p => [p] | _ => [] end) out.

(** How often node [v] occurs in the paths, every occurrence counted. *)
Definition appearances (v : Z) (paths : list (list Z)) : Z :=
  Z.of_nat (count_occ Z.eq_dec (concat paths) v).

(** How many of the paths pass through node [v]. *)
Definition visits (v : Z) (paths : list (list Z)) : Z :=
  Z.of_nat (length (List.filter (fun p => existsb (Z.eqb v) p) paths)).

(** The sentence of the specification on node usage: over the paths
    accepted in a build no node appears more often than the cap allows. *)
Definition appearancesWithinCap `{Platform} (message : BuildMessage)
  (token activeToken : Z) (rng : nat) : Prop :=
  forall v,
    appearances v (pathsOf (posted (buildPaths message token activeToken rng)))
    <= usageCap message.

(** The invariant of the placement loop on the usage table. *)
Record UsageInv `{Platform} (message : BuildMessage) (startNodes endNodes : list Z)
  (st : LoopState) : Prop := {
  uinv_ready : ScratchReady (usage st) (scratch st);
  uinv_starts : forall v, In v startNodes \/ In v endNodes -> 0 <= v < lengthZ (usage st);
  uinv_pair : pairStart st = -1 \/ In (pairStart st) startNodes;
  uinv_nodes : forall p v, In p (pathsOf (emitted st)) -> In v p ->
                 0 <= v < lengthZ (usage st);
  uinv_count : forall v u, geti (usage st) v = Some u ->
    0 <= u <= usageCap message
    /\ visits v (pathsOf (emitted st)) <= u
    /\ (twoSided (grid message) = false -> appearances v (pathsOf (emitted st)) <= u)
}.

(** The two-sided lattice of four vertices, two above and two below the
    platform level, with one path allowed per vertex. *)
Definition loopGrid : WorkerGrid :=
  {| countX := 1; countY := 1; countZ := 0;
     startX := 0; startY := 0; startZ := 0;
     voxelSizeXZ := 1; voxelHeight := 1; basePlatformHeight := 0;
     xEdgesOpen := true; zEdgesOpen := true; twoSided := true;
     gridX := 0; gridZ := 0; gridStartX := 0; gridStartZ := 0; step := 2;
     instanceCount := 0; paramC := [] |}.

Definition loopMessage : BuildMessage :=
  {| msg_id := 8; grid := loopGrid; maxPaths := 1; maxTries := 1;
     maxPathsPerVertex := 1 |}.

(** ** Optimality of the search, as the specification states it *)

(** The sentence of the specification on path cost: a found path costs
    no more than any walk of the same graph between the same nodes. *)
Definition searchIsOptimal `{Platform} (g : WorkerGrid) (cap token activeToken : Z)
  (nodeUsage : list Z) (sc : Scratch) (startIndex endIndex : Z) : Prop :=
  forall path sc',
    aStar g cap token activeToken nodeUsage sc startIndex endIndex = (Found path, sc') ->
    forall other, isWalk g cap nodeUsage startIndex endIndex other ->
      (walkCost g cap nodeUsage path <= walkCost g cap nodeUsage other)%Q.

(** A flat lattice of four by four vertices (index [ix + 4 iy]) whose
    voxels measure one ten-millionth, without hole centers. *)
Definition tinyGrid : WorkerGrid :=
  {| countX := 3; countY := 3; countZ := 0;
     startX := 0; startY := 0; startZ := 0;
     voxelSizeXZ := 1 # 10000000; voxelHeight := 1 # 10000000;
     basePlatformHeight := 0;
     xEdgesOpen := true; zEdgesOpen := true; twoSided := false;
     gridX := 0; gridZ := 0; gridStartX := 0; gridStartZ := 0; step := 1;
     instanceCount := 0; paramC := [] |}.

Definition tinyMessage : BuildMessage :=
  {| msg_id := 3; grid := tinyGrid; maxPaths := 2; maxTries := 1;
     maxPathsPerVertex := 1 |}.

(** A random source whose first four draws select the vertices 6, 14, 0
    and 15 of a pool of sixteen. *)
Definition wallRandom (n : nat) : Q :=
  match n with
  | O => 6 # 16
  | S O => 14 # 16
  | S (S O) => 0
  | _ => 15 # 16
  end.

Definition wallRandom_range (n : nat)
  : (0 <= wallRandom n)%Q /\ (wallRandom n < 1)%Q :=
  match n return (0 <= wallRandom n)%Q /\ (wallRandom n < 1)%Q with
  | O => conj (Qle_bool_imp_le 0 (6 # 16) eq_refl) eq_refl
  | S O => conj (Qle_bool_imp_le 0 (14 # 16) eq_refl) eq_refl
  | S (S O) => conj (Qle_bool_imp_le 0 0 eq_refl) eq_refl
  | S (S (S _)) => conj (Qle_bool_imp_le 0 (15 # 16) eq_refl) eq_refl
  end.

Definition wallCity : Platform :=
  {| Math_sqrt := sqrtApprox;
     Math_random := wallRandom;
     Math_random_range := wallRandom_range;
     candidateInstances := fun _ _ _ => [];
     frustumsHit := fun _ _ _ _ => false;
     rangeErrorMessage := fun _ => "Invalid typed array length"%string |}.

(** The usage table of [tinyMessage]'s build once the path 6-10-14 has
    been accepted, and the scratch arrays its search left behind. *)
Definition wallUsage : list Z :=
  blockPath 1 (replicate 16 0) [6; 10; 14].

Definition wallScratch : Scratch :=
  snd (@aStar wallCity tinyGrid 1 1 1 (replicate 16 0) (initialScratch tinyGrid) 6 14).

(** ** The graph rules of the specification *)

(** The four kinds of edge that the specification allows, read on node
    indices.  A lattice vertex is decoded by [ixOf], [iyOf] and [izOf]; a
    hole-center node by its column (the position of its cell in
    [holeCells]) and its level. *)
Definition isLatticeNode (g : WorkerGrid) (a : Z) : bool :=
  (0 <=? a) && (a <? totalVertices g).

Definition isHoleNode (g : WorkerGrid) (a : Z) : bool :=
  (holeCenterBaseIndex g <=? a) && (a <? totalNodeCount g).

Definition holeColumnOf (g : WorkerGrid) (a : Z) : Z :=
  (a - holeCenterBaseIndex g) / vertexCountY g.

Definition holeLevelOf (g : WorkerGrid) (a : Z) : Z :=
  (a - holeCenterBaseIndex g) mod vertexCountY g.

Definition holeCellXOf (g : WorkerGrid) (a : Z) : Z :=
  getInt (holeCells g) (holeColumnOf g a) mod gridX g.

Definition holeCellZOf (g : WorkerGrid) (a : Z) : Z :=
  getInt (holeCells g) (holeColumnOf g a) / gridX g.

Definition oneApart (p q : Z) : bool := (p - 1 <=? q) && (q <=? p + 1).

(** Two distinct lattice vertices one step apart on every axis, the step
    crossing no sealed boundary. *)
Definition latticeRule (g : WorkerGrid) (a b : Z) : bool :=
  negb (a =? b)
  && oneApart (ixOf g a) (ixOf g b)
  && oneApart (iyOf g a) (iyOf g b)
  && oneApart (izOf g a) (izOf g b)
  && negb (isBoundaryEdge g (ixOf g a) (ixOf g b) (izOf g a) (izOf g b)).

(** Lattice vertex [v] is one of the four corners of the cell of
    hole-center node [h], at the level of [h]. *)
Definition cornerRule (g : WorkerGrid) (h v : Z) : bool :=
  (iyOf g v =? holeLevelOf g h)
  && ((ixOf g v =? holeCellXOf g h) || (ixOf g v =? holeCellXOf g h + 1))
  && ((izOf g v =? holeCellZOf g h) || (izOf g v =? holeCellZOf g h + 1)).

(** Two hole-center nodes of one column at adjacent levels. *)
Definition verticalRule (g : WorkerGrid) (a b : Z) : bool :=
  (holeColumnOf g a =? holeColumnOf g b)
  && ((holeLevelOf g b =? holeLevelOf g a + 1)
      || (holeLevelOf g b =? holeLevelOf g a - 1)).

Definition validEdge (g : WorkerGrid) (a b : Z) : bool :=
  (isLatticeNode g a && isLatticeNode g b && latticeRule g a b)
  || (isLatticeNode g a && isHoleNode g b && cornerRule g b a)
  || (isHoleNode g a && isLatticeNode g b && cornerRule g a b)
  || (isHoleNode g a && isHoleNode g b && verticalRule g a b).

(** An edge as the specification accepts it: valid, and free according to
    the oracle when it joins two lattice vertices. *)
Definition acceptableEdge `{Platform} (g : WorkerGrid) (a b : Z) : bool :=
  validEdge g a b
  && negb (isLatticeNode g a && isLatticeNode g b && segmentHitsBuildings g a b).

Fixpoint followsGraph `{Platform} (g : WorkerGrid) (path : list Z) : bool :=
  match path with
  | a :: (b :: _) as rest => acceptableEdge g a b && followsGraph g rest
  | _ => true
  end.

(** The sentence of the specification on accepted paths: every path
    carried by a path message follows the graph. *)
Definition pathsFollowGraph `{Platform} (message : BuildMessage)
  (token activeToken : Z) (rng : nat) : Prop :=
  forall path,
    In path (pathsOf (posted (buildPaths message token activeToken rng))) ->
    followsGraph (grid message) path = true.

(** A lattice one voxel wide and one voxel high, sealed on every side,
    under a row of two building cells that are both holes: the second cell
    lies beyond the last lattice column. *)
Definition overhangGrid : WorkerGrid :=
  {| countX := 1; countY := 1; countZ := 0;
     startX := 0; startY := 0; startZ := 0;
     voxelSizeXZ := 1; voxelHeight := 1; basePlatformHeight := 0;
     xEdgesOpen := false; zEdgesOpen := false; twoSided := false;
     gridX := 2; gridZ := 1; gridStartX := 0; gridStartZ := 0; step := 1;
     instanceCount := 2; paramC := [0; 0; 0; 0; 0; 0; 0; 0]%Q |}.

Definition overhangMessage : BuildMessage :=
  {| msg_id := 9; grid := overhangGrid; maxPaths := 1; maxTries := 1;
     maxPathsPerVertex := 1 |}.

(** A random source whose first two draws select the vertices 1 and 2 of
    a pool of four. *)
Definition overhangRandom (n : nat) : Q :=
  match n with
  | O => 1 # 4
  | _ => 1 # 2
  end.

Definition overhangRandom_range (n : nat)
  : (0 <= overhangRandom n)%Q /\ (overhangRandom n < 1)%Q :=
  match n return (0 <= overhangRandom n)%Q /\ (overhangRandom n < 1)%Q with
  | O => conj (Qle_bool_imp_le 0 (1 # 4) eq_refl) eq_refl
  | S _ => conj (Qle_bool_imp_le 0 (1 # 2) eq_refl) eq_refl
  end.

Definition overhangCity : Platform :=
  {| Math_sqrt := sqrtApprox;
     Math_random := overhangRandom;
     Math_random_range := overhangRandom_range;
     candidateInstances := fun _ _ _ => [];
     frustumsHit := fun _ _ _ _ => false;
     rangeErrorMessage := fun _ => "Invalid typed array length"%string |}.

(** ** Termination of the search loop *)

(** The lattice and grid dimensions with which a build reaches its
    searches: a negative [gridZ] has thrown before, and the counts of a
    lattice are not negative. *)
Definition regularGrid (g : WorkerGrid) : Prop :=
  0 <= countX g /\ 0 <= countY g /\ 0 <= countZ g /\ 0 <= gridZ g.

(** The number of cells of [closed] that do not hold the current stamp. *)
Definition unclosed (sc : Scratch) : nat :=
  length (List.filter (fun x => negb (x =? stamp sc)) (closed sc)).

(** The heap holds no negative node index, and [closed] has one cell per
    node. *)
Definition heapClean (g : WorkerGrid) (sc : Scratch) : Prop :=
  Forall (fun v => 0 <= v) (heapIndices sc)
  /\ lengthZ (closed sc) = totalNodeCount g.

(** The second state keeps [closed] and the stamp of the first and holds
    at most [n] more heap entries, none of them negative. *)
Definition pushedAtMost (g : WorkerGrid) (n : Z) (st st' : Scratch * Z) : Prop :=
  heapClean g (fst st')
  /\ closed (fst st') = closed (fst st)
  /\ stamp (fst st') = stamp (fst st)
  /\ snd st <= snd st' <= snd st + n.

(** The bound on the remaining passes of the main loop: every heap entry
    is popped once, and every node still to be closed adds at most thirty
    entries. *)
Definition searchBudget (sc : Scratch) (heapSize : Z) : nat :=
  (Z.to_nat heapSize + 30 * unclosed sc)%nat.

(** The variables of the placement loop as the searches need them: a
    clean heap, and a remembered start node that is a node index. *)
Definition cleanState (g : WorkerGrid) (st : LoopState) : Prop :=
  heapClean g (scratch st) /\ (pairStart st = -1 \/ 0 <= pairStart st).

(** The building grid does not reach beyond the lattice: the corners of
    every cell are lattice vertices. *)
Definition alignedGrid (g : WorkerGrid) : Prop :=
  gridX g <= countX g /\ gridZ g <= countZ g.

(** The usage table has one counter per node, and the paths posted so
    far follow the graph of the specification. *)
Definition followInv `{Platform} (message : BuildMessage) (st : LoopState) : Prop :=
  lengthZ (usage st) = totalNodeCount (grid message)
  /\ forall path, In path (pathsOf (emitted st)) -> followsGraph (grid message) path = true.
(** ** Statements about the endpoint selection *)

(** A pool entry passes the two tests of [pickUnblocked]: it is not the
    node to avoid, and [isBlocked] is false for it. *)
Definition eligible (avoid : option Z) (nodeUsage : list Z) (cap value : Z) : bool :=
  negb (isAvoided avoid value) && negb (cellGe nodeUsage value cap).

(** The picks collected so far by [pickDistinct]: distinct entries of the
    pool below their cap, no more of them than were asked for. *)
Definition goodPicks (pool : list Z) (count : Z) (nodeUsage : list Z) (cap : Z)
  (picks : list Z) : Prop :=
  List.NoDup picks
  /\ lengthZ picks <= Z.max 0 count
  /\ forall v, In v picks -> In v pool /\ cellGe nodeUsage v cap = false.
(** ** Statements about the messages of a build *)

(** The messages that announce the accepted paths: the debug record of
    stage 'path' with the length of the first path, then one path message
    per path. *)
Definition pathMessages (id : Z) (paths : list (list Z)) : list OutboundMessage :=
  match paths with
  | [] => []
  | first :: _ =>
      DebugMessage id StagePath [("pathLength"%string, DNum (lengthZ first))]
      :: map (PathMessage id) paths
  end.

(** The two debug records posted before the placement loop. *)
Definition startMessage `{Platform} (message : BuildMessage) : OutboundMessage :=
  DebugMessage (msg_id message) StageStart (startDetail message).

Definition validMessage (message : BuildMessage) (pools : Pools) : OutboundMessage :=
  DebugMessage (msg_id message) StageValid
    [("validCount", DNum (validCount (grid message) pools));
     ("boundaryCount", DNum (lengthZ (boundaryIndices pools)))]%string.

Definition isDone (m : OutboundMessage) : bool :=
  match m with
  | DoneMessage _ _ _ _ => true
  | _ => false
  end.

(** The messages posted so far in the placement loop are the opening
    records followed by the announcement of the paths placed so far. *)
Definition transcriptInv (message : BuildMessage) (opening : list OutboundMessage)
  (st : LoopState) : Prop :=
  exists paths,
    emitted st = opening ++ pathMessages (msg_id message) paths
    /\ placed st = lengthZ paths
    /\ lengthZ paths <= Z.max 0 (maxPaths message).
(** ** Statements about a build whose token is no longer in force *)

Definition isPath (m : OutboundMessage) : bool :=
  match m with
  | PathMessage _ _ => true
  | _ => false
  end.

(** The sentence of the specification on cancellation, read on one run
    of [buildPaths]: run while the global token differs from the token
    it captured, the build posts no path message and no done message. *)
Definition staleBuildIsSilent `{Platform} (message : BuildMessage)
  (token activeToken : Z) (rng : nat) : Prop :=
  token <> activeToken ->
  forall m, In m (posted (buildPaths message token activeToken rng)) ->
    isPath m = false /\ isDone m = false.

(** A lattice without vertices: [countX] is -1, so [vertexCountX] is 0. *)
Definition vacantGrid : WorkerGrid :=
  {| countX := -1; countY := 0; countZ := 0;
     startX := 0; startY := 0; startZ := 0;
     voxelSizeXZ := 1; voxelHeight := 1; basePlatformHeight := 0;
     xEdgesOpen := true; zEdgesOpen := true; twoSided := false;
     gridX := 0; gridZ := 0; gridStartX := 0; gridStartZ := 0; step := 2;
     instanceCount := 0; paramC := [] |}.

Definition vacantMessage : BuildMessage :=
  {| msg_id := 5; grid := vacantGrid; maxPaths := 1; maxTries := 1;
     maxPathsPerVertex := 1 |}.

(** ** Statements about the usage cap *)

(** The paths, in the order of their acceptance, respect the cap [c]:
    every node of a path appears fewer than [c] times in the paths
    accepted before it. *)
Definition admitted (c : Z) (paths : list (list Z)) : Prop :=
  forall before path after v,
    paths = before ++ path :: after -> In v path -> appearances v before < c.

(** The usage table counts the appearances of each node in the accepted
    paths, up to the cap. *)
Record CapInv `{Platform} (message : BuildMessage) (st : LoopState) : Prop := {
  cap_count : forall v u, geti (usage st) v = Some u ->
    u = Z.min (usageCap message) (appearances v (pathsOf (emitted st)));
  cap_admitted : admitted (usageCap message) (pathsOf (emitted st))
}.

(** Two paths are asked for on the two-vertex lattice with
    [maxPathsPerVertex] at zero. *)
Definition zeroCapMessage : BuildMessage :=
  {| msg_id := 7; grid := sampleGrid; maxPaths := 2; maxTries := 3;
     maxPathsPerVertex := 0 |}.
(** ** Statements about the ends of the posted paths *)

(** A single path: from a node of the start pool to a different node of
    the end pool, through no node twice. *)
Definition joinsPools (startNodes endNodes path : list Z) : Prop :=
  exists s e,
    head path = Some s /\ last path = Some e
    /\ In s startNodes /\ In e endNodes /\ s <> e /\ List.NoDup path.

(** A loop: it leaves a node of the start pool, passes through a second
    node of that pool and through two nodes of the end pool, and returns
    to the node it left. *)
Definition loopsThroughPools (startNodes endNodes path : list Z) : Prop :=
  exists a1 a2 b1 b2,
    head path = Some a1 /\ last path = Some a1
    /\ In a1 startNodes /\ In a2 startNodes /\ a1 <> a2
    /\ In b1 endNodes /\ In b2 endNodes /\ b1 <> b2
    /\ In a2 path /\ In b1 path /\ In b2 path.

Definition endsOfPath (g : WorkerGrid) (startNodes endNodes path : list Z) : Prop :=
  if twoSided g then loopsThroughPools startNodes endNodes path
  else joinsPools startNodes endNodes path.

(** The remembered pair is either unset or a pair that [selectPair]
    returned; the paths posted so far have their ends in the pools. *)
Definition endsInv (message : BuildMessage) (startNodes endNodes : list Z)
  (st : LoopState) : Prop :=
  ScratchReady (usage st) (scratch st)
  /\ ((pairStart st = -1 \/ pairEnd st = -1)
      \/ (In (pairStart st) startNodes /\ In (pairEnd st) endNodes
          /\ pairStart st <> pairEnd st))
  /\ forall path, In path (pathsOf (emitted st)) ->
       endsOfPath (grid message) startNodes endNodes path.
(** ** Statements about node indices *)

(** The index of the lattice vertex with the given coordinates, as the
    neighbour loops compute it. *)
Definition vertexIndex (g : WorkerGrid) (x y z : Z) : Z :=
  x + y * strideY g + z * strideZ g.
(** ** Statements about the classifier's pools *)

(** The test [y0 >= basePlatformHeight] of the classifier on a vertex. *)
Definition abovePlatform (g : WorkerGrid) (idx : Z) : bool :=
  Qle_bool (basePlatformHeight g)
           (vertexStartY g + inject_Z (iyOf g idx) * voxelHeight g)%Q.

(** The vertices of a list that pass a test, in the order of the list. *)
Definition chosen (test : Z -> bool) (indices : list Z) : list Z :=
  List.filter test indices.

(** The six pool lists as selections from the vertex indices. *)
Record PoolsAre `{Platform} (g : WorkerGrid) (indices : list Z) (before after : Pools)
  : Prop := {
  are_anyClear :
    anyClearIndices after = anyClearIndices before ++ chosen (hasClearEdge g) indices;
  are_boundary :
    boundaryIndices after
    = boundaryIndices before
      ++ chosen (fun i => hasClearEdge g i && hasBlockedEdge g i) indices;
  are_anyClearPositive :
    anyClearPositive after
    = anyClearPositive before
      ++ chosen (fun i => hasClearEdge g i && (twoSided g && abovePlatform g i)) indices;
  are_anyClearNegative :
    anyClearNegative after
    = anyClearNegative before
      ++ chosen (fun i => hasClearEdge g i && (twoSided g && negb (abovePlatform g i)))
                indices;
  are_boundaryPositive :
    boundaryPositive after
    = boundaryPositive before
      ++ chosen (fun i => hasClearEdge g i
                          && (twoSided g && abovePlatform g i && hasBlockedEdge g i))
                indices;
  are_boundaryNegative :
    boundaryNegative after
    = boundaryNegative before
      ++ chosen (fun i => hasClearEdge g i
                          && (twoSided g && negb (abovePlatform g i) && hasBlockedEdge g i))
                indices
}.
(** ** Row pruning of the collision oracle *)

(** The collision oracle is a field of [Platform] in the model of the
    build, because its row transforms go through [Math.cos], [Math.sin]
    and [Math.tan].  The parts of it that only compare and do arithmetic
    are embedded below on their own: the row selection of the broad
    phase, the frustum test, and the derivation of the extents of an
    instance.

    The broad phase of [segmentHitsBuildings] selects the rows of the
    building grid whose world-space Z interval the segment can meet.  The
    intervals are held in [rowWorldMinZ] and [rowWorldMaxZ], one cell per
    row; the flag [rowWorldMonotonic] tells whether they may be searched
    by bisection.  The test on the columns that precedes the selection
    is not part of it. *)

(** Comparisons one side of which is an array cell: a comparison with
    [undefined] is false. *)
Definition optLt (a b : option Q) : bool :=
  match a, b with
  | Some x, Some y => Qltb x y
  | _, _ => false
  end.

Definition optLe (a b : option Q) : bool :=
  match a, b with
  | Some x, Some y => Qle_bool x y
  | _, _ => false
  end.

(** The tolerance [1e-6] of the monotonicity test. *)
Definition rowTolerance : Q := 1 # 1000000.

(** The test made for a row once its bounds are stored:
    [row > 0 && (rowWorldMinZ[row] < rowWorldMinZ[row - 1] - 1e-6
                 || rowWorldMaxZ[row] < rowWorldMaxZ[row - 1] - 1e-6)]. *)
Definition rowBreaksOrder (rowWorldMinZ rowWorldMaxZ : list Q) (row : Z) : bool :=
  (0 <? row)
  && (optLt (geti rowWorldMinZ row)
            (option_map (fun v => v - rowTolerance)%Q (geti rowWorldMinZ (row - 1)))
      || optLt (geti rowWorldMaxZ row)
               (option_map (fun v => v - rowTolerance)%Q (geti rowWorldMaxZ (row - 1)))).

(** [rowWorldMonotonic] after the row loop: no row broke the order. *)
Definition rowsMonotonic (gridZ : Z) (rowWorldMinZ rowWorldMaxZ : list Q) : bool :=
  forallb (fun row => negb (rowBreaksOrder rowWorldMinZ rowWorldMaxZ row)) (seqZ 0 gridZ).

(** The [while (low <= high)] loop of [findMinRow]. *)
Fixpoint minRowLoop (fuel : nat) (rowWorldMaxZ : list Q) (segmentMinZ : Q)
  (low high result : Z) : Z :=
  match fuel with
  | O => result
  | S fuel' =>
      if low <=? high then
        let mid := Z.shiftr (low + high) 1 in
        if optLe (Some segmentMinZ) (geti rowWorldMaxZ mid)
        then minRowLoop fuel' rowWorldMaxZ segmentMinZ low (mid - 1) mid
        else minRowLoop fuel' rowWorldMaxZ segmentMinZ (mid + 1) high result
      else result
  end.

(** The [while (low <= high)] loop of [findMaxRow]. *)
Fixpoint maxRowLoop (fuel : nat) (rowWorldMinZ : list Q) (segmentMaxZ : Q)
  (low high result : Z) : Z :=
  match fuel with
  | O => result
  | S fuel' =>
      if low <=? high then
        let mid := Z.shiftr (low + high) 1 in
        if optLe (geti rowWorldMinZ mid) (Some segmentMaxZ)
        then maxRowLoop fuel' rowWorldMinZ segmentMaxZ (mid + 1) high mid
        else maxRowLoop fuel' rowWorldMinZ segmentMaxZ low (mid - 1) result
      else result
  end.

(** Each pass of a bisection loop removes at least the probed row from
    the interval [low .. high], which starts with [gridZ] rows; more fuel
    than that changes nothing ([minRowLoop_fuel], [maxRowLoop_fuel]). *)
Definition rowFuel (gridZ : Z) : nat := Z.to_nat gridZ.

(** [findMinRow] and [findMaxRow]. *)
Definition findMinRow (gridZ : Z) (rowWorldMonotonic : bool) (rowWorldMaxZ : list Q)
  (segmentMinZ : Q) : Z :=
  if negb rowWorldMonotonic then 0
  else
    let result := minRowLoop (rowFuel gridZ) rowWorldMaxZ segmentMinZ 0 (gridZ - 1) gridZ in
    if result =? gridZ then gridZ else result.

Definition findMaxRow (gridZ : Z) (rowWorldMonotonic : bool) (rowWorldMinZ : list Q)
  (segmentMaxZ : Q) : Z :=
  if negb rowWorldMonotonic then gridZ - 1
  else maxRowLoop (rowFuel gridZ) rowWorldMinZ segmentMaxZ 0 (gridZ - 1) (-1).

(** One pass of the linear scan made when the rows are not monotonic. *)
Definition scanRow (rowWorldMinZ rowWorldMaxZ : list Q) (segmentMinZ segmentMaxZ : Q)
  (range : Z * Z) (row : Z) : Z * Z :=
  let '(minRow, maxRow) := range in
  if optLt (Some segmentMaxZ) (geti rowWorldMinZ row)
     || optLt (geti rowWorldMaxZ row) (Some segmentMinZ)
  then range
  else ((if row <? minRow then row else minRow), (if maxRow <? row then row else maxRow)).

(** The row selection of [segmentHitsBuildings]: the first and the last
    row of the loop over rows, or [None] where the function returns
    false before the loop. *)
Definition selectRows (gridZ : Z) (rowWorldMonotonic : bool)
  (rowWorldMinZ rowWorldMaxZ : list Q) (segmentMinZ segmentMaxZ : Q) : option (Z * Z) :=
  let found :=
    if negb rowWorldMonotonic
    then fold_left (scanRow rowWorldMinZ rowWorldMaxZ segmentMinZ segmentMaxZ)
                   (seqZ 0 gridZ) (gridZ, -1)
    else (findMinRow gridZ rowWorldMonotonic rowWorldMaxZ segmentMinZ,
          findMaxRow gridZ rowWorldMonotonic rowWorldMinZ segmentMaxZ) in
  let '(minRow, maxRow) := found in
  if (maxRow <? minRow) || (gridZ <=? minRow) || (maxRow <? 0) then None
  else Some (Z.max 0 minRow, Z.min (gridZ - 1) maxRow).

(** ** Statements about the row pruning *)

(** The cells of an array do not decrease by more than [slack] from one
    row to the next. *)
Definition nearlySorted (slack : Q) (cells : list Q) : Prop :=
  forall row x y,
    geti cells row = Some x -> geti cells (row + 1) = Some y -> (x - slack <= y)%Q.

(** The slack a monotonic flag allows over the whole grid. *)
Definition pruningMargin (gridZ : Z) (rowWorldMonotonic : bool) : Q :=
  if rowWorldMonotonic then (inject_Z gridZ * rowTolerance)%Q else 0%Q.
(** ** The frustum test of the collision oracle *)

(** [segmentIntersectsFrustum] clips the parameter interval of the
    segment against the six planes of a tapered box.  Numbers are exact
    rationals here, as everywhere in the embedding. *)

Definition EPS : Q := 1 # 1000000.

(** The bound [1e-10] under which a segment counts as parallel to a plane. *)
Definition parallelBound : Q := 1 # 10000000000.

(** A clipping plane: the normal and the offset passed to [clip]. *)
Record Plane : Type := {
  normalX : Q;
  normalY : Q;
  normalZ : Q;
  offset : Q
}.

(** The inner function [clip]; the pair is ([t0], [t1]) and [None] is the
    result [false], after which the caller returns at once. *)
Definition clip (x0 y0 z0 dirX dirY dirZ : Q) (t : Q * Q) (p : Plane) : option (Q * Q) :=
  let '(t0, t1) := t in
  let denom := (normalX p * dirX + normalY p * dirY + normalZ p * dirZ)%Q in
  let num := (offset p - (normalX p * x0 + normalY p * y0 + normalZ p * z0))%Q in
  if Qltb (Qabs' denom) parallelBound then
    if Qltb num 0 then None else Some (t0, t1)
  else
    let t := (num / denom)%Q in
    let t1' := if Qltb 0 denom then (if Qltb t t1 then t else t1) else t1 in
    let t0' := if Qltb 0 denom then t0 else (if Qltb t0 t then t else t0) in
    if Qle_bool t0' t1' then Some (t0', t1') else None.

Definition rhs (value : Q) : Q := (value + EPS)%Q.

(** The six planes in the order in which they are clipped against. *)
Definition frustumPlanes (yMin yMax baseHalfX baseHalfZ topHalfX topHalfZ : Q)
  : list Plane :=
  let height := (yMax - yMin)%Q in
  let slopeX := ((topHalfX - baseHalfX) / height)%Q in
  let slopeZ := ((topHalfZ - baseHalfZ) / height)%Q in
  let xPlane := (baseHalfX - slopeX * yMin)%Q in
  let zPlane := (baseHalfZ - slopeZ * yMin)%Q in
  [ {| normalX := 0; normalY := 1; normalZ := 0; offset := rhs yMax |};
    {| normalX := 0; normalY := -1; normalZ := 0; offset := rhs (- yMin) |};
    {| normalX := 1; normalY := - slopeX; normalZ := 0; offset := rhs xPlane |};
    {| normalX := -1; normalY := - slopeX; normalZ := 0; offset := rhs xPlane |};
    {| normalX := 0; normalY := - slopeZ; normalZ := 1; offset := rhs zPlane |};
    {| normalX := 0; normalY := - slopeZ; normalZ := -1; offset := rhs zPlane |} ].

(** The chain [if (!clip(...)) return false; ...]. *)
Fixpoint clipAll (x0 y0 z0 dirX dirY dirZ : Q) (planes : list Plane) (t : Q * Q)
  : option (Q * Q) :=
  match planes with
  | [] => Some t
  | p :: rest =>
      match clip x0 y0 z0 dirX dirY dirZ t p with
      | Some t' => clipAll x0 y0 z0 dirX dirY dirZ rest t'
      | None => None
      end
  end.

Definition segmentIntersectsFrustum
  (x0 y0 z0 x1 y1 z1 yMin yMax baseHalfX baseHalfZ topHalfX topHalfZ : Q) : bool :=
  if Qle_bool yMax yMin then false
  else if Qle_bool baseHalfX 0 || Qle_bool baseHalfZ 0
          || Qle_bool topHalfX 0 || Qle_bool topHalfZ 0 then false
  else
    match clipAll x0 y0 z0 (x1 - x0) (y1 - y0) (z1 - z0)
                  (frustumPlanes yMin yMax baseHalfX baseHalfZ topHalfX topHalfZ)
                  (0, 1)%Q with
    | Some (t0, t1) => Qle_bool 0 t1 && Qle_bool t0 1
    | None => false
    end.

(** ** Statements about the frustum test *)

(** The half width of the frustum at height [y]: the base half width at
    [yMin], the top half width at [yMax], interpolated in between. *)
Definition halfWidthAt (yMin yMax baseHalf topHalf y : Q) : Q :=
  (baseHalf + (topHalf - baseHalf) * ((y - yMin) / (yMax - yMin)))%Q.

(** The point lies in the frustum enlarged by [margin] on every side. *)
Definition insideFrustum (margin yMin yMax baseHalfX baseHalfZ topHalfX topHalfZ : Q)
  (x y z : Q) : Prop :=
  (yMin - margin <= y)%Q /\ (y <= yMax + margin)%Q
  /\ (- (halfWidthAt yMin yMax baseHalfX topHalfX y + margin) <= x)%Q
  /\ (x <= halfWidthAt yMin yMax baseHalfX topHalfX y + margin)%Q
  /\ (- (halfWidthAt yMin yMax baseHalfZ topHalfZ y + margin) <= z)%Q
  /\ (z <= halfWidthAt yMin yMax baseHalfZ topHalfZ y + margin)%Q.

(** The point of the segment at parameter [t]. *)
Definition pointAt (a b t : Q) : Q := (a + t * (b - a))%Q.

(** The value of the plane's linear form at a point. *)
Definition planeValue (p : Plane) (x y z : Q) : Q :=
  (normalX p * x + normalY p * y + normalZ p * z)%Q.
(** ** Per-instance geometry *)

(** [Math.max] and [Math.min] on finite numbers. *)
Definition Math_max (a b : Q) : Q := if Qle_bool a b then b else a.
Definition Math_min (a b : Q) : Q := if Qle_bool a b then a else b.

Definition clamp01 (value : Q) : Q := Math_min 1 (Math_max 0 value).
Definition mixValue (a b t : Q) : Q := (a + (b - a) * t)%Q.

(** The procedural building settings of the grid that the derivation
    loop reads. *)
Record BuildingSettings : Type := {
  minHeightUnits : Q;
  maxHeightUnits : Q;
  minPedestalUnits : Q;
  maxPedestalUnits : Q;
  minPaddingUnits : Q;
  maxPaddingUnits : Q;
  minPedestalPaddingUnits : Q;
  maxPedestalPaddingUnits : Q;
  minPedestalTaperX : Q;
  maxPedestalTaperX : Q;
  minPedestalTaperZ : Q;
  maxPedestalTaperZ : Q;
  minTaperX : Q;
  maxTaperX : Q;
  minTaperZ : Q;
  maxTaperZ : Q;
  buildingExponent : Q;
  pedestalExponent : Q;
  paddingLimitCap : Q
}.

(** The cells written for an instance that is present.  Each is a cell
    of a [Float32Array]: it holds the float32 nearest to the number
    stored ([fround]; a number beyond the float32 range is outside the
    embedding, like any number that is not finite). *)
Record InstanceGeometry : Type := {
  instanceBaseHalf : Q;
  instanceBasePlatformHeight : Q;
  instancePedestalHeight : Q;
  instanceTowerHeight : Q;
  instancePedestalBaseHalfX : Q;
  instancePedestalBaseHalfZ : Q;
  instancePedestalTopHalfX : Q;
  instancePedestalTopHalfZ : Q;
  instanceTowerBaseHalfX : Q;
  instanceTowerBaseHalfZ : Q;
  instanceTowerTopHalfX : Q;
  instanceTowerTopHalfZ : Q
}.

(** One pass of the derivation loop for an instance that is present and
    whose packed parameters are finite numbers: [a0 .. a3], [b0 .. b3]
    are the instance's cells of blocks A and B, [c0] and [c1] the first
    two of block C.  [Math_pow] stands for [Math.pow]. *)
Definition deriveInstance (Math_pow : Q -> Q -> Q) (s : BuildingSettings)
  (a0 a1 a2 a3 b0 b1 b2 b3 c0 c1 : Q) : InstanceGeometry :=
  let baseSize := Math_max (1 # 100) a0 in
  let baseHalf := (baseSize * (1 # 2))%Q in
  let paddingT := clamp01 a1 in
  let pedestalHeightT := clamp01 a2 in
  let towerHeightT := clamp01 a3 in
  let pedestalTaperXT := clamp01 b0 in
  let pedestalTaperZT := clamp01 b1 in
  let taperXT := clamp01 b2 in
  let taperZT := clamp01 b3 in
  let basePlatformHeightValue := Math_max 0 c0 in
  let pedestalPaddingT := clamp01 c1 in
  let pedestalHeight :=
    mixValue (minPedestalUnits s) (maxPedestalUnits s)
             (Math_pow pedestalHeightT (pedestalExponent s)) in
  let towerHeight :=
    mixValue (minHeightUnits s) (maxHeightUnits s)
             (Math_pow towerHeightT (buildingExponent s)) in
  let pedestalPadding :=
    mixValue (minPedestalPaddingUnits s) (maxPedestalPaddingUnits s) pedestalPaddingT in
  let pedestalTaperX :=
    mixValue (clamp01 (minPedestalTaperX s)) (clamp01 (maxPedestalTaperX s))
             pedestalTaperXT in
  let pedestalTaperZ :=
    mixValue (clamp01 (minPedestalTaperZ s)) (clamp01 (maxPedestalTaperZ s))
             pedestalTaperZT in
  let taperX := mixValue (clamp01 (minTaperX s)) (clamp01 (maxTaperX s)) taperXT in
  let taperZ := mixValue (clamp01 (minTaperZ s)) (clamp01 (maxTaperZ s)) taperZT in
  let pedestalBaseX := Math_max (1 # 100) (baseSize - pedestalPadding * 2) in
  let pedestalBaseZ := Math_max (1 # 100) (baseSize - pedestalPadding * 2) in
  let pedestalTopX := (pedestalBaseX * Math_max 0 (1 - pedestalTaperX))%Q in
  let pedestalTopZ := (pedestalBaseZ * Math_max 0 (1 - pedestalTaperZ))%Q in
  let paddingLimit := (Math_min pedestalTopX pedestalTopZ * (49 # 100))%Q in
  let paddingCap := Math_max 0 (Math_min paddingLimit (paddingLimitCap s)) in
  let paddingLower := Math_min (minPaddingUnits s) paddingCap in
  let paddingUpper := Math_min (maxPaddingUnits s) paddingCap in
  let padding := mixValue paddingLower paddingUpper paddingT in
  let towerBaseX := Math_max (1 # 100) (pedestalTopX - padding * 2) in
  let towerBaseZ := Math_max (1 # 100) (pedestalTopZ - padding * 2) in
  let towerTopX := (towerBaseX * Math_max 0 (1 - taperX))%Q in
  let towerTopZ := (towerBaseZ * Math_max 0 (1 - taperZ))%Q in
  {| instanceBaseHalf := fround baseHalf;
     instanceBasePlatformHeight := fround basePlatformHeightValue;
     instancePedestalHeight := fround pedestalHeight;
     instanceTowerHeight := fround towerHeight;
     instancePedestalBaseHalfX := fround (pedestalBaseX * (1 # 2));
     instancePedestalBaseHalfZ := fround (pedestalBaseZ * (1 # 2));
     instancePedestalTopHalfX := fround (pedestalTopX * (1 # 2));
     instancePedestalTopHalfZ := fround (pedestalTopZ * (1 # 2));
     instanceTowerBaseHalfX := fround (towerBaseX * (1 # 2));
     instanceTowerBaseHalfZ := fround (towerBaseZ * (1 # 2));
     instanceTowerTopHalfX := fround (towerTopX * (1 # 2));
     instanceTowerTopHalfZ := fround (towerTopZ * (1 # 2)) |}.

(** Settings with every range from 0 to 1 and a padding cap of 1. *)
Definition unitSettings : BuildingSettings :=
  {| minHeightUnits := 0; maxHeightUnits := 1;
     minPedestalUnits := 0; maxPedestalUnits := 1;
     minPaddingUnits := 0; maxPaddingUnits := 1;
     minPedestalPaddingUnits := 0; maxPedestalPaddingUnits := 1;
     minPedestalTaperX := 0; maxPedestalTaperX := 1;
     minPedestalTaperZ := 0; maxPedestalTaperZ := 1;
     minTaperX := 0; maxTaperX := 1;
     minTaperZ := 0; maxTaperZ := 1;
     buildingExponent := 1; pedestalExponent := 1;
     paddingLimitCap := 1 |}.

(** A stand-in for [Math.pow] that is exact for the exponent 1. *)
Definition firstPower (base exponent : Q) : Q := base.

(** An instance of base size 4 with every other parameter at one half. *)
Definition sampleGeometry : InstanceGeometry :=
  deriveInstance firstPower unitSettings 4 (1 # 2) (1 # 2) (1 # 2)
                 (1 # 2) (1 # 2) (1 # 2) (1 # 2) 0 (1 # 2).
(** ** Statements about the search heap *)

(** [(i - 1) >> 1], the parent of heap position [i]. *)
Definition heapParent (i : Z) : Z := Z.shiftr (i - 1) 1.

(** The entries of the heap: the node index and the score held in each of
    its first [size] positions. *)
Definition heapEntries (sc : Scratch) (size : Z) : list (Z * num) :=
  take (Z.to_nat size) (zip (heapIndices sc) (heapScores sc)).

(** The heap order on the scores: no position holds a smaller score than
    its parent. *)
Definition heapOrdered (scores : list num) (size : Z) : Prop :=
  forall j, 0 < j < size ->
    num_le (getNum scores (heapParent j)) (getNum scores j) = true.

(** A heap of [size] entries that fits its arrays, holds no [NaN] score
    and is in heap order. *)
Definition isHeap (sc : Scratch) (size : Z) : Prop :=
  length (heapIndices sc) = length (heapScores sc)
  /\ 0 <= size <= lengthZ (heapScores sc)
  /\ Forall (fun e => snd e <> NaN) (heapEntries sc size)
  /\ heapOrdered (heapScores sc) size.

(** A score that a [Float32Array] cell can hold: storing it leaves it
    as it is. *)
Definition isFloat32 (x : num) : Prop := toFloat32 x = x.

(** The scores of the heap are float32 numbers, as the cells of a
    [Float32Array] are. *)
Definition float32Cells (sc : Scratch) (size : Z) : Prop :=
  Forall (fun e => isFloat32 (snd e)) (heapEntries sc size).

(** A heap of two entries in arrays of three cells. *)
Definition sampleHeap : Scratch :=
  {| parents := []; closed := []; gScore := []; gStamp := [];
     heapIndices := [5; 7; 0]; heapScores := [Fin 1; Fin 2; Fin 0];
     stamp := 1 |}.

(** ** How far a found path can lie above the optimum *)

(** The number of edges of a walk. *)
Definition hops (l : list Z) : Q := inject_Z (lengthZ l - 1).

(** The largest error of storing a number between [0] and [M] in a
    [Float32Array] cell: half the spacing of the float32 numbers at [M],
    or half the spacing of the subnormal numbers. *)
Definition float32Error (M : Q) : Q := (M * 2 ^ (-24) + 2 ^ (-150))%Q.

(** The score of a node as the search holds it. *)
Definition scoreOf (sc : Scratch) (n : Z) : Q :=
  match getNum (gScore sc) n with
  | Fin q => q
  | _ => 0%Q
  end.

Section Estimates.
Context `{Platform}.
Variable g : WorkerGrid.
Variable cap : Z.
Variable nodeUsage : list Z.
Variable endCoords : Coords.

(** The distance estimate of a node: [heuristic] at its coordinates. *)
Definition estimateOf (n : Z) : Q :=
  let '(x, y, z) := getNodeCoords g n in heuristic endCoords x y z.

(** What the expansion of lattice vertex [a] passes to [relax] for each
    edge of [latticeEdges]: the target, the cost of the edge, and the
    estimate that is added to the score pushed with the target. *)
Definition latticePushes (a : Z) : list (Z * Q * Q) :=
  flat_map (fun o =>
    let nx := ixOf g a + dx o in
    let ny := iyOf g a + dy o in
    let nz := izOf g a + dz o in
    if inLattice g nx ny nz
       && negb (isBoundaryEdge g (ixOf g a) nx (izOf g a) nz)
       && negb (cellGe nodeUsage (a + delta o) cap)
       && negb (segmentHitsBuildings g a (a + delta o))
    then
      let x1 := (vertexStartX g + inject_Z (ixOf g a) * voxelSizeXZ g
                 + inject_Z (dx o) * voxelSizeXZ g)%Q in
      let y1 := (vertexStartY g + inject_Z (iyOf g a) * voxelHeight g
                 + inject_Z (dy o) * voxelHeight g)%Q in
      let z1 := (vertexStartZ g + inject_Z (izOf g a) * voxelSizeXZ g
                 + inject_Z (dz o) * voxelSizeXZ g)%Q in
      [(a + delta o, cost o, heuristic endCoords x1 y1 z1)]
    else []) (neighborOffsets g).

(** The same for the edges of [holeEntryEdges]. *)
Definition holeEntryPushes (a : Z) : list (Z * Q * Q) :=
  if 0 <? holeCenterCount g then
    flat_map (fun cell =>
      match holeIndexAt g (fst cell) (snd cell) with
      | Some holeIndex =>
          let b := holeCenterBaseIndex g + holeIndex * vertexCountY g + iyOf g a in
          if cellGe nodeUsage b cap then []
          else
            let x0 := (vertexStartX g + inject_Z (ixOf g a) * voxelSizeXZ g)%Q in
            let y0 := (vertexStartY g + inject_Z (iyOf g a) * voxelHeight g)%Q in
            let z0 := (vertexStartZ g + inject_Z (izOf g a) * voxelSizeXZ g)%Q in
            let centerX := (gridStartX g + inject_Z (fst cell) * step g)%Q in
            let centerZ := (gridStartZ g + inject_Z (snd cell) * step g)%Q in
            let ddx := (centerX - x0)%Q in
            let ddz := (centerZ - z0)%Q in
            [(b, Math_sqrt (ddx * ddx + ddz * ddz)%Q,
              heuristic endCoords centerX y0 centerZ)]
      | None => []
      end) (adjacentCells g (ixOf g a) (izOf g a))
  else [].

(** The same for the edges of [holeEdges]. *)
Definition holePushes (a : Z) : list (Z * Q * Q) :=
  let holeVertexIndex := a - holeCenterBaseIndex g in
  let holeIndex := holeVertexIndex / vertexCountY g in
  if (holeIndex <? 0) || (Z.of_nat (length (holeCells g)) <=? holeIndex) then []
  else
    let iy := holeVertexIndex - holeIndex * vertexCountY g in
    let cellIndex := getInt (holeCells g) holeIndex in
    let cellX := Z.rem cellIndex (gridX g) in
    let cellZ := cellIndex / gridX g in
    let x0 := (gridStartX g + inject_Z cellX * step g)%Q in
    let y0 := (vertexStartY g + inject_Z iy * voxelHeight g)%Q in
    let z0 := (gridStartZ g + inject_Z cellZ * step g)%Q in
    flat_map (fun corner =>
      let ix := cellX + fst corner in
      let iz := cellZ + snd corner in
      let b := ix + iy * strideY g + iz * strideZ g in
      if cellGe nodeUsage b cap then []
      else
        let x1 := (vertexStartX g + inject_Z ix * voxelSizeXZ g)%Q in
        let z1 := (vertexStartZ g + inject_Z iz * voxelSizeXZ g)%Q in
        let ddx := (x1 - x0)%Q in
        let ddz := (z1 - z0)%Q in
        [(b, Math_sqrt (ddx * ddx + ddz * ddz)%Q, heuristic endCoords x1 y0 z1)])
      cornerOffsets
    ++ (if (0 <? iy) && negb (cellGe nodeUsage (a - 1) cap)
        then [(a - 1, voxelHeight g, heuristic endCoords x0 (y0 - voxelHeight g)%Q z0)]
        else [])
    ++ (if (iy + 1 <? vertexCountY g)
           && negb ((0 <? iy) && cellGe nodeUsage (a - 1) cap)
           && negb (cellGe nodeUsage (a + 1) cap)
        then [(a + 1, voxelHeight g, heuristic endCoords x0 (y0 + voxelHeight g)%Q z0)]
        else []).

(** The relaxations that the expansion of node [a] attempts, in order;
    without the estimates they are the edges of [edgesFrom]. *)
Definition pushesFrom (a : Z) : list (Z * Q * Q) :=
  if a <? holeCenterBaseIndex g
  then latticePushes a ++ holeEntryPushes a
  else holePushes a.

(** No number occurs twice in the list. *)
Fixpoint distinct (l : list Z) : bool :=
  match l with
  | [] => true
  | x :: rest => negb (existsb (Z.eqb x) rest) && distinct rest
  end.

(** The relaxation of an edge out of [a] fits the estimate: the target is
    a node of the usage table, the cost lies between [0] and [cmax], the
    estimate pushed with the target lies between [0] and [hmax] and
    within [eta] of the estimate of the target, and the estimate of [a]
    exceeds the cost plus the estimate of the target by [eta] at most. *)
Definition edgeFits (eta cmax hmax : Q) (a : Z) (t : Z * Q * Q) : bool :=
  let '(b, c, hb) := t in
  (0 <=? b) && (b <? lengthZ nodeUsage)
  && Qle_bool 0 c && Qle_bool c cmax
  && Qle_bool 0 hb && Qle_bool hb hmax
  && Qle_bool (estimateOf b - eta) hb && Qle_bool hb (estimateOf b + eta)
  && Qle_bool (estimateOf a) (c + estimateOf b + eta).

(** Node [a] fits: its estimate lies between [0] and [hmax], no two of
    its edges lead to the same node, and all its edges fit. *)
Definition nodeFits (eta cmax hmax : Q) (a : Z) : bool :=
  Qle_bool 0 (estimateOf a) && Qle_bool (estimateOf a) hmax
  && distinct (map (fun t => fst (fst t)) (pushesFrom a))
  && forallb (edgeFits eta cmax hmax a) (pushesFrom a).

(** The estimate is consistent up to [eta] on the search graph. *)
Definition consistentEstimate (eta cmax hmax : Q) : Prop :=
  forall a, 0 <= a < lengthZ nodeUsage -> nodeFits eta cmax hmax a = true.

Definition consistentEstimateb (eta cmax hmax : Q) : bool :=
  forallb (fun i => nodeFits eta cmax hmax (Z.of_nat i)) (seq 0 (length nodeUsage)).

Variable token : Z.
Variable activeToken : Z.
Variable endIndex : Z.

(** The heap holds no more entries than its arrays have cells, each time
    the main loop of the search tests its condition: [searchLoop] run
    for the sizes of the heap only. *)
Fixpoint heapFits (fuel : nat) (sc : Scratch) (heapSize iterations : Z) : bool :=
  (heapSize <=? lengthZ (heapScores sc))
  && match fuel with
     | O => true
     | S fuel' =>
         if heapSize <=? 0 then true
         else if shouldCancel iterations token activeToken then true
         else
           match heapPop sc heapSize with
           | None => true
           | Some (idx, _, sc1, size1) =>
               if cellIs (closed sc1) idx (stamp sc1)
               then heapFits fuel' sc1 size1 (iterations + 1)
               else
                 let sc2 := setClosed sc1 idx in
                 if idx =? endIndex then true
                 else
                   let '(sc3, size3) :=
                     if idx <? holeCenterBaseIndex g
                     then expandLattice g cap nodeUsage endCoords idx (sc2, size1)
                     else expandHole g cap nodeUsage endCoords idx (sc2, size1) in
                   heapFits fuel' sc3 size3 (iterations + 1)
           end
     end.

End Estimates.

(** [heapFits] for the main loop of [aStar] as [aStar] starts it. *)
Definition searchFits `{Platform} (g : WorkerGrid) (cap token activeToken : Z)
  (nodeUsage : list Z) (sc : Scratch) (startIndex endIndex : Z) : bool :=
  let sc0 := bumpStamp sc in
  let endCoords := getNodeCoords g endIndex in
  let '(sx, sy, sz) := getNodeCoords g startIndex in
  let sc1 := markStart sc0 startIndex in
  let '(sc2, heapSize) :=
    heapPush sc1 startIndex (Fin (heuristic endCoords sx sy sz)) 0 in
  heapFits g cap nodeUsage endCoords token activeToken endIndex
           (searchFuel sc2) sc2 heapSize 0.

(** The tolerance of the search per edge: the slack of the relaxation
    test, three times the defect [eta] of the estimate and five times
    the rounding error [delta] of a stored score. *)
Definition searchTolerance (eta delta : Q) : Q := (slack + 3 * eta + 5 * delta)%Q.

(** An edge out of [p] has been relaxed: its target is closed, or holds
    a score that exceeds the score of [p] plus the cost [c] by the slack
    of the relaxation test and one rounding error at most. *)
Definition relaxedEdge (s : Z) (delta : Q) (sc : Scratch) (p b : Z) (c : Q) : Prop :=
  cellIs (closed sc) b s = true
  \/ (cellIs (gStamp sc) b s = true
      /\ (scoreOf sc b <= scoreOf sc p + c + slack + delta)%Q).

(** The invariant of the scores of one search with stamp [s]; [eta] is
    the consistency defect of the estimate, [delta] the rounding error
    of a stored score, [settled] tells which edges out of closed nodes
    have been relaxed. *)
Record CostInv `{Platform} (g : WorkerGrid) (cap : Z) (nodeUsage : list Z)
  (endCoords : Coords) (startIndex s capacity : Z) (eta cmax delta : Q)
  (settled : Z -> Z -> Q -> Prop)
  (rank : Z -> nat) (k : nat) (sc : Scratch) (heapSize : Z) : Prop := {
  ci_search : SearchInv g cap nodeUsage startIndex s rank k sc;
  ci_len_score : length (gScore sc) = length nodeUsage;
  ci_count : (k + unclosed sc)%nat = length nodeUsage;
  ci_heap : isHeap sc heapSize;
  ci_capacity : lengthZ (heapScores sc) = capacity;
  ci_cells : float32Cells sc heapSize;
  ci_start : cellIs (gStamp sc) startIndex s = true
             /\ getNum (gScore sc) startIndex = Fin 0;
  ci_root : forall n, cellIs (gStamp sc) n s = true -> n <> startIndex ->
              cellIs (closed sc) startIndex s = true;
  ci_stamped : forall n, cellIs (closed sc) n s = true -> cellIs (gStamp sc) n s = true;
  ci_score : forall n, cellIs (gStamp sc) n s = true ->
      exists q, getNum (gScore sc) n = Fin q /\ (0 <= q)%Q /\ fround q = q
                /\ (q <= inject_Z (Z.of_nat k) * (cmax + delta))%Q;
  ci_closed_score : forall n, cellIs (closed sc) n s = true ->
      (scoreOf sc n <= inject_Z (Z.of_nat (rank n)) * (cmax + delta))%Q;
  ci_entry : forall n x, In (n, x) (heapEntries sc heapSize) ->
      cellIs (gStamp sc) n s = true
      /\ exists key, x = Fin key
           /\ (scoreOf sc n + estimateOf g endCoords n - eta - 2 * delta <= key)%Q;
  ci_open : forall n, cellIs (gStamp sc) n s = true -> cellIs (closed sc) n s = false ->
      exists key, In (n, Fin key) (heapEntries sc heapSize)
           /\ (key <= scoreOf sc n + estimateOf g endCoords n + eta + 2 * delta)%Q;
  ci_closed : forall u w, cellIs (closed sc) u s = true ->
      isWalk g cap nodeUsage startIndex u w ->
      (scoreOf sc u
       <= walkCost g cap nodeUsage w + hops w * searchTolerance eta delta)%Q;
  ci_relaxed : forall p b c, cellIs (closed sc) p s = true ->
      In (b, c) (edgesFrom g cap nodeUsage p) -> settled p b c ->
      relaxedEdge s delta sc p b c;
  ci_parent : forall n, cellIs (gStamp sc) n s = true -> n <> startIndex ->
      exists p c, geti (parents sc) n = Some p
        /\ cellIs (closed sc) p s = true
        /\ In (n, c) (edgesFrom g cap nodeUsage p)
        /\ (scoreOf sc p + c - delta <= scoreOf sc n)%Q
}.

(** The invariant of the scores while node [idx] is being expanded: the
    edges out of [idx] listed in [done] have been relaxed, as have all
    edges out of the other closed nodes, and [baseCost] is the score of
    [idx]. *)
Definition costExpanding `{Platform} (g : WorkerGrid) (cap : Z) (nodeUsage : list Z)
  (endCoords : Coords) (startIndex s capacity : Z) (eta cmax delta : Q)
  (rank : Z -> nat) (k : nat) (idx : Z) (baseCost : num) (done : list (Z * Q))
  (st : Scratch * Z) : Prop :=
  CostInv g cap nodeUsage endCoords startIndex s capacity eta cmax delta
          (fun p b c => p <> idx \/ In (b, c) done) rank k (fst st) (snd st)
  /\ cellIs (closed (fst st)) idx s = true
  /\ getNum (gScore (fst st)) idx = baseCost.

From Stdlib Require Import Lqa.

(** ** Rounding into [Float32Array] cells *)

Lemma pow2_pos (e : Z) : (0 < 2 ^ e)%Q.
Proof. apply Qpower_0_lt. reflexivity. Qed.

Lemma pow2_le (n m : Z) : n <= m -> (2 ^ n <= 2 ^ m)%Q.
Proof. intros Hle. apply Qpower_le_compat_l; [exact Hle | discriminate]. Qed.

Lemma pow2_lt (n m : Z) : n < m -> (2 ^ n < 2 ^ m)%Q.
Proof. intros Hlt. apply Qpower_lt_compat_l; [exact Hlt | reflexivity]. Qed.

Lemma pow2_lt_inv (n m : Z) : (2 ^ n < 2 ^ m)%Q -> n < m.
Proof. intros Hlt. eapply Qpower_lt_compat_l_inv; [exact Hlt | reflexivity]. Qed.

Lemma pow2_plus (n m : Z) : (2 ^ (n + m) == 2 ^ n * 2 ^ m)%Q.
Proof. apply Qpower_plus. discriminate. Qed.

Lemma pow2_inject (n : Z) : 0 <= n -> (inject_Z (2 ^ n) == 2 ^ n)%Q.
Proof. intros Hn. now rewrite Zpower_Qpower. Qed.

Lemma pow2_split (n m : Z) : (2 ^ n == 2 ^ (n - m) * 2 ^ m)%Q.
Proof. rewrite <- pow2_plus. now replace (n - m + m) with n by lia. Qed.

Lemma roundEven_cases (q : Q) :
  let f := Qfloor q in
  (roundEven q = f /\ (q - inject_Z f <= 1 # 2)%Q)
  \/ (roundEven q = f + 1 /\ (1 # 2 <= q - inject_Z f)%Q).
Proof.
  intros f. unfold roundEven. fold f.
  destruct (Qcompare_spec (q - inject_Z f) (1 # 2)) as [Hc | Hc | Hc].
  - destruct (Z.even f).
    + left. split; [reflexivity | lra].
    + right. split; [reflexivity | lra].
  - left. split; [reflexivity | lra].
  - right. split; [reflexivity | lra].
Qed.

Lemma Qfloor_bounds (q : Q) : (inject_Z (Qfloor q) <= q < inject_Z (Qfloor q) + 1)%Q.
Proof.
  split; [apply Qfloor_le |].
  pose proof (Qlt_floor q) as Hlt. rewrite inject_Z_plus in Hlt. exact Hlt.
Qed.

Lemma roundEven_near (q : Q) :
  (q - (1 # 2) <= inject_Z (roundEven q) <= q + (1 # 2))%Q.
Proof.
  pose proof (Qfloor_bounds q) as Hf.
  destruct (roundEven_cases q) as [[-> Hr] | [-> Hr]].
  - lra.
  - rewrite inject_Z_plus. change (inject_Z 1) with 1%Q. lra.
Qed.

Lemma roundEven_le (q q' : Q) : (q <= q')%Q -> roundEven q <= roundEven q'.
Proof.
  intros Hle. pose proof (Qfloor_resp_le _ _ Hle) as Hfloor.
  pose proof (Qfloor_bounds q) as Hf. pose proof (Qfloor_bounds q') as Hf'.
  destruct (Z.eq_dec (Qfloor q) (Qfloor q')) as [Heq | Hne].
  - unfold roundEven. rewrite <- Heq.
    destruct (Qcompare_spec (q - inject_Z (Qfloor q)) (1 # 2)) as [Hc | Hc | Hc];
      destruct (Qcompare_spec (q' - inject_Z (Qfloor q)) (1 # 2)) as [Hc' | Hc' | Hc'];
      destruct (Z.even (Qfloor q)); try lia; exfalso; lra.
  - destruct (roundEven_cases q) as [[-> _] | [-> _]];
      destruct (roundEven_cases q') as [[-> _] | [-> _]]; lia.
Qed.

Lemma roundEven_inject (k : Z) : roundEven (inject_Z k) = k.
Proof.
  unfold roundEven. rewrite Qfloor_Z.
  destruct (Qcompare_spec (inject_Z k - inject_Z k) (1 # 2)) as [Hc | Hc | Hc];
    [exfalso; lra | reflexivity | exfalso; lra].
Qed.

Lemma roundEven_comp (q q' : Q) : (q == q')%Q -> roundEven q = roundEven q'.
Proof.
  intros Heq. apply Z.le_antisymm; apply roundEven_le; lra.
Qed.

(** The binade of a positive number. *)
Lemma binade_spec (a : Q) :
  (0 < a)%Q -> (2 ^ binade a <= a)%Q /\ (a < 2 ^ (binade a + 1))%Q.
Proof.
  intros Hpos. destruct a as [n d]. unfold binade. cbn [Qnum Qden].
  assert (Hn : 0 < n) by (unfold Qlt in Hpos; simpl in Hpos; lia).
  set (ln := Z.log2 n). set (ld := Z.log2 (Z.pos d)).
  assert (Hln : 0 <= ln) by apply Z.log2_nonneg.
  assert (Hld : 0 <= ld) by apply Z.log2_nonneg.
  destruct (Z.log2_spec n Hn) as [Hn1 Hn2]. fold ln in Hn1, Hn2.
  destruct (Z.log2_spec (Z.pos d) (Pos2Z.is_pos d)) as [Hd1 Hd2]. fold ld in Hd1, Hd2.
  rewrite <- Z.add_1_r in Hn2, Hd2.
  assert (HN1 : (2 ^ ln <= inject_Z n)%Q)
    by (rewrite <- pow2_inject by lia; now rewrite <- Zle_Qle).
  assert (HN2 : (inject_Z n < 2 ^ (ln + 1))%Q)
    by (rewrite <- pow2_inject by lia; now rewrite <- Zlt_Qlt).
  assert (HD1 : (2 ^ ld <= inject_Z (Z.pos d))%Q)
    by (rewrite <- pow2_inject by lia; now rewrite <- Zle_Qle).
  assert (HD2 : (inject_Z (Z.pos d) < 2 ^ (ld + 1))%Q)
    by (rewrite <- pow2_inject by lia; now rewrite <- Zlt_Qlt).
  assert (HD : (0 < inject_Z (Z.pos d))%Q) by (rewrite <- (Zlt_Qlt 0); lia).
  assert (Hfrac : (n # d == inject_Z n / inject_Z (Z.pos d))%Q) by apply Qmake_Qdiv.
  assert (Hupper : forall e, ln + 1 <= e + ld -> (n # d < 2 ^ e)%Q).
  { intros e He. rewrite Hfrac. apply Qlt_shift_div_r; [exact HD |].
    apply Qlt_le_trans with (2 ^ (ln + 1))%Q; [exact HN2 |].
    apply Qle_trans with (2 ^ (e + ld))%Q; [now apply pow2_le |].
    rewrite pow2_plus. apply Qmult_le_l; [apply pow2_pos | exact HD1]. }
  assert (Hlower : forall e, e + ld + 1 <= ln -> (2 ^ e <= n # d)%Q).
  { intros e He. rewrite Hfrac. apply Qle_shift_div_l; [exact HD |].
    apply Qle_trans with (2 ^ ln)%Q; [| exact HN1].
    apply Qle_trans with (2 ^ (e + (ld + 1)))%Q; [| apply pow2_le; lia].
    rewrite pow2_plus. apply Qmult_le_l; [apply pow2_pos |]. now apply Qlt_le_weak. }
  destruct (Qle_bool (2 ^ (ln - ld)) (n # d)) eqn:Hb.
  - apply Qle_bool_iff in Hb. split; [exact Hb | apply Hupper; lia].
  - split; [apply Hlower; lia |].
    replace (ln - ld - 1 + 1) with (ln - ld) by lia.
    apply Qnot_le_lt. intros Hle. apply Qle_bool_iff in Hle. congruence.
Qed.

Lemma binade_unique (a : Q) (e : Z) :
  (2 ^ e <= a)%Q -> (a < 2 ^ (e + 1))%Q -> binade a = e.
Proof.
  intros Hlow Hhigh.
  assert (Hpos : (0 < a)%Q) by (pose proof (pow2_pos e); lra).
  destruct (binade_spec a Hpos) as [Hb1 Hb2].
  assert (H1 : binade a < e + 1) by (apply pow2_lt_inv; lra).
  assert (H2 : e < binade a + 1) by (apply pow2_lt_inv; lra).
  lia.
Qed.

Lemma binade_le (a b : Q) : (0 < a)%Q -> (a <= b)%Q -> binade a <= binade b.
Proof.
  intros Ha Hle. destruct (binade_spec a Ha) as [Ha1 _].
  destruct (binade_spec b) as [_ Hb2]; [lra |].
  assert (H1 : binade a < binade b + 1) by (apply pow2_lt_inv; lra). lia.
Qed.

Lemma float32Ulp_pos (a : Q) : (0 < float32Ulp a)%Q.
Proof. apply pow2_pos. Qed.

Lemma roundMagnitude_nonneg (a : Q) : (0 <= a)%Q -> (0 <= roundMagnitude a)%Q.
Proof.
  intros Ha. unfold roundMagnitude. pose proof (float32Ulp_pos a) as Hu.
  apply Qmult_le_0_compat; [| lra].
  assert (Hq : (inject_Z 0 <= a / float32Ulp a)%Q).
  { change (inject_Z 0) with 0%Q. apply Qle_shift_div_l; [exact Hu | lra]. }
  apply roundEven_le in Hq. rewrite roundEven_inject in Hq.
  rewrite Zle_Qle in Hq. exact Hq.
Qed.

Lemma roundMagnitude_zero (a : Q) : (a == 0)%Q -> (roundMagnitude a == 0)%Q.
Proof.
  intros Ha. unfold roundMagnitude.
  assert (Hq : (a / float32Ulp a == inject_Z 0)%Q).
  { unfold Qdiv. change (inject_Z 0) with 0%Q.
    rewrite (Qmult_comp a 0%Q Ha (/ float32Ulp a)%Q (/ float32Ulp a)%Q (Qeq_refl _)). ring. }
  rewrite (roundEven_comp _ _ Hq), roundEven_inject. change (inject_Z 0) with 0%Q. ring.
Qed.

(** A number of the binade [e] is rounded to a number between [2 ^ e]
    and [2 ^ (e + 1)]. *)
Lemma roundMagnitude_below (a : Q) (e : Z) :
  (0 <= a)%Q -> (a <= 2 ^ e)%Q -> Z.max (binade a) (-126) - 23 <= e ->
  (roundMagnitude a <= 2 ^ e)%Q.
Proof.
  intros Ha Hle He. unfold roundMagnitude, float32Ulp.
  set (E := Z.max (binade a) (-126) - 23) in *.
  pose proof (pow2_pos E) as Hu.
  assert (Hk : (2 ^ e == inject_Z (2 ^ (e - E)) * 2 ^ E)%Q).
  { rewrite pow2_inject by lia. apply pow2_split. }
  rewrite Hk. apply Qmult_le_r; [exact Hu |].
  rewrite <- Zle_Qle. rewrite <- (roundEven_inject (2 ^ (e - E))). apply roundEven_le.
  apply Qle_shift_div_r; [exact Hu |]. now rewrite <- Hk.
Qed.

Lemma roundMagnitude_above (a : Q) (e : Z) :
  (2 ^ e <= a)%Q -> Z.max (binade a) (-126) - 23 <= e ->
  (2 ^ e <= roundMagnitude a)%Q.
Proof.
  intros Hle He. unfold roundMagnitude, float32Ulp.
  set (E := Z.max (binade a) (-126) - 23) in *.
  pose proof (pow2_pos E) as Hu.
  assert (Hk : (2 ^ e == inject_Z (2 ^ (e - E)) * 2 ^ E)%Q).
  { rewrite pow2_inject by lia. apply pow2_split. }
  rewrite Hk. apply Qmult_le_r; [exact Hu |].
  rewrite <- Zle_Qle. rewrite <- (roundEven_inject (2 ^ (e - E))) at 1. apply roundEven_le.
  apply Qle_shift_div_l; [exact Hu |]. now rewrite <- Hk.
Qed.

Lemma roundMagnitude_le (a b : Q) :
  (0 <= a)%Q -> (a <= b)%Q -> (roundMagnitude a <= roundMagnitude b)%Q.
Proof.
  intros Ha Hle. destruct (Qlt_le_dec 0 a) as [Hpos | Hzero].
  - pose proof (binade_le a b Hpos Hle) as Hbin.
    destruct (Z.eq_dec (Z.max (binade a) (-126)) (Z.max (binade b) (-126))) as [Heq | Hne].
    + unfold roundMagnitude, float32Ulp. rewrite Heq.
      set (E := Z.max (binade b) (-126) - 23). pose proof (pow2_pos E) as Hu.
      apply Qmult_le_r; [exact Hu |]. rewrite <- Zle_Qle. apply roundEven_le.
      apply Qle_shift_div_l; [exact Hu |].
      unfold Qdiv. rewrite <- Qmult_assoc, (Qmult_comm (/ _)), Qmult_inv_r by lra. lra.
    + destruct (binade_spec a Hpos) as [_ Ha2].
      destruct (binade_spec b) as [Hb1 _]; [lra |].
      apply Qle_trans with (2 ^ binade b)%Q.
      * apply roundMagnitude_below; [exact Ha | | lia].
        apply Qle_trans with (2 ^ (binade a + 1))%Q; [lra | apply pow2_le; lia].
      * apply roundMagnitude_above; [exact Hb1 | lia].
  - rewrite (roundMagnitude_zero a) by lra. apply roundMagnitude_nonneg. lra.
Qed.

Lemma Qle_bool_false (a b : Q) : Qle_bool a b = false -> (b < a)%Q.
Proof.
  intros Hb. apply Qnot_le_lt. intros Hle. apply Qle_bool_iff in Hle. congruence.
Qed.

Lemma fround_eq (q : Q) :
  (fround q == if Qle_bool 0 q then roundMagnitude q else - roundMagnitude (- q))%Q.
Proof. unfold fround. apply Qred_correct. Qed.

(** Storing is monotone: the order of two numbers is not reversed. *)
Lemma fround_le (a b : Q) : (a <= b)%Q -> (fround a <= fround b)%Q.
Proof.
  intros Hle. rewrite !fround_eq.
  destruct (Qle_bool 0 a) eqn:Ha; destruct (Qle_bool 0 b) eqn:Hb.
  - apply Qle_bool_iff in Ha. now apply roundMagnitude_le.
  - apply Qle_bool_iff in Ha. apply Qle_bool_false in Hb. lra.
  - apply Qle_bool_false in Ha. apply Qle_bool_iff in Hb.
    pose proof (roundMagnitude_nonneg (- a)). pose proof (roundMagnitude_nonneg b). lra.
  - apply Qle_bool_false in Ha. apply Qle_bool_false in Hb.
    pose proof (roundMagnitude_le (- b) (- a)). lra.
Qed.

Lemma roundMagnitude_fixed (v : Q) (k : Z) :
  (v == inject_Z k * float32Ulp v)%Q -> (roundMagnitude v == v)%Q.
Proof.
  intros Hv. unfold roundMagnitude. pose proof (float32Ulp_pos v) as Hu.
  assert (Hq : (v / float32Ulp v == inject_Z k)%Q).
  { transitivity (inject_Z k * float32Ulp v / float32Ulp v)%Q.
    - apply Qdiv_comp; [exact Hv | reflexivity].
    - field. lra. }
  rewrite (roundEven_comp _ _ Hq), roundEven_inject. now rewrite <- Hv.
Qed.

Lemma binade_comp (a b : Q) : (0 < a)%Q -> (a == b)%Q -> binade b = binade a.
Proof.
  intros Ha Heq. destruct (binade_spec a Ha) as [H1 H2].
  apply binade_unique; lra.
Qed.

Lemma float32Ulp_comp (a b : Q) : (0 < a)%Q -> (a == b)%Q -> float32Ulp b = float32Ulp a.
Proof. intros Ha Heq. unfold float32Ulp. now rewrite (binade_comp a b Ha Heq). Qed.

(** The rounded magnitude is a float32 number: zero, or a multiple of
    the spacing at its own binade. *)
Lemma roundMagnitude_representable (a : Q) :
  (0 < a)%Q ->
  (roundMagnitude a == 0)%Q
  \/ ((0 < roundMagnitude a)%Q
      /\ exists k, (roundMagnitude a == inject_Z k * float32Ulp (roundMagnitude a))%Q).
Proof.
  intros Ha. destruct (binade_spec a Ha) as [Hlow Hhigh].
  set (e := binade a) in *.
  set (v := roundMagnitude a).
  assert (Hv : (v == inject_Z (roundEven (a / float32Ulp a)) * float32Ulp a)%Q)
    by reflexivity.
  set (m := roundEven (a / float32Ulp a)) in *.
  pose proof (float32Ulp_pos a) as Hu.
  assert (Hm0 : 0 <= m).
  { assert (Hq : (inject_Z 0 <= a / float32Ulp a)%Q).
    { change (inject_Z 0) with 0%Q. apply Qle_shift_div_l; [exact Hu | lra]. }
    apply roundEven_le in Hq. now rewrite roundEven_inject in Hq. }
  destruct (Z.eq_dec m 0) as [Hzero | Hnz].
  { left. rewrite Hv, Hzero. change (inject_Z 0) with 0%Q. ring. }
  right.
  assert (Hvpos : (0 < v)%Q).
  { rewrite Hv. apply Qmult_lt_0_compat; [| exact Hu].
    change 0%Q with (inject_Z 0). rewrite <- Zlt_Qlt. lia. }
  split; [exact Hvpos |].
  assert (Hulp : float32Ulp a = (2 ^ (Z.max e (-126) - 23))%Q) by reflexivity.
  destruct (Z_lt_le_dec e (-126)) as [Hsub | Hnormal].
  - (* below the normal range: multiples of 2 ^ -149 *)
    rewrite Z.max_r in Hulp by lia. change (-126 - 23) with (-149) in Hulp.
    assert (Hq : (a / float32Ulp a <= inject_Z (2 ^ 23))%Q).
    { apply Qle_shift_div_r; [exact Hu |]. rewrite Hulp, pow2_inject by lia.
      rewrite <- pow2_plus. change (23 + -149) with (-126).
      apply Qle_trans with (2 ^ (e + 1))%Q; [lra | apply pow2_le; lia]. }
    apply roundEven_le in Hq. rewrite roundEven_inject in Hq. fold m in Hq.
    assert (Hvle : (v <= 2 ^ (-126))%Q).
    { rewrite Hv, Hulp. rewrite (pow2_split (-126) (-149)). change (-126 - -149) with 23.
      apply Qmult_le_r; [apply pow2_pos |]. rewrite <- pow2_inject by lia.
      now rewrite <- Zle_Qle. }
    destruct (binade_spec v Hvpos) as [Hv1 _].
    assert (Hev : binade v < -126 + 1) by (apply pow2_lt_inv; pose proof (pow2_lt (-126) (-126 + 1) ltac:(lia)); lra).
    exists m. unfold float32Ulp at 1. rewrite Z.max_r by lia.
    change (-126 - 23) with (-149). now rewrite <- Hulp.
  - rewrite Z.max_l in Hulp by lia.
    assert (Hq1 : (inject_Z (2 ^ 23) <= a / float32Ulp a)%Q).
    { apply Qle_shift_div_l; [exact Hu |]. rewrite Hulp, pow2_inject by lia.
      rewrite <- pow2_plus. now replace (23 + (e - 23)) with e by lia. }
    assert (Hq2 : (a / float32Ulp a <= inject_Z (2 ^ 24))%Q).
    { apply Qle_shift_div_r; [exact Hu |]. rewrite Hulp, pow2_inject by lia.
      rewrite <- pow2_plus. replace (24 + (e - 23)) with (e + 1) by lia. lra. }
    apply roundEven_le in Hq1. apply roundEven_le in Hq2.
    rewrite roundEven_inject in Hq1, Hq2. fold m in Hq1, Hq2.
    assert (Hvlow : (2 ^ e <= v)%Q).
    { rewrite Hv, Hulp. rewrite (pow2_split e (e - 23)). replace (e - (e - 23)) with 23 by lia.
      apply Qmult_le_r; [apply pow2_pos |]. rewrite <- pow2_inject by lia.
      now rewrite <- Zle_Qle. }
    destruct (Z.eq_dec m (2 ^ 24)) as [Htop | Hbelow].
    + assert (Hval : (v == 2 ^ (e + 1))%Q).
      { rewrite Hv, Hulp, Htop, pow2_inject by lia. rewrite <- pow2_plus.
        now replace (24 + (e - 23)) with (e + 1) by lia. }
      assert (Hbin : binade v = e + 1).
      { apply binade_unique; [lra |]. rewrite Hval. apply pow2_lt. lia. }
      exists (2 ^ 23). unfold float32Ulp. rewrite Hbin, Z.max_l by lia.
      rewrite Hval, pow2_inject by lia. rewrite <- pow2_plus.
      now replace (23 + (e + 1 - 23)) with (e + 1) by lia.
    + assert (Hvhigh : (v < 2 ^ (e + 1))%Q).
      { rewrite Hv, Hulp. rewrite (pow2_split (e + 1) (e - 23)).
        replace (e + 1 - (e - 23)) with 24 by lia.
        apply Qmult_lt_r; [apply pow2_pos |]. rewrite <- pow2_inject by lia.
        rewrite <- Zlt_Qlt. lia. }
      assert (Hbin : binade v = e) by (apply binade_unique; assumption).
      exists m. unfold float32Ulp at 1. rewrite Hbin, Z.max_l by lia. now rewrite <- Hulp.
Qed.

Lemma roundMagnitude_idem (a : Q) :
  (0 <= a)%Q -> forall v, (v == roundMagnitude a)%Q -> (roundMagnitude v == v)%Q.
Proof.
  intros Ha v Hv. destruct (Qlt_le_dec 0 a) as [Hpos | Hzero].
  - destruct (roundMagnitude_representable a Hpos) as [Hz | [Hp [k Hk]]].
    + assert (Hv0 : (v == 0)%Q) by lra. rewrite (roundMagnitude_zero v Hv0). lra.
    + apply (roundMagnitude_fixed v k).
      rewrite (float32Ulp_comp (roundMagnitude a) v Hp) by (symmetry; exact Hv).
      lra.
  - assert (Hz : (roundMagnitude a == 0)%Q) by (apply roundMagnitude_zero; lra).
    assert (Hv0 : (v == 0)%Q) by lra. rewrite (roundMagnitude_zero v Hv0). lra.
Qed.

(** A number that has been stored is stored back unchanged. *)
Lemma fround_idem (q : Q) : fround (fround q) = fround q.
Proof.
  unfold fround at 1 3. apply Qred_complete.
  pose proof (fround_eq q) as Hv. set (v := fround q) in *.
  destruct (Qle_bool 0 q) eqn:Hq.
  - apply Qle_bool_iff in Hq. pose proof (roundMagnitude_nonneg q Hq) as Hw.
    assert (Hpos : Qle_bool 0 v = true) by (apply Qle_bool_iff; lra).
    rewrite Hpos. rewrite (roundMagnitude_idem q Hq v Hv). exact Hv.
  - apply Qle_bool_false in Hq.
    assert (Hneg : (0 <= - q)%Q) by lra.
    pose proof (roundMagnitude_nonneg (- q) Hneg) as Hw.
    destruct (Qle_bool 0 v) eqn:Hsign.
    + apply Qle_bool_iff in Hsign.
      assert (Hz : (v == 0)%Q) by lra.
      rewrite (roundMagnitude_zero v Hz). lra.
    + assert (Hmv : (- v == roundMagnitude (- q))%Q) by lra.
      rewrite (roundMagnitude_idem (- q) Hneg (- v) Hmv). lra.
Qed.

Lemma fround_comp (a b : Q) : (a == b)%Q -> fround a = fround b.
Proof.
  intros Heq. unfold fround. apply Qred_complete. rewrite <- !fround_eq.
  apply Qle_antisym; apply fround_le; lra.
Qed.

Lemma fround_zero : fround 0 = 0%Q.
Proof. reflexivity. Qed.

Lemma fround_nonneg (q : Q) : (0 <= q)%Q -> (0 <= fround q)%Q.
Proof. intros Hq. rewrite <- fround_zero. now apply fround_le. Qed.

(** The float32 number nearest to 0.005 lies just below it. *)
Lemma fround_half_hundredth :
  fround (1 # 200) = (5368709 # 1073741824)%Q
  /\ (0 < fround (1 # 200))%Q /\ (fround (1 # 200) < 1 # 200)%Q.
Proof. repeat split. Qed.

(** *** What a cell holds after a store *)

Lemma toFloat32_idem (x : num) : toFloat32 (toFloat32 x) = toFloat32 x.
Proof.
  destruct x as [q | | |]; try reflexivity. unfold toFloat32. cbv zeta.
  destruct (Qle_bool float32Limit (fround q)) eqn:Hhigh; [reflexivity |].
  destruct (Qle_bool (fround q) (- float32Limit)) eqn:Hlow; [reflexivity |].
  now rewrite fround_idem, Hhigh, Hlow.
Qed.

Lemma toFloat32_nan (x : num) : toFloat32 x = NaN -> x = NaN.
Proof.
  destruct x as [q | | |]; try discriminate; [| reflexivity].
  unfold toFloat32. cbv zeta.
  destruct (Qle_bool float32Limit (fround q)); [discriminate |].
  destruct (Qle_bool (fround q) (- float32Limit)); discriminate.
Qed.

(** Storing two numbers does not reverse their order. *)
Lemma toFloat32_le (a b : num) :
  num_le a b = true -> num_le (toFloat32 a) (toFloat32 b) = true.
Proof.
  destruct a as [x | | |], b as [y | | |]; try discriminate; try reflexivity;
    unfold toFloat32; cbv zeta.
  - cbn [num_le]. intros Hle. apply Qle_bool_iff in Hle. apply fround_le in Hle.
    destruct (Qle_bool float32Limit (fround x)) eqn:Hx1.
    + apply Qle_bool_iff in Hx1.
      replace (Qle_bool float32Limit (fround y)) with true; [reflexivity |].
      symmetry. apply Qle_bool_iff. lra.
    + destruct (Qle_bool (fround x) (- float32Limit)) eqn:Hx2.
      * destruct (Qle_bool float32Limit (fround y)); [reflexivity |].
        destruct (Qle_bool (fround y) (- float32Limit)); reflexivity.
      * destruct (Qle_bool float32Limit (fround y)); [reflexivity |].
        destruct (Qle_bool (fround y) (- float32Limit)) eqn:Hy2.
        -- apply Qle_bool_iff in Hy2. apply Qle_bool_false in Hx2. lra.
        -- cbn [num_le]. now apply Qle_bool_iff.
  - intros _. destruct (Qle_bool float32Limit (fround x)); [reflexivity |].
    destruct (Qle_bool (fround x) (- float32Limit)); reflexivity.
  - intros _. destruct (Qle_bool float32Limit (fround y)); [reflexivity |].
    destruct (Qle_bool (fround y) (- float32Limit)); reflexivity.
Qed.

(** * Properties *)

(** ** Typed arrays *)

Lemma geti_Some_range {A : Type} (l : list A) (i : Z) (x : A) :
  geti l i = Some x -> 0 <= i < lengthZ l.
Proof.
  unfold geti, lengthZ. destruct (i <? 0) eqn:Hneg; [discriminate |].
  intros Hl. apply lookup_lt_Some in Hl. lia.
Qed.

Lemma geti_in_range {A : Type} (l : list A) (i : Z) :
  0 <= i < lengthZ l -> exists x, geti l i = Some x.
Proof.
  unfold geti, lengthZ. intros Hi.
  destruct (i <? 0) eqn:Hneg; [lia |].
  destruct (lookup_lt_is_Some_2 l (Z.to_nat i)) as [x Hx]; [lia |].
  exists x. exact Hx.
Qed.

Lemma geti_out_of_range {A : Type} (l : list A) (i : Z) :
  i < 0 \/ lengthZ l <= i -> geti l i = None.
Proof.
  unfold geti, lengthZ. intros Hi.
  destruct (i <? 0) eqn:Hneg; [reflexivity |].
  apply lookup_ge_None_2. lia.
Qed.

Lemma length_seti {A : Type} (l : list A) (i : Z) (v : A) :
  length (seti l i v) = length l.
Proof. unfold seti. destruct (i <? 0); [reflexivity | apply length_insert]. Qed.

Lemma lengthZ_seti {A : Type} (l : list A) (i : Z) (v : A) :
  lengthZ (seti l i v) = lengthZ l.
Proof. unfold lengthZ. now rewrite length_seti. Qed.

Lemma geti_seti_ne {A : Type} (l : list A) (i j : Z) (v : A) :
  i <> j -> geti (seti l i v) j = geti l j.
Proof.
  unfold geti, seti. intros Hne.
  destruct (j <? 0) eqn:Hj; [reflexivity |].
  destruct (i <? 0) eqn:Hi; [reflexivity |].
  apply list_lookup_insert_ne. lia.
Qed.

Lemma geti_seti_eq {A : Type} (l : list A) (i : Z) (v : A) :
  0 <= i < lengthZ l -> geti (seti l i v) i = Some v.
Proof.
  unfold geti, seti, lengthZ. intros Hi.
  destruct (i <? 0) eqn:Hneg; [lia |].
  apply list_lookup_insert_eq. lia.
Qed.

Lemma geti_seti_inv {A : Type} (l : list A) (i j : Z) (v x : A) :
  geti (seti l i v) j = Some x -> (j = i /\ x = v) \/ (j <> i /\ geti l j = Some x).
Proof.
  intros Hget. destruct (Z.eq_dec j i) as [-> | Hne].
  - left. split; [reflexivity |].
    pose proof (geti_Some_range _ _ _ Hget) as Hr. rewrite lengthZ_seti in Hr.
    rewrite geti_seti_eq in Hget by exact Hr. congruence.
  - right. split; [exact Hne |]. rewrite geti_seti_ne in Hget by congruence. exact Hget.
Qed.

Lemma geti_replicate {A : Type} (n : nat) (v x : A) (i : Z) :
  geti (replicate n v) i = Some x -> x = v.
Proof.
  unfold geti. destruct (i <? 0); [discriminate |].
  intros Hl. apply lookup_replicate in Hl. tauto.
Qed.

(** ** The usage cap *)

Lemma usageCap_range (message : BuildMessage) : 1 <= usageCap message <= 65535.
Proof. unfold usageCap. lia. Qed.

(** The cap at a negative, a fractional and an oversized value. *)
Lemma usageCap_values :
  usageCap {| msg_id := 0; grid := sampleGrid; maxPaths := 1; maxTries := 1;
              maxPathsPerVertex := (-7 # 2) |} = 1
  /\ usageCap {| msg_id := 0; grid := sampleGrid; maxPaths := 1; maxTries := 1;
                 maxPathsPerVertex := (5 # 2) |} = 3
  /\ usageCap {| msg_id := 0; grid := sampleGrid; maxPaths := 1; maxTries := 1;
                 maxPathsPerVertex := 70000 |} = 65535.
Proof. repeat split; reflexivity. Qed.

(** ** Hole-center registration *)

Lemma useHoleCenters_spec (g : WorkerGrid) :
  useHoleCenters g = true <-> (Qabs (voxelSizeXZ g - step g) < 1 # 1000000)%Q.
Proof.
  unfold useHoleCenters, Qltb, Qabs'.
  set (d := (voxelSizeXZ g - step g)%Q).
  assert (Habs : (if Qle_bool 0 d then d else (- d)%Q) == Qabs d).
  { destruct (Qle_bool 0 d) eqn:Hd.
    - apply Qle_bool_iff in Hd. symmetry. now apply Qabs_pos.
    - symmetry. apply Qabs_neg. apply Qlt_le_weak. apply Qnot_le_lt.
      intros Hle. apply Qle_bool_iff in Hle. congruence. }
  rewrite negb_true_iff. split.
  - intros Hb. rewrite <- Habs. apply Qnot_le_lt. intros Hle.
    apply Qle_bool_iff in Hle. congruence.
  - intros Hlt. rewrite <- Habs in Hlt.
    destruct (Qle_bool (1 # 1000000) (if Qle_bool 0 d then d else (- d)%Q)) eqn:Hb;
      [| reflexivity].
    apply Qle_bool_iff in Hb. exfalso. eapply Qlt_not_le; eassumption.
Qed.

Lemma registerHole_eq (g : WorkerGrid) (hib hc : list Z) (cell : Z) :
  registerHole g (hib, hc) cell =
  if registersCell g cell
  then (seti hib cell (Z.of_nat (length hc)), hc ++ [cell])
  else (hib, hc).
Proof.
  unfold registerHole, registersCell.
  destruct (instanceCount g <=? cell * perCell g); [reflexivity |].
  destruct (cellIsNot (instanceDirection g) (cell * perCell g) 0); reflexivity.
Qed.

Lemma registerHole_fold_inv (g : WorkerGrid) (cells seen : list Z) (acc : list Z * list Z) :
  holeIndexInv g seen acc ->
  holeIndexInv g (seen ++ cells) (fold_left (registerHole g) cells acc).
Proof.
  revert seen acc. induction cells as [| c cells IH]; intros seen acc Hinv.
  - rewrite app_nil_r. exact Hinv.
  - simpl. replace (seen ++ c :: cells) with ((seen ++ [c]) ++ cells)
      by (rewrite <- app_assoc; reflexivity).
    apply IH. destruct acc as [hib hc]. rewrite registerHole_eq.
    intros cell h Hget. destruct (registersCell g c) eqn:Hreg; simpl in Hget.
    + apply geti_seti_inv in Hget. destruct Hget as [[-> ->] | [Hne Hget]].
      * left. split; [apply in_or_app; right; left; reflexivity |].
        split; [exact Hreg | lia].
      * destruct (Hinv cell h Hget) as [[Hin [Hr Hh]] | [Hnot Hh]].
        -- left. split; [apply in_or_app; left; exact Hin | tauto].
        -- right. split; [| exact Hh]. intros [Hin Hr]. apply Hnot.
           split; [| exact Hr]. apply in_app_or in Hin.
           destruct Hin as [Hin | [Heq | []]]; [exact Hin | congruence].
    + destruct (Hinv cell h Hget) as [[Hin [Hr Hh]] | [Hnot Hh]].
      * left. split; [apply in_or_app; left; exact Hin | tauto].
      * right. split; [| exact Hh]. intros [Hin Hr]. apply Hnot.
        split; [| exact Hr]. apply in_app_or in Hin.
        destruct Hin as [Hin | [Heq | []]]; [exact Hin | congruence].
Qed.

Lemma registerHole_fold_length (g : WorkerGrid) (cells : list Z) (acc : list Z * list Z) :
  length (fst (fold_left (registerHole g) cells acc)) = length (fst acc).
Proof.
  revert acc. induction cells as [| c cells IH]; intros acc; [reflexivity |].
  simpl. rewrite IH. destruct acc as [hib hc]. rewrite registerHole_eq.
  destruct (registersCell g c); [apply length_seti | reflexivity].
Qed.

Lemma holeIndexByCell_length (g : WorkerGrid) :
  lengthZ (holeIndexByCell g) = Z.max 0 (cellCount g).
Proof.
  unfold holeIndexByCell, holeRegistration, lengthZ.
  destruct (useHoleCenters g && (0 <? cellCount g)).
  - rewrite registerHole_fold_length. simpl. rewrite length_replicate. lia.
  - simpl. rewrite length_replicate. lia.
Qed.

Lemma In_seqZ (a n x : Z) : In x (seqZ a n) <-> a <= x < a + n.
Proof. rewrite <- list_elem_of_In. apply elem_of_seqZ. Qed.

(** The entry of a cell after the whole registration block. *)
Lemma holeIndexByCell_spec (g : WorkerGrid) (cell h : Z) :
  geti (holeIndexByCell g) cell = Some h ->
  (useHoleCenters g = true /\ 0 <= cell < cellCount g
   /\ registersCell g cell = true /\ 0 <= h)
  \/ (~ (useHoleCenters g = true /\ registersCell g cell = true) /\ h = -1).
Proof.
  intros Hget. pose proof (geti_Some_range _ _ _ Hget) as Hrange.
  rewrite holeIndexByCell_length in Hrange.
  unfold holeIndexByCell, holeRegistration in Hget.
  destruct (useHoleCenters g) eqn:Huse; simpl in Hget.
  - destruct (0 <? cellCount g) eqn:Hpos.
    + pose proof (registerHole_fold_inv g (seqZ 0 (cellCount g)) []
                    (replicate (Z.to_nat (cellCount g)) (-1), [])) as Hinv.
      simpl in Hinv. destruct (Hinv) with (cell := cell) (h := h) as [[Hin [Hr Hh]] | [Hnot Hh]].
      * intros c x Hx. simpl in Hx. apply geti_replicate in Hx. right.
        split; [intros [[] _] | exact Hx].
      * exact Hget.
      * left. repeat split; try assumption; lia.
      * right. split; [| exact Hh]. intros [_ Hr]. apply Hnot. split; [| exact Hr].
        apply In_seqZ. lia.
    + simpl in Hget. apply geti_replicate in Hget. right.
      split; [| exact Hget]. intros [_ Hr]. lia.
  - simpl in Hget. apply geti_replicate in Hget. right.
    split; [intros [Hc _]; discriminate | exact Hget].
Qed.

Lemma instanceDirection_lookup (g : WorkerGrid) (i : Z) :
  0 <= i < instanceCount g -> geti (instanceDirection g) i = Some (directionOf g i).
Proof.
  intros Hi. unfold geti, instanceDirection.
  destruct (i <? 0) eqn:Hneg; [lia |].
  rewrite list_lookup_fmap. rewrite lookup_seqZ_lt by lia. simpl. f_equal. f_equal. lia.
Qed.

Lemma perCell_pos (g : WorkerGrid) : 1 <= perCell g <= 2.
Proof. unfold perCell. destruct (twoSided g); lia. Qed.

Lemma registersCell_spec (g : WorkerGrid) (cell : Z) :
  0 <= cell ->
  (registersCell g cell = true <->
   cell * perCell g < instanceCount g /\ directionOf g (cell * perCell g) = 0).
Proof.
  intros Hcell. pose proof (perCell_pos g) as Hper.
  unfold registersCell, cellIsNot, cellIs.
  destruct (instanceCount g <=? cell * perCell g) eqn:Hslot; simpl.
  - split; [discriminate | lia].
  - rewrite instanceDirection_lookup by nia. rewrite negb_involutive.
    rewrite Z.eqb_eq. split; [intros Hd; split; [lia | exact Hd] | tauto].
Qed.

Lemma holeNodesOfCell_registered (g : WorkerGrid) (cell : Z) :
  useHoleCenters g = true -> 0 <= cell < cellCount g -> 0 <= countY g ->
  registersCell g cell = true -> cellReceivesHoleNodes g cell.
Proof.
  intros Huse Hcell HcountY Hreg. unfold cellReceivesHoleNodes, holeNodesOfCell.
  destruct (geti_in_range (holeIndexByCell g) cell) as [h Hh].
  { rewrite holeIndexByCell_length. lia. }
  rewrite Hh. destruct (holeIndexByCell_spec g cell h Hh) as [[_ [_ [_ Hpos]]] | [Hnot _]].
  - destruct (h <? 0) eqn:Hneg; [lia |]. unfold vertexCountY. split.
    + rewrite length_map. rewrite length_seqZ. reflexivity.
    + intros Hnil. apply (f_equal (@length Z)) in Hnil.
      rewrite length_map, length_seqZ in Hnil. simpl in Hnil. lia.
  - exfalso. apply Hnot. split; assumption.
Qed.

Lemma holeNodesOfCell_unregistered (g : WorkerGrid) (cell : Z) :
  registersCell g cell = false -> holeNodesOfCell g cell = [].
Proof.
  intros Hreg. unfold holeNodesOfCell.
  destruct (geti (holeIndexByCell g) cell) as [h |] eqn:Hh; [| reflexivity].
  destruct (holeIndexByCell_spec g cell h Hh) as [[_ [_ [Hr _]]] | [_ ->]].
  - congruence.
  - reflexivity.
Qed.

(** C9: when the voxel size and the grid step differ by 1e-6 or more, no
    hole cell is registered, no cell has hole-center nodes, and the node
    count is the lattice vertex count. *)
Theorem hole_centers_need_matching_step (g : WorkerGrid) :
  ~ (Qabs (voxelSizeXZ g - step g) < 1 # 1000000)%Q ->
  holeCells g = []
  /\ holeCenterCount g = 0
  /\ totalNodeCount g = (countX g + 1) * (countY g + 1) * (countZ g + 1)
  /\ forall cell, holeNodesOfCell g cell = [].
Proof.
  intros Hfar. assert (Huse : useHoleCenters g = false).
  { destruct (useHoleCenters g) eqn:Hu; [| reflexivity].
    exfalso. apply Hfar. now apply useHoleCenters_spec. }
  unfold holeCells, holeCenterCount, totalNodeCount, holeRegistration. rewrite Huse.
  simpl. repeat split.
  intros cell. unfold holeNodesOfCell.
  destruct (geti (holeIndexByCell g) cell) as [h |] eqn:Hh; [| reflexivity].
  destruct (holeIndexByCell_spec g cell h Hh) as [[Hu _] | [_ ->]];
    [congruence | reflexivity].
Qed.

Lemma hole_centers_need_matching_step_witness :
  ~ (Qabs (voxelSizeXZ sampleGrid - step sampleGrid) < 1 # 1000000)%Q
  /\ totalNodeCount sampleGrid = 2.
Proof.
  assert (Hfar : ~ (Qabs (voxelSizeXZ sampleGrid - step sampleGrid) < 1 # 1000000)%Q).
  { intros Hlt. vm_compute in Hlt. discriminate. }
  split; [exact Hfar |].
  destruct (hole_centers_need_matching_step sampleGrid Hfar) as [_ [_ [Htotal _]]].
  rewrite Htotal. reflexivity.
Defined.
(** C6 (amended): with hole centers enabled, a cell whose first instance
    slot exists and all of whose instances are absent receives exactly
    [countY + 1] hole-center nodes; a cell whose first instance slot lies
    beyond [instanceCount], or whose first instance is present, receives
    none.  In one-sided mode, for a cell that has its instance slot, this
    is the rule of the specification: the cell receives its nodes exactly
    when it holds no building. *)
Theorem hole_nodes_of_cell (g : WorkerGrid) (cell : Z) :
  useHoleCenters g = true -> 0 <= cell < cellCount g -> 0 <= countY g ->
  (cell * perCell g < instanceCount g -> cellWithoutBuilding g cell ->
   cellReceivesHoleNodes g cell)
  /\ (instanceCount g <= cell * perCell g \/ directionOf g (cell * perCell g) <> 0 ->
      holeNodesOfCell g cell = [])
  /\ (twoSided g = false -> cell < instanceCount g ->
      (cellReceivesHoleNodes g cell <-> cellWithoutBuilding g cell)).
Proof.
  intros Huse Hcell HcountY. pose proof (perCell_pos g) as Hper.
  assert (Hyes : cell * perCell g < instanceCount g -> cellWithoutBuilding g cell ->
                 cellReceivesHoleNodes g cell).
  { intros Hslot Hvoid. apply holeNodesOfCell_registered; try assumption.
    apply registersCell_spec; [lia |]. split; [exact Hslot |].
    specialize (Hvoid 0). rewrite Z.add_0_r in Hvoid. apply Hvoid; lia. }
  assert (Hno : instanceCount g <= cell * perCell g \/ directionOf g (cell * perCell g) <> 0 ->
                holeNodesOfCell g cell = []).
  { intros Hnone. apply holeNodesOfCell_unregistered.
    destruct (registersCell g cell) eqn:Hreg; [| reflexivity].
    apply registersCell_spec in Hreg; [| lia]. destruct Hreg as [Hslot Hdir].
    destruct Hnone as [Hbeyond | Hpresent]; [lia | contradiction]. }
  split; [exact Hyes |]. split; [exact Hno |].
  intros Hone Hslot. split.
  - intros [_ Hnodes] i Hi _. unfold perCell in *. rewrite Hone in *.
    assert (i = 0) by lia. subst i. rewrite Z.add_0_r.
    destruct (Z.eq_dec (directionOf g (cell * 1)) 0) as [Hzero | Hbuilt]; [exact Hzero |].
    exfalso. apply Hnodes. apply Hno. now right.
  - apply Hyes. unfold perCell. rewrite Hone. lia.
Qed.

Lemma hole_nodes_of_cell_witness :
  cellReceivesHoleNodes voidCellGrid 0 /\ holeNodesOfCell voidCellGrid 0 = [8; 9].
Proof.
  split; [| reflexivity].
  assert (Hcell : 0 <= 0 < cellCount voidCellGrid)
    by (vm_compute; split; [discriminate | reflexivity]).
  assert (Hlevels : 0 <= countY voidCellGrid) by (vm_compute; discriminate).
  destruct (hole_nodes_of_cell voidCellGrid 0 eq_refl Hcell Hlevels) as [Hyes _].
  apply Hyes; [reflexivity |].
  intros i Hi _.
  assert (Hcases : i = 0 \/ i = 1) by (change (perCell voidCellGrid) with 2 in Hi; lia).
  destruct Hcases as [-> | ->]; reflexivity.
Defined.

(** C6 as the specification states it fails on a cell that has no instance
    slot at all: it holds no building, and the registration loop skips
    it. *)
Lemma hole_nodes_iff_no_building_counterexample :
  ~ holeNodesIffNoBuilding emptySlotGrid.
Proof.
  intros Hclaim. specialize (Hclaim eq_refl 0).
  assert (Hcell : 0 <= 0 < cellCount emptySlotGrid)
    by (vm_compute; split; [discriminate | reflexivity]).
  destruct (Hclaim Hcell) as [_ Hback].
  assert (Hvoid : cellWithoutBuilding emptySlotGrid 0).
  { intros i Hi Hslot. exfalso. change (instanceCount emptySlotGrid) with 0 in Hslot.
    change (perCell emptySlotGrid) with 1 in Hslot. lia. }
  destruct (Hback Hvoid) as [_ Hnonempty]. apply Hnonempty. reflexivity.
Qed.

(** In two-sided mode only the first instance of a cell is looked at: a
    cell whose lower instance is a building is still registered. *)
Lemma lower_building_cell_is_registered :
  directionOf lowerOnlyGrid 1 = -1 /\ holeNodesOfCell lowerOnlyGrid 0 = [8; 9].
Proof. split; reflexivity. Qed.

(** ** Visibility classifier *)

Arguments neighborOffsets : simpl never.

Section ClassifierFacts.
Context `{Platform}.

Lemma scanNeighbors_eq (g : WorkerGrid) (idx : Z) (offsets : list NeighborOffset)
  (hasClear hasBlocked : bool) :
  scanNeighbors g idx offsets hasClear hasBlocked =
  (hasClear || existsb (edgeClear g idx) offsets,
   hasBlocked || existsb (edgeBlocked g idx) offsets).
Proof.
  revert hasClear hasBlocked.
  induction offsets as [| o rest IH]; intros hasClear hasBlocked; simpl.
  - now rewrite !orb_false_r.
  - unfold edgeClear, edgeBlocked.
    destruct (inLattice g (ixOf g idx + dx o) (iyOf g idx + dy o) (izOf g idx + dz o));
      simpl; [| apply IH].
    destruct (isBoundaryEdge g (ixOf g idx) (ixOf g idx + dx o) (izOf g idx)
                (izOf g idx + dz o)); simpl.
    + rewrite IH. destruct hasClear, hasBlocked; reflexivity.
    + destruct (segmentHitsBuildings g idx (idx + delta o)), hasClear, hasBlocked;
        simpl; rewrite ?IH; reflexivity.
Qed.

Lemma vertexFlags_eq (g : WorkerGrid) (idx : Z) :
  vertexFlags g idx = (hasClearEdge g idx, hasBlockedEdge g idx).
Proof.
  unfold vertexFlags, hasClearEdge, hasBlockedEdge. rewrite scanNeighbors_eq.
  cbn [orb]. destruct (0 <? holeCenterCount g); [reflexivity |].
  now rewrite andb_false_l, orb_false_r.
Qed.

Lemma In_pushIf (c : bool) (l : list Z) (v i : Z) :
  In i (pushIf c l v) <-> In i l \/ (c = true /\ i = v).
Proof.
  unfold pushIf. destruct c.
  - rewrite in_app_iff. simpl. intuition congruence.
  - intuition congruence.
Qed.

Lemma existsb_eqb_In (i : Z) (l : list Z) : existsb (Z.eqb i) l = true <-> In i l.
Proof.
  rewrite existsb_exists. split.
  - intros [x [Hin Heq]]. apply Z.eqb_eq in Heq. now subst x.
  - intros Hin. exists i. split; [exact Hin | apply Z.eqb_refl].
Qed.

Lemma existsb_eqb_ext (i : Z) (l l' : list Z) :
  (In i l <-> In i l') -> existsb (Z.eqb i) l = existsb (Z.eqb i) l'.
Proof.
  intros Hiff. apply eq_true_iff_eq. rewrite !existsb_eqb_In. exact Hiff.
Qed.

Lemma existsb_eqb_false (i : Z) (l : list Z) : ~ In i l -> existsb (Z.eqb i) l = false.
Proof.
  intros Hnot. destruct (existsb (Z.eqb i) l) eqn:He; [| reflexivity].
  apply existsb_eqb_In in He. contradiction.
Qed.

Lemma classifyVertex_inv (g : WorkerGrid) (seen : list Z) (pools : Pools) (idx : Z) :
  ~ In idx seen ->
  classifiedInv g seen pools ->
  classifiedInv g (seen ++ [idx]) (classifyVertex g pools idx).
Proof.
  intros Hfresh [Hlen [Hflags [Hbound [Hclear Hsides]]]].
  unfold classifyVertex. rewrite vertexFlags_eq.
  assert (Hseen : forall i, In i (seen ++ [idx]) <-> In i seen \/ i = idx).
  { intros i. rewrite in_app_iff. simpl. intuition congruence. }
  destruct (hasClearEdge g idx) eqn:Hc; simpl.
  - split; [| split; [| split; [| split]]]; simpl.
    + destruct (hasBlockedEdge g idx); [rewrite length_seti |]; exact Hlen.
    + intros i x Hget. destruct (Z.eq_dec i idx) as [-> | Hne].
      * rewrite (proj2 (existsb_eqb_In idx (seen ++ [idx]))) by (apply Hseen; now right). rewrite Hc. simpl.
        destruct (hasBlockedEdge g idx) eqn:Hb.
        -- apply geti_seti_inv in Hget. destruct Hget as [[_ ->] | [Hne _]];
             [reflexivity | congruence].
        -- rewrite (Hflags idx x Hget).
           rewrite existsb_eqb_false by exact Hfresh. reflexivity.
      * assert (Hget' : geti (boundaryFlags pools) i = Some x).
        { destruct (hasBlockedEdge g idx); [| exact Hget].
          rewrite geti_seti_ne in Hget by congruence. exact Hget. }
        rewrite (Hflags i x Hget').
        rewrite (existsb_eqb_ext i (seen ++ [idx]) seen)
          by (rewrite Hseen; intuition congruence).
        reflexivity.
    + intros i. rewrite In_pushIf, Hbound, Hseen. split.
      * intros [[Hin Hb] | [Hb ->]]; [tauto |]. split; [now right |]. now rewrite Hc, Hb.
      * intros [[Hin | ->] Hb]; [tauto |]. right. rewrite Hc in Hb. simpl in Hb. tauto.
    + intros i. rewrite in_app_iff, Hclear, Hseen. simpl. split.
      * intros [[Hin Hi] | [-> | []]]; [tauto |]. split; [now right | exact Hc].
      * intros [[Hin | ->] Hi]; [tauto |]. right. now left.
    + intros i. rewrite !In_pushIf, Hseen. intros Hin.
      destruct Hin as [[Hin | [_ ->]] | [[Hin | [_ ->]] | [[Hin | [_ ->]] | [Hin | [_ ->]]]]];
        try (now right); left; apply Hsides; tauto.
  - split; [| split; [| split; [| split]]].
    + exact Hlen.
    + intros i x Hget. rewrite (Hflags i x Hget).
      destruct (Z.eq_dec i idx) as [-> | Hne].
      * rewrite Hc. now rewrite !andb_false_r.
      * rewrite (existsb_eqb_ext i (seen ++ [idx]) seen)
          by (rewrite Hseen; intuition congruence).
        reflexivity.
    + intros i. rewrite Hbound, Hseen. split; [tauto |].
      intros [[Hin | ->] Hb]; [tauto |]. rewrite Hc in Hb. discriminate.
    + intros i. rewrite Hclear, Hseen. split; [tauto |].
      intros [[Hin | ->] Hi]; [tauto | congruence].
    + intros i Hin. apply Hseen. left. now apply Hsides.
Qed.

Lemma classifyFrom_inv (g : WorkerGrid) (token activeToken : Z) (indices seen : list Z)
  (pools result : Pools) :
  NoDup (seen ++ indices) ->
  classifiedInv g seen pools ->
  classifyFrom g token activeToken indices pools = Some result ->
  classifiedInv g (seen ++ indices) result.
Proof.
  revert seen pools. induction indices as [| idx rest IH]; intros seen pools Hnd Hinv Hrun.
  - simpl in Hrun. inversion Hrun. subst result. now rewrite app_nil_r.
  - simpl in Hrun. destruct (shouldCancel idx token activeToken); [discriminate |].
    replace (seen ++ idx :: rest) with ((seen ++ [idx]) ++ rest) in *
      by (rewrite <- app_assoc; reflexivity).
    apply IH with (pools := classifyVertex g pools idx); [exact Hnd | | exact Hrun].
    apply classifyVertex_inv; [| exact Hinv].
    apply NoDup_app in Hnd. destruct Hnd as [Hnd _].
    apply NoDup_app in Hnd. destruct Hnd as [_ [Hdisj _]].
    intros Hin. apply (Hdisj idx); [now apply list_elem_of_In | apply list_elem_of_In; now left].
Qed.

Lemma classify_inv (g : WorkerGrid) (token activeToken : Z) (pools : Pools) :
  classify g token activeToken = Some pools ->
  classifiedInv g (seqZ 0 (totalVertices g)) pools.
Proof.
  intros Hrun. apply (classifyFrom_inv g token activeToken (seqZ 0 (totalVertices g)) []
                        (initialPools g) pools).
  - simpl. apply NoDup_seqZ.
  - split; [| split; [| split; [| split]]]; simpl.
    + apply length_replicate.
    + intros i x Hget. apply geti_replicate in Hget. now rewrite Hget.
    + intros i. tauto.
    + intros i. tauto.
    + intros i. tauto.
  - exact Hrun.
Qed.

(** C5 (amended): a neighbour offset that leaves the lattice is skipped,
    counting neither as clear nor as blocked.  A vertex is blocked only
    through an in-bounds edge that crosses a sealed boundary or that the
    oracle reports hit, clear through an in-bounds unsealed edge the
    oracle reports free or through an adjacent hole column, and it is
    flagged as boundary exactly when it is both. *)
Theorem classifier_flags (g : WorkerGrid) (token activeToken : Z) (pools : Pools) (idx : Z) :
  classify g token activeToken = Some pools ->
  0 <= idx < totalVertices g ->
  vertexFlags g idx = (hasClearEdge g idx, hasBlockedEdge g idx)
  /\ geti (boundaryFlags pools) idx
     = Some (if hasClearEdge g idx && hasBlockedEdge g idx then 1 else 0)
  /\ (In idx (boundaryIndices pools) <-> hasClearEdge g idx && hasBlockedEdge g idx = true)
  /\ (In idx (anyClearIndices pools) <-> hasClearEdge g idx = true).
Proof.
  intros Hrun Hidx. split; [apply vertexFlags_eq |].
  destruct (classify_inv g token activeToken pools Hrun)
    as [Hlen [Hflags [Hbound [Hclear _]]]].
  assert (Hin : In idx (seqZ 0 (totalVertices g))) by (apply In_seqZ; lia).
  split; [| split].
  - destruct (geti_in_range (boundaryFlags pools) idx) as [x Hx].
    { unfold lengthZ. rewrite Hlen. lia. }
    rewrite Hx. f_equal. rewrite (Hflags idx x Hx).
    rewrite (proj2 (existsb_eqb_In idx _)) by exact Hin. reflexivity.
  - rewrite Hbound. tauto.
  - rewrite Hclear. tauto.
Qed.

End ClassifierFacts.

Lemma classifier_flags_witness :
  exists pools,
    @classify openCity sampleGrid 1 1 = Some pools
    /\ @vertexFlags openCity sampleGrid 0 = (true, false)
    /\ geti (boundaryFlags pools) 0 = Some 0.
Proof.
  destruct (@classify openCity sampleGrid 1 1) as [pools |] eqn:Hrun;
    [| vm_compute in Hrun; discriminate].
  exists pools. split; [reflexivity |].
  assert (Hidx : 0 <= 0 < totalVertices sampleGrid)
    by (vm_compute; split; [discriminate | reflexivity]).
  destruct (@classifier_flags openCity sampleGrid 1 1 pools 0 Hrun Hidx)
    as [Hflags [Hcell _]].
  split; [rewrite Hflags | rewrite Hcell]; vm_compute; reflexivity.
Defined.

(** C5 as the specification states it fails on the first vertex of a
    two-vertex lattice with open edges and no building: twenty-five of
    its offsets leave the lattice, its only edge is free, and it is not
    blocked. *)
Lemma outside_counts_as_blocked_counterexample :
  ~ @outsideCountsAsBlocked openCity sampleGrid.
Proof.
  intros Hclaim.
  assert (Hidx : 0 <= 0 < totalVertices sampleGrid) by (vm_compute; split; [discriminate | reflexivity]).
  specialize (Hclaim 0 Hidx).
  assert (Hblocked : snd (@vertexFlags openCity sampleGrid 0) = true).
  { apply Hclaim.
    exists {| dx := -1; dy := -1; dz := -1; delta := -5;
              cost := @Math_sqrt openCity (3 # 1) |}.
    split; [vm_compute; left; reflexivity | reflexivity]. }
  vm_compute in Hblocked. discriminate.
Qed.

(** ** Messages posted by a build *)

Section PostedFacts.
Context `{Platform}.

Lemma existsb_isError_app (l k : list OutboundMessage) :
  existsb isError (l ++ k) = existsb isError l || existsb isError k.
Proof. apply existsb_app. Qed.

Lemma afterAttempt_no_error (message : BuildMessage) (st : LoopState)
  (result : PathResult) (sc : Scratch) (rng : nat) (pairS pairE pairT : Z) :
  match afterAttempt message st result sc rng pairS pairE pairT with
  | Continue st' | Exit _ st' => existsb isError (emitted st') = existsb isError (emitted st)
  end.
Proof.
  destruct result as [path | |]; simpl; try reflexivity.
  rewrite !existsb_isError_app. destruct (placed st =? 0); simpl;
    now rewrite ?orb_false_r.
Qed.

Lemma placementStep_no_error (message : BuildMessage) (token activeToken : Z)
  (startNodes endNodes : list Z) (st : LoopState) :
  match placementStep message token activeToken startNodes endNodes st with
  | Continue st' | Exit _ st' => existsb isError (emitted st') = existsb isError (emitted st)
  end.
Proof.
  unfold placementStep.
  destruct (negb (placed st <? maxPaths message)); [reflexivity |].
  destruct (negb (token =? activeToken)); [reflexivity |].
  destruct (maxAttemptsOf message <=? attempts st); [reflexivity |].
  destruct (twoSided (grid message)).
  - destruct (buildLoop _ _ _ _ _ _ _ _ _) as [[result sc] rng].
    apply afterAttempt_no_error.
  - destruct ((pairStart st =? -1) || (pairEnd st =? -1) || (maxTries message <=? pairTries st)).
    + destruct (selectPair _ _ _ _ _ _) as [[[pairS pairE] |] rng]; [| reflexivity].
      destruct (aStar _ _ _ _ _ _ _ _) as [result sc]. apply afterAttempt_no_error.
    + destruct (aStar _ _ _ _ _ _ _ _) as [result sc]. apply afterAttempt_no_error.
Qed.

Lemma placementLoop_no_error (message : BuildMessage) (token activeToken : Z)
  (startNodes endNodes : list Z) (fuel : nat) (st : LoopState) :
  existsb isError
    (emitted (snd (placementLoop message token activeToken startNodes endNodes fuel st)))
  = existsb isError (emitted st).
Proof.
  revert st. induction fuel as [| fuel IH]; intros st; [reflexivity |].
  simpl. pose proof (placementStep_no_error message token activeToken startNodes endNodes st)
    as Hstep.
  destruct (placementStep message token activeToken startNodes endNodes st) as [st' | why st'].
  - rewrite IH. exact Hstep.
  - exact Hstep.
Qed.

(** [buildPaths] itself never posts an error message. *)
Lemma buildPaths_no_error (message : BuildMessage) (token activeToken : Z) (rng : nat) :
  existsb isError (posted (buildPaths message token activeToken rng)) = false.
Proof.
  unfold buildPaths.
  destruct (totalVertices (grid message) <? 0); [reflexivity |].
  destruct (cellCount (grid message) <? 0); [reflexivity |].
  destruct (instanceCount (grid message) <? 0); [reflexivity |].
  destruct (totalNodeCount (grid message) <? 0); [reflexivity |].
  destruct (gridZ (grid message) <? 0); [reflexivity |].
  destruct (classify (grid message) token activeToken) as [pools |]; [| reflexivity].
  destruct ((lengthZ (startPool (grid message) pools) =? 0)
            || (lengthZ (endPool (grid message) pools) =? 0)); [reflexivity |].
  destruct (twoSided (grid message)
            && ((lengthZ (startPool (grid message) pools) <? 2)
                || (lengthZ (endPool (grid message) pools) <? 2))); [reflexivity |].
  match goal with
  | |- context [placementLoop ?m ?t ?a ?s ?e ?f ?i] =>
      pose proof (placementLoop_no_error m t a s e f i) as Hloop;
      destruct (placementLoop m t a s e f i) as [why st]
  end.
  simpl in Hloop.
  destruct why; simpl; try exact Hloop;
    destruct (negb (token =? activeToken)); simpl; try exact Hloop;
    rewrite existsb_isError_app, Hloop; reflexivity.
Qed.

Lemma workerRun_app (w : WorkerState) (before after : list InboundMessage) :
  workerRun w (before ++ after)
  = workerRun w before ++ workerRun (workerAfter w before) after.
Proof.
  revert w. induction before as [| m before IH]; intros w; [reflexivity |].
  simpl. destruct (onmessage w m) as [w' out] eqn:Hm. simpl.
  rewrite IH. now rewrite app_assoc.
Qed.

Lemma onmessage_token (w : WorkerState) (m : InboundMessage) :
  activeTokenOf (fst (onmessage w m)) = activeTokenOf w + 1.
Proof. destruct m; reflexivity. Qed.

Lemma onmessage_postings (w : WorkerState) (m : InboundMessage) (p : Posting) :
  In p (snd (onmessage w m)) ->
  inForce p = activeTokenOf w + 1 /\ captured p = activeTokenOf w + 1.
Proof.
  destruct m as [message | c]; simpl; [| tauto].
  rewrite in_map_iff. intros [x [<- _]]. split; reflexivity.
Qed.

Lemma workerAfter_token (w : WorkerState) (inbox : list InboundMessage) :
  activeTokenOf (workerAfter w inbox) = activeTokenOf w + lengthZ inbox.
Proof.
  revert w. induction inbox as [| m inbox IH]; intros w.
  - unfold lengthZ. simpl. lia.
  - simpl workerAfter. rewrite IH, onmessage_token. unfold lengthZ. simpl length. lia.
Qed.

Lemma workerRun_postings (w : WorkerState) (inbox : list InboundMessage) (p : Posting) :
  In p (workerRun w inbox) ->
  inForce p = captured p
  /\ activeTokenOf w < captured p <= activeTokenOf (workerAfter w inbox).
Proof.
  revert w. induction inbox as [| m inbox IH]; intros w; simpl; [tauto |].
  pose proof (onmessage_token w m) as Htok.
  pose proof (onmessage_postings w m p) as Hp.
  destruct (onmessage w m) as [w' out]. simpl in Htok, Hp.
  pose proof (workerAfter_token w' inbox) as Hafter.
  assert (Hlen : 0 <= lengthZ inbox) by (unfold lengthZ; lia).
  cbn [fst]. rewrite in_app_iff. intros [Hin | Hin].
  - destruct (Hp Hin) as [Hforce Hcap]. split; [congruence | lia].
  - destruct (IH w' Hin) as [Heq Hrange]. split; [exact Heq | lia].
Qed.

Lemma classify_stale (g : WorkerGrid) (token activeToken : Z) :
  token <> activeToken -> 0 < totalVertices g -> classify g token activeToken = None.
Proof.
  intros Hstale Hsome. unfold classify. rewrite seqZ_cons by lia. simpl.
  unfold shouldCancel. apply Z.eqb_neq in Hstale. rewrite Hstale. reflexivity.
Qed.

(** What the token tests do once they fail: a build run while the global
    token differs from its own posts no path, and on a lattice with at
    least one vertex it posts nothing after its start message, hence no
    done message. *)
Lemma stale_build_posts (message : BuildMessage) (token activeToken : Z) (rng : nat) :
  token <> activeToken ->
  pathsOf (posted (buildPaths message token activeToken rng)) = []
  /\ (0 < totalVertices (grid message) ->
      posted (buildPaths message token activeToken rng) = []
      \/ posted (buildPaths message token activeToken rng)
         = [DebugMessage (msg_id message) StageStart (startDetail message)]).
Proof.
  intros Hstale.
  assert (Hneq : negb (token =? activeToken) = true)
    by (apply negb_true_iff; now apply Z.eqb_neq).
  split.
  - unfold buildPaths.
    destruct (totalVertices (grid message) <? 0); [reflexivity |].
    destruct (cellCount (grid message) <? 0); [reflexivity |].
    destruct (instanceCount (grid message) <? 0); [reflexivity |].
    destruct (totalNodeCount (grid message) <? 0); [reflexivity |].
    destruct (gridZ (grid message) <? 0); [reflexivity |].
    destruct (classify (grid message) token activeToken) as [pools |]; [| reflexivity].
    destruct ((lengthZ (startPool (grid message) pools) =? 0)
              || (lengthZ (endPool (grid message) pools) =? 0)); [reflexivity |].
    destruct (twoSided (grid message)
              && ((lengthZ (startPool (grid message) pools) <? 2)
                  || (lengthZ (endPool (grid message) pools) <? 2))); [reflexivity |].
    destruct (placementFuel message) as [| fuel].
    + simpl. rewrite Hneq. reflexivity.
    + simpl. unfold placementStep. simpl.
      destruct (negb (0 <? maxPaths message)); simpl; rewrite Hneq; reflexivity.
  - intros Hsome. unfold buildPaths.
    destruct (totalVertices (grid message) <? 0); [now left |].
    destruct (cellCount (grid message) <? 0); [now left |].
    destruct (instanceCount (grid message) <? 0); [now left |].
    destruct (totalNodeCount (grid message) <? 0); [now left |].
    destruct (gridZ (grid message) <? 0); [now right |].
    rewrite (classify_stale (grid message) token activeToken Hstale Hsome). now right.
Qed.

Lemma placementLoop_stale (message : BuildMessage) (token activeToken : Z)
  (startNodes endNodes : list Z) (fuel : nat) (st : LoopState) :
  token <> activeToken ->
  snd (placementLoop message token activeToken startNodes endNodes fuel st) = st.
Proof.
  intros Hstale. destruct fuel as [| fuel]; [reflexivity |].
  simpl. unfold placementStep.
  destruct (negb (placed st <? maxPaths message)); [reflexivity |].
  apply Z.eqb_neq in Hstale. rewrite Hstale. reflexivity.
Qed.

Lemma aStar_stale (g : WorkerGrid) (cap token activeToken : Z) (nodeUsage : list Z)
  (sc : Scratch) (startIndex endIndex : Z) :
  token <> activeToken ->
  fst (aStar g cap token activeToken nodeUsage sc startIndex endIndex)
  = if cellGe nodeUsage startIndex cap || cellGe nodeUsage endIndex cap
    then Failed else Cancelled.
Proof.
  intros Hstale. unfold aStar.
  destruct (cellGe nodeUsage startIndex cap || cellGe nodeUsage endIndex cap);
    [reflexivity |].
  destruct (getNodeCoords g startIndex) as [[sx sy] sz].
  destruct (heapPush _ startIndex _ 0) as [sc2 heapSize] eqn:Hpush.
  assert (Hsize : heapSize = 1).
  { unfold heapPush in Hpush. destruct (siftUp _ _ _ _ _ _) as [indices scores].
    inversion Hpush. reflexivity. }
  subst heapSize. unfold searchFuel.
  replace (31 * length (closed sc2) + 2)%nat
    with (S (31 * length (closed sc2) + 1))%nat by lia.
  cbn [searchLoop]. change (1 <=? 0) with false. cbv iota.
  unfold shouldCancel. apply Z.eqb_neq in Hstale. rewrite Hstale. reflexivity.
Qed.


(** C8: when the build of a message throws, the handler posts what the
    build had posted so far followed by one error message that carries
    the request id and the exception text; the build itself posts no
    error message; the handler returns a worker state, and the rest of
    the queue is handled from it. *)
Theorem build_exception_is_reported (w : WorkerState) (message : BuildMessage)
  (text : string) (rest : list InboundMessage) :
  let token := activeTokenOf w + 1 in
  let outcome := buildPaths message token token (randomUsed w) in
  completion outcome = Threw text ->
  map payload (snd (onmessage w (Build message)))
  = posted outcome ++ [ErrorMessage (msg_id message) text]
  /\ existsb isError (posted outcome) = false
  /\ activeTokenOf (fst (onmessage w (Build message))) = token
  /\ workerRun w (Build message :: rest)
     = snd (onmessage w (Build message))
       ++ workerRun (fst (onmessage w (Build message))) rest.
Proof.
  intros token outcome Hthrow. split; [| split; [| split]].
  - simpl. fold token. fold outcome. rewrite Hthrow. rewrite map_map. simpl.
    now rewrite map_id.
  - apply buildPaths_no_error.
  - reflexivity.
  - simpl. reflexivity.
Qed.

End PostedFacts.



Lemma build_exception_is_reported_witness :
  map payload (snd (@onmessage openCity initialWorker (Build negativeRowsMessage)))
  = [DebugMessage 42 StageStart (startDetail negativeRowsMessage);
     ErrorMessage 42 "Invalid typed array length"%string].
Proof.
  destruct (@build_exception_is_reported openCity initialWorker negativeRowsMessage
              "Invalid typed array length"%string [] eq_refl) as [Hposted _].
  rewrite Hposted. reflexivity.
Defined.

(** ** Placement loop *)

Section PlacementFacts.
Context `{Platform}.

Lemma searchLoop_cancelled (g : WorkerGrid) (cap : Z) (nodeUsage : list Z)
  (endCoords : Coords) (token activeToken endIndex : Z) (fuel : nat)
  (sc sc' : Scratch) (heapSize iterations : Z) :
  searchLoop g cap nodeUsage endCoords token activeToken endIndex fuel sc heapSize iterations
  = LoopCancelled sc' ->
  token <> activeToken.
Proof.
  revert sc heapSize iterations. induction fuel as [| fuel IH]; intros sc heapSize iterations;
    simpl; [discriminate |].
  destruct (heapSize <=? 0); [discriminate |].
  destruct (shouldCancel iterations token activeToken) eqn:Hc.
  - intros _. unfold shouldCancel in Hc. apply andb_true_iff in Hc. destruct Hc as [_ Hc].
    apply negb_true_iff in Hc. apply Z.eqb_neq in Hc. exact Hc.
  - destruct (heapPop sc heapSize) as [[[[idx score] sc1] size1] |]; [| discriminate].
    destruct (cellIs (closed sc1) idx (stamp sc1)); [apply IH |].
    destruct (idx =? endIndex); [discriminate |].
    destruct (if idx <? holeCenterBaseIndex g
              then expandLattice g cap nodeUsage endCoords idx (setClosed sc1 idx, size1)
              else expandHole g cap nodeUsage endCoords idx (setClosed sc1 idx, size1))
      as [sc3 size3].
    apply IH.
Qed.

Lemma aStar_cancelled (g : WorkerGrid) (cap token activeToken : Z) (nodeUsage : list Z)
  (sc sc' : Scratch) (startIndex endIndex : Z) :
  aStar g cap token activeToken nodeUsage sc startIndex endIndex = (Cancelled, sc') ->
  token <> activeToken.
Proof.
  unfold aStar.
  destruct (cellGe nodeUsage startIndex cap || cellGe nodeUsage endIndex cap);
    [discriminate |].
  destruct (getNodeCoords g startIndex) as [[sx sy] sz].
  destruct (heapPush _ _ _ _) as [sc2 heapSize].
  destruct (searchLoop _ _ _ _ _ _ _ _ _ _ _) as [sc3 | sc3 | sc3] eqn:Hloop.
  - destruct (cellIsNot (closed sc3) endIndex (stamp sc3)); [discriminate |].
    destruct (walkParents _ _ _ _ _) as [[path current] |]; [| discriminate].
    destruct (current =? startIndex); discriminate.
  - intros _. eapply searchLoop_cancelled. exact Hloop.
  - destruct (cellIsNot (closed sc3) endIndex (stamp sc3)); [discriminate |].
    destruct (walkParents _ _ _ _ _) as [[path current] |]; [| discriminate].
    destruct (current =? startIndex); discriminate.
Qed.

Lemma buildLoop_cancelled (g : WorkerGrid) (cap token activeToken : Z)
  (startNodes endNodes nodeUsage : list Z) (sc sc' : Scratch) (rng rng' : nat) :
  buildLoop g cap token activeToken startNodes endNodes nodeUsage sc rng
  = (Cancelled, sc', rng') ->
  token <> activeToken.
Proof.
  unfold buildLoop.
  destruct (pickDistinct startNodes 2 nodeUsage cap rng) as [sideA rng1].
  destruct (pickDistinct endNodes 2 nodeUsage cap rng1) as [sideB rng2].
  destruct sideA as [[| a1 [| a2 restA]] |]; try discriminate;
    destruct sideB as [[| b1 [| b2 restB]] |]; try discriminate.
  destruct (aStar g cap token activeToken nodeUsage sc a1 a2) as [[seg1 | |] sc1] eqn:H1;
    try discriminate; [| intros _; eapply aStar_cancelled; exact H1].
  destruct (aStar g cap token activeToken nodeUsage sc1 a2 b1) as [[seg2 | |] sc2] eqn:H2;
    try discriminate; [| intros _; eapply aStar_cancelled; exact H2].
  destruct (aStar g cap token activeToken nodeUsage sc2 b1 b2) as [[seg3 | |] sc3] eqn:H3;
    try discriminate; [| intros _; eapply aStar_cancelled; exact H3].
  destruct (aStar g cap token activeToken nodeUsage sc3 b2 a1) as [[seg4 | |] sc4] eqn:H4;
    try discriminate. intros _; eapply aStar_cancelled; exact H4.
Qed.

Section Loop.
Variable message : BuildMessage.
Variable token activeToken : Z.
Variable startNodes endNodes : list Z.

Local Abbreviation step := (placementStep message token activeToken startNodes endNodes).
Local Abbreviation loop := (placementLoop message token activeToken startNodes endNodes).

Lemma afterAttempt_progress (st : LoopState) (result : PathResult) (sc : Scratch)
  (rng : nat) (pairS pairE pairT : Z) :
  result <> Cancelled ->
  exists st', afterAttempt message st result sc rng pairS pairE pairT = Continue st'
    /\ ((placed st' = placed st + 1 /\ attempts st' = attempts st)
        \/ (placed st' = placed st /\ attempts st' = attempts st + 1)).
Proof.
  intros Hres. destruct result as [path | |]; simpl.
  - eexists. split; [reflexivity |]. left. split; reflexivity.
  - eexists. split; [reflexivity |]. right. split; reflexivity.
  - congruence.
Qed.

Lemma placementStep_spec (st : LoopState) :
  (exists st', step st = Continue st' /\ passProgress message token activeToken st st')
  \/ (exists why st', step st = Exit why st'
        /\ placed st' = placed st /\ attempts st' = attempts st /\ usage st' = usage st
        /\ exitCondition message token activeToken startNodes endNodes why st').
Proof.
  unfold placementStep.
  destruct (placed st <? maxPaths message) eqn:Hplaced; simpl.
  2: { right. exists ExitPlaced, st. repeat split. simpl. lia. }
  apply Z.ltb_lt in Hplaced.
  destruct (token =? activeToken) eqn:Htoken; simpl.
  2: { right. exists ExitToken, st. apply Z.eqb_neq in Htoken. repeat split; assumption. }
  apply Z.eqb_eq in Htoken.
  destruct (maxAttemptsOf message <=? attempts st) eqn:Hattempts.
  { right. exists ExitAttempts, st. apply Z.leb_le in Hattempts. repeat split; assumption. }
  apply Z.leb_gt in Hattempts.
  assert (Hafter : forall result sc rng pairS pairE pairT,
             result <> Cancelled ->
             (exists st', afterAttempt message st result sc rng pairS pairE pairT
                          = Continue st' /\ passProgress message token activeToken st st')
             \/ (exists why st',
                    afterAttempt message st result sc rng pairS pairE pairT = Exit why st'
                    /\ placed st' = placed st /\ attempts st' = attempts st
                    /\ usage st' = usage st
                    /\ exitCondition message token activeToken startNodes endNodes why st')).
  { intros result sc rng pairS pairE pairT Hres. left.
    destruct (afterAttempt_progress st result sc rng pairS pairE pairT Hres)
      as [st' [Hstep Hprog]].
    exists st'. split; [exact Hstep |]. repeat split; assumption. }
  destruct (twoSided (grid message)) eqn:Hsided.
  - destruct (buildLoop _ _ _ _ _ _ _ _ _) as [[result sc] rng] eqn:Hloop.
    apply Hafter. intros ->. apply buildLoop_cancelled in Hloop. contradiction.
  - destruct ((pairStart st =? -1) || (pairEnd st =? -1) || (maxTries message <=? pairTries st)).
    + destruct (selectPair _ _ _ _ _ _) as [[[pairS pairE] |] rng] eqn:Hpair.
      * destruct (aStar _ _ _ _ _ _ _ _) as [result sc] eqn:Hsearch.
        apply Hafter. intros ->. apply aStar_cancelled in Hsearch. contradiction.
      * right. exists ExitNoPair. eexists. split; [reflexivity |]. simpl.
        repeat split; try assumption. exists (randomCalls st). now rewrite Hpair.
    + destruct (aStar _ _ _ _ _ _ _ _) as [result sc] eqn:Hsearch.
      apply Hafter. intros ->. apply aStar_cancelled in Hsearch. contradiction.
Qed.

Lemma placementLoop_stops (fuel : nat) (st : LoopState) :
  (Z.to_nat (Z.max 0 (maxPaths message - placed st)
             + Z.max 0 (maxAttemptsOf message - attempts st)) < fuel)%nat ->
  exitCondition message token activeToken startNodes endNodes
                (fst (loop fuel st)) (snd (loop fuel st)).
Proof.
  revert st. induction fuel as [| fuel IH]; intros st Hfuel; [lia |].
  simpl. destruct (placementStep_spec st) as [[st' [Hstep Hprog]] | [why [st' [Hstep Hexit]]]].
  - rewrite Hstep. apply IH. destruct Hprog as [Hp [_ [Ha Hmove]]]. lia.
  - rewrite Hstep. simpl. tauto.
Qed.

End Loop.

(** C7 (amended): the placement loop terminates: run with the fuel
    [placementFuel] from its initial variables it is left for one of
    four reasons, each with its condition: [placed] has reached
    [maxPaths]; the number of failed attempts has reached
    [max(1, maxPaths * maxTries)]; the captured token differs from the
    global token; or, in single-path mode, [selectPair] found no pair of
    endpoints below their cap.  A pass that stays in the loop found none
    of these conditions true, and it adds one either to [placed] (a path
    was accepted; [attempts] is unchanged) or to [attempts] (the attempt
    failed). *)
Theorem placement_loop_stops (message : BuildMessage) (token activeToken : Z)
  (startNodes endNodes : list Z) (rng : nat) (out : list OutboundMessage) :
  let run :=
    placementLoop message token activeToken startNodes endNodes
                  (placementFuel message) (initialLoopState (grid message) rng out) in
  exitCondition message token activeToken startNodes endNodes (fst run) (snd run)
  /\ (forall st st',
        placementStep message token activeToken startNodes endNodes st = Continue st' ->
        passProgress message token activeToken st st')
  /\ (forall st why st',
        placementStep message token activeToken startNodes endNodes st = Exit why st' ->
        exitCondition message token activeToken startNodes endNodes why st').
Proof.
  split; [| split].
  - apply placementLoop_stops. unfold placementFuel, initialLoopState, maxAttemptsOf. simpl. lia.
  - intros st st' Hstep.
    destruct (placementStep_spec message token activeToken startNodes endNodes st)
      as [[st1 [Hstep1 Hprog]] | [why [st1 [Hstep1 _]]]]; [| congruence].
    rewrite Hstep in Hstep1. inversion Hstep1. subst st1. exact Hprog.
  - intros st why st' Hstep.
    destruct (placementStep_spec message token activeToken startNodes endNodes st)
      as [[st1 [Hstep1 _]] | [why1 [st1 [Hstep1 [_ [_ [_ Hexit]]]]]]]; [congruence |].
    rewrite Hstep in Hstep1. inversion Hstep1. subst why1 st1. exact Hexit.
Qed.

End PlacementFacts.

(** C7 as the specification states it fails on the two-vertex lattice:
    after the first path both vertices are at their cap, [selectPair]
    finds no pair and the loop is left with one path placed out of two,
    one attempt made out of six, and the token unchanged. *)
Lemma stops_on_three_conditions_counterexample :
  ~ @stopsOnThreeConditions openCity twoPathsMessage 1 1 0.
Proof.
  intros Hclaim.
  destruct (@classify openCity sampleGrid 1 1) as [pools |] eqn:Hrun;
    [| vm_compute in Hrun; discriminate].
  specialize (Hclaim pools Hrun). cbv zeta in Hclaim.
  vm_compute in Hrun. inversion Hrun. subst pools. clear Hrun.
  vm_compute in Hclaim. destruct Hclaim as [Hp | [Ha | Ht]];
    [discriminate | apply Ha; reflexivity | apply Ht; reflexivity].
Qed.

(** ** Path search: what a found path is made of *)

Arguments cornerOffsets : simpl never.
Arguments holeCells : simpl never.
Arguments holeIndexByCell : simpl never.

Section SearchFacts.
Context `{Platform}.

Lemma cellIs_true (l : list Z) (i v : Z) :
  cellIs l i v = true <-> geti l i = Some v.
Proof.
  unfold cellIs. destruct (geti l i) as [x |]; [| split; discriminate].
  rewrite Z.eqb_eq. split; congruence.
Qed.

Lemma cellIs_seti_eq (l : list Z) (i v : Z) :
  0 <= i < lengthZ l -> cellIs (seti l i v) i v = true.
Proof. intros Hi. apply cellIs_true. now apply geti_seti_eq. Qed.

Lemma cellIs_seti_ne (l : list Z) (i j v w : Z) :
  i <> j -> cellIs (seti l i v) j w = cellIs l j w.
Proof. intros Hne. unfold cellIs. now rewrite geti_seti_ne. Qed.

Lemma cellIs_seti_mono (l : list Z) (i j v : Z) :
  cellIs l j v = true -> cellIs (seti l i v) j v = true.
Proof.
  intros Hj. destruct (Z.eq_dec i j) as [-> | Hne].
  - apply cellIs_seti_eq. apply cellIs_true in Hj. now apply geti_Some_range in Hj.
  - now rewrite cellIs_seti_ne.
Qed.

Lemma cellIs_range (l : list Z) (i v : Z) : cellIs l i v = true -> 0 <= i < lengthZ l.
Proof. intros Hi. apply cellIs_true in Hi. now apply geti_Some_range in Hi. Qed.

Lemma siftUp_lengths (fuel : nat) (indices : list Z) (scores : list num) (i idx : Z)
  (score : num) :
  length (fst (siftUp fuel indices scores i idx score)) = length indices.
Proof.
  revert indices scores i. induction fuel as [| fuel IH]; intros indices scores i;
    [reflexivity |].
  simpl. destruct (i <=? 0); [reflexivity |].
  destruct (num_le _ _); [reflexivity |]. rewrite IH. now rewrite !length_seti.
Qed.

Lemma heapPush_core (sc : Scratch) (idx : Z) (score : num) (size : Z) :
  sameCore sc (fst (heapPush sc idx score size)).
Proof.
  unfold heapPush. destruct (siftUp _ _ _ _ _ _) as [indices scores].
  repeat split; reflexivity.
Qed.

Lemma heapPush_size (sc : Scratch) (idx : Z) (score : num) (size : Z) :
  snd (heapPush sc idx score size) = size + 1.
Proof. unfold heapPush. destruct (siftUp _ _ _ _ _ _). reflexivity. Qed.

Lemma heapPop_core (sc sc' : Scratch) (size size' idx : Z) (score : num) :
  heapPop sc size = Some (idx, score, sc', size') ->
  sameCore sc sc' /\ size' = size - 1 /\ size <> 0.
Proof.
  unfold heapPop. destruct (size =? 0) eqn:Hsize; [discriminate |].
  apply Z.eqb_neq in Hsize.
  destruct (if 0 <? size - 1 then _ else _) as [indices scores].
  intros Hpop. inversion Hpop. subst. repeat split; try reflexivity. exact Hsize.
Qed.

Section OneSearch.
Variable g : WorkerGrid.
Variable cap : Z.
Variable nodeUsage : list Z.
Variable endCoords : Coords.
Variable startIndex : Z.
Variable s : Z.

Local Abbreviation Inv := (SearchInv g cap nodeUsage startIndex s).

Lemma SearchInv_core (rank : Z -> nat) (k : nat) (sc sc' : Scratch) :
  sameCore sc sc' -> Inv rank k sc -> Inv rank k sc'.
Proof.
  intros [Hp [Hc [Hg Hs]]] [Hstamp Hl1 Hl2 Hl3 Hf1 Hf2 Hlabel Hrank].
  split; rewrite ?Hp, ?Hc, ?Hg, ?Hs; assumption.
Qed.

(** A relaxation keeps the invariant when it enters a node that is not
    closed, along an edge, from a node that is closed if it lies inside
    the arrays. *)
Lemma relax_inv (rank : Z -> nat) (k : nat) (sc : Scratch) (heapSize idx nIdx : Z)
  (tentative : num) (h : Q) :
  Inv rank k sc ->
  cellIs (closed sc) nIdx s = false ->
  searchEdge g cap nodeUsage idx nIdx ->
  (0 <= idx < lengthZ nodeUsage -> cellIs (closed sc) idx s = true) ->
  Inv rank k (fst (relax sc heapSize idx nIdx tentative h))
  /\ closed (fst (relax sc heapSize idx nIdx tentative h)) = closed sc.
Proof.
  intros HI Hopen Hedge Hidx. unfold relax.
  destruct (cellIsNot (gStamp sc) nIdx (stamp sc) || _); [| split; [exact HI | reflexivity]].
  match goal with
  | |- context [heapPush ?x ?i ?v ?z] =>
      pose proof (heapPush_core x i v z) as Hcore; set (pushed := heapPush x i v z) in *
  end.
  split; [| destruct Hcore as [_ [Hc _]]; exact Hc].
  eapply SearchInv_core; [exact Hcore |].
  destruct HI as [Hstamp Hl1 Hl2 Hl3 Hf1 Hf2 Hlabel Hrank].
  split; simpl; rewrite ?length_seti; try assumption.
  - intros n x Hget. apply geti_seti_inv in Hget.
    destruct Hget as [[_ ->] | [_ Hget]]; [lia | eauto].
  - rewrite Hstamp. intros n Hn. destruct (Z.eq_dec n nIdx) as [-> | Hne].
    + right. exists idx. apply cellIs_range in Hn. rewrite lengthZ_seti in Hn.
      split; [apply geti_seti_eq; unfold lengthZ in *; lia |].
      split; [exact Hedge |]. split; [exact Hidx |]. intros Hclosed. congruence.
    + rewrite cellIs_seti_ne in Hn by congruence.
      destruct (Hlabel n Hn) as [-> | [p [Hp Hrest]]]; [now left |].
      right. exists p. split; [| exact Hrest]. rewrite geti_seti_ne by congruence. exact Hp.
Qed.

(** Closing the popped node keeps the invariant, with the next rank given
    to the node. *)
Lemma setClosed_inv (rank : Z -> nat) (k : nat) (sc : Scratch) (idx : Z) :
  Inv rank k sc ->
  cellIs (closed sc) idx s = false ->
  Inv (fun n => if n =? idx then k else rank n) (S k) (setClosed sc idx)
  /\ (0 <= idx < lengthZ nodeUsage -> cellIs (closed (setClosed sc idx)) idx s = true).
Proof.
  intros [Hstamp Hl1 Hl2 Hl3 Hf1 Hf2 Hlabel Hrank] Hopen. split.
  - split; simpl; rewrite ?length_seti; try assumption.
    + intros n x Hget. rewrite Hstamp in Hget. apply geti_seti_inv in Hget.
      destruct Hget as [[_ ->] | [_ Hget]]; [lia | eauto].
    + rewrite Hstamp. intros n Hn.
      destruct (Hlabel n Hn) as [-> | [p [Hp [Hedge [Hpc Hpr]]]]]; [now left |].
      right. exists p. split; [exact Hp |]. split; [exact Hedge |]. split.
      * intros Hin. apply cellIs_seti_mono. now apply Hpc.
      * intros Hnc Hin. specialize (Hpc Hin).
        assert (Hpne : p <> idx) by (intros ->; congruence).
        destruct (p =? idx) eqn:Hpi; [apply Z.eqb_eq in Hpi; contradiction |].
        destruct (n =? idx) eqn:Hni.
        -- now apply Hrank.
        -- apply Z.eqb_neq in Hni. rewrite cellIs_seti_ne in Hnc by congruence.
           now apply Hpr.
    + rewrite Hstamp. intros n Hn. destruct (n =? idx) eqn:Hni; [lia |].
      apply Z.eqb_neq in Hni. rewrite cellIs_seti_ne in Hn by congruence.
      specialize (Hrank n Hn). lia.
  - intros Hin. simpl. rewrite Hstamp. apply cellIs_seti_eq.
    unfold lengthZ in *. lia.
Qed.

End OneSearch.
End SearchFacts.

Section ExpansionFacts.
Context `{Platform}.

Lemma fold_left_invariant {A B : Type} (P : A -> Prop) (f : A -> B -> A)
  (l : list B) (a : A) :
  P a -> (forall x b, In x l -> P b -> P (f b x)) -> P (fold_left f l a).
Proof.
  revert a. induction l as [| x l IH]; intros a Ha Hstep; [exact Ha |].
  simpl. apply IH.
  - apply Hstep; [now left | exact Ha].
  - intros y b Hy. apply Hstep. now right.
Qed.

Variable g : WorkerGrid.
Variable cap : Z.
Variable nodeUsage : list Z.
Variable endCoords : Coords.
Variable startIndex : Z.
Variable s : Z.
Variable rank : Z -> nat.
Variable k : nat.
Variable idx : Z.

Local Abbreviation expanding := (expanding g cap nodeUsage startIndex s rank k idx).

Lemma expanding_relax (sc : Scratch) (heapSize nIdx : Z) (tentative : num) (h : Q) :
  expanding (sc, heapSize) ->
  cellIs (closed sc) nIdx (stamp sc) = false ->
  searchEdge g cap nodeUsage idx nIdx ->
  expanding (relax sc heapSize idx nIdx tentative h).
Proof.
  intros [HI Hidx] Hopen Hedge. simpl in HI, Hidx.
  assert (Hs : stamp sc = s) by (destruct HI; assumption). rewrite Hs in Hopen.
  destruct (relax_inv g cap nodeUsage startIndex s rank k sc heapSize idx nIdx tentative h
              HI Hopen Hedge Hidx) as [HI' Hclosed].
  split; [exact HI' |]. rewrite Hclosed. exact Hidx.
Qed.

Lemma relaxNeighbor_expanding (baseCost : num) (st : Scratch * Z) (o : NeighborOffset) :
  idx < holeCenterBaseIndex g -> In o (neighborOffsets g) ->
  expanding st -> expanding (relaxNeighbor g cap nodeUsage endCoords idx baseCost st o).
Proof.
  intros Hbase Ho Hst. destruct st as [sc heapSize]. unfold relaxNeighbor.
  destruct (inLattice g (ixOf g idx + dx o) (iyOf g idx + dy o) (izOf g idx + dz o))
    eqn:Hin; simpl; [| exact Hst].
  destruct (isBoundaryEdge g (ixOf g idx) (ixOf g idx + dx o) (izOf g idx)
              (izOf g idx + dz o)) eqn:Hseal; [exact Hst |].
  destruct (cellGe nodeUsage (idx + delta o) cap) eqn:Hcap; [exact Hst |].
  destruct (cellIs (closed sc) (idx + delta o) (stamp sc)) eqn:Hclosed; [exact Hst |].
  destruct (segmentHitsBuildings g idx (idx + delta o)) eqn:Hhit; [exact Hst |].
  apply expanding_relax; [exact Hst | exact Hclosed |].
  exists (cost o). unfold edgesFrom.
  destruct (idx <? holeCenterBaseIndex g) eqn:Hlt; [| apply Z.ltb_ge in Hlt; lia].
  apply in_or_app. left. unfold latticeEdges. apply in_flat_map. exists o.
  split; [exact Ho |]. rewrite Hin, Hseal, Hcap, Hhit. simpl. now left.
Qed.

Lemma relaxHoleCenter_expanding (baseCost : num) (st : Scratch * Z) (cell : Z * Z) :
  idx < holeCenterBaseIndex g -> 0 < holeCenterCount g ->
  In cell (adjacentCells g (ixOf g idx) (izOf g idx)) ->
  expanding st -> expanding (relaxHoleCenter g cap nodeUsage endCoords idx baseCost st cell).
Proof.
  intros Hbase Hholes Hcell Hst. destruct st as [sc heapSize]. unfold relaxHoleCenter.
  destruct cell as [cellX cellZ].
  destruct (holeIndexAt g cellX cellZ) as [holeIndex |] eqn:Hhole; [| exact Hst].
  destruct (cellGe nodeUsage _ cap) eqn:Hcap; [exact Hst |].
  destruct (cellIs (closed sc) _ (stamp sc)) eqn:Hclosed; [exact Hst |].
  apply expanding_relax; [exact Hst | exact Hclosed |].
  eexists. unfold edgesFrom.
  destruct (idx <? holeCenterBaseIndex g) eqn:Hlt; [| apply Z.ltb_ge in Hlt; lia].
  apply in_or_app. right. unfold holeEntryEdges.
  destruct (0 <? holeCenterCount g) eqn:Hpos; [| apply Z.ltb_ge in Hpos; lia].
  apply in_flat_map. exists (cellX, cellZ). split; [exact Hcell |].
  simpl. rewrite Hhole, Hcap. now left.
Qed.

Lemma expandLattice_expanding (st : Scratch * Z) :
  idx < holeCenterBaseIndex g ->
  expanding st -> expanding (expandLattice g cap nodeUsage endCoords idx st).
Proof.
  intros Hbase Hst. unfold expandLattice.
  set (baseCost := baseCostOf (fst st) idx).
  assert (Hfirst : expanding (fold_left (relaxNeighbor g cap nodeUsage endCoords idx baseCost)
                                         (neighborOffsets g) st)).
  { apply fold_left_invariant; [exact Hst |].
    intros o b Ho Hb. now apply relaxNeighbor_expanding. }
  destruct (0 <? holeCenterCount g) eqn:Hholes; [| exact Hfirst].
  apply Z.ltb_lt in Hholes. apply fold_left_invariant; [exact Hfirst |].
  intros cell b Hcell Hb. now apply relaxHoleCenter_expanding.
Qed.

End ExpansionFacts.

Section HoleExpansionFacts.
Context `{Platform}.
Variable g : WorkerGrid.
Variable cap : Z.
Variable nodeUsage : list Z.
Variable endCoords : Coords.
Variable startIndex : Z.
Variable s : Z.
Variable rank : Z -> nat.
Variable k : nat.
Variable idx : Z.

Local Abbreviation expandingHere := (expanding g cap nodeUsage startIndex s rank k idx).

Lemma relaxVertical_expanding (nIdx : Z) (baseCost : num) (x0 y1 z0 : Q)
  (st : Scratch * Z) :
  searchEdge g cap nodeUsage idx nIdx ->
  expandingHere st ->
  expandingHere (relaxVertical g endCoords idx nIdx baseCost x0 y1 z0 st).
Proof.
  intros Hedge Hst. destruct st as [sc heapSize]. unfold relaxVertical.
  destruct (cellIsNot (closed sc) nIdx (stamp sc)) eqn:Hopen; [| exact Hst].
  apply expanding_relax; [exact Hst | | exact Hedge].
  unfold cellIsNot in Hopen. now apply negb_true_iff in Hopen.
Qed.

Lemma expandHole_expanding (st : Scratch * Z) :
  holeCenterBaseIndex g <= idx ->
  expandingHere st -> expandingHere (expandHole g cap nodeUsage endCoords idx st).
Proof.
  intros Hbase Hst. unfold expandHole.
  destruct (((idx - holeCenterBaseIndex g) / vertexCountY g <? 0)
            || (Z.of_nat (length (holeCells g))
                <=? (idx - holeCenterBaseIndex g) / vertexCountY g)) eqn:Hcol;
    [exact Hst |].
  set (holeIndex := (idx - holeCenterBaseIndex g) / vertexCountY g) in *.
  set (iy := idx - holeCenterBaseIndex g - holeIndex * vertexCountY g).
  set (cellX := Z.rem (getInt (holeCells g) holeIndex) (gridX g)).
  set (cellZ := getInt (holeCells g) holeIndex / gridX g).
  set (baseCost := baseCostOf (fst st) idx).
  assert (Hedges : edgesFrom g cap nodeUsage idx = holeEdges g cap nodeUsage idx).
  { unfold edgesFrom. destruct (idx <? holeCenterBaseIndex g) eqn:Hlt; [| reflexivity].
    apply Z.ltb_lt in Hlt. lia. }
  assert (Hcorners : expandingHere
            (fold_left (relaxCorner g cap nodeUsage endCoords idx cellX cellZ iy baseCost)
                       cornerOffsets st)).
  { apply fold_left_invariant; [exact Hst |].
    intros corner b Hcorner Hb. destruct b as [sc heapSize]. unfold relaxCorner.
    destruct (cellGe nodeUsage _ cap) eqn:Hcap; [exact Hb |].
    destruct (cellIs (closed sc) _ (stamp sc)) eqn:Hclosed; [exact Hb |].
    apply expanding_relax; [exact Hb | exact Hclosed |].
    eexists. rewrite Hedges. unfold holeEdges. fold holeIndex. rewrite Hcol.
    apply in_or_app. left. apply in_flat_map. exists corner. split; [exact Hcorner |].
    fold iy. fold cellX. fold cellZ. rewrite Hcap. now left. }
  set (st1 := fold_left _ cornerOffsets st) in *.
  destruct ((0 <? iy) && cellGe nodeUsage (idx - 1) cap) eqn:Hskip; [exact Hcorners |].
  assert (Hdown : expandingHere
            (if 0 <? iy
             then relaxVertical g endCoords idx (idx - 1) baseCost
                    (gridStartX g + inject_Z cellX * step g)%Q
                    (vertexStartY g + inject_Z iy * voxelHeight g - voxelHeight g)%Q
                    (gridStartZ g + inject_Z cellZ * step g)%Q st1
             else st1)).
  { destruct (0 <? iy) eqn:Hiy; [| exact Hcorners].
    simpl in Hskip. apply relaxVertical_expanding; [| exact Hcorners].
    exists (voxelHeight g). rewrite Hedges. unfold holeEdges. fold holeIndex. rewrite Hcol.
    fold iy. apply in_or_app. right. apply in_or_app. left.
    rewrite Hiy, Hskip. simpl. now left. }
  set (st2 := if 0 <? iy then _ else st1) in *.
  destruct ((iy + 1 <? vertexCountY g) && cellGe nodeUsage (idx + 1) cap) eqn:Hskip2;
    [exact Hdown |].
  destruct (iy + 1 <? vertexCountY g) eqn:Hup; [| exact Hdown].
  simpl in Hskip2. apply relaxVertical_expanding; [| exact Hdown].
  exists (voxelHeight g). rewrite Hedges. unfold holeEdges. fold holeIndex. rewrite Hcol.
  fold iy. apply in_or_app. right. apply in_or_app. right.
  rewrite Hup, Hskip, Hskip2. simpl. now left.
Qed.

End HoleExpansionFacts.

Section LoopFacts.
Context `{Platform}.
Variable g : WorkerGrid.
Variable cap : Z.
Variable nodeUsage : list Z.
Variable endCoords : Coords.
Variable token activeToken : Z.
Variable startIndex endIndex : Z.
Variable s : Z.

Lemma searchLoop_inv (fuel : nat) (sc : Scratch) (heapSize iterations : Z)
  (rank : Z -> nat) (k : nat) :
  SearchInv g cap nodeUsage startIndex s rank k sc ->
  exists rank' k',
    SearchInv g cap nodeUsage startIndex s rank' k'
      (exitScratch (searchLoop g cap nodeUsage endCoords token activeToken endIndex
                               fuel sc heapSize iterations)).
Proof.
  revert sc heapSize iterations rank k.
  induction fuel as [| fuel IH]; intros sc heapSize iterations rank k HI; simpl.
  - exists rank, k. exact HI.
  - destruct (heapSize <=? 0); [exists rank, k; exact HI |].
    destruct (shouldCancel iterations token activeToken); [exists rank, k; exact HI |].
    destruct (heapPop sc heapSize) as [[[[idx score] sc1] size1] |] eqn:Hpop;
      [| exists rank, k; exact HI].
    apply heapPop_core in Hpop. destruct Hpop as [Hcore _].
    assert (HI1 : SearchInv g cap nodeUsage startIndex s rank k sc1)
      by (eapply SearchInv_core; eassumption).
    assert (Hs : stamp sc1 = s) by (destruct HI1; assumption).
    destruct (cellIs (closed sc1) idx (stamp sc1)) eqn:Hclosed; [eapply IH; exact HI1 |].
    rewrite Hs in Hclosed.
    destruct (setClosed_inv g cap nodeUsage startIndex s rank k sc1 idx HI1 Hclosed)
      as [HI2 Hidx].
    destruct (idx =? endIndex); [eexists; eexists; exact HI2 |].
    destruct (idx <? holeCenterBaseIndex g) eqn:Hbase.
    + apply Z.ltb_lt in Hbase.
      pose proof (expandLattice_expanding g cap nodeUsage endCoords startIndex s _ _ idx
                    (setClosed sc1 idx, size1) Hbase (conj HI2 Hidx)) as [HI3 _].
      destruct (expandLattice g cap nodeUsage endCoords idx (setClosed sc1 idx, size1))
        as [sc3 size3].
      eapply IH. exact HI3.
    + apply Z.ltb_ge in Hbase.
      pose proof (expandHole_expanding g cap nodeUsage endCoords startIndex s _ _ idx
                    (setClosed sc1 idx, size1) Hbase (conj HI2 Hidx)) as [HI3 _].
      destruct (expandHole g cap nodeUsage endCoords idx (setClosed sc1 idx, size1))
        as [sc3 size3].
      eapply IH. exact HI3.
Qed.

Lemma searchEdge_below_cap (a b : Z) :
  searchEdge g cap nodeUsage a b -> cellGe nodeUsage b cap = false.
Proof.
  intros [c Hin]. unfold edgesFrom in Hin.
  destruct (a <? holeCenterBaseIndex g).
  - apply in_app_or in Hin. destruct Hin as [Hin | Hin].
    + unfold latticeEdges in Hin. apply in_flat_map in Hin. destruct Hin as [o [_ Hin]].
      destruct (inLattice g _ _ _ && _ && negb (cellGe nodeUsage (a + delta o) cap) && _)
        eqn:Hcond; [| contradiction].
      destruct Hin as [Heq | []]. inversion Heq. subst.
      apply andb_true_iff in Hcond. destruct Hcond as [Hcond _].
      apply andb_true_iff in Hcond. destruct Hcond as [_ Hcond].
      now apply negb_true_iff in Hcond.
    + unfold holeEntryEdges in Hin. destruct (0 <? holeCenterCount g); [| contradiction].
      apply in_flat_map in Hin. destruct Hin as [cell [_ Hin]].
      destruct (holeIndexAt g (fst cell) (snd cell)) as [holeIndex |]; [| contradiction].
      destruct (cellGe nodeUsage _ cap) eqn:Hcap; [contradiction |].
      destruct Hin as [Heq | []]. inversion Heq. subst. exact Hcap.
  - unfold holeEdges in Hin.
    destruct ((_ <? 0) || _); [contradiction |].
    apply in_app_or in Hin. destruct Hin as [Hin | Hin].
    + apply in_flat_map in Hin. destruct Hin as [corner [_ Hin]].
      destruct (cellGe nodeUsage _ cap) eqn:Hcap; [contradiction |].
      destruct Hin as [Heq | []]. inversion Heq. subst. exact Hcap.
    + apply in_app_or in Hin. destruct Hin as [Hin | Hin].
      * destruct ((0 <? _) && negb (cellGe nodeUsage (a - 1) cap)) eqn:Hcond;
          [| contradiction].
        destruct Hin as [Heq | []]. inversion Heq. subst.
        apply andb_true_iff in Hcond. destruct Hcond as [_ Hcond].
        now apply negb_true_iff in Hcond.
      * destruct (_ && negb (cellGe nodeUsage (a + 1) cap)) eqn:Hcond; [| contradiction].
        destruct Hin as [Heq | []]. inversion Heq. subst.
        apply andb_true_iff in Hcond. destruct Hcond as [_ Hcond].
        now apply negb_true_iff in Hcond.
Qed.

Lemma walkParents_inv (rank : Z -> nat) (k : nat) (sc : Scratch) (safety : nat)
  (current current' : Z) (path path' : list Z) :
  SearchInv g cap nodeUsage startIndex s rank k sc ->
  walkInv g cap nodeUsage startIndex endIndex s rank sc current path ->
  walkParents safety sc startIndex current path = Some (path', current') ->
  walkInv g cap nodeUsage startIndex endIndex s rank sc current' path'.
Proof.
  intros HI. revert current path.
  induction safety as [| safety IH]; intros current path Hwalk Hrun; simpl in Hrun.
  - inversion Hrun. now subst.
  - destruct (current =? startIndex) eqn:Hstart; [inversion Hrun; now subst |].
    apply Z.eqb_neq in Hstart.
    destruct (cellIsNot (gStamp sc) current (stamp sc)) eqn:Hlab; [discriminate |].
    unfold cellIsNot in Hlab. apply negb_false_iff in Hlab.
    assert (Hs : stamp sc = s) by (destruct HI; assumption). rewrite Hs in Hlab.
    apply IH in Hrun; [exact Hrun |]. clear IH Hrun.
    destruct Hwalk as [Hlinked [Hnodup [Hlast [Hpath Hclosed]]]].
    assert (Hrange : 0 <= current < lengthZ nodeUsage).
    { apply cellIs_range in Hlab. unfold lengthZ in *.
      destruct HI as [_ Hlen _ _ _ _ _ _]. rewrite Hlen in Hlab. exact Hlab. }
    specialize (Hclosed Hrange).
    destruct (inv_label _ _ _ _ _ _ _ _ HI current Hlab)
      as [Heq | [p [Hp [Hedge [Hpclosed Hprank]]]]]; [contradiction |].
    assert (Hget : getInt (parents sc) current = p) by (unfold getInt; now rewrite Hp).
    rewrite Hget. unfold walkInv. rewrite rev_unit. split; [| split; [| split; [| split]]].
    + simpl. split; [exact Hedge | exact Hlinked].
    + constructor; [| exact Hnodup]. intros Hin.
      destruct (Z_lt_dec p 0) as [Hneg | Hnonneg].
      * destruct Hin as [Heq | Hin]; [lia |].
        apply in_rev in Hin. destruct (Hpath p Hin) as [Hl _].
        apply cellIs_range in Hl. lia.
      * destruct (Z_lt_dec p (lengthZ nodeUsage)) as [Hlt | Hge].
        -- assert (Hpr : 0 <= p < lengthZ nodeUsage) by lia.
           specialize (Hprank Hclosed Hpr).
           destruct Hin as [Heq | Hin]; [rewrite <- Heq in Hprank; lia |].
           apply in_rev in Hin. destruct (Hpath p Hin) as [_ [_ [_ [_ Hr]]]].
           specialize (Hr Hrange). lia.
        -- destruct Hin as [Heq | Hin]; [lia |].
           apply in_rev in Hin. destruct (Hpath p Hin) as [Hl _].
           apply cellIs_range in Hl. destruct HI as [_ Hlen _ _ _ _ _ _].
           unfold lengthZ in *. lia.
    + rewrite last_cons. rewrite Hlast. reflexivity.
    + intros x Hin. apply in_app_or in Hin. destruct Hin as [Hin | [<- | []]].
      * destruct (Hpath x Hin) as [Hl [Hne [Hc [Hcap Hr]]]].
        repeat split; try assumption. intros Hpr.
        specialize (Hprank Hclosed Hpr). specialize (Hr Hrange). lia.
      * repeat split; try assumption.
        -- eapply searchEdge_below_cap. exact Hedge.
        -- intros Hpr. now apply Hprank.
    + exact Hpclosed.
Qed.

End LoopFacts.

Section AStarFacts.
Context `{Platform}.
Variable g : WorkerGrid.
Variable cap : Z.
Variable nodeUsage : list Z.
Variable token activeToken : Z.

Lemma geti_replicate_lt (n : nat) (i x : Z) :
  geti (replicate n 0) i = Some x -> x = 0.
Proof. apply geti_replicate. Qed.

Lemma bumpStamp_fresh (sc : Scratch) :
  ScratchReady nodeUsage sc ->
  length (gStamp (bumpStamp sc)) = length nodeUsage
  /\ length (closed (bumpStamp sc)) = length nodeUsage
  /\ length (parents (bumpStamp sc)) = length nodeUsage
  /\ (forall n x, geti (gStamp (bumpStamp sc)) n = Some x -> x < stamp (bumpStamp sc))
  /\ (forall n x, geti (closed (bumpStamp sc)) n = Some x -> x < stamp (bumpStamp sc))
  /\ 1 <= stamp (bumpStamp sc).
Proof.
  intros [Hl1 Hl2 Hl3 Hg Hc Hs]. unfold bumpStamp.
  destruct (2147483646 <=? stamp sc + 1); simpl.
  - rewrite !length_replicate. repeat split; try assumption; try lia.
    + intros n x Hget. apply geti_replicate in Hget. lia.
    + intros n x Hget. apply geti_replicate in Hget. lia.
  - repeat split; try assumption; try lia.
    + intros n x Hget. specialize (Hg n x Hget). lia.
    + intros n x Hget. specialize (Hc n x Hget). lia.
Qed.

Lemma markStart_inv (sc : Scratch) (startIndex : Z) :
  length (gStamp sc) = length nodeUsage ->
  length (closed sc) = length nodeUsage ->
  length (parents sc) = length nodeUsage ->
  (forall n x, geti (gStamp sc) n = Some x -> x < stamp sc) ->
  (forall n x, geti (closed sc) n = Some x -> x < stamp sc) ->
  SearchInv g cap nodeUsage startIndex (stamp sc) (fun _ => 0%nat) 0
            (markStart sc startIndex).
Proof.
  intros Hl1 Hl2 Hl3 Hg Hc. split; simpl; rewrite ?length_seti; try assumption;
    try reflexivity.
  - intros n x Hget. apply geti_seti_inv in Hget.
    destruct Hget as [[_ ->] | [_ Hget]]; [lia |]. specialize (Hg n x Hget). lia.
  - intros n x Hget. specialize (Hc n x Hget). lia.
  - intros n Hn. destruct (Z.eq_dec n startIndex) as [-> | Hne]; [now left |].
    rewrite cellIs_seti_ne in Hn by congruence. apply cellIs_true in Hn.
    specialize (Hg n _ Hn). lia.
  - intros n Hn. apply cellIs_true in Hn. specialize (Hc n _ Hn). lia.
Qed.

Lemma SearchInv_ready (startIndex s : Z) (rank : Z -> nat) (k : nat) (sc : Scratch) :
  1 <= s -> SearchInv g cap nodeUsage startIndex s rank k sc -> ScratchReady nodeUsage sc.
Proof.
  intros Hs [Hstamp Hl1 Hl2 Hl3 Hf1 Hf2 _ _].
  split; rewrite ?Hstamp; assumption.
Qed.

(** What [aStar] returns: the scratch arrays stay fit for the next search,
    and a found path is a duplicate-free walk of the search graph from
    the start to the end, through nodes below their cap that lie inside
    the arrays (the start being tested against the cap at the head of
    [aStar]). *)
Lemma aStar_spec (sc sc' : Scratch) (startIndex endIndex : Z) (result : PathResult) :
  ScratchReady nodeUsage sc ->
  aStar g cap token activeToken nodeUsage sc startIndex endIndex = (result, sc') ->
  ScratchReady nodeUsage sc'
  /\ forall path, result = Found path ->
       isWalk g cap nodeUsage startIndex endIndex path
       /\ List.NoDup path
       /\ forall v, In v path ->
            cellGe nodeUsage v cap = false
            /\ (v = startIndex \/ 0 <= v < lengthZ nodeUsage).
Proof.
  intros Hready. unfold aStar.
  destruct (bumpStamp_fresh sc Hready) as [Hl1 [Hl2 [Hl3 [Hg [Hc Hs]]]]].
  destruct (cellGe nodeUsage startIndex cap || cellGe nodeUsage endIndex cap) eqn:Hcaps.
  - intros Hrun. inversion Hrun. subst. split; [| discriminate].
    split; try assumption.
    + intros n x Hget. specialize (Hg n x Hget). lia.
    + intros n x Hget. specialize (Hc n x Hget). lia.
  - apply orb_false_iff in Hcaps. destruct Hcaps as [HcapS HcapE].
    destruct (getNodeCoords g startIndex) as [[sx sy] sz].
    pose proof (markStart_inv (bumpStamp sc) startIndex Hl1 Hl2 Hl3 Hg Hc) as HI1.
    set (s := stamp (bumpStamp sc)) in *.
    match goal with
    | |- context [heapPush ?x ?i ?v ?z] =>
        pose proof (heapPush_core x i v z) as Hcore; destruct (heapPush x i v z) as [sc2 heapSize]
    end.
    simpl in Hcore.
    assert (HI2 : SearchInv g cap nodeUsage startIndex s (fun _ => 0%nat) 0 sc2)
      by (eapply SearchInv_core; eassumption).
    destruct (searchLoop_inv g cap nodeUsage (getNodeCoords g endIndex) token activeToken
                startIndex endIndex s (searchFuel sc2) sc2 heapSize 0 _ _ HI2)
      as [rank [k HI3]].
    assert (Hfinish : forall sc3,
      SearchInv g cap nodeUsage startIndex s rank k sc3 ->
      (if cellIsNot (closed sc3) endIndex (stamp sc3) then (Failed, sc3)
       else match walkParents (Z.to_nat (totalNodeCount g)) sc3 startIndex endIndex [] with
            | Some (path, current) =>
                if current =? startIndex
                then (Found (rev (path ++ [startIndex])), sc3) else (Failed, sc3)
            | None => (Failed, sc3)
            end) = (result, sc') ->
      ScratchReady nodeUsage sc'
      /\ forall path, result = Found path ->
           isWalk g cap nodeUsage startIndex endIndex path
           /\ List.NoDup path
           /\ forall v, In v path ->
                cellGe nodeUsage v cap = false
                /\ (v = startIndex \/ 0 <= v < lengthZ nodeUsage)).
    { intros sc3 HI Hrun.
      assert (Hr3 : ScratchReady nodeUsage sc3) by (eapply SearchInv_ready; eassumption).
      assert (Hs3 : stamp sc3 = s) by (destruct HI; assumption).
      destruct (cellIsNot (closed sc3) endIndex (stamp sc3)) eqn:Hend.
      { inversion Hrun. subst. split; [exact Hr3 | discriminate]. }
      unfold cellIsNot in Hend. apply negb_false_iff in Hend. rewrite Hs3 in Hend.
      destruct (walkParents (Z.to_nat (totalNodeCount g)) sc3 startIndex endIndex [])
        as [[path current] |] eqn:Hwalk.
      2: { inversion Hrun. subst. split; [exact Hr3 | discriminate]. }
      destruct (current =? startIndex) eqn:Hcur.
      2: { inversion Hrun. subst. split; [exact Hr3 | discriminate]. }
      apply Z.eqb_eq in Hcur. subst current. inversion Hrun. subst result sc'.
      split; [exact Hr3 |]. intros path0 Hfound. inversion Hfound. subst path0.
      assert (Hinit : walkInv g cap nodeUsage startIndex endIndex s rank sc3 endIndex []).
      { unfold walkInv. simpl. repeat split; try tauto.
        - constructor; [intros [] | constructor]. }
      pose proof (walkParents_inv g cap nodeUsage startIndex endIndex s rank k sc3 _ _ _ _ _
                    HI Hinit Hwalk) as [Hlinked [Hnodup [Hlast [Hpath _]]]].
      rewrite rev_unit. split; [| split].
      - split; [reflexivity |]. split; [exact Hlast | exact Hlinked].
      - exact Hnodup.
      - intros v [<- | Hin]; [split; [exact HcapS | now left] |].
        apply in_rev in Hin. destruct (Hpath v Hin) as [Hl [_ [_ [Hcap _]]]].
        split; [exact Hcap |]. right. apply cellIs_range in Hl.
        destruct HI as [_ Hlen _ _ _ _ _ _]. unfold lengthZ in *. lia. }
    destruct (searchLoop g cap nodeUsage (getNodeCoords g endIndex) token activeToken
                endIndex (searchFuel sc2) sc2 heapSize 0) as [sc3 | sc3 | sc3];
      simpl in HI3.
    + apply Hfinish. exact HI3.
    + intros Hrun. inversion Hrun. subst. split; [| discriminate].
      eapply SearchInv_ready; eassumption.
    + apply Hfinish. exact HI3.
Qed.

End AStarFacts.

(** ** Endpoint selection and usage counting *)

Section SelectionFacts.
Context `{Platform}.

Lemma geti_In {A : Type} (l : list A) (i : Z) (x : A) : geti l i = Some x -> In x l.
Proof.
  unfold geti. destruct (i <? 0); [discriminate |].
  intros Hl. apply list_elem_of_In. eapply list_elem_of_lookup_2. exact Hl.
Qed.

Lemma randomEntry_In (pool : list Z) (rng : nat) (v : Z) :
  randomEntry pool rng = Some v -> In v pool.
Proof. apply geti_In. Qed.

Lemma pickAttempts_In (n : nat) (pool : list Z) (avoid : option Z) (nodeUsage : list Z)
  (cap : Z) (rng rng' : nat) (v : Z) :
  pickAttempts n pool avoid nodeUsage cap rng = (Some v, rng') -> In v pool.
Proof.
  revert rng. induction n as [| n IH]; intros rng; simpl; [discriminate |].
  destruct (randomEntry pool rng) as [value |] eqn:Hentry; [| apply IH].
  destruct (isAvoided avoid value); [apply IH |].
  destruct (cellGe nodeUsage value cap); [apply IH |].
  intros Heq. inversion Heq. subst. eapply randomEntry_In. exact Hentry.
Qed.

Lemma pickUnblocked_In (pool : list Z) (avoid : option Z) (nodeUsage : list Z)
  (cap : Z) (rng rng' : nat) (v : Z) :
  pickUnblocked pool avoid nodeUsage cap rng = (Some v, rng') -> In v pool.
Proof.
  unfold pickUnblocked.
  destruct (pickAttempts _ pool avoid nodeUsage cap rng) as [[value |] rng1] eqn:Hpick.
  - intros Heq. inversion Heq. subst. eapply pickAttempts_In. exact Hpick.
  - intros Heq. inversion Heq as [[Hfind Hrng]]. apply find_some in Hfind. tauto.
Qed.

Lemma selectPair_In (startNodes endNodes : list Z) (useSides : bool) (nodeUsage : list Z)
  (cap : Z) (rng rng' : nat) (pairS pairE : Z) :
  selectPair startNodes endNodes useSides nodeUsage cap rng = (Some (pairS, pairE), rng') ->
  In pairS startNodes /\ In pairE endNodes.
Proof.
  unfold selectPair.
  destruct ((lengthZ startNodes =? 0) || (lengthZ endNodes =? 0)); [discriminate |].
  destruct (pickUnblocked startNodes None nodeUsage cap rng) as [[s1 |] rng1] eqn:Hs;
    [| discriminate].
  destruct (pickUnblocked endNodes _ nodeUsage cap rng1) as [[e1 |] rng2] eqn:He;
    [| discriminate].
  intros Heq. inversion Heq. subst. split; eapply pickUnblocked_In; eassumption.
Qed.

Lemma drawDistinct_In (n : nat) (pool : list Z) (count : Z) (nodeUsage : list Z) (cap : Z)
  (picks : list Z) (rng : nat) (v : Z) :
  (forall x, In x picks -> In x pool) ->
  In v (fst (drawDistinct n pool count nodeUsage cap picks rng)) -> In v pool.
Proof.
  revert picks rng. induction n as [| n IH]; intros picks rng Hpicks; simpl; [apply Hpicks |].
  destruct (lengthZ picks <? count); [| apply Hpicks].
  destruct (randomEntry pool rng) as [value |] eqn:Hentry; [| now apply IH].
  destruct (pickable picks nodeUsage cap value); [| now apply IH].
  apply IH. intros x Hx. apply in_app_or in Hx. destruct Hx as [Hx | [<- | []]];
    [now apply Hpicks | eapply randomEntry_In; exact Hentry].
Qed.

Lemma scanDistinct_In (rest pool : list Z) (count : Z) (nodeUsage : list Z) (cap : Z)
  (picks : list Z) (v : Z) :
  (forall x, In x rest -> In x pool) ->
  (forall x, In x picks -> In x pool) ->
  In v (scanDistinct rest count nodeUsage cap picks) -> In v pool.
Proof.
  revert picks. induction rest as [| value rest IH]; intros picks Hrest Hpicks; simpl;
    [apply Hpicks |].
  destruct (lengthZ picks <? count); [| apply Hpicks].
  assert (Hrest' : forall x, In x rest -> In x pool) by (intros x Hx; apply Hrest; now right).
  destruct (pickable picks nodeUsage cap value); [| now apply IH].
  apply IH; [exact Hrest' |]. intros x Hx. apply in_app_or in Hx.
  destruct Hx as [Hx | [<- | []]]; [now apply Hpicks | apply Hrest; now left].
Qed.

Lemma pickDistinct_In (pool : list Z) (count : Z) (nodeUsage : list Z) (cap : Z)
  (rng rng' : nat) (picks : list Z) (v : Z) :
  pickDistinct pool count nodeUsage cap rng = (Some picks, rng') ->
  In v picks -> In v pool.
Proof.
  unfold pickDistinct. destruct (lengthZ pool <? count); [discriminate |].
  pose proof (drawDistinct_In (maxPickAttempts pool) pool count nodeUsage cap [] rng) as Hdraw.
  destruct (drawDistinct _ pool count nodeUsage cap [] rng) as [drawn rng1]. simpl in Hdraw.
  assert (Hdrawn : forall x, In x drawn -> In x pool)
    by (intros x Hx; apply Hdraw; [intros y [] | exact Hx]).
  destruct (lengthZ drawn <? count).
  - destruct (lengthZ (scanDistinct pool count nodeUsage cap drawn) <? count);
      [discriminate |].
    intros Heq. inversion Heq. subst. apply scanDistinct_In; [tauto | exact Hdrawn].
  - destruct (lengthZ drawn <? count); [discriminate |].
    intros Heq. inversion Heq. subst. apply Hdrawn.
Qed.

Lemma mergeFrom_In (isFirst : bool) (segments : list (list Z)) (v : Z) :
  In v (mergeFrom isFirst segments) -> exists segment, In segment segments /\ In v segment.
Proof.
  revert isFirst. induction segments as [| segment rest IH]; intros isFirst; simpl; [tauto |].
  intros Hin. apply in_app_or in Hin. destruct Hin as [Hin | Hin].
  - exists segment. split; [now left |]. destruct isFirst; [exact Hin |].
    destruct segment; [contradiction | now right].
  - destruct (IH false Hin) as [seg [Hseg Hv]]. exists seg. split; [now right | exact Hv].
Qed.

(** The usage counters after [blockPath]: one more per occurrence of the
    node in the path, saturating at the cap. *)
Lemma blockPath_lookup (cap : Z) (path : list Z) (nodeUsage : list Z) (v u : Z) :
  geti nodeUsage v = Some u -> u <= cap ->
  geti (blockPath cap nodeUsage path) v
  = Some (Z.min cap (u + Z.of_nat (count_occ Z.eq_dec path v))).
Proof.
  unfold blockPath. revert nodeUsage u.
  induction path as [| idx path IH]; intros nodeUsage u Hget Hu; simpl.
  - rewrite Hget. f_equal. lia.
  - destruct (Z.eq_dec idx v) as [-> | Hne].
    + unfold blockNode at 2. rewrite Hget.
      rewrite (IH _ (if cap <=? u + 1 then cap else u + 1)).
      * f_equal. destruct (cap <=? u + 1) eqn:Hc; lia.
      * apply geti_seti_eq. eapply geti_Some_range. exact Hget.
      * destruct (cap <=? u + 1) eqn:Hc; lia.
    + assert (Hkeep : geti (blockNode cap nodeUsage idx) v = Some u).
      { unfold blockNode. destruct (geti nodeUsage idx); [| exact Hget].
        rewrite geti_seti_ne by exact Hne. exact Hget. }
      now rewrite (IH _ u Hkeep Hu).
Qed.

Lemma blockPath_length (cap : Z) (path : list Z) (nodeUsage : list Z) :
  length (blockPath cap nodeUsage path) = length nodeUsage.
Proof.
  unfold blockPath. revert nodeUsage. induction path as [| idx path IH]; intros nodeUsage;
    [reflexivity |].
  simpl. rewrite IH. unfold blockNode. destruct (geti nodeUsage idx); [| reflexivity].
  apply length_seti.
Qed.

Lemma pathsOf_app (l k : list OutboundMessage) : pathsOf (l ++ k) = pathsOf l ++ pathsOf k.
Proof. unfold pathsOf. apply flat_map_app. Qed.

Lemma visits_snoc (v : Z) (paths : list (list Z)) (p : list Z) :
  visits v (paths ++ [p]) = visits v paths + (if existsb (Z.eqb v) p then 1 else 0).
Proof.
  unfold visits. rewrite List.filter_app, length_app. simpl.
  destruct (existsb (Z.eqb v) p); simpl; lia.
Qed.

Lemma appearances_snoc (v : Z) (paths : list (list Z)) (p : list Z) :
  appearances v (paths ++ [p])
  = appearances v paths + Z.of_nat (count_occ Z.eq_dec p v).
Proof.
  unfold appearances. rewrite concat_app. simpl. rewrite app_nil_r.
  rewrite count_occ_app. lia.
Qed.

Lemma NoDup_count_occ_le (p : list Z) (v : Z) :
  List.NoDup p -> (count_occ Z.eq_dec p v <= 1)%nat.
Proof. intros Hnd. now apply NoDup_count_occ. Qed.

Lemma count_occ_pos_existsb (p : list Z) (v : Z) :
  existsb (Z.eqb v) p = true <-> (0 < count_occ Z.eq_dec p v)%nat.
Proof. rewrite existsb_eqb_In. apply count_occ_In. Qed.

End SelectionFacts.

Section UsageFacts.
Context `{Platform}.
Variable message : BuildMessage.
Variable token activeToken : Z.
Variable startNodes endNodes : list Z.

Local Abbreviation g := (grid message).
Local Abbreviation cap := (usageCap message).
Local Abbreviation UInv := (UsageInv message startNodes endNodes).

Lemma ScratchReady_usage (nodeUsage nodeUsage' : list Z) (sc : Scratch) :
  length nodeUsage' = length nodeUsage ->
  ScratchReady nodeUsage sc -> ScratchReady nodeUsage' sc.
Proof.
  intros Hlen [Hl1 Hl2 Hl3 Hg Hc Hs]. split; rewrite ?Hlen; assumption.
Qed.

Lemma pathsOf_accept (st : LoopState) (path : list Z) (out : list OutboundMessage) :
  out = emitted st
        ++ (if placed st =? 0
            then [DebugMessage (msg_id message) StagePath
                    [("pathLength"%string, DNum (lengthZ path))]]
            else [])
        ++ [PathMessage (msg_id message) path] ->
  pathsOf out = pathsOf (emitted st) ++ [path].
Proof.
  intros ->. rewrite !pathsOf_app. destruct (placed st =? 0); reflexivity.
Qed.

Lemma acceptPath_inv (st : LoopState) (sc : Scratch) (rng : nat) (path : list Z) :
  UInv st ->
  ScratchReady (usage st) sc ->
  (forall v, In v path -> cellGe (usage st) v cap = false /\ 0 <= v < lengthZ (usage st)) ->
  (twoSided g = false -> List.NoDup path) ->
  UInv (acceptPath message st sc rng path).
Proof.
  intros [Hready Hstarts Hpair Hnodes Hcount] Hsc Hpath Hnodup.
  assert (Hlen : length (blockPath cap (usage st) path) = length (usage st))
    by apply blockPath_length.
  assert (HlenZ : lengthZ (blockPath cap (usage st) path) = lengthZ (usage st))
    by (unfold lengthZ; now rewrite Hlen).
  assert (Hpaths : pathsOf (emitted (acceptPath message st sc rng path))
                   = pathsOf (emitted st) ++ [path])
    by (eapply pathsOf_accept; reflexivity).
  split.
  - simpl. eapply ScratchReady_usage; [exact Hlen | exact Hsc].
  - simpl. rewrite HlenZ. exact Hstarts.
  - simpl. destruct (twoSided g); [exact Hpair | now left].
  - rewrite Hpaths. simpl usage. rewrite HlenZ. intros p v Hp Hv.
    apply in_app_or in Hp. destruct Hp as [Hp | [<- | []]].
    + eapply Hnodes; eassumption.
    + now apply Hpath.
  - rewrite Hpaths. simpl usage. intros v u' Hget.
    pose proof (geti_Some_range _ _ _ Hget) as Hrange. rewrite HlenZ in Hrange.
    destruct (geti_in_range (usage st) v Hrange) as [u Hu].
    destruct (Hcount v u Hu) as [Hbound [Hvisits Happear]].
    rewrite (blockPath_lookup cap path (usage st) v u Hu) in Hget by lia.
    inversion Hget as [Hu']. clear Hget.
    rewrite visits_snoc, appearances_snoc.
    set (c := count_occ Z.eq_dec path v) in *.
    assert (Hin : existsb (Z.eqb v) path = true <-> (0 < c)%nat)
      by apply count_occ_pos_existsb.
    assert (Hbelow : (0 < c)%nat -> u < cap).
    { intros Hc. apply Hin in Hc. apply existsb_eqb_In in Hc.
      destruct (Hpath v Hc) as [Hge _]. unfold cellGe in Hge. rewrite Hu in Hge.
      now apply Z.leb_gt in Hge. }
    split; [lia |]. split.
    + destruct (existsb (Z.eqb v) path) eqn:He.
      * assert (Hc : (0 < c)%nat) by now apply Hin. specialize (Hbelow Hc). lia.
      * assert (Hc : c = 0%nat).
        { destruct c; [reflexivity |]. assert (Ht : false = true) by (apply Hin; lia).
          discriminate. }
        lia.
    + intros Hsingle. specialize (Happear Hsingle).
      pose proof (NoDup_count_occ_le path v (Hnodup Hsingle)) as Hone. fold c in Hone.
      destruct c as [| c']; [lia |]. assert (Hlt : u < cap) by (apply Hbelow; lia). lia.
Qed.

Lemma rejectAttempt_inv (st : LoopState) (sc : Scratch) (rng : nat) (pairS pairE pairT : Z) :
  UInv st -> ScratchReady (usage st) sc ->
  (pairS = -1 \/ In pairS startNodes) ->
  UInv (rejectAttempt message st sc rng pairS pairE pairT)
  /\ UInv (withSearchState st sc rng pairS pairE pairT).
Proof.
  intros [Hready Hstarts Hpair Hnodes Hcount] Hsc HpairS.
  split; split; simpl; assumption.
Qed.

Lemma afterAttempt_inv (st : LoopState) (result : PathResult) (sc : Scratch) (rng : nat)
  (pairS pairE pairT : Z) :
  UInv st -> ScratchReady (usage st) sc ->
  (pairS = -1 \/ In pairS startNodes) ->
  (forall path, result = Found path ->
     (forall v, In v path -> cellGe (usage st) v cap = false /\ 0 <= v < lengthZ (usage st))
     /\ (twoSided g = false -> List.NoDup path)) ->
  match afterAttempt message st result sc rng pairS pairE pairT with
  | Continue st' | Exit _ st' => UInv st'
  end.
Proof.
  intros Hinv Hsc HpairS Hfound. destruct result as [path | |]; simpl.
  - destruct (Hfound path eq_refl) as [Hpath Hnodup]. now apply acceptPath_inv.
  - now apply rejectAttempt_inv.
  - now apply rejectAttempt_inv.
Qed.

Lemma aStar_usage (nodeUsage : list Z) (sc sc' : Scratch) (a b : Z) (result : PathResult) :
  ScratchReady nodeUsage sc ->
  0 <= a < lengthZ nodeUsage ->
  aStar g cap token activeToken nodeUsage sc a b = (result, sc') ->
  ScratchReady nodeUsage sc'
  /\ forall path, result = Found path ->
       (forall v, In v path -> cellGe nodeUsage v cap = false /\ 0 <= v < lengthZ nodeUsage)
       /\ List.NoDup path.
Proof.
  intros Hsc Ha Hrun.
  destruct (aStar_spec g cap nodeUsage token activeToken sc sc' a b result Hsc Hrun)
    as [Hsc' Hfound].
  split; [exact Hsc' |]. intros path Hpath.
  destruct (Hfound path Hpath) as [_ [Hnodup Hnodes]]. split; [| exact Hnodup].
  intros v Hv. destruct (Hnodes v Hv) as [Hcap [-> | Hrange]]; split; assumption.
Qed.

Lemma buildLoop_usage (nodeUsage : list Z) (sc sc' : Scratch) (rng rng' : nat)
  (result : PathResult) :
  ScratchReady nodeUsage sc ->
  (forall v, In v startNodes \/ In v endNodes -> 0 <= v < lengthZ nodeUsage) ->
  buildLoop g cap token activeToken startNodes endNodes nodeUsage sc rng
  = (result, sc', rng') ->
  ScratchReady nodeUsage sc'
  /\ forall path, result = Found path ->
       forall v, In v path -> cellGe nodeUsage v cap = false /\ 0 <= v < lengthZ nodeUsage.
Proof.
  intros Hsc Hpools. unfold buildLoop.
  destruct (pickDistinct startNodes 2 nodeUsage cap rng) as [sideA rng1] eqn:HA.
  destruct (pickDistinct endNodes 2 nodeUsage cap rng1) as [sideB rng2] eqn:HB.
  destruct sideA as [[| a1 [| a2 restA]] |];
    try (intros Heq; inversion Heq; subst; split; [exact Hsc | discriminate]);
  destruct sideB as [[| b1 [| b2 restB]] |];
    try (intros Heq; inversion Heq; subst; split; [exact Hsc | discriminate]).
  assert (Ha1 : 0 <= a1 < lengthZ nodeUsage).
  { apply Hpools. left. eapply pickDistinct_In; [exact HA | now left]. }
  assert (Ha2 : 0 <= a2 < lengthZ nodeUsage).
  { apply Hpools. left. eapply pickDistinct_In; [exact HA | right; now left]. }
  assert (Hb1 : 0 <= b1 < lengthZ nodeUsage).
  { apply Hpools. right. eapply pickDistinct_In; [exact HB | now left]. }
  assert (Hb2 : 0 <= b2 < lengthZ nodeUsage).
  { apply Hpools. right. eapply pickDistinct_In; [exact HB | right; now left]. }
  destruct (aStar g cap token activeToken nodeUsage sc a1 a2) as [r1 sc1] eqn:H1.
  destruct (aStar_usage nodeUsage sc sc1 a1 a2 r1 Hsc Ha1 H1) as [Hsc1 Hf1].
  destruct r1 as [seg1 | |];
    try (intros Heq; inversion Heq; subst; split; [exact Hsc1 | discriminate]).
  destruct (aStar g cap token activeToken nodeUsage sc1 a2 b1) as [r2 sc2] eqn:H2.
  destruct (aStar_usage nodeUsage sc1 sc2 a2 b1 r2 Hsc1 Ha2 H2) as [Hsc2 Hf2].
  destruct r2 as [seg2 | |];
    try (intros Heq; inversion Heq; subst; split; [exact Hsc2 | discriminate]).
  destruct (aStar g cap token activeToken nodeUsage sc2 b1 b2) as [r3 sc3] eqn:H3.
  destruct (aStar_usage nodeUsage sc2 sc3 b1 b2 r3 Hsc2 Hb1 H3) as [Hsc3 Hf3].
  destruct r3 as [seg3 | |];
    try (intros Heq; inversion Heq; subst; split; [exact Hsc3 | discriminate]).
  destruct (aStar g cap token activeToken nodeUsage sc3 b2 a1) as [r4 sc4] eqn:H4.
  destruct (aStar_usage nodeUsage sc3 sc4 b2 a1 r4 Hsc3 Hb2 H4) as [Hsc4 Hf4].
  destruct r4 as [seg4 | |];
    try (intros Heq; inversion Heq; subst; split; [exact Hsc4 | discriminate]).
  intros Heq. inversion Heq. subst. split; [exact Hsc4 |].
  intros path Hpath v Hv. inversion Hpath. subst path.
  apply mergeFrom_In in Hv. destruct Hv as [seg [Hseg Hv]].
  destruct Hseg as [<- | [<- | [<- | [<- | []]]]].
  - destruct (Hf1 _ eq_refl) as [Hn _]. now apply Hn.
  - destruct (Hf2 _ eq_refl) as [Hn _]. now apply Hn.
  - destruct (Hf3 _ eq_refl) as [Hn _]. now apply Hn.
  - destruct (Hf4 _ eq_refl) as [Hn _]. now apply Hn.
Qed.

Lemma placementStep_inv (st : LoopState) :
  UInv st ->
  match placementStep message token activeToken startNodes endNodes st with
  | Continue st' | Exit _ st' => UInv st'
  end.
Proof.
  intros Hinv. pose proof Hinv as [Hready Hstarts Hpair Hnodes Hcount]. unfold placementStep.
  destruct (negb (placed st <? maxPaths message)); [exact Hinv |].
  destruct (negb (token =? activeToken)); [exact Hinv |].
  destruct (maxAttemptsOf message <=? attempts st); [exact Hinv |].
  destruct (twoSided g) eqn:Hsided.
  - destruct (buildLoop _ _ _ _ _ _ _ _ _) as [[result sc] rng] eqn:Hloop.
    destruct (buildLoop_usage (usage st) (scratch st) sc (randomCalls st) rng result
                Hready Hstarts Hloop) as [Hsc Hfound].
    apply afterAttempt_inv; try assumption.
    intros path Hpath. split; [now apply Hfound | rewrite Hsided; discriminate].
  - destruct ((pairStart st =? -1) || (pairEnd st =? -1) || (maxTries message <=? pairTries st))
      eqn:Hselect.
    + destruct (selectPair _ _ _ _ _ _) as [[[pairS pairE] |] rng] eqn:Hpairs.
      * destruct (selectPair_In _ _ _ _ _ _ _ _ _ Hpairs) as [HinS HinE].
        destruct (aStar _ _ _ _ _ _ _ _) as [result sc] eqn:Hsearch.
        destruct (aStar_usage (usage st) (scratch st) sc pairS pairE result Hready
                    (Hstarts pairS (or_introl HinS)) Hsearch) as [Hsc Hfound].
        apply afterAttempt_inv; try assumption; [now right |].
        intros path Hpath. destruct (Hfound path Hpath) as [Hn Hnd]. split; [exact Hn | tauto].
      * apply rejectAttempt_inv; assumption.
    + apply orb_false_iff in Hselect. destruct Hselect as [Hselect _].
      apply orb_false_iff in Hselect. destruct Hselect as [Hstart _].
      apply Z.eqb_neq in Hstart.
      assert (HinS : In (pairStart st) startNodes) by (destruct Hpair; [contradiction | assumption]).
      destruct (aStar _ _ _ _ _ _ _ _) as [result sc] eqn:Hsearch.
      destruct (aStar_usage (usage st) (scratch st) sc (pairStart st) (pairEnd st) result Hready
                  (Hstarts _ (or_introl HinS)) Hsearch) as [Hsc Hfound].
      apply afterAttempt_inv; try assumption.
      intros path Hpath. destruct (Hfound path Hpath) as [Hn Hnd]. split; [exact Hn | tauto].
Qed.

Lemma placementLoop_inv (fuel : nat) (st : LoopState) :
  UInv st ->
  UInv (snd (placementLoop message token activeToken startNodes endNodes fuel st)).
Proof.
  revert st. induction fuel as [| fuel IH]; intros st Hinv; [exact Hinv |].
  simpl. pose proof (placementStep_inv st Hinv) as Hstep.
  destruct (placementStep message token activeToken startNodes endNodes st) as [st' | why st'].
  - now apply IH.
  - exact Hstep.
Qed.

End UsageFacts.

Section BuildUsage.
Context `{Platform}.

Lemma holeCenterCount_nonneg (g : WorkerGrid) : 0 <= countY g -> 0 <= holeCenterCount g.
Proof.
  intros Hy. unfold holeCenterCount, vertexCountY.
  destruct (useHoleCenters g && (0 <? cellCount g)); [| lia].
  apply Z.mul_nonneg_nonneg; lia.
Qed.

Lemma totalNodeCount_ge (g : WorkerGrid) : 0 <= countY g -> totalVertices g <= totalNodeCount g.
Proof.
  intros Hy. pose proof (holeCenterCount_nonneg g Hy) as Hh.
  unfold totalNodeCount, baseVertexCount.
  destruct (useHoleCenters g && (0 <? cellCount g)); lia.
Qed.

Lemma pools_in_lattice (g : WorkerGrid) (token activeToken : Z) (pools : Pools) (v : Z) :
  classify g token activeToken = Some pools ->
  In v (startPool g pools) \/ In v (endPool g pools) ->
  0 <= v < totalVertices g.
Proof.
  intros Hrun Hin. destruct (classify_inv g token activeToken pools Hrun)
    as [_ [_ [Hbound [Hclear Hsides]]]].
  assert (Hgoal : In v (seqZ 0 (totalVertices g))); [| apply In_seqZ in Hgoal; lia].
  unfold startPool, endPool in Hin.
  destruct (twoSided g).
  - apply Hsides.
    destruct (0 <? Z.of_nat (length (boundaryPositive pools)));
      destruct (0 <? Z.of_nat (length (boundaryNegative pools))); tauto.
  - destruct (0 <? Z.of_nat (length (boundaryIndices pools))).
    + assert (Hb : In v (boundaryIndices pools)) by tauto. apply Hbound in Hb. tauto.
    + assert (Hc : In v (anyClearIndices pools)) by tauto. apply Hclear in Hc. tauto.
Qed.

Lemma lengthZ_replicate {A : Type} (n : Z) (x : A) :
  lengthZ (replicate (Z.to_nat n) x) = Z.max 0 n.
Proof. unfold lengthZ. rewrite length_replicate. lia. Qed.

Lemma initialScratch_ready (g : WorkerGrid) :
  ScratchReady (replicate (Z.to_nat (totalNodeCount g)) 0) (initialScratch g).
Proof.
  split; simpl; rewrite ?length_replicate; try reflexivity; try lia.
  - intros n x Hget. apply geti_replicate in Hget. lia.
  - intros n x Hget. apply geti_replicate in Hget. lia.
Qed.

Lemma initial_UsageInv (message : BuildMessage) (token activeToken : Z) (pools : Pools)
  (rng : nat) (out : list OutboundMessage) :
  classify (grid message) token activeToken = Some pools ->
  0 <= countY (grid message) ->
  pathsOf out = [] ->
  UsageInv message (startPool (grid message) pools) (endPool (grid message) pools)
           (initialLoopState (grid message) rng out).
Proof.
  intros Hrun Hy Hout. split; simpl.
  - apply initialScratch_ready.
  - intros v Hv. pose proof (pools_in_lattice _ _ _ _ v Hrun Hv) as Hrange.
    pose proof (totalNodeCount_ge (grid message) Hy). rewrite lengthZ_replicate. lia.
  - now left.
  - rewrite Hout. intros p v [].
  - rewrite Hout. intros v u Hget. apply geti_replicate in Hget. subst u.
    pose proof (usageCap_range message). unfold visits, appearances. simpl. lia.
Qed.

Lemma visits_absent (v : Z) (paths : list (list Z)) :
  (forall p, In p paths -> ~ In v p) -> visits v paths = 0 /\ appearances v paths = 0.
Proof.
  intros Habs. unfold visits, appearances. induction paths as [| p paths IH]; [now split |].
  assert (Hp : ~ In v p) by (apply Habs; now left).
  destruct IH as [IHv IHa]; [intros q Hq; apply Habs; now right |].
  simpl. rewrite (existsb_eqb_false v p Hp). split; [exact IHv |].
  rewrite count_occ_app. rewrite (proj1 (count_occ_not_In Z.eq_dec p v) Hp). exact IHa.
Qed.

Lemma UsageInv_bound (message : BuildMessage) (startNodes endNodes : list Z)
  (st : LoopState) (v : Z) :
  UsageInv message startNodes endNodes st ->
  visits v (pathsOf (emitted st)) <= usageCap message
  /\ (twoSided (grid message) = false ->
      appearances v (pathsOf (emitted st)) <= usageCap message).
Proof.
  intros [_ _ _ Hnodes Hcount]. pose proof (usageCap_range message) as Hcap.
  destruct (geti (usage st) v) as [u |] eqn:Hu.
  - destruct (Hcount v u Hu) as [Hbound [Hvisits Happear]]. split; [lia |].
    intros Hs. specialize (Happear Hs). lia.
  - destruct (visits_absent v (pathsOf (emitted st))) as [Hv Ha].
    + intros p Hp Hin. pose proof (Hnodes p v Hp Hin) as Hrange.
      destruct (geti_in_range (usage st) v Hrange) as [x Hx]. congruence.
    + rewrite Hv, Ha. split; [lia | intros _; lia].
Qed.

Lemma pathsOf_done (message : BuildMessage) (a b c d : Z) (flags : list Z)
  (out : list OutboundMessage) :
  pathsOf (out ++ doneMessages message a b c d flags) = pathsOf out.
Proof. rewrite pathsOf_app. simpl. now rewrite app_nil_r. Qed.

(** C2 (amended): in every build with a non-negative [countY], the
    number of accepted paths that pass through a node never exceeds the
    cap, and the usage counter of a node never exceeds it either; in
    single-path mode an accepted path visits a node at most once, so
    there the total number of appearances of a node over all accepted
    paths stays within the cap too. *)
Theorem usage_within_cap (message : BuildMessage) (token activeToken : Z) (rng : nat)
  (v : Z) :
  0 <= countY (grid message) ->
  (visits v (pathsOf (posted (buildPaths message token activeToken rng)))
   <= usageCap message
   /\ (twoSided (grid message) = false ->
       appearances v (pathsOf (posted (buildPaths message token activeToken rng)))
       <= usageCap message))
  /\ (forall pools out u,
        classify (grid message) token activeToken = Some pools ->
        pathsOf out = [] ->
        geti (usage (snd (placementLoop message token activeToken
                            (startPool (grid message) pools) (endPool (grid message) pools)
                            (placementFuel message)
                            (initialLoopState (grid message) rng out)))) v = Some u ->
        0 <= u <= usageCap message).
Proof.
  intros Hy. pose proof (usageCap_range message) as Hcap.
  assert (Hnone : visits v [] <= usageCap message
                  /\ (twoSided (grid message) = false ->
                      appearances v [] <= usageCap message)).
  { unfold visits, appearances. simpl. split; [lia | intros _; lia]. }
  split.
  - unfold buildPaths.
    destruct (totalVertices (grid message) <? 0); [exact Hnone |].
    destruct (cellCount (grid message) <? 0); [exact Hnone |].
    destruct (instanceCount (grid message) <? 0); [exact Hnone |].
    destruct (totalNodeCount (grid message) <? 0); [exact Hnone |].
    destruct (gridZ (grid message) <? 0); [exact Hnone |].
    destruct (classify (grid message) token activeToken) as [pools |] eqn:Hrun;
      [| exact Hnone].
    destruct ((lengthZ (startPool (grid message) pools) =? 0)
              || (lengthZ (endPool (grid message) pools) =? 0)); [exact Hnone |].
    destruct (twoSided (grid message)
              && ((lengthZ (startPool (grid message) pools) <? 2)
                  || (lengthZ (endPool (grid message) pools) <? 2))); [exact Hnone |].
    match goal with
    | |- context [placementLoop ?m ?t ?a ?s ?e ?f ?i] =>
        pose proof (placementLoop_inv m t a s e f i) as Hloop;
        destruct (placementLoop m t a s e f i) as [why st]
    end.
    simpl in Hloop.
    assert (Hinv : UsageInv message (startPool (grid message) pools)
                     (endPool (grid message) pools) st).
    { apply Hloop. apply (initial_UsageInv message token activeToken pools rng _ Hrun Hy).
      reflexivity. }
    pose proof (UsageInv_bound _ _ _ _ v Hinv) as Hbound.
    destruct why; simpl; try exact Hbound;
      destruct (negb (token =? activeToken)); simpl; try exact Hbound;
      rewrite pathsOf_done; exact Hbound.
  - intros pools out u Hrun Hout Hget.
    pose proof (placementLoop_inv message token activeToken
                  (startPool (grid message) pools) (endPool (grid message) pools)
                  (placementFuel message) (initialLoopState (grid message) rng out)
                  (initial_UsageInv message token activeToken pools rng out Hrun Hy Hout))
      as [_ _ _ _ Hcount].
    destruct (Hcount v u Hget) as [Hbound _]. exact Hbound.
Qed.

End BuildUsage.

Lemma usage_within_cap_witness :
  0 <= countY (grid twoPathsMessage)
  /\ visits 0 (pathsOf (posted (@buildPaths openCity twoPathsMessage 1 1 0))) <= 1
  /\ pathsOf (posted (@buildPaths openCity twoPathsMessage 1 1 0)) = [[0; 1]].
Proof.
  assert (Hy : 0 <= countY (grid twoPathsMessage)) by (vm_compute; discriminate).
  split; [exact Hy |]. split; [| vm_compute; reflexivity].
  destruct (@usage_within_cap openCity twoPathsMessage 1 1 0%nat 0 Hy) as [[Hvisits _] _].
  exact Hvisits.
Defined.

(** C2 as the specification states it fails in loop mode: the accepted
    loop 2-3-0-1-2 returns to its first vertex, so vertex 2 appears twice
    although the cap is one. *)
Lemma appearances_within_cap_counterexample :
  ~ @appearancesWithinCap openCity loopMessage 1 1 0.
Proof.
  intros Hclaim. specialize (Hclaim 2). vm_compute in Hclaim. apply Hclaim. reflexivity.
Qed.

(** ** The cap that a build enforces *)

Section CapFacts.
Context `{Platform}.
Variable message : BuildMessage.
Variable token activeToken : Z.
Variable startNodes endNodes : list Z.

Local Abbreviation g := (grid message).
Local Abbreviation cap := (usageCap message).
Local Abbreviation UInv := (UsageInv message startNodes endNodes).

Lemma admitted_snoc (c : Z) (paths : list (list Z)) (path : list Z) :
  admitted c paths ->
  (forall v, In v path -> appearances v paths < c) ->
  admitted c (paths ++ [path]).
Proof.
  intros Hold Hnew before p after v Heq Hv.
  induction after as [| x after' _] using rev_ind.
  - apply app_inj_tail in Heq. destruct Heq as [-> ->]. now apply Hnew.
  - change (before ++ p :: after' ++ [x]) with (before ++ (p :: after') ++ [x]) in Heq.
    rewrite app_assoc in Heq. apply app_inj_tail in Heq. destruct Heq as [-> _].
    eapply Hold; [reflexivity | exact Hv].
Qed.

Lemma acceptPath_cap (st : LoopState) (sc : Scratch) (rng : nat) (path : list Z) :
  CapInv message st ->
  (forall v, In v path -> cellGe (usage st) v cap = false /\ 0 <= v < lengthZ (usage st)) ->
  CapInv message (acceptPath message st sc rng path).
Proof.
  intros [Hcount Hadmitted] Hpath.
  assert (Hpaths : pathsOf (emitted (acceptPath message st sc rng path))
                   = pathsOf (emitted st) ++ [path])
    by (eapply pathsOf_accept; reflexivity).
  assert (HlenZ : lengthZ (blockPath cap (usage st) path) = lengthZ (usage st))
    by (unfold lengthZ; now rewrite blockPath_length).
  pose proof (usageCap_range message) as Hcap.
  split.
  - rewrite Hpaths. simpl usage. intros v u' Hget.
    pose proof (geti_Some_range _ _ _ Hget) as Hrange. rewrite HlenZ in Hrange.
    destruct (geti_in_range (usage st) v Hrange) as [u Hu].
    pose proof (Hcount v u Hu) as Hold.
    assert (Happ : 0 <= appearances v (pathsOf (emitted st)))
      by (unfold appearances; lia).
    rewrite (blockPath_lookup cap path (usage st) v u Hu) in Hget by lia.
    inversion Hget. rewrite appearances_snoc. lia.
  - rewrite Hpaths. apply admitted_snoc; [exact Hadmitted |].
    intros v Hv. destruct (Hpath v Hv) as [Hbelow Hrange].
    destruct (geti_in_range (usage st) v Hrange) as [u Hu].
    pose proof (Hcount v u Hu) as Hold.
    unfold cellGe in Hbelow. rewrite Hu in Hbelow. apply Z.leb_gt in Hbelow. lia.
Qed.

Lemma afterAttempt_cap (st : LoopState) (result : PathResult) (sc : Scratch) (rng : nat)
  (pairS pairE pairT : Z) :
  CapInv message st ->
  (forall path, result = Found path ->
     forall v, In v path -> cellGe (usage st) v cap = false /\ 0 <= v < lengthZ (usage st)) ->
  match afterAttempt message st result sc rng pairS pairE pairT with
  | Continue st' | Exit _ st' => CapInv message st'
  end.
Proof.
  intros Hinv Hfound. destruct result as [path | |]; simpl.
  - apply acceptPath_cap; [exact Hinv | now apply Hfound].
  - destruct Hinv as [Hcount Hadmitted]. split; assumption.
  - destruct Hinv as [Hcount Hadmitted]. split; assumption.
Qed.

Lemma placementStep_cap (st : LoopState) :
  UInv st -> CapInv message st ->
  match placementStep message token activeToken startNodes endNodes st with
  | Continue st' | Exit _ st' => CapInv message st'
  end.
Proof.
  intros [Hready Hstarts Hpair Hnodes Hcount] Hinv. unfold placementStep.
  destruct (negb (placed st <? maxPaths message)); [exact Hinv |].
  destruct (negb (token =? activeToken)); [exact Hinv |].
  destruct (maxAttemptsOf message <=? attempts st); [exact Hinv |].
  destruct (twoSided g) eqn:Hsided.
  - destruct (buildLoop _ _ _ _ _ _ _ _ _) as [[result sc] rng] eqn:Hloop.
    destruct (buildLoop_usage message token activeToken startNodes endNodes
                (usage st) (scratch st) sc (randomCalls st) rng result
                Hready Hstarts Hloop) as [_ Hfound].
    apply afterAttempt_cap; assumption.
  - destruct ((pairStart st =? -1) || (pairEnd st =? -1) || (maxTries message <=? pairTries st))
      eqn:Hselect.
    + destruct (selectPair _ _ _ _ _ _) as [[[pairS pairE] |] rng] eqn:Hpairs.
      * destruct (selectPair_In _ _ _ _ _ _ _ _ _ Hpairs) as [HinS HinE].
        destruct (aStar _ _ _ _ _ _ _ _) as [result sc] eqn:Hsearch.
        destruct (aStar_usage message token activeToken (usage st) (scratch st) sc
                    pairS pairE result Hready
                    (Hstarts pairS (or_introl HinS)) Hsearch) as [_ Hfound].
        apply afterAttempt_cap; [exact Hinv |].
        intros path Hpath. now destruct (Hfound path Hpath).
      * destruct Hinv as [Hc Ha]. split; assumption.
    + apply orb_false_iff in Hselect. destruct Hselect as [Hselect _].
      apply orb_false_iff in Hselect. destruct Hselect as [Hstart _].
      apply Z.eqb_neq in Hstart.
      assert (HinS : In (pairStart st) startNodes)
        by (destruct Hpair; [contradiction | assumption]).
      destruct (aStar _ _ _ _ _ _ _ _) as [result sc] eqn:Hsearch.
      destruct (aStar_usage message token activeToken (usage st) (scratch st) sc
                  (pairStart st) (pairEnd st) result Hready
                  (Hstarts _ (or_introl HinS)) Hsearch) as [_ Hfound].
      apply afterAttempt_cap; [exact Hinv |].
      intros path Hpath. now destruct (Hfound path Hpath).
Qed.

Lemma placementLoop_cap (fuel : nat) (st : LoopState) :
  UInv st -> CapInv message st ->
  CapInv message
    (snd (placementLoop message token activeToken startNodes endNodes fuel st)).
Proof.
  revert st. induction fuel as [| fuel IH]; intros st Husage Hinv; [exact Hinv |].
  simpl. pose proof (placementStep_cap st Husage Hinv) as Hstep.
  pose proof (placementStep_inv message token activeToken startNodes endNodes st Husage)
    as Hnext.
  destruct (placementStep message token activeToken startNodes endNodes st)
    as [st' | why st']; [now apply IH | exact Hstep].
Qed.

End CapFacts.

Section BuildCap.
Context `{Platform}.

Lemma admitted_nil (c : Z) : admitted c [].
Proof. intros before path after v Heq. now destruct before. Qed.

Lemma initial_CapInv (message : BuildMessage) (rng : nat) (out : list OutboundMessage) :
  pathsOf out = [] -> CapInv message (initialLoopState (grid message) rng out).
Proof.
  intros Hout. pose proof (usageCap_range message) as Hcap. split.
  - simpl. rewrite Hout. intros v u Hget. apply geti_replicate in Hget. subst u.
    unfold appearances. simpl. lia.
  - simpl. rewrite Hout. apply admitted_nil.
Qed.

(** The invariants of the placement loop at the end of a build. *)
Lemma buildPaths_cap (message : BuildMessage) (token activeToken : Z) (rng : nat) :
  0 <= countY (grid message) ->
  admitted (usageCap message)
           (pathsOf (posted (buildPaths message token activeToken rng)))
  /\ forall v,
       visits v (pathsOf (posted (buildPaths message token activeToken rng)))
       <= usageCap message.
Proof.
  intros Hy. pose proof (usageCap_range message) as Hcap.
  assert (Hnone : admitted (usageCap message) []
                  /\ forall v, visits v [] <= usageCap message).
  { split; [apply admitted_nil | intros v; unfold visits; simpl; lia]. }
  unfold buildPaths.
  destruct (totalVertices (grid message) <? 0); [exact Hnone |].
  destruct (cellCount (grid message) <? 0); [exact Hnone |].
  destruct (instanceCount (grid message) <? 0); [exact Hnone |].
  destruct (totalNodeCount (grid message) <? 0); [exact Hnone |].
  destruct (gridZ (grid message) <? 0); [exact Hnone |].
  destruct (classify (grid message) token activeToken) as [pools |] eqn:Hrun;
    [| exact Hnone].
  destruct ((lengthZ (startPool (grid message) pools) =? 0)
            || (lengthZ (endPool (grid message) pools) =? 0)); [exact Hnone |].
  destruct (twoSided (grid message)
            && ((lengthZ (startPool (grid message) pools) <? 2)
                || (lengthZ (endPool (grid message) pools) <? 2))); [exact Hnone |].
  match goal with
  | |- context [placementLoop ?m ?t ?a ?s ?e ?f ?i] =>
      pose proof (placementLoop_cap m t a s e f i) as Hloop;
      pose proof (placementLoop_inv m t a s e f i) as Hloop';
      destruct (placementLoop m t a s e f i) as [why st]
  end.
  simpl in Hloop, Hloop'.
  assert (Husage : UsageInv message (startPool (grid message) pools)
                     (endPool (grid message) pools) st).
  { apply Hloop'.
    apply (initial_UsageInv message token activeToken pools rng _ Hrun Hy). reflexivity. }
  assert (Hinv : CapInv message st).
  { apply Hloop.
    - apply (initial_UsageInv message token activeToken pools rng _ Hrun Hy). reflexivity.
    - apply initial_CapInv. reflexivity. }
  destruct Hinv as [_ Hadmitted].
  assert (Hboth : admitted (usageCap message) (pathsOf (emitted st))
                  /\ forall v, visits v (pathsOf (emitted st)) <= usageCap message).
  { split; [exact Hadmitted |]. intros v.
    now destruct (UsageInv_bound _ _ _ _ v Husage). }
  destruct why; simpl; try exact Hboth;
    destruct (negb (token =? activeToken)); simpl; try exact Hboth;
    rewrite pathsOf_done; exact Hboth.
Qed.

(** C10: the cap that a build enforces is
    [min(65535, max(1, round(maxPathsPerVertex)))].  It lies between 1
    and 65535, and is 1 for a value that is zero, negative or a fraction
    below one half.  No node lies on more accepted paths than the cap;
    every node of an accepted path appears fewer times than the cap in
    the paths accepted before it; and the usage table of the build holds
    for each node the number of its appearances in the accepted paths, up
    to the cap, so that a node is refused exactly when that number has
    reached the cap: a node that is on no accepted path is never
    refused. *)
Theorem usage_cap_enforced (message : BuildMessage) (token activeToken : Z) (rng : nat) :
  0 <= countY (grid message) ->
  let cap := Z.min 65535 (Z.max 1 (Math_round (maxPathsPerVertex message))) in
  let paths := pathsOf (posted (buildPaths message token activeToken rng)) in
  1 <= cap <= 65535
  /\ ((maxPathsPerVertex message < 1 # 2)%Q -> cap = 1)
  /\ (forall v, visits v paths <= cap)
  /\ (forall before path after v,
        paths = before ++ path :: after -> In v path -> appearances v before < cap)
  /\ (forall pools out,
        classify (grid message) token activeToken = Some pools ->
        pathsOf out = [] ->
        let st :=
          snd (placementLoop message token activeToken
                 (startPool (grid message) pools) (endPool (grid message) pools)
                 (placementFuel message) (initialLoopState (grid message) rng out)) in
        forall v u, geti (usage st) v = Some u ->
          u = Z.min cap (appearances v (pathsOf (emitted st)))
          /\ (cellGe (usage st) v cap = true
              <-> cap <= appearances v (pathsOf (emitted st)))).
Proof.
  intros Hy cap paths. pose proof (usageCap_range message) as Hcap.
  change (usageCap message) with cap in Hcap.
  split; [exact Hcap |]. split; [| split; [| split]].
  - intros Hsmall. unfold cap, Math_round.
    assert (Hfl : Qfloor (maxPathsPerVertex message + (1 # 2)) < 1).
    { rewrite Zlt_Qlt. apply Qle_lt_trans with (maxPathsPerVertex message + (1 # 2))%Q;
        [apply Qfloor_le |].
      apply Qlt_le_trans with ((1 # 2) + (1 # 2))%Q.
      - apply Qplus_lt_l. exact Hsmall.
      - apply Qle_lteq. right. reflexivity. }
    lia.
  - intros v. now destruct (buildPaths_cap message token activeToken rng Hy) as [_ Hvisits].
  - now destruct (buildPaths_cap message token activeToken rng Hy) as [Hadmitted _].
  - intros pools out Hrun Hout st v u Hget.
    assert (Hinv : CapInv message st).
    { apply placementLoop_cap.
      - exact (initial_UsageInv message token activeToken pools rng out Hrun Hy Hout).
      - now apply initial_CapInv. }
    destruct Hinv as [Hcount _]. pose proof (Hcount v u Hget) as Hu.
    change (usageCap message) with cap in Hu. split; [exact Hu |].
    unfold cellGe. rewrite Hget. rewrite Z.leb_le. lia.
Qed.

End BuildCap.

(** With [maxPathsPerVertex] at zero the cap is one: the build on the
    two-vertex lattice still accepts a path through both vertices, and
    only one. *)
Lemma usage_cap_enforced_witness :
  0 <= countY (grid zeroCapMessage)
  /\ Z.min 65535 (Z.max 1 (Math_round (maxPathsPerVertex zeroCapMessage))) = 1
  /\ pathsOf (posted (@buildPaths openCity zeroCapMessage 1 1 0)) = [[0; 1]]
  /\ visits 0 (pathsOf (posted (@buildPaths openCity zeroCapMessage 1 1 0))) <= 1.
Proof.
  assert (Hy : 0 <= countY (grid zeroCapMessage)) by (vm_compute; discriminate).
  destruct (@usage_cap_enforced openCity zeroCapMessage 1 1 0%nat Hy)
    as [_ [Hone [Hvisits _]]].
  split; [exact Hy |]. split; [apply Hone; reflexivity |].
  split; [vm_compute; reflexivity |]. exact (Hvisits 0).
Defined.

(** ** The fuel of the heap loops *)

(** The sift loops are given as much fuel as their index allows passes:
    with that much fuel or more the result is the same, so the fuel is
    never what ends them. *)
Lemma siftUp_fuel (fuel : nat) (indices : list Z) (scores : list num) (i idx : Z)
  (score : num) :
  (Z.to_nat i <= fuel)%nat ->
  siftUp (S fuel) indices scores i idx score = siftUp fuel indices scores i idx score.
Proof.
  revert indices scores i. induction fuel as [| fuel IH]; intros indices scores i Hfuel.
  - simpl. destruct (i <=? 0) eqn:Hi; [reflexivity |]. apply Z.leb_gt in Hi. lia.
  - change (siftUp (S (S fuel)) indices scores i idx score)
      with (if i <=? 0 then (indices, scores)
            else if num_le (getNum scores (Z.shiftr (i - 1) 1)) score then (indices, scores)
            else siftUp (S fuel)
                   (seti (seti indices i (getInt indices (Z.shiftr (i - 1) 1)))
                         (Z.shiftr (i - 1) 1) idx)
                   (seti (seti scores i (getNum scores (Z.shiftr (i - 1) 1)))
                         (Z.shiftr (i - 1) 1) (toFloat32 score))
                   (Z.shiftr (i - 1) 1) idx score).
    change (siftUp (S fuel) indices scores i idx score)
      with (if i <=? 0 then (indices, scores)
            else if num_le (getNum scores (Z.shiftr (i - 1) 1)) score then (indices, scores)
            else siftUp fuel
                   (seti (seti indices i (getInt indices (Z.shiftr (i - 1) 1)))
                         (Z.shiftr (i - 1) 1) idx)
                   (seti (seti scores i (getNum scores (Z.shiftr (i - 1) 1)))
                         (Z.shiftr (i - 1) 1) (toFloat32 score))
                   (Z.shiftr (i - 1) 1) idx score).
    destruct (i <=? 0) eqn:Hi; [reflexivity |]. apply Z.leb_gt in Hi.
    destruct (num_le _ _); [reflexivity |].
    apply IH. rewrite Z.shiftr_div_pow2 by lia. change (2 ^ 1) with 2.
    assert ((i - 1) / 2 <= i - 1) by (apply Z.div_le_upper_bound; lia).
    assert (0 <= (i - 1) / 2) by (apply Z.div_pos; lia). lia.
Qed.

Lemma siftDown_fuel (fuel : nat) (indices : list Z) (scores : list num)
  (i lastIndex : Z) (lastScore : num) :
  0 <= i -> (Z.to_nat (lastIndex - i) <= fuel)%nat ->
  siftDown (S fuel) indices scores i lastIndex lastScore
  = siftDown fuel indices scores i lastIndex lastScore.
Proof.
  revert indices scores i. induction fuel as [| fuel IH]; intros indices scores i Hi Hfuel.
  - simpl. destruct (lastIndex <=? i * 2 + 1) eqn:Hleft; [reflexivity |].
    apply Z.leb_gt in Hleft. lia.
  - change (siftDown (S (S fuel)) indices scores i lastIndex lastScore)
      with (if lastIndex <=? i * 2 + 1 then (indices, scores, i)
            else
              let child :=
                if (i * 2 + 1 + 1 <? lastIndex)
                   && num_lt (getNum scores (i * 2 + 1 + 1)) (getNum scores (i * 2 + 1))
                then i * 2 + 1 + 1 else i * 2 + 1 in
              if num_ge (getNum scores child) lastScore then (indices, scores, i)
              else siftDown (S fuel) (seti indices i (getInt indices child))
                            (seti scores i (getNum scores child)) child lastIndex lastScore).
    change (siftDown (S fuel) indices scores i lastIndex lastScore)
      with (if lastIndex <=? i * 2 + 1 then (indices, scores, i)
            else
              let child :=
                if (i * 2 + 1 + 1 <? lastIndex)
                   && num_lt (getNum scores (i * 2 + 1 + 1)) (getNum scores (i * 2 + 1))
                then i * 2 + 1 + 1 else i * 2 + 1 in
              if num_ge (getNum scores child) lastScore then (indices, scores, i)
              else siftDown fuel (seti indices i (getInt indices child))
                            (seti scores i (getNum scores child)) child lastIndex lastScore).
    destruct (lastIndex <=? i * 2 + 1) eqn:Hleft; [reflexivity |].
    cbv zeta.
    destruct ((i * 2 + 1 + 1 <? lastIndex) && num_lt _ _);
      (destruct (num_ge _ _); [reflexivity | apply IH; lia]).
Qed.

(** ** The search loop does not run out of fuel *)

Section FuelFacts.
Context `{Platform}.
Variable g : WorkerGrid.

Lemma Forall_seti {A : Type} (P : A -> Prop) (l : list A) (i : Z) (v : A) :
  Forall P l -> P v -> Forall P (seti l i v).
Proof.
  intros Hl Hv. unfold seti. destruct (i <? 0); [exact Hl |].
  now apply Forall_insert.
Qed.

Lemma getInt_nonneg (l : list Z) (i : Z) :
  Forall (fun v => 0 <= v) l -> 0 <= getInt l i.
Proof.
  intros Hl. unfold getInt. destruct (geti l i) as [x |] eqn:Hx; simpl; [| lia].
  apply geti_In in Hx. rewrite List.Forall_forall in Hl. now apply Hl.
Qed.

Lemma siftUp_nonneg (fuel : nat) (indices : list Z) (scores : list num) (i idx : Z)
  (score : num) :
  Forall (fun v => 0 <= v) indices -> 0 <= idx ->
  Forall (fun v => 0 <= v) (fst (siftUp fuel indices scores i idx score)).
Proof.
  intros Hl Hidx. revert indices scores i Hl.
  induction fuel as [| fuel IH]; intros indices scores i Hl; [exact Hl |].
  simpl. destruct (i <=? 0); [exact Hl |].
  destruct (num_le _ _); [exact Hl |].
  apply IH. apply Forall_seti; [| exact Hidx].
  apply Forall_seti; [exact Hl |]. now apply getInt_nonneg.
Qed.

Lemma siftDown_nonneg (fuel : nat) (indices : list Z) (scores : list num)
  (i lastIndex : Z) (lastScore : num) :
  Forall (fun v => 0 <= v) indices ->
  Forall (fun v => 0 <= v) (fst (fst (siftDown fuel indices scores i lastIndex lastScore))).
Proof.
  revert indices scores i.
  induction fuel as [| fuel IH]; intros indices scores i Hl; [exact Hl |].
  simpl. destruct (lastIndex <=? i * 2 + 1); [exact Hl |].
  destruct (num_ge _ _); [exact Hl |].
  apply IH. apply Forall_seti; [exact Hl |]. now apply getInt_nonneg.
Qed.

Lemma siftDown_lengths (fuel : nat) (indices : list Z) (scores : list num)
  (i lastIndex : Z) (lastScore : num) :
  length (fst (fst (siftDown fuel indices scores i lastIndex lastScore))) = length indices.
Proof.
  revert indices scores i.
  induction fuel as [| fuel IH]; intros indices scores i; [reflexivity |].
  simpl. destruct (lastIndex <=? i * 2 + 1); [reflexivity |].
  destruct (num_ge _ _); [reflexivity |].
  rewrite IH. apply length_seti.
Qed.

Lemma heapPush_clean (sc : Scratch) (idx : Z) (score : num) (size : Z) :
  heapClean g sc -> 0 <= idx -> heapClean g (fst (heapPush sc idx score size)).
Proof.
  intros [Hheap Hlen] Hidx. unfold heapPush.
  pose proof (siftUp_nonneg (Z.to_nat size) (seti (heapIndices sc) size idx)
                (seti (heapScores sc) size (toFloat32 score)) size idx score
                (Forall_seti _ _ _ _ Hheap Hidx) Hidx) as Hup.
  destruct (siftUp _ _ _ _ _ _) as [indices scores]. simpl in Hup. split; assumption.
Qed.

Lemma heapPop_clean (sc sc' : Scratch) (size size' idx : Z) (score : num) :
  heapPop sc size = Some (idx, score, sc', size') ->
  heapClean g sc -> heapClean g sc' /\ 0 <= idx.
Proof.
  unfold heapPop. destruct (size =? 0); [discriminate |].
  intros Hpop [Hheap Hlen].
  assert (Hclean : Forall (fun v => 0 <= v)
            (fst (if 0 <? size - 1
                  then let '(indices1, scores1, i) :=
                         siftDown (Z.to_nat (size - 1)) (heapIndices sc) (heapScores sc) 0
                                  (size - 1) (getNum (heapScores sc) (size - 1)) in
                       (seti indices1 i (getInt (heapIndices sc) (size - 1)),
                        seti scores1 i (getNum (heapScores sc) (size - 1)))
                  else (heapIndices sc, heapScores sc)))).
  { destruct (0 <? size - 1); [| exact Hheap].
    pose proof (siftDown_nonneg (Z.to_nat (size - 1)) (heapIndices sc) (heapScores sc) 0
                  (size - 1) (getNum (heapScores sc) (size - 1)) Hheap) as Hdown.
    destruct (siftDown _ _ _ _ _ _) as [[indices1 scores1] i]. simpl in *.
    apply Forall_seti; [exact Hdown |]. now apply getInt_nonneg. }
  cbv zeta in Hpop.
  destruct (if 0 <? size - 1 then _ else _) as [indices scores].
  inversion Hpop. subst. simpl in Hclean. split; [split; assumption |].
  now apply getInt_nonneg.
Qed.

Lemma unclosed_ext (sc sc' : Scratch) :
  closed sc' = closed sc -> stamp sc' = stamp sc -> unclosed sc' = unclosed sc.
Proof. intros Hclosed Hstamp. unfold unclosed. now rewrite Hclosed, Hstamp. Qed.

Lemma unclosed_le (sc : Scratch) : (unclosed sc <= length (closed sc))%nat.
Proof. unfold unclosed. apply List.filter_length_le. Qed.

Lemma pushedAtMost_refl (n : Z) (st : Scratch * Z) :
  0 <= n -> heapClean g (fst st) -> pushedAtMost g n st st.
Proof.
  intros Hn Hclean. split; [exact Hclean |]. repeat split; lia.
Qed.

Lemma pushedAtMost_trans (n m : Z) (a b c : Scratch * Z) :
  pushedAtMost g n a b -> pushedAtMost g m b c -> pushedAtMost g (n + m) a c.
Proof.
  intros [_ [Hc1 [Hs1 Hn]]] [Hclean [Hc2 [Hs2 Hm]]].
  split; [exact Hclean |]. repeat split; try congruence; lia.
Qed.

Lemma pushedAtMost_weaken (n m : Z) (a b : Scratch * Z) :
  n <= m -> pushedAtMost g n a b -> pushedAtMost g m a b.
Proof.
  intros Hle [Hclean [Hc [Hs Hn]]]. split; [exact Hclean |].
  repeat split; try assumption; lia.
Qed.

Lemma relax_pushes (sc : Scratch) (heapSize idx nIdx : Z) (tentative : num) (h : Q) :
  heapClean g sc -> 0 <= nIdx ->
  pushedAtMost g 1 (sc, heapSize) (relax sc heapSize idx nIdx tentative h).
Proof.
  intros Hclean Hn. unfold relax.
  destruct (cellIsNot _ _ _ || num_lt _ _); [| apply pushedAtMost_refl; [lia | exact Hclean]].
  match goal with
  | |- pushedAtMost g 1 _ (heapPush ?sc0 ?i ?s ?z) =>
      pose proof (heapPush_clean sc0 i s z) as Hpush;
      pose proof (heapPush_core sc0 i s z) as [_ [Hclosed [_ Hstamp]]];
      pose proof (heapPush_size sc0 i s z) as Hsize
  end.
  destruct Hclean as [Hheap Hlen].
  split; [apply Hpush; [split; assumption | exact Hn] |].
  split; [exact Hclosed |]. split; [exact Hstamp |]. rewrite Hsize. simpl. lia.
Qed.

Lemma fold_pushes {B : Type} (f : Scratch * Z -> B -> Scratch * Z) (l : list B)
  (st : Scratch * Z) :
  heapClean g (fst st) ->
  (forall b st0, In b l -> heapClean g (fst st0) -> pushedAtMost g 1 st0 (f st0 b)) ->
  pushedAtMost g (Z.of_nat (length l)) st (fold_left f l st).
Proof.
  revert st. induction l as [| b l IH]; intros st Hclean Hstep.
  - apply pushedAtMost_refl; [simpl; lia | exact Hclean].
  - simpl fold_left. replace (Z.of_nat (length (b :: l))) with (1 + Z.of_nat (length l))
      by (simpl length; lia).
    assert (Hfirst : pushedAtMost g 1 st (f st b)) by (apply Hstep; [now left | exact Hclean]).
    eapply pushedAtMost_trans; [exact Hfirst |].
    apply IH; [apply Hfirst |]. intros b0 st0 Hb0. apply Hstep. now right.
Qed.

End FuelFacts.

Section FuelExpansion.
Context `{Platform}.
Variable g : WorkerGrid.
Variable cap : Z.
Variable nodeUsage : list Z.
Variable endCoords : Coords.
Hypothesis Hregular : regularGrid g.

Lemma lattice_index (idx : Z) :
  0 <= idx ->
  idx = ixOf g idx + iyOf g idx * strideY g + izOf g idx * strideZ g
  /\ 0 <= ixOf g idx /\ 0 <= iyOf g idx /\ 0 <= izOf g idx.
Proof.
  intros Hidx. destruct Hregular as [Hx [Hy _]].
  unfold ixOf, iyOf, izOf, strideZ, strideY, vertexCountX, vertexCountY.
  set (a := countX g + 1). set (b := countY g + 1).
  assert (Ha : 0 < a) by (unfold a; lia). assert (Hb : 0 < b) by (unfold b; lia).
  assert (Hq : 0 <= idx / a) by (apply Z.div_pos; lia).
  rewrite (Z.rem_mod_nonneg idx a) by lia.
  rewrite (Z.rem_mod_nonneg (idx / a) b) by lia.
  rewrite <- (Z.div_div idx a b) by lia.
  pose proof (Z.div_mod idx a) as H1. pose proof (Z.div_mod (idx / a) b) as H2.
  pose proof (Z.mod_pos_bound idx a Ha) as H3.
  pose proof (Z.mod_pos_bound (idx / a) b Hb) as H4.
  assert (Hr : 0 <= idx / a / b) by (apply Z.div_pos; lia).
  repeat split; lia || nia.
Qed.

Lemma neighborOffsets_delta (o : NeighborOffset) :
  In o (neighborOffsets g) ->
  delta o = dx o + dy o * strideY g + dz o * strideZ g.
Proof.
  unfold neighborOffsets, axisSteps. simpl. intros Hin.
  repeat (destruct Hin as [<- | Hin]; [reflexivity |]). contradiction.
Qed.

Lemma neighborOffsets_length : length (neighborOffsets g) = 26%nat.
Proof. reflexivity. Qed.

Lemma adjacentCells_length (ix iz : Z) : (length (adjacentCells g ix iz) <= 4)%nat.
Proof.
  unfold adjacentCells. simpl. rewrite !app_nil_r.
  destruct ((ix - 0 <? 0) || (gridX g <=? ix - 0));
    destruct ((ix - 1 <? 0) || (gridX g <=? ix - 1));
    destruct ((iz - 0 <? 0) || (gridZ g <=? iz - 0));
    destruct ((iz - 1 <? 0) || (gridZ g <=? iz - 1)); simpl; lia.
Qed.

Lemma totalVertices_nonneg : 0 <= totalVertices g.
Proof.
  destruct Hregular as [Hx [Hy [Hz _]]].
  unfold totalVertices, vertexCountX, vertexCountY, vertexCountZ.
  apply Z.mul_nonneg_nonneg; [apply Z.mul_nonneg_nonneg |]; lia.
Qed.

Lemma relaxNeighbor_pushes (idx : Z) (baseCost : num) (st : Scratch * Z)
  (o : NeighborOffset) :
  0 <= idx -> In o (neighborOffsets g) -> heapClean g (fst st) ->
  pushedAtMost g 1 st (relaxNeighbor g cap nodeUsage endCoords idx baseCost st o).
Proof.
  intros Hidx Ho Hclean. destruct st as [sc heapSize]. unfold relaxNeighbor.
  assert (Hsame : pushedAtMost g 1 (sc, heapSize) (sc, heapSize))
    by (apply pushedAtMost_refl; [lia | exact Hclean]).
  destruct (negb (inLattice g _ _ _)) eqn:Hin; [exact Hsame |].
  destruct (isBoundaryEdge g _ _ _ _); [exact Hsame |].
  destruct (cellGe nodeUsage _ cap); [exact Hsame |].
  destruct (cellIs (closed sc) _ _); [exact Hsame |].
  destruct (segmentHitsBuildings g _ _); [exact Hsame |].
  apply relax_pushes; [exact Hclean |].
  apply negb_false_iff in Hin. unfold inLattice in Hin. apply negb_true_iff in Hin.
  repeat (apply orb_false_iff in Hin; destruct Hin as [Hin ?]).
  destruct (lattice_index idx Hidx) as [Heq [Hix [Hiy Hiz]]].
  rewrite (neighborOffsets_delta o Ho).
  assert (HsY : 0 <= strideY g)
    by (destruct Hregular as [Hx _]; unfold strideY, vertexCountX; lia).
  assert (HsZ : 0 <= strideZ g).
  { destruct Hregular as [Hx [Hy _]]. unfold strideZ, vertexCountX, vertexCountY.
    apply Z.mul_nonneg_nonneg; lia. }
  assert (0 <= (iyOf g idx + dy o) * strideY g) by (apply Z.mul_nonneg_nonneg; lia).
  assert (0 <= (izOf g idx + dz o) * strideZ g) by (apply Z.mul_nonneg_nonneg; lia).
  nia.
Qed.

Lemma holeIndexAt_nonneg (cellX cellZ holeIndex : Z) :
  holeIndexAt g cellX cellZ = Some holeIndex -> 0 <= holeIndex.
Proof.
  unfold holeIndexAt. destruct (geti (holeIndexByCell g) _) as [h |]; [| discriminate].
  destruct (h <? 0) eqn:Hneg; [discriminate |]. intros Heq. inversion Heq. subst. lia.
Qed.

Lemma relaxHoleCenter_pushes (idx : Z) (baseCost : num) (st : Scratch * Z)
  (cell : Z * Z) :
  0 <= idx -> heapClean g (fst st) ->
  pushedAtMost g 1 st (relaxHoleCenter g cap nodeUsage endCoords idx baseCost st cell).
Proof.
  intros Hidx Hclean. destruct st as [sc heapSize]. destruct cell as [cellX cellZ].
  unfold relaxHoleCenter.
  assert (Hsame : pushedAtMost g 1 (sc, heapSize) (sc, heapSize))
    by (apply pushedAtMost_refl; [lia | exact Hclean]).
  destruct (holeIndexAt g cellX cellZ) as [holeIndex |] eqn:Hhole; [| exact Hsame].
  destruct (cellGe nodeUsage _ cap); [exact Hsame |].
  destruct (cellIs (closed sc) _ _); [exact Hsame |].
  apply relax_pushes; [exact Hclean |].
  apply holeIndexAt_nonneg in Hhole.
  destruct (lattice_index idx Hidx) as [_ [_ [Hiy _]]].
  pose proof totalVertices_nonneg as Hbase.
  assert (0 <= holeIndex * vertexCountY g).
  { apply Z.mul_nonneg_nonneg; [lia |]. destruct Hregular as [_ [Hy _]].
    unfold vertexCountY. lia. }
  unfold holeCenterBaseIndex, baseVertexCount. lia.
Qed.

Lemma expandLattice_pushes (idx : Z) (st : Scratch * Z) :
  0 <= idx -> heapClean g (fst st) ->
  pushedAtMost g 30 st (expandLattice g cap nodeUsage endCoords idx st).
Proof.
  intros Hidx Hclean. unfold expandLattice.
  assert (Hfirst : pushedAtMost g 26 st
            (fold_left (relaxNeighbor g cap nodeUsage endCoords idx (baseCostOf (fst st) idx))
                       (neighborOffsets g) st)).
  { change 26 with (Z.of_nat 26). rewrite <- neighborOffsets_length.
    apply fold_pushes; [exact Hclean |].
    intros o st0 Ho Hst0. now apply relaxNeighbor_pushes. }
  destruct (0 <? holeCenterCount g).
  - change 30 with (26 + 4). eapply pushedAtMost_trans; [exact Hfirst |].
    eapply pushedAtMost_weaken; [| apply fold_pushes].
    + pose proof (adjacentCells_length (ixOf g idx) (izOf g idx)). lia.
    + apply Hfirst.
    + intros cell st0 _ Hst0. now apply relaxHoleCenter_pushes.
  - eapply pushedAtMost_weaken; [| exact Hfirst]. lia.
Qed.

End FuelExpansion.

Section FuelHoles.
Context `{Platform}.
Variable g : WorkerGrid.
Variable cap : Z.
Variable nodeUsage : list Z.
Variable endCoords : Coords.
Hypothesis Hregular : regularGrid g.

Lemma registerHole_fold_cells (P : Z -> Prop) (cells : list Z) (acc : list Z * list Z) :
  Forall P cells -> Forall P (snd acc) ->
  Forall P (snd (fold_left (registerHole g) cells acc)).
Proof.
  revert acc. induction cells as [| cell cells IH]; intros acc Hcells Hacc; [exact Hacc |].
  simpl. inversion Hcells as [| ? ? Hcell Hrest]. subst. apply IH; [exact Hrest |].
  destruct acc as [byCell cellsSoFar]. unfold registerHole.
  destruct (instanceCount g <=? cell * perCell g); [exact Hacc |].
  destruct (cellIsNot _ _ _); [exact Hacc |].
  simpl. apply Forall_app. split; [exact Hacc |]. now constructor.
Qed.

Lemma holeCells_range : Forall (fun c => 0 <= c < cellCount g) (holeCells g).
Proof.
  unfold holeCells, holeRegistration.
  destruct (useHoleCenters g && (0 <? cellCount g)); [| constructor].
  apply registerHole_fold_cells; [| constructor].
  apply List.Forall_forall. intros c Hc. apply In_seqZ in Hc. lia.
Qed.

Lemma holeCells_nonneg : Forall (fun c => 0 <= c) (holeCells g).
Proof.
  eapply Forall_impl; [apply holeCells_range |]. simpl. intros c Hc. lia.
Qed.

Lemma holeCells_grid : holeCells g <> [] -> 0 < gridX g.
Proof.
  unfold holeCells, holeRegistration.
  destruct (useHoleCenters g && (0 <? cellCount g)) eqn:Hcond; [| intros Hne; now elim Hne].
  intros _. apply andb_true_iff in Hcond. destruct Hcond as [_ Hcount].
  apply Z.ltb_lt in Hcount. unfold cellCount in Hcount.
  destruct Hregular as [_ [_ [_ Hgz]]]. nia.
Qed.

Lemma relaxCorner_pushes (idx cellX cellZ iy : Z) (baseCost : num) (st : Scratch * Z)
  (corner : Z * Z) :
  0 <= cellX -> 0 <= cellZ -> 0 <= iy -> In corner cornerOffsets ->
  heapClean g (fst st) ->
  pushedAtMost g 1 st
    (relaxCorner g cap nodeUsage endCoords idx cellX cellZ iy baseCost st corner).
Proof.
  intros HcellX HcellZ Hiy Hcorner Hclean. destruct st as [sc heapSize].
  unfold relaxCorner.
  assert (Hsame : pushedAtMost g 1 (sc, heapSize) (sc, heapSize))
    by (apply pushedAtMost_refl; [lia | exact Hclean]).
  destruct (cellGe nodeUsage _ cap); [exact Hsame |].
  destruct (cellIs (closed sc) _ _); [exact Hsame |].
  apply relax_pushes; [exact Hclean |].
  assert (Hoff : 0 <= fst corner /\ 0 <= snd corner).
  { unfold cornerOffsets in Hcorner. simpl in Hcorner.
    repeat (destruct Hcorner as [<- | Hcorner]; [simpl; lia |]). contradiction. }
  assert (HsY : 0 <= strideY g)
    by (destruct Hregular as [Hx _]; unfold strideY, vertexCountX; lia).
  assert (HsZ : 0 <= strideZ g).
  { destruct Hregular as [Hx [Hy _]]. unfold strideZ, vertexCountX, vertexCountY.
    apply Z.mul_nonneg_nonneg; lia. }
  assert (0 <= iy * strideY g) by (apply Z.mul_nonneg_nonneg; lia).
  assert (0 <= (cellZ + snd corner) * strideZ g) by (apply Z.mul_nonneg_nonneg; lia).
  lia.
Qed.

Lemma relaxVertical_pushes (idx nIdx : Z) (baseCost : num) (x0 y1 z0 : Q)
  (st : Scratch * Z) :
  0 <= nIdx -> heapClean g (fst st) ->
  pushedAtMost g 1 st (relaxVertical g endCoords idx nIdx baseCost x0 y1 z0 st).
Proof.
  intros Hn Hclean. destruct st as [sc heapSize]. unfold relaxVertical.
  destruct (cellIsNot (closed sc) nIdx (stamp sc)).
  - now apply relax_pushes.
  - apply pushedAtMost_refl; [lia | exact Hclean].
Qed.

Lemma expandHole_pushes (idx : Z) (st : Scratch * Z) :
  holeCenterBaseIndex g <= idx -> heapClean g (fst st) ->
  pushedAtMost g 6 st (expandHole g cap nodeUsage endCoords idx st).
Proof.
  intros Hbase Hclean. unfold expandHole.
  pose proof (totalVertices_nonneg g Hregular) as Htotal.
  assert (Hvy : 0 < vertexCountY g)
    by (destruct Hregular as [_ [Hy _]]; unfold vertexCountY; lia).
  set (hvi := idx - holeCenterBaseIndex g).
  set (holeIndex := hvi / vertexCountY g).
  destruct ((holeIndex <? 0) || (Z.of_nat (length (holeCells g)) <=? holeIndex)) eqn:Hrange;
    [apply pushedAtMost_refl; [lia | exact Hclean] |].
  apply orb_false_iff in Hrange. destruct Hrange as [Hlow Hhigh].
  apply Z.ltb_ge in Hlow. apply Z.leb_gt in Hhigh.
  set (iy := hvi - holeIndex * vertexCountY g).
  assert (Hiy : 0 <= iy).
  { unfold iy, holeIndex. pose proof (Z.mod_pos_bound hvi (vertexCountY g) Hvy) as Hmod.
    rewrite Z.mod_eq in Hmod by lia. lia. }
  assert (Hnonempty : holeCells g <> []).
  { intros Hnil. rewrite Hnil in Hhigh. simpl in Hhigh. lia. }
  pose proof (holeCells_grid Hnonempty) as HgridX.
  pose proof (getInt_nonneg (holeCells g) holeIndex holeCells_nonneg) as Hcell.
  set (cellIndex := getInt (holeCells g) holeIndex) in *.
  assert (HcellX : 0 <= Z.rem cellIndex (gridX g)) by (apply Z.rem_nonneg; lia).
  assert (HcellZ : 0 <= cellIndex / gridX g) by (apply Z.div_pos; lia).
  assert (Hidx : 0 <= hvi) by (unfold hvi; lia).
  assert (Hcorners : pushedAtMost g 4 st
            (fold_left (relaxCorner g cap nodeUsage endCoords idx (Z.rem cellIndex (gridX g))
                          (cellIndex / gridX g) iy (baseCostOf (fst st) idx))
                       cornerOffsets st)).
  { change 4 with (Z.of_nat (length cornerOffsets)).
    apply fold_pushes; [exact Hclean |].
    intros corner st0 Hcorner Hst0. now apply relaxCorner_pushes. }
  set (st1 := fold_left _ cornerOffsets st) in *.
  assert (Hkeep : pushedAtMost g 6 st st1)
    by (eapply pushedAtMost_weaken; [| exact Hcorners]; lia).
  destruct ((0 <? iy) && cellGe nodeUsage (idx - 1) cap); [exact Hkeep |].
  assert (Hdown : pushedAtMost g 5 st
            (if 0 <? iy
             then relaxVertical g endCoords idx (idx - 1) (baseCostOf (fst st) idx)
                    (gridStartX g + inject_Z (Z.rem cellIndex (gridX g)) * step g)%Q
                    (vertexStartY g + inject_Z iy * voxelHeight g - voxelHeight g)%Q
                    (gridStartZ g + inject_Z (cellIndex / gridX g) * step g)%Q st1
             else st1)).
  { destruct (0 <? iy) eqn:Hpos.
    - apply Z.ltb_lt in Hpos. change 5 with (4 + 1).
      eapply pushedAtMost_trans; [exact Hcorners |].
      apply relaxVertical_pushes; [| apply Hcorners].
      unfold holeCenterBaseIndex, baseVertexCount in *. lia.
    - eapply pushedAtMost_weaken; [| exact Hcorners]. lia. }
  set (st2 := if 0 <? iy then _ else st1) in *.
  assert (Hkeep2 : pushedAtMost g 6 st st2)
    by (eapply pushedAtMost_weaken; [| exact Hdown]; lia).
  destruct ((iy + 1 <? vertexCountY g) && cellGe nodeUsage (idx + 1) cap); [exact Hkeep2 |].
  destruct (iy + 1 <? vertexCountY g); [| exact Hkeep2].
  change 6 with (5 + 1). eapply pushedAtMost_trans; [exact Hdown |].
  apply relaxVertical_pushes; [| apply Hdown].
  unfold holeCenterBaseIndex, baseVertexCount in *. lia.
Qed.

Lemma expandHole_outside (idx : Z) (st : Scratch * Z) :
  totalNodeCount g <= idx -> expandHole g cap nodeUsage endCoords idx st = st.
Proof.
  intros Hout. unfold expandHole.
  assert (Hvy : 0 < vertexCountY g)
    by (destruct Hregular as [_ [Hy _]]; unfold vertexCountY; lia).
  assert (Hrange : ((idx - holeCenterBaseIndex g) / vertexCountY g <? 0)
                   || (Z.of_nat (length (holeCells g))
                       <=? (idx - holeCenterBaseIndex g) / vertexCountY g) = true);
    [| now rewrite Hrange].
  apply orb_true_iff. right. apply Z.leb_le.
  unfold totalNodeCount, holeCenterCount, holeCenterBaseIndex in *.
  destruct (useHoleCenters g && (0 <? cellCount g)) eqn:Hcond.
  - apply Z.div_le_lower_bound; lia.
  - assert (Hnil : holeCells g = []).
    { unfold holeCells, holeRegistration. now rewrite Hcond. }
    rewrite Hnil. simpl. apply Z.div_pos; lia.
Qed.

End FuelHoles.

Section FuelLoop.
Context `{Platform}.
Variable g : WorkerGrid.
Variable cap : Z.
Variable nodeUsage : list Z.
Variable token activeToken : Z.
Hypothesis Hregular : regularGrid g.

Lemma filter_insert_length (f : Z -> bool) (l : list Z) (i : nat) (x v : Z) :
  l !! i = Some x -> f x = true -> f v = false ->
  S (length (List.filter f (<[i:=v]> l))) = length (List.filter f l).
Proof.
  intros Hx Hfx Hfv.
  rewrite <- (take_drop_middle l i x Hx) at 2.
  rewrite insert_take_drop by (eapply lookup_lt_Some; eauto).
  rewrite !List.filter_app. simpl. rewrite Hfx, Hfv. rewrite !length_app. simpl. lia.
Qed.

Lemma unclosed_setClosed_inside (sc : Scratch) (idx : Z) :
  0 <= idx < lengthZ (closed sc) -> cellIs (closed sc) idx (stamp sc) = false ->
  S (unclosed (setClosed sc idx)) = unclosed sc.
Proof.
  intros Hidx Hopen. unfold unclosed, setClosed. simpl.
  destruct (geti_in_range (closed sc) idx Hidx) as [x Hx].
  unfold cellIs in Hopen. rewrite Hx in Hopen.
  unfold geti in Hx. unfold seti.
  destruct (idx <? 0) eqn:Hneg; [apply Z.ltb_lt in Hneg; lia |].
  apply (filter_insert_length _ _ _ x); [exact Hx | now rewrite Hopen |].
  now rewrite Z.eqb_refl.
Qed.

Lemma setClosed_outside (sc : Scratch) (idx : Z) :
  lengthZ (closed sc) <= idx -> closed (setClosed sc idx) = closed sc.
Proof.
  intros Hout. unfold setClosed, seti. simpl. destruct (idx <? 0); [reflexivity |].
  apply list_insert_ge. unfold lengthZ in Hout. lia.
Qed.

Lemma setClosed_clean (sc : Scratch) (idx : Z) :
  heapClean g sc -> heapClean g (setClosed sc idx).
Proof.
  intros [Hheap Hlen]. split; [exact Hheap |].
  unfold setClosed. simpl. now rewrite lengthZ_seti.
Qed.

(** Run with more fuel than the budget of its state, the main loop is
    left through its condition, its [break] or the cancellation test, and
    the heap it leaves holds no negative index. *)
Lemma searchLoop_fuel (endCoords : Coords) (endIndex : Z) (fuel : nat) (sc : Scratch)
  (heapSize iterations : Z) :
  heapClean g sc ->
  (searchBudget sc heapSize < fuel)%nat ->
  match searchLoop g cap nodeUsage endCoords token activeToken endIndex
                   fuel sc heapSize iterations with
  | LoopEnded sc' | LoopCancelled sc' => heapClean g sc'
  | LoopFuel _ => False
  end.
Proof.
  revert sc heapSize iterations.
  induction fuel as [| fuel IH]; intros sc heapSize iterations Hclean Hbudget; [lia |].
  simpl. destruct (heapSize <=? 0) eqn:Hempty; [exact Hclean |].
  apply Z.leb_gt in Hempty.
  destruct (shouldCancel iterations token activeToken); [exact Hclean |].
  destruct (heapPop sc heapSize) as [[[[idx score] sc1] size1] |] eqn:Hpop; [| exact Hclean].
  destruct (heapPop_clean g sc sc1 heapSize size1 idx score Hpop Hclean) as [Hclean1 Hidx].
  destruct (heapPop_core sc sc1 heapSize size1 idx score Hpop)
    as [[_ [Hclosed1 [_ Hstamp1]]] [Hsize1 _]].
  pose proof (unclosed_ext sc sc1 Hclosed1 Hstamp1) as Hun1.
  unfold searchBudget in Hbudget.
  destruct (cellIs (closed sc1) idx (stamp sc1)) eqn:Hopen.
  { apply IH; [exact Hclean1 |]. unfold searchBudget. lia. }
  pose proof (setClosed_clean sc1 idx Hclean1) as Hclean2.
  destruct (idx =? endIndex); [exact Hclean2 |].
  assert (Hnodes : totalVertices g <= totalNodeCount g)
    by (apply totalNodeCount_ge; destruct Hregular as [_ [Hy _]]; exact Hy).
  assert (Hlen1 : lengthZ (closed sc1) = totalNodeCount g) by apply Hclean1.
  destruct (idx <? holeCenterBaseIndex g) eqn:Hbase.
  - apply Z.ltb_lt in Hbase. unfold holeCenterBaseIndex, baseVertexCount in Hbase.
    pose proof (expandLattice_pushes g cap nodeUsage endCoords Hregular idx
                  (setClosed sc1 idx, size1) Hidx Hclean2) as [Hclean3 [Hclosed3 [Hstamp3 Hsize3]]].
    destruct (expandLattice g cap nodeUsage endCoords idx (setClosed sc1 idx, size1))
      as [sc3 size3]. simpl in *.
    apply IH; [exact Hclean3 |]. unfold searchBudget.
    rewrite (unclosed_ext (setClosed sc1 idx) sc3 Hclosed3 Hstamp3).
    pose proof (unclosed_setClosed_inside sc1 idx) as Hdrop.
    specialize (Hdrop ltac:(lia) Hopen). lia.
  - apply Z.ltb_ge in Hbase.
    destruct (Z_lt_le_dec idx (totalNodeCount g)) as [Hin | Hout].
    + pose proof (expandHole_pushes g cap nodeUsage endCoords Hregular idx
                    (setClosed sc1 idx, size1) Hbase Hclean2)
        as [Hclean3 [Hclosed3 [Hstamp3 Hsize3]]].
      destruct (expandHole g cap nodeUsage endCoords idx (setClosed sc1 idx, size1))
        as [sc3 size3]. simpl in *.
      apply IH; [exact Hclean3 |]. unfold searchBudget.
      rewrite (unclosed_ext (setClosed sc1 idx) sc3 Hclosed3 Hstamp3).
      pose proof (unclosed_setClosed_inside sc1 idx) as Hdrop.
      specialize (Hdrop ltac:(lia) Hopen). lia.
    + rewrite (expandHole_outside g cap nodeUsage endCoords Hregular idx _ Hout).
      apply IH; [exact Hclean2 |]. unfold searchBudget.
      rewrite (unclosed_ext sc1 (setClosed sc1 idx)); [lia | | reflexivity].
      apply setClosed_outside. lia.
Qed.

End FuelLoop.

Section FuelSearch.
Context `{Platform}.
Variable g : WorkerGrid.
Variable cap : Z.
Variable token activeToken : Z.
Hypothesis Hregular : regularGrid g.

Lemma bumpStamp_clean (sc : Scratch) : heapClean g sc -> heapClean g (bumpStamp sc).
Proof.
  intros [Hheap Hlen]. unfold bumpStamp.
  destruct (2147483646 <=? stamp sc + 1); split; simpl; try assumption.
  unfold lengthZ in *. now rewrite length_replicate.
Qed.

Lemma markStart_clean (sc : Scratch) (startIndex : Z) :
  heapClean g sc -> heapClean g (markStart sc startIndex).
Proof. intros [Hheap Hlen]. split; assumption. Qed.

(** The main loop of a search started as [aStar] starts it, from a clean
    heap and a start node that is not negative, does not run out of
    fuel, whatever the end node. *)
Lemma aStar_fuel (nodeUsage : list Z) (sc : Scratch) (startIndex endIndex : Z)
  (endCoords : Coords) (score : num) :
  heapClean g sc -> 0 <= startIndex ->
  let pushed := heapPush (markStart (bumpStamp sc) startIndex) startIndex score 0 in
  match searchLoop g cap nodeUsage endCoords token activeToken endIndex
                   (searchFuel (fst pushed)) (fst pushed) (snd pushed) 0 with
  | LoopEnded sc' | LoopCancelled sc' => heapClean g sc'
  | LoopFuel _ => False
  end.
Proof.
  intros Hclean Hstart pushed.
  assert (Hpushed : heapClean g (fst pushed)).
  { apply heapPush_clean; [| exact Hstart]. apply markStart_clean. now apply bumpStamp_clean. }
  apply searchLoop_fuel; [exact Hregular | exact Hpushed |].
  unfold searchBudget, searchFuel.
  replace (snd pushed) with 1 by (unfold pushed; now rewrite heapPush_size).
  pose proof (unclosed_le (fst pushed)) as Hle.
  change (Z.to_nat 1) with 1%nat. lia.
Qed.

Lemma aStar_clean (nodeUsage : list Z) (sc : Scratch) (startIndex endIndex : Z) :
  heapClean g sc -> 0 <= startIndex ->
  heapClean g (snd (aStar g cap token activeToken nodeUsage sc startIndex endIndex)).
Proof.
  intros Hclean Hstart. unfold aStar.
  destruct (cellGe nodeUsage startIndex cap || cellGe nodeUsage endIndex cap);
    [now apply bumpStamp_clean |].
  destruct (getNodeCoords g startIndex) as [[sx sy] sz].
  pose proof (aStar_fuel nodeUsage sc startIndex endIndex (getNodeCoords g endIndex)
                (Fin (heuristic (getNodeCoords g endIndex) sx sy sz)) Hclean Hstart) as Hrun.
  cbv zeta in Hrun.
  destruct (heapPush _ startIndex _ 0) as [sc2 heapSize]. simpl in Hrun.
  destruct (searchLoop _ _ _ _ _ _ _ _ _ _ _) as [sc3 | sc3 | sc3];
    [| exact Hrun | contradiction].
  destruct (cellIsNot (closed sc3) endIndex (stamp sc3)); [exact Hrun |].
  destruct (walkParents _ sc3 startIndex endIndex []) as [[path current] |]; [| exact Hrun].
  destruct (current =? startIndex); exact Hrun.
Qed.

Lemma initialScratch_clean : heapClean g (initialScratch g).
Proof.
  assert (Hnodes : 0 <= totalNodeCount g).
  { pose proof (totalVertices_nonneg g Hregular).
    pose proof (totalNodeCount_ge g). destruct Hregular as [_ [Hy _]]. lia. }
  split; simpl.
  - apply Forall_replicate. lia.
  - unfold lengthZ. rewrite length_replicate. lia.
Qed.

End FuelSearch.

Section FuelPlacement.
Context `{Platform}.
Variable message : BuildMessage.
Variable token activeToken : Z.
Variable startNodes endNodes : list Z.
Hypothesis Hregular : regularGrid (grid message).
Hypothesis Hpools : forall v, In v startNodes \/ In v endNodes -> 0 <= v.

Lemma buildLoop_clean (nodeUsage : list Z) (sc : Scratch) (rng : nat) :
  heapClean (grid message) sc ->
  heapClean (grid message)
    (snd (fst (buildLoop (grid message) (usageCap message) token activeToken
                         startNodes endNodes nodeUsage sc rng))).
Proof.
  intros Hsc. unfold buildLoop.
  destruct (pickDistinct startNodes 2 nodeUsage (usageCap message) rng)
    as [sideA rng1] eqn:HA.
  destruct (pickDistinct endNodes 2 nodeUsage (usageCap message) rng1)
    as [sideB rng2] eqn:HB.
  destruct sideA as [[| a1 [| a2 restA]] |]; try exact Hsc;
    destruct sideB as [[| b1 [| b2 restB]] |]; try exact Hsc.
  assert (Ha1 : 0 <= a1).
  { apply Hpools. left. eapply pickDistinct_In; [exact HA | now left]. }
  assert (Ha2 : 0 <= a2).
  { apply Hpools. left. eapply pickDistinct_In; [exact HA | right; now left]. }
  assert (Hb1 : 0 <= b1).
  { apply Hpools. right. eapply pickDistinct_In; [exact HB | now left]. }
  assert (Hb2 : 0 <= b2).
  { apply Hpools. right. eapply pickDistinct_In; [exact HB | right; now left]. }
  pose proof (aStar_clean (grid message) (usageCap message) token activeToken Hregular
                nodeUsage sc a1 a2 Hsc Ha1) as H1.
  destruct (aStar _ _ _ _ nodeUsage sc a1 a2) as [r1 sc1]. simpl in H1.
  destruct r1 as [seg1 | |]; try exact H1.
  pose proof (aStar_clean (grid message) (usageCap message) token activeToken Hregular
                nodeUsage sc1 a2 b1 H1 Ha2) as H2.
  destruct (aStar _ _ _ _ nodeUsage sc1 a2 b1) as [r2 sc2]. simpl in H2.
  destruct r2 as [seg2 | |]; try exact H2.
  pose proof (aStar_clean (grid message) (usageCap message) token activeToken Hregular
                nodeUsage sc2 b1 b2 H2 Hb1) as H3.
  destruct (aStar _ _ _ _ nodeUsage sc2 b1 b2) as [r3 sc3]. simpl in H3.
  destruct r3 as [seg3 | |]; try exact H3.
  pose proof (aStar_clean (grid message) (usageCap message) token activeToken Hregular
                nodeUsage sc3 b2 a1 H3 Hb2) as H4.
  destruct (aStar _ _ _ _ nodeUsage sc3 b2 a1) as [r4 sc4]. simpl in H4.
  destruct r4 as [seg4 | |]; exact H4.
Qed.

Lemma afterAttempt_clean (st : LoopState) (result : PathResult) (sc : Scratch)
  (rng : nat) (pairS pairE pairT : Z) :
  heapClean (grid message) sc -> pairStart st = -1 \/ 0 <= pairStart st ->
  pairS = -1 \/ 0 <= pairS ->
  match afterAttempt message st result sc rng pairS pairE pairT with
  | Continue st' | Exit _ st' => cleanState (grid message) st'
  end.
Proof.
  intros Hsc Hold Hpair. unfold afterAttempt.
  destruct result as [path | |]; split; simpl; try assumption.
  destruct (twoSided (grid message)); [exact Hold | now left].
Qed.

(** Every pass of the placement loop runs its searches from a clean heap
    and a start node that is not negative, and leaves the loop variables
    in that condition. *)
Lemma placementStep_clean (st : LoopState) :
  cleanState (grid message) st ->
  match placementStep message token activeToken startNodes endNodes st with
  | Continue st' | Exit _ st' => cleanState (grid message) st'
  end.
Proof.
  intros [Hsc Hpair]. unfold placementStep.
  destruct (negb (placed st <? maxPaths message)); [split; assumption |].
  destruct (negb (token =? activeToken)); [split; assumption |].
  destruct (maxAttemptsOf message <=? attempts st); [split; assumption |].
  destruct (twoSided (grid message)).
  - pose proof (buildLoop_clean (usage st) (scratch st) (randomCalls st) Hsc) as Hloop.
    destruct (buildLoop _ _ _ _ _ _ _ _ _) as [[result sc] rng]. simpl in Hloop.
    now apply afterAttempt_clean.
  - destruct ((pairStart st =? -1) || (pairEnd st =? -1)
              || (maxTries message <=? pairTries st)) eqn:Hfresh.
    + destruct (selectPair startNodes endNodes false (usage st) (usageCap message)
                           (randomCalls st)) as [[[pairS pairE] |] rng] eqn:Hselect;
        [| split; assumption].
      destruct (selectPair_In _ _ _ _ _ _ _ _ _ Hselect) as [HinS _].
      assert (HpairS : 0 <= pairS) by (apply Hpools; now left).
      pose proof (aStar_clean (grid message) (usageCap message) token activeToken Hregular
                    (usage st) (scratch st) pairS pairE Hsc HpairS) as Hrun.
      destruct (aStar _ _ _ _ (usage st) (scratch st) pairS pairE) as [result sc].
      simpl in Hrun. apply afterAttempt_clean; [exact Hrun | exact Hpair | now right].
    + apply orb_false_iff in Hfresh. destruct Hfresh as [Hfresh _].
      apply orb_false_iff in Hfresh. destruct Hfresh as [Hstart _].
      apply Z.eqb_neq in Hstart.
      assert (HpairS : 0 <= pairStart st) by (destruct Hpair; [contradiction | assumption]).
      pose proof (aStar_clean (grid message) (usageCap message) token activeToken Hregular
                    (usage st) (scratch st) (pairStart st) (pairEnd st) Hsc HpairS) as Hrun.
      destruct (aStar _ _ _ _ (usage st) (scratch st) (pairStart st) (pairEnd st))
        as [result sc].
      simpl in Hrun. now apply afterAttempt_clean.
Qed.

Lemma placementLoop_clean (fuel : nat) (st : LoopState) :
  cleanState (grid message) st ->
  cleanState (grid message)
    (snd (placementLoop message token activeToken startNodes endNodes fuel st)).
Proof.
  revert st. induction fuel as [| fuel IH]; intros st Hst; [exact Hst |].
  simpl. pose proof (placementStep_clean st Hst) as Hstep.
  destruct (placementStep message token activeToken startNodes endNodes st)
    as [st' | why st']; [now apply IH | exact Hstep].
Qed.

End FuelPlacement.

(** ** The edges of the search graph on an aligned grid *)

Section GraphFacts.
Context `{Platform}.
Variable g : WorkerGrid.
Hypothesis Hregular : regularGrid g.

Lemma lattice_encode (x y z : Z) :
  0 <= x < vertexCountX g -> 0 <= y < vertexCountY g -> 0 <= z ->
  ixOf g (x + y * strideY g + z * strideZ g) = x
  /\ iyOf g (x + y * strideY g + z * strideZ g) = y
  /\ izOf g (x + y * strideY g + z * strideZ g) = z
  /\ 0 <= x + y * strideY g + z * strideZ g
  /\ (z < vertexCountZ g -> x + y * strideY g + z * strideZ g < totalVertices g).
Proof.
  intros Hx Hy Hz.
  unfold ixOf, iyOf, izOf, strideZ, strideY, totalVertices.
  set (a := vertexCountX g) in *. set (b := vertexCountY g) in *.
  set (c := vertexCountZ g).
  assert (Hya : 0 <= y * a) by (apply Z.mul_nonneg_nonneg; lia).
  assert (Hab : 0 < a * b) by (apply Z.mul_pos_pos; lia).
  assert (Hzab : 0 <= z * (a * b)) by (apply Z.mul_nonneg_nonneg; lia).
  assert (Hzb : 0 <= z * b) by (apply Z.mul_nonneg_nonneg; lia).
  assert (Hn : 0 <= x + y * a + z * (a * b)) by lia.
  assert (Hq : (x + y * a + z * (a * b)) / a = y + z * b).
  { replace (x + y * a + z * (a * b)) with (x + (y + z * b) * a) by ring.
    rewrite Z.div_add by lia. rewrite Z.div_small by lia. lia. }
  assert (Hr : (x + y * a + z * (a * b)) / (a * b) = z).
  { rewrite <- Z.div_div by lia. rewrite Hq.
    rewrite Z.div_add by lia. rewrite Z.div_small by lia. lia. }
  rewrite Hq, Hr.
  rewrite (Z.rem_mod_nonneg _ a) by lia.
  rewrite (Z.rem_mod_nonneg (y + z * b) b) by lia.
  replace (x + y * a + z * (a * b)) with (x + (y + z * b) * a) by ring.
  rewrite Z.mod_add by lia. rewrite (Z.mod_small x a) by lia.
  rewrite Z.mod_add by lia. rewrite (Z.mod_small y b) by lia.
  repeat split; try lia. intros Hzc. nia.
Qed.

Lemma lattice_decode (idx : Z) :
  0 <= idx < totalVertices g ->
  idx = ixOf g idx + iyOf g idx * strideY g + izOf g idx * strideZ g
  /\ 0 <= ixOf g idx < vertexCountX g
  /\ 0 <= iyOf g idx < vertexCountY g
  /\ 0 <= izOf g idx < vertexCountZ g.
Proof.
  intros Hidx. destruct Hregular as [Hx [Hy [Hz _]]].
  unfold ixOf, iyOf, izOf, strideZ, strideY, totalVertices, vertexCountX, vertexCountY,
    vertexCountZ in *.
  set (a := countX g + 1) in *. set (b := countY g + 1) in *. set (c := countZ g + 1) in *.
  assert (Ha : 0 < a) by (unfold a; lia). assert (Hb : 0 < b) by (unfold b; lia).
  assert (Hq : 0 <= idx / a) by (apply Z.div_pos; lia).
  rewrite (Z.rem_mod_nonneg idx a) by lia.
  rewrite (Z.rem_mod_nonneg (idx / a) b) by lia.
  rewrite <- (Z.div_div idx a b) by lia.
  pose proof (Z.div_mod idx a) as H1. pose proof (Z.div_mod (idx / a) b) as H2.
  pose proof (Z.mod_pos_bound idx a Ha) as H3.
  pose proof (Z.mod_pos_bound (idx / a) b Hb) as H4.
  assert (Hr : 0 <= idx / a / b) by (apply Z.div_pos; lia).
  assert (Hupper : idx / a / b < c).
  { apply Z.div_lt_upper_bound; [lia |]. apply Z.div_lt_upper_bound; [lia |]. nia. }
  repeat split; lia || nia.
Qed.

Lemma geti_snoc {A : Type} (l : list A) (x : A) :
  geti (l ++ [x]) (lengthZ l) = Some x.
Proof.
  unfold geti, lengthZ. destruct (Z.of_nat (length l) <? 0) eqn:Hneg;
    [apply Z.ltb_lt in Hneg; lia |].
  rewrite Nat2Z.id. now apply list_lookup_middle.
Qed.

Lemma geti_app_l {A : Type} (l k : list A) (i : Z) (x : A) :
  geti l i = Some x -> geti (l ++ k) i = Some x.
Proof.
  unfold geti. destruct (i <? 0); [discriminate |]. intros Hx.
  rewrite lookup_app_l; [exact Hx |]. now apply lookup_lt_Some in Hx.
Qed.

(** [holeCells] inverts [holeIndexByCell] on the registered cells. *)
Lemma registerHole_fold_inverse (cells : list Z) (acc : list Z * list Z) :
  (forall cell h, geti (fst acc) cell = Some h -> 0 <= h -> geti (snd acc) h = Some cell) ->
  forall cell h,
    geti (fst (fold_left (registerHole g) cells acc)) cell = Some h -> 0 <= h ->
    geti (snd (fold_left (registerHole g) cells acc)) h = Some cell.
Proof.
  revert acc. induction cells as [| c cells IH]; intros acc Hacc; [exact Hacc |].
  simpl. apply IH. clear IH. destruct acc as [byCell cellsSoFar]. unfold registerHole.
  destruct (instanceCount g <=? c * perCell g); [exact Hacc |].
  destruct (cellIsNot _ _ _); [exact Hacc |].
  simpl in *. intros cell h Hget Hh.
  destruct (geti_seti_inv _ _ _ _ _ Hget) as [[Heq Hhv] | [_ Hold]].
  - subst. apply geti_snoc.
  - apply geti_app_l. now apply Hacc.
Qed.

Lemma holeIndexAt_cell (cellX cellZ holeIndex : Z) :
  holeIndexAt g cellX cellZ = Some holeIndex ->
  0 <= holeIndex /\ geti (holeCells g) holeIndex = Some (cellZ * gridX g + cellX).
Proof.
  intros Hat. pose proof (holeIndexAt_nonneg g _ _ _ Hat) as Hnonneg.
  split; [exact Hnonneg |].
  unfold holeIndexAt in Hat.
  destruct (geti (holeIndexByCell g) (cellZ * gridX g + cellX)) as [h |] eqn:Hget;
    [| discriminate].
  destruct (h <? 0); [discriminate |]. inversion Hat. subst h.
  unfold holeIndexByCell, holeCells, holeRegistration in *.
  destruct (useHoleCenters g && (0 <? cellCount g)).
  - apply registerHole_fold_inverse with (acc := (replicate (Z.to_nat (cellCount g)) (-1), []));
      [| exact Hget | exact Hnonneg].
    simpl. intros cell h Hcell Hh. apply geti_replicate in Hcell. lia.
  - simpl in Hget. apply geti_replicate in Hget. lia.
Qed.

End GraphFacts.

Section EdgeFacts.
Context `{Platform}.
Variable g : WorkerGrid.
Variable cap : Z.
Variable nodeUsage : list Z.
Hypothesis Hregular : regularGrid g.
Hypothesis Haligned : alignedGrid g.

Lemma neighborOffsets_steps (o : NeighborOffset) :
  In o (neighborOffsets g) ->
  -1 <= dx o <= 1 /\ -1 <= dy o <= 1 /\ -1 <= dz o <= 1
  /\ ~ (dx o = 0 /\ dy o = 0 /\ dz o = 0).
Proof.
  unfold neighborOffsets, axisSteps. simpl. intros Hin.
  repeat (destruct Hin as [<- | Hin]; [simpl; lia |]). contradiction.
Qed.

Lemma isLatticeNode_true (a : Z) : 0 <= a < totalVertices g -> isLatticeNode g a = true.
Proof.
  intros Ha. unfold isLatticeNode. apply andb_true_iff.
  split; [apply Z.leb_le | apply Z.ltb_lt]; lia.
Qed.

Lemma isLatticeNode_false (a : Z) : holeCenterBaseIndex g <= a -> isLatticeNode g a = false.
Proof.
  intros Ha. unfold isLatticeNode, holeCenterBaseIndex, baseVertexCount in *.
  apply andb_false_iff. right. apply Z.ltb_ge. lia.
Qed.

Lemma isHoleNode_true (a : Z) :
  holeCenterBaseIndex g <= a < totalNodeCount g -> isHoleNode g a = true.
Proof.
  intros Ha. unfold isHoleNode. apply andb_true_iff.
  split; [apply Z.leb_le | apply Z.ltb_lt]; lia.
Qed.

Lemma oneApart_step (p d : Z) : -1 <= d <= 1 -> oneApart p (p + d) = true.
Proof.
  intros Hd. unfold oneApart. apply andb_true_iff.
  split; apply Z.leb_le; lia.
Qed.

Lemma latticeEdges_sound (a b : Z) (c : Q) :
  0 <= a < totalVertices g -> In (b, c) (latticeEdges g cap nodeUsage a) ->
  acceptableEdge g a b = true /\ 0 <= b < totalVertices g.
Proof.
  intros Ha Hin. unfold latticeEdges in Hin. apply in_flat_map in Hin.
  destruct Hin as [o [Ho Hin]].
  destruct (inLattice g _ _ _ && _ && _ && _) eqn:Hcond; [| contradiction].
  destruct Hin as [Heq | []]. inversion Heq. subst b c. clear Heq.
  apply andb_true_iff in Hcond. destruct Hcond as [Hcond Hfree].
  apply andb_true_iff in Hcond. destruct Hcond as [Hcond _].
  apply andb_true_iff in Hcond. destruct Hcond as [Hinside Hopen].
  destruct (lattice_decode g Hregular a Ha) as [Hdec [Hix [Hiy Hiz]]].
  destruct (neighborOffsets_steps o Ho) as [Hdx [Hdy [Hdz Hmove]]].
  pose proof (neighborOffsets_delta g o Ho) as Hdelta.
  unfold inLattice in Hinside. apply negb_true_iff in Hinside.
  repeat (apply orb_false_iff in Hinside; destruct Hinside as [Hinside ?]).
  repeat match goal with
         | Hlt : (_ <? _) = false |- _ => apply Z.ltb_ge in Hlt
         | Hle : (_ <=? _) = false |- _ => apply Z.leb_gt in Hle
         end.
  assert (Hb : a + delta o
               = (ixOf g a + dx o) + (iyOf g a + dy o) * strideY g
                 + (izOf g a + dz o) * strideZ g) by (rewrite Hdelta; lia).
  destruct (lattice_encode g (ixOf g a + dx o) (iyOf g a + dy o) (izOf g a + dz o))
    as [Ex [Ey [Ez [Hb0 Hbt]]]]; try lia.
  rewrite <- Hb in Ex, Ey, Ez, Hb0, Hbt.
  split; [| split; [exact Hb0 | apply Hbt; lia]].
  unfold acceptableEdge, validEdge, latticeRule.
  rewrite (isLatticeNode_true a Ha).
  rewrite (isLatticeNode_true (a + delta o)) by (split; [exact Hb0 | apply Hbt; lia]).
  rewrite Ex, Ey, Ez. rewrite !oneApart_step by assumption.
  apply negb_true_iff in Hopen. rewrite Hopen.
  apply negb_true_iff in Hfree. rewrite Hfree.
  assert (Hne : (a =? a + delta o) = false).
  { apply Z.eqb_neq. intros Hsame. rewrite <- Hsame in Ex, Ey, Ez. apply Hmove. lia. }
  rewrite Hne. reflexivity.
Qed.

Lemma hole_encode (h iy : Z) :
  0 <= h -> 0 <= iy < vertexCountY g ->
  holeColumnOf g (holeCenterBaseIndex g + h * vertexCountY g + iy) = h
  /\ holeLevelOf g (holeCenterBaseIndex g + h * vertexCountY g + iy) = iy.
Proof.
  intros Hh Hiy. unfold holeColumnOf, holeLevelOf.
  replace (holeCenterBaseIndex g + h * vertexCountY g + iy - holeCenterBaseIndex g)
    with (iy + h * vertexCountY g) by ring.
  rewrite Z.div_add by lia. rewrite Z.mod_add by lia.
  rewrite Z.div_small by lia. rewrite Z.mod_small by lia. split; lia.
Qed.

Lemma totalNodeCount_holes :
  totalNodeCount g = holeCenterBaseIndex g + lengthZ (holeCells g) * vertexCountY g.
Proof.
  unfold totalNodeCount, holeCenterCount, holeCenterBaseIndex, lengthZ.
  destruct (useHoleCenters g && (0 <? cellCount g)) eqn:Hcond; [reflexivity |].
  assert (Hnil : holeCells g = []) by (unfold holeCells, holeRegistration; now rewrite Hcond).
  rewrite Hnil. simpl. lia.
Qed.

Lemma hole_node_range (h iy : Z) :
  0 <= h < lengthZ (holeCells g) -> 0 <= iy < vertexCountY g ->
  holeCenterBaseIndex g <= holeCenterBaseIndex g + h * vertexCountY g + iy
  < totalNodeCount g.
Proof.
  intros Hh Hiy. rewrite totalNodeCount_holes.
  assert (0 <= h * vertexCountY g) by (apply Z.mul_nonneg_nonneg; lia).
  assert ((h + 1) * vertexCountY g <= lengthZ (holeCells g) * vertexCountY g)
    by (apply Z.mul_le_mono_nonneg_r; lia).
  lia.
Qed.

Lemma adjacentCells_In (ix iz cellX cellZ : Z) :
  In (cellX, cellZ) (adjacentCells g ix iz) ->
  (ix = cellX \/ ix = cellX + 1) /\ 0 <= cellX < gridX g
  /\ (iz = cellZ \/ iz = cellZ + 1) /\ 0 <= cellZ < gridZ g.
Proof.
  unfold adjacentCells. intros Hin. apply in_flat_map in Hin.
  destruct Hin as [cellDx [HcellDx Hin]].
  destruct ((ix - cellDx <? 0) || (gridX g <=? ix - cellDx)) eqn:HrangeX; [contradiction |].
  apply in_flat_map in Hin. destruct Hin as [cellDz [HcellDz Hin]].
  destruct ((iz - cellDz <? 0) || (gridZ g <=? iz - cellDz)) eqn:HrangeZ; [contradiction |].
  destruct Hin as [Heq | []]. inversion Heq. subst cellX cellZ.
  apply orb_false_iff in HrangeX. destruct HrangeX as [Hx0 Hx1].
  apply orb_false_iff in HrangeZ. destruct HrangeZ as [Hz0 Hz1].
  apply Z.ltb_ge in Hx0. apply Z.leb_gt in Hx1.
  apply Z.ltb_ge in Hz0. apply Z.leb_gt in Hz1.
  simpl in HcellDx, HcellDz.
  destruct HcellDx as [<- | [<- | []]]; destruct HcellDz as [<- | [<- | []]]; lia.
Qed.

Lemma cell_coordinates (cellX cellZ : Z) :
  0 <= cellX < gridX g -> 0 <= cellZ ->
  (cellZ * gridX g + cellX) mod gridX g = cellX
  /\ (cellZ * gridX g + cellX) / gridX g = cellZ.
Proof.
  intros Hx Hz. replace (cellZ * gridX g + cellX) with (cellX + cellZ * gridX g) by ring.
  rewrite Z.mod_add by lia. rewrite Z.div_add by lia.
  rewrite Z.mod_small by lia. rewrite Z.div_small by lia. split; lia.
Qed.

Lemma holeEntryEdges_sound (a b : Z) (c : Q) :
  0 <= a < totalVertices g -> In (b, c) (holeEntryEdges g cap nodeUsage a) ->
  acceptableEdge g a b = true /\ holeCenterBaseIndex g <= b < totalNodeCount g.
Proof.
  intros Ha Hin. unfold holeEntryEdges in Hin.
  destruct (0 <? holeCenterCount g); [| contradiction].
  apply in_flat_map in Hin. destruct Hin as [[cellX cellZ] [Hcell Hin]]. simpl in Hin.
  destruct (holeIndexAt g cellX cellZ) as [holeIndex |] eqn:Hat; [| contradiction].
  destruct (cellGe nodeUsage _ cap); [contradiction |].
  destruct Hin as [Heq | []]. inversion Heq. subst b c. clear Heq.
  destruct (lattice_decode g Hregular a Ha) as [_ [Hix [Hiy Hiz]]].
  destruct (adjacentCells_In _ _ _ _ Hcell) as [HcornerX [HcellX [HcornerZ HcellZ]]].
  destruct (holeIndexAt_cell g _ _ _ Hat) as [Hh Hcells].
  pose proof (geti_Some_range _ _ _ Hcells) as Hcolumn.
  destruct (hole_encode holeIndex (iyOf g a) Hh Hiy) as [Hcol Hlevel].
  pose proof (hole_node_range holeIndex (iyOf g a) Hcolumn Hiy) as Hnode.
  split; [| exact Hnode].
  destruct (cell_coordinates cellX cellZ) as [HmodX HdivZ]; try lia.
  unfold acceptableEdge, validEdge, cornerRule, holeCellXOf, holeCellZOf.
  rewrite (isLatticeNode_true a Ha). rewrite (isLatticeNode_false _ (proj1 Hnode)).
  rewrite (isHoleNode_true _ Hnode). rewrite Hcol, Hlevel.
  unfold getInt. rewrite Hcells. simpl default. rewrite HmodX, HdivZ.
  rewrite Z.eqb_refl.
  assert (HbX : (ixOf g a =? cellX) || (ixOf g a =? cellX + 1) = true).
  { apply orb_true_iff. destruct HcornerX as [-> | ->];
      [left | right]; apply Z.eqb_refl. }
  assert (HbZ : (izOf g a =? cellZ) || (izOf g a =? cellZ + 1) = true).
  { apply orb_true_iff. destruct HcornerZ as [-> | ->];
      [left | right]; apply Z.eqb_refl. }
  rewrite HbX, HbZ. reflexivity.
Qed.

Lemma holeEdges_sound (a b : Z) (c : Q) :
  holeCenterBaseIndex g <= a < totalNodeCount g ->
  In (b, c) (holeEdges g cap nodeUsage a) ->
  acceptableEdge g a b = true /\ 0 <= b < totalNodeCount g.
Proof.
  intros Ha Hin. unfold holeEdges in Hin.
  assert (Hvy : 0 < vertexCountY g)
    by (destruct Hregular as [_ [Hy _]]; unfold vertexCountY; lia).
  pose proof (totalVertices_nonneg g Hregular) as Htotal.
  assert (Hbase : holeCenterBaseIndex g = totalVertices g) by reflexivity.
  set (hvi := a - holeCenterBaseIndex g) in *.
  set (holeIndex := hvi / vertexCountY g) in *.
  destruct ((holeIndex <? 0) || (Z.of_nat (length (holeCells g)) <=? holeIndex)) eqn:Hrange;
    [contradiction |].
  apply orb_false_iff in Hrange. destruct Hrange as [Hlow Hhigh].
  apply Z.ltb_ge in Hlow. apply Z.leb_gt in Hhigh.
  set (iy := hvi - holeIndex * vertexCountY g) in *.
  assert (Hiy : 0 <= iy < vertexCountY g).
  { unfold iy, holeIndex. pose proof (Z.mod_pos_bound hvi (vertexCountY g) Hvy) as Hmod.
    rewrite Z.mod_eq in Hmod by lia. lia. }
  assert (Hnode : a = holeCenterBaseIndex g + holeIndex * vertexCountY g + iy)
    by (unfold iy, hvi; lia).
  destruct (hole_encode holeIndex iy Hlow Hiy) as [Hcol Hlevel].
  rewrite <- Hnode in Hcol, Hlevel.
  destruct (geti_in_range (holeCells g) holeIndex) as [cellIndex Hcell];
    [unfold lengthZ; lia |].
  assert (HcellIndex : 0 <= cellIndex < cellCount g).
  { pose proof (holeCells_range g) as Hall. rewrite List.Forall_forall in Hall.
    apply Hall. eapply geti_In. exact Hcell. }
  assert (HgridX : 0 < gridX g).
  { unfold cellCount in HcellIndex. destruct Hregular as [_ [_ [_ Hgz]]]. nia. }
  assert (HcellX : 0 <= cellIndex mod gridX g < gridX g) by (apply Z.mod_pos_bound; lia).
  assert (HcellZ : 0 <= cellIndex / gridX g < gridZ g).
  { split; [apply Z.div_pos; lia |]. apply Z.div_lt_upper_bound; [lia |].
    unfold cellCount in HcellIndex. lia. }
  assert (Hread : getInt (holeCells g) holeIndex = cellIndex)
    by (unfold getInt; now rewrite Hcell).
  rewrite Hread in Hin. rewrite (Z.rem_mod_nonneg cellIndex (gridX g)) in Hin by lia.
  assert (Hhole : isHoleNode g a = true) by (apply isHoleNode_true; exact Ha).
  assert (Hnolat : isLatticeNode g a = false) by (apply isLatticeNode_false; lia).
  destruct Haligned as [HalignX HalignZ].
  apply in_app_or in Hin. destruct Hin as [Hin | Hin].
  - apply in_flat_map in Hin. destruct Hin as [corner [Hcorner Hin]].
    destruct (cellGe nodeUsage _ cap); [contradiction |].
    destruct Hin as [Heq | []]. inversion Heq. subst b c. clear Heq.
    assert (Hoff : (fst corner = 0 \/ fst corner = 1) /\ (snd corner = 0 \/ snd corner = 1)).
    { unfold cornerOffsets in Hcorner. simpl in Hcorner.
      repeat (destruct Hcorner as [<- | Hcorner]; [simpl; lia |]). contradiction. }
    destruct (lattice_encode g (cellIndex mod gridX g + fst corner) iy
                (cellIndex / gridX g + snd corner))
      as [Ex [Ey [Ez [Hb0 Hbt]]]]; try (unfold vertexCountX; lia).
    assert (Hb : 0 <= cellIndex mod gridX g + fst corner + iy * strideY g
                      + (cellIndex / gridX g + snd corner) * strideZ g < totalVertices g)
      by (split; [exact Hb0 | apply Hbt; unfold vertexCountZ; lia]).
    pose proof (totalNodeCount_ge g) as Hnodes.
    destruct Hregular as [_ [Hy _]].
    split; [| lia].
    unfold acceptableEdge, validEdge, cornerRule, holeCellXOf, holeCellZOf.
    rewrite Hnolat, Hhole. rewrite (isLatticeNode_true _ Hb). simpl.
    rewrite Ex, Ey, Ez, Hcol, Hlevel, Hread. rewrite Z.eqb_refl.
    assert (HbX : (cellIndex mod gridX g + fst corner =? cellIndex mod gridX g)
                  || (cellIndex mod gridX g + fst corner =? cellIndex mod gridX g + 1) = true).
    { apply orb_true_iff. destruct (proj1 Hoff) as [-> | ->];
        [left | right]; apply Z.eqb_eq; lia. }
    assert (HbZ : (cellIndex / gridX g + snd corner =? cellIndex / gridX g)
                  || (cellIndex / gridX g + snd corner =? cellIndex / gridX g + 1) = true).
    { apply orb_true_iff. destruct (proj2 Hoff) as [-> | ->];
        [left | right]; apply Z.eqb_eq; lia. }
    rewrite HbX, HbZ. reflexivity.
  - assert (Hvertical : forall d, (d = 1 \/ d = -1) -> 0 <= iy + d < vertexCountY g ->
              acceptableEdge g a (a + d) = true /\ 0 <= a + d < totalNodeCount g).
    { intros d Hd Hlevel'.
      assert (Hnode' : a + d = holeCenterBaseIndex g + holeIndex * vertexCountY g + (iy + d))
        by lia.
      destruct (hole_encode holeIndex (iy + d) Hlow Hlevel') as [Hcol' Hlev'].
      rewrite <- Hnode' in Hcol', Hlev'.
      assert (Hrange' : holeCenterBaseIndex g <= a + d < totalNodeCount g).
      { rewrite Hnode'. apply hole_node_range; [unfold lengthZ; lia | exact Hlevel']. }
      split; [| lia].
      assert (Hrule : verticalRule g a (a + d) = true).
      { unfold verticalRule. rewrite Hcol, Hcol', Hlevel, Hlev'. rewrite Z.eqb_refl.
        apply orb_true_iff. destruct Hd as [Hd | Hd]; [left | right]; apply Z.eqb_eq; lia. }
      unfold acceptableEdge, validEdge.
      rewrite Hnolat, Hhole, Hrule. rewrite (isHoleNode_true _ Hrange').
      rewrite (isLatticeNode_false (a + d)) by lia. reflexivity. }
    apply in_app_or in Hin. destruct Hin as [Hin | Hin].
    + destruct ((0 <? iy) && negb (cellGe nodeUsage (a - 1) cap)) eqn:Hcond;
        [| contradiction].
      destruct Hin as [Heq | []]. inversion Heq. subst b c. clear Heq.
      apply andb_true_iff in Hcond. destruct Hcond as [Hpos _]. apply Z.ltb_lt in Hpos.
      apply (Hvertical (-1)); [now right | lia].
    + destruct ((iy + 1 <? vertexCountY g) && _ && _) eqn:Hcond; [| contradiction].
      destruct Hin as [Heq | []]. inversion Heq. subst b c. clear Heq.
      apply andb_true_iff in Hcond. destruct Hcond as [Hcond _].
      apply andb_true_iff in Hcond. destruct Hcond as [Hup _]. apply Z.ltb_lt in Hup.
      apply (Hvertical 1); [now left | lia].
Qed.

(** On a regular, aligned grid every edge that the search generates from
    a node of the graph is an edge of the specification, free according
    to the oracle when it joins two lattice vertices, and leads to a node
    of the graph. *)
Lemma searchEdge_acceptable (a b : Z) :
  0 <= a < totalNodeCount g -> searchEdge g cap nodeUsage a b ->
  acceptableEdge g a b = true /\ 0 <= b < totalNodeCount g.
Proof.
  intros Ha [c Hin]. unfold edgesFrom in Hin.
  pose proof (totalNodeCount_ge g) as Hnodes.
  pose proof (totalVertices_nonneg g Hregular) as Htotal.
  assert (Hy : 0 <= countY g) by (destruct Hregular as [_ [Hy _]]; exact Hy).
  destruct (a <? holeCenterBaseIndex g) eqn:Hside.
  - apply Z.ltb_lt in Hside. unfold holeCenterBaseIndex, baseVertexCount in Hside.
    apply in_app_or in Hin. destruct Hin as [Hin | Hin].
    + destruct (latticeEdges_sound a b c ltac:(lia) Hin) as [Hedge Hb].
      split; [exact Hedge | lia].
    + destruct (holeEntryEdges_sound a b c ltac:(lia) Hin) as [Hedge Hb].
      unfold holeCenterBaseIndex, baseVertexCount in Hb. split; [exact Hedge | lia].
  - apply Z.ltb_ge in Hside. apply (holeEdges_sound a b c); [lia | exact Hin].
Qed.

End EdgeFacts.

Section PathFacts.
Context `{Platform}.
Variable message : BuildMessage.
Variable token activeToken : Z.
Variable startNodes endNodes : list Z.
Hypothesis Hregular : regularGrid (grid message).
Hypothesis Haligned : alignedGrid (grid message).

Local Abbreviation g := (grid message).
Local Abbreviation cap := (usageCap message).

Lemma walk_follows (nodeUsage : list Z) (l : list Z) (a : Z) :
  0 <= a < totalNodeCount g -> head l = Some a ->
  linked (searchEdge g cap nodeUsage) l -> followsGraph g l = true.
Proof.
  revert a. induction l as [| x rest IH]; intros a Ha Hhead Hlinked; [reflexivity |].
  simpl in Hhead. inversion Hhead. subst x.
  destruct rest as [| b rest']; [reflexivity |].
  destruct Hlinked as [Hedge Hrest].
  destruct (searchEdge_acceptable g cap nodeUsage Hregular Haligned a b Ha Hedge)
    as [Hok Hb].
  change (followsGraph g (a :: b :: rest'))
    with (acceptableEdge g a b && followsGraph g (b :: rest')).
  rewrite Hok. simpl. now apply (IH b).
Qed.

Lemma followsGraph_merge (l k : list Z) (x : Z) :
  followsGraph g l = true -> followsGraph g k = true ->
  last l = Some x -> head k = Some x ->
  followsGraph g (l ++ tail k) = true /\ last (l ++ tail k) = last k.
Proof.
  intros Hl Hk Hlast Hhead. destruct k as [| y k']; [discriminate |].
  simpl in Hhead. inversion Hhead. subst y. simpl tail.
  induction l as [| a rest IH]; [discriminate |].
  destruct rest as [| b rest'].
  - simpl in Hlast. inversion Hlast. subst a. simpl. split; [exact Hk | reflexivity].
  - change (followsGraph g (a :: b :: rest'))
      with (acceptableEdge g a b && followsGraph g (b :: rest')) in Hl.
    apply andb_true_iff in Hl. destruct Hl as [Hedge Hrest].
    destruct (IH Hrest Hlast) as [Hfollow Hend].
    split.
    + change (followsGraph g ((a :: b :: rest') ++ k'))
        with (acceptableEdge g a b && followsGraph g ((b :: rest') ++ k')).
      rewrite Hedge. exact Hfollow.
    + change (last ((a :: b :: rest') ++ k')) with (last ((b :: rest') ++ k')).
      exact Hend.
Qed.

Lemma aStar_follows (nodeUsage : list Z) (sc sc' : Scratch) (a b : Z) (path : list Z) :
  ScratchReady nodeUsage sc -> 0 <= a < totalNodeCount g ->
  aStar g cap token activeToken nodeUsage sc a b = (Found path, sc') ->
  followsGraph g path = true /\ head path = Some a /\ last path = Some b.
Proof.
  intros Hsc Ha Hrun.
  destruct (aStar_spec g cap nodeUsage token activeToken sc sc' a b (Found path) Hsc Hrun)
    as [_ Hfound].
  destruct (Hfound path eq_refl) as [[Hhead [Hlast Hlinked]] _].
  split; [| split; assumption]. now apply (walk_follows nodeUsage path a).
Qed.

Lemma buildLoop_follows (nodeUsage : list Z) (sc sc' : Scratch) (rng rng' : nat)
  (path : list Z) :
  ScratchReady nodeUsage sc ->
  (forall v, In v startNodes \/ In v endNodes -> 0 <= v < totalNodeCount g) ->
  buildLoop g cap token activeToken startNodes endNodes nodeUsage sc rng
  = (Found path, sc', rng') ->
  followsGraph g path = true.
Proof.
  intros Hsc Hpools. unfold buildLoop.
  destruct (pickDistinct startNodes 2 nodeUsage cap rng) as [sideA rng1] eqn:HA.
  destruct (pickDistinct endNodes 2 nodeUsage cap rng1) as [sideB rng2] eqn:HB.
  destruct sideA as [[| a1 [| a2 restA]] |]; try discriminate;
    destruct sideB as [[| b1 [| b2 restB]] |]; try discriminate.
  assert (Ha1 : 0 <= a1 < totalNodeCount g).
  { apply Hpools. left. eapply pickDistinct_In; [exact HA | now left]. }
  assert (Ha2 : 0 <= a2 < totalNodeCount g).
  { apply Hpools. left. eapply pickDistinct_In; [exact HA | right; now left]. }
  assert (Hb1 : 0 <= b1 < totalNodeCount g).
  { apply Hpools. right. eapply pickDistinct_In; [exact HB | now left]. }
  assert (Hb2 : 0 <= b2 < totalNodeCount g).
  { apply Hpools. right. eapply pickDistinct_In; [exact HB | right; now left]. }
  destruct (aStar g cap token activeToken nodeUsage sc a1 a2) as [r1 sc1] eqn:H1.
  destruct (aStar_spec g cap nodeUsage token activeToken sc sc1 a1 a2 r1 Hsc H1) as [Hsc1 _].
  destruct r1 as [seg1 | |]; try discriminate.
  destruct (aStar g cap token activeToken nodeUsage sc1 a2 b1) as [r2 sc2] eqn:H2.
  destruct (aStar_spec g cap nodeUsage token activeToken sc1 sc2 a2 b1 r2 Hsc1 H2) as [Hsc2 _].
  destruct r2 as [seg2 | |]; try discriminate.
  destruct (aStar g cap token activeToken nodeUsage sc2 b1 b2) as [r3 sc3] eqn:H3.
  destruct (aStar_spec g cap nodeUsage token activeToken sc2 sc3 b1 b2 r3 Hsc2 H3) as [Hsc3 _].
  destruct r3 as [seg3 | |]; try discriminate.
  destruct (aStar g cap token activeToken nodeUsage sc3 b2 a1) as [r4 sc4] eqn:H4.
  destruct r4 as [seg4 | |]; try discriminate.
  intros Heq. inversion Heq. subst path sc' rng'. clear Heq.
  destruct (aStar_follows nodeUsage sc sc1 a1 a2 seg1 Hsc Ha1 H1) as [F1 [_ L1]].
  destruct (aStar_follows nodeUsage sc1 sc2 a2 b1 seg2 Hsc1 Ha2 H2) as [F2 [S2 L2]].
  destruct (aStar_follows nodeUsage sc2 sc3 b1 b2 seg3 Hsc2 Hb1 H3) as [F3 [S3 L3]].
  destruct (aStar_follows nodeUsage sc3 sc4 b2 a1 seg4 Hsc3 Hb2 H4) as [F4 [S4 _]].
  destruct (followsGraph_merge seg1 seg2 a2 F1 F2 L1 S2) as [F12 L12].
  rewrite L2 in L12.
  destruct (followsGraph_merge _ seg3 b1 F12 F3 L12 S3) as [F123 L123].
  rewrite L3 in L123.
  destruct (followsGraph_merge _ seg4 b2 F123 F4 L123 S4) as [Fall _].
  unfold mergeSegments. simpl. rewrite app_nil_r. rewrite !app_assoc. exact Fall.
Qed.

Lemma afterAttempt_follows (st : LoopState) (result : PathResult) (sc : Scratch)
  (rng : nat) (pairS pairE pairT : Z) :
  followInv message st ->
  (forall path, result = Found path -> followsGraph g path = true) ->
  match afterAttempt message st result sc rng pairS pairE pairT with
  | Continue st' | Exit _ st' => followInv message st'
  end.
Proof.
  intros [Hlen Hpaths] Hfound. unfold afterAttempt.
  destruct result as [path | |]; [| split; assumption | split; assumption].
  split; simpl.
  - unfold lengthZ in *. now rewrite blockPath_length.
  - intros p Hp. rewrite !pathsOf_app in Hp. apply in_app_or in Hp.
    destruct Hp as [Hp | Hp]; [now apply Hpaths |].
    apply in_app_or in Hp. destruct Hp as [Hp | Hp].
    + destruct (placed st =? 0); simpl in Hp; contradiction.
    + simpl in Hp. destruct Hp as [<- | []]. now apply Hfound.
Qed.

Lemma placementStep_follows (st : LoopState) :
  UsageInv message startNodes endNodes st -> followInv message st ->
  match placementStep message token activeToken startNodes endNodes st with
  | Continue st' | Exit _ st' => followInv message st'
  end.
Proof.
  intros [Hready Hstarts Hpair _ _] Hfollow. pose proof Hfollow as [Hlen _].
  rewrite Hlen in Hstarts. unfold placementStep.
  destruct (negb (placed st <? maxPaths message)); [exact Hfollow |].
  destruct (negb (token =? activeToken)); [exact Hfollow |].
  destruct (maxAttemptsOf message <=? attempts st); [exact Hfollow |].
  destruct (twoSided g).
  - destruct (buildLoop _ _ _ _ _ _ _ _ _) as [[result sc] rng] eqn:Hloop.
    apply afterAttempt_follows; [exact Hfollow |].
    intros path ->. eapply buildLoop_follows; [exact Hready | exact Hstarts | exact Hloop].
  - destruct ((pairStart st =? -1) || (pairEnd st =? -1)
              || (maxTries message <=? pairTries st)) eqn:Hselect.
    + destruct (selectPair _ _ _ _ _ _) as [[[pairS pairE] |] rng] eqn:Hpairs;
        [| exact Hfollow].
      destruct (selectPair_In _ _ _ _ _ _ _ _ _ Hpairs) as [HinS _].
      destruct (aStar _ _ _ _ _ _ _ _) as [result sc] eqn:Hsearch.
      apply afterAttempt_follows; [exact Hfollow |].
      intros path ->.
      now destruct (aStar_follows (usage st) (scratch st) sc pairS pairE path Hready
                      (Hstarts pairS (or_introl HinS)) Hsearch).
    + apply orb_false_iff in Hselect. destruct Hselect as [Hselect _].
      apply orb_false_iff in Hselect. destruct Hselect as [Hstart _].
      apply Z.eqb_neq in Hstart.
      assert (HinS : In (pairStart st) startNodes)
        by (destruct Hpair; [contradiction | assumption]).
      destruct (aStar _ _ _ _ _ _ _ _) as [result sc] eqn:Hsearch.
      apply afterAttempt_follows; [exact Hfollow |].
      intros path ->.
      now destruct (aStar_follows (usage st) (scratch st) sc (pairStart st) (pairEnd st) path
                      Hready (Hstarts _ (or_introl HinS)) Hsearch).
Qed.

Lemma placementLoop_follows (fuel : nat) (st : LoopState) :
  UsageInv message startNodes endNodes st -> followInv message st ->
  followInv message
    (snd (placementLoop message token activeToken startNodes endNodes fuel st)).
Proof.
  revert st. induction fuel as [| fuel IH]; intros st Husage Hfollow; [exact Hfollow |].
  simpl. pose proof (placementStep_follows st Husage Hfollow) as Hstep.
  pose proof (placementStep_inv message token activeToken startNodes endNodes st Husage)
    as Hnext.
  destruct (placementStep message token activeToken startNodes endNodes st)
    as [st' | why st']; [now apply IH | exact Hstep].
Qed.

End PathFacts.

Section BuildGraph.
Context `{Platform}.

(** X23: on a regular grid whose building grid does not reach beyond the
    lattice, every path posted by a build follows the graph of the
    specification; a path can leave the graph only when the building grid
    overhangs the lattice, as [overhangGrid] does. *)
Theorem aligned_paths_follow_graph (message : BuildMessage) (token activeToken : Z)
  (rng : nat) :
  regularGrid (grid message) -> alignedGrid (grid message) ->
  pathsFollowGraph message token activeToken rng.
Proof.
  intros Hregular Haligned path. unfold buildPaths.
  assert (Hy : 0 <= countY (grid message)) by (destruct Hregular as [_ [Hy _]]; exact Hy).
  destruct (totalVertices (grid message) <? 0); [intros [] |].
  destruct (cellCount (grid message) <? 0); [intros [] |].
  destruct (instanceCount (grid message) <? 0); [intros [] |].
  destruct (totalNodeCount (grid message) <? 0) eqn:Hnodes; [intros [] |].
  apply Z.ltb_ge in Hnodes.
  destruct (gridZ (grid message) <? 0); [intros [] |].
  destruct (classify (grid message) token activeToken) as [pools |] eqn:Hrun;
    [| intros []].
  destruct ((lengthZ (startPool (grid message) pools) =? 0)
            || (lengthZ (endPool (grid message) pools) =? 0)); [intros [] |].
  destruct (twoSided (grid message)
            && ((lengthZ (startPool (grid message) pools) <? 2)
                || (lengthZ (endPool (grid message) pools) <? 2))); [intros [] |].
  match goal with
  | |- context [placementLoop ?m ?t ?a ?s ?e ?f ?i] =>
      pose proof (placementLoop_follows m t a s e Hregular Haligned f i) as Hloop;
      destruct (placementLoop m t a s e f i) as [why st]
  end.
  simpl in Hloop.
  assert (Hpaths : forall p, In p (pathsOf (emitted st)) ->
                     followsGraph (grid message) p = true).
  { apply Hloop.
    - apply (initial_UsageInv message token activeToken pools rng _ Hrun Hy). reflexivity.
    - split; [simpl; rewrite lengthZ_replicate; lia | intros p []]. }
  destruct why; simpl; try apply Hpaths;
    destruct (negb (token =? activeToken)); simpl; try apply Hpaths;
    rewrite pathsOf_done; apply Hpaths.
Qed.

End BuildGraph.

(** ** Cost of a found path *)

Section CostFacts.
Context `{Platform}.

Lemma linkedb_linked (g : WorkerGrid) (cap : Z) (nodeUsage : list Z) (l : list Z) :
  linkedb (searchEdgeb g cap nodeUsage) l = true -> linked (searchEdge g cap nodeUsage) l.
Proof.
  induction l as [| a rest IH]; [intros _; exact I |].
  destruct rest as [| b rest']; [intros _; exact I |].
  simpl. intros Hb. apply andb_true_iff in Hb. destruct Hb as [Hedge Hrest].
  split; [| now apply IH].
  unfold searchEdgeb in Hedge. apply existsb_exists in Hedge.
  destruct Hedge as [[b' c] [Hin Heq]]. simpl in Heq. apply Z.eqb_eq in Heq. subst b'.
  exists c. exact Hin.
Qed.

Lemma isWalkb_isWalk (g : WorkerGrid) (cap : Z) (nodeUsage : list Z)
  (startIndex endIndex : Z) (l : list Z) :
  isWalkb g cap nodeUsage startIndex endIndex l = true ->
  isWalk g cap nodeUsage startIndex endIndex l.
Proof.
  unfold isWalkb, isWalk. destruct (head l) as [a |]; [| discriminate].
  destruct (last l) as [b |]; [| discriminate].
  intros Hb. apply andb_true_iff in Hb. destruct Hb as [Hb Hlinked].
  apply andb_true_iff in Hb. destruct Hb as [Ha Hb'].
  apply Z.eqb_eq in Ha. apply Z.eqb_eq in Hb'. subst.
  repeat split. now apply linkedb_linked.
Qed.

End CostFacts.

Lemma wallScratch_ready : ScratchReady wallUsage wallScratch.
Proof.
  unfold wallScratch.
  destruct (@aStar wallCity tinyGrid 1 1 1 (replicate 16 0) (initialScratch tinyGrid) 6 14)
    as [result sc] eqn:Hrun.
  destruct (@aStar_spec wallCity tinyGrid 1 (replicate 16 0) 1 1 (initialScratch tinyGrid)
              sc 6 14 result (initialScratch_ready tinyGrid) Hrun) as [Hready _].
  cbn [snd]. eapply ScratchReady_usage; [| exact Hready].
  vm_compute. reflexivity.
Qed.

Lemma wall_search_found :
  fst (@aStar wallCity tinyGrid 1 1 1 wallUsage wallScratch 0 15)
  = Found [0; 5; 2; 7; 11; 15].
Proof. vm_compute. reflexivity. Qed.

Lemma wall_search_result :
  exists sc,
    @aStar wallCity tinyGrid 1 1 1 wallUsage wallScratch 0 15
    = (Found [0; 5; 2; 7; 11; 15], sc).
Proof.
  pose proof wall_search_found as Hfound.
  destruct (@aStar wallCity tinyGrid 1 1 1 wallUsage wallScratch 0 15) as [result sc].
  cbn [fst] in Hfound. exists sc. now rewrite Hfound.
Qed.

(** The build of [tinyMessage] accepts the path 6-10-14 and then runs
    the search from 0 to 15 on the usage table [wallUsage]. *)
Lemma tiny_build_paths :
  pathsOf (posted (@buildPaths wallCity tinyMessage 1 1 0))
  = [[6; 10; 14]; [0; 5; 2; 7; 11; 15]].
Proof. vm_compute. reflexivity. Qed.


(** ** C1: the edges of an accepted path *)

(** C1 (the code departs from the specification).  The build of
    [overhangMessage], whose building grid has one more column of cells
    than the lattice has voxels, posts the path 1, 6, 2.  Node 6 is the
    hole-center node of cell 1 at level 0 and node 2 is the lattice vertex
    (0, 1, 0), which is no corner of that cell and lies on another level:
    the step from 6 to 2 is none of the edges of the specification, so the
    accepted path does not follow the graph. *)
Theorem accepted_path_leaves_graph :
  pathsOf (posted (@buildPaths overhangCity overhangMessage 1 1 0%nat)) = [[1; 6; 2]]
  /\ isHoleNode overhangGrid 6 = true
  /\ isLatticeNode overhangGrid 2 = true
  /\ (ixOf overhangGrid 2, iyOf overhangGrid 2, izOf overhangGrid 2) = (0, 1, 0)
  /\ (holeCellXOf overhangGrid 6, holeLevelOf overhangGrid 6, holeCellZOf overhangGrid 6)
     = (1, 0, 0)
  /\ validEdge overhangGrid 6 2 = false
  /\ ~ @pathsFollowGraph overhangCity overhangMessage 1 1 0%nat.
Proof.
  assert (Hposted :
    pathsOf (posted (@buildPaths overhangCity overhangMessage 1 1 0%nat)) = [[1; 6; 2]])
    by (vm_compute; reflexivity).
  repeat split; try (vm_compute; reflexivity).
  intros Hclaim.
  specialize (Hclaim [1; 6; 2]).
  rewrite Hposted in Hclaim.
  specialize (Hclaim (or_introl eq_refl)).
  vm_compute in Hclaim. discriminate.
Qed.
(** ** Endpoint selection: what a pick guarantees, and when it fails *)

Section SelectionProps.
Context `{Platform}.

Lemma pickAttempts_eligible (n : nat) (pool : list Z) (avoid : option Z)
  (nodeUsage : list Z) (cap : Z) (rng rng' : nat) (v : Z) :
  pickAttempts n pool avoid nodeUsage cap rng = (Some v, rng') ->
  eligible avoid nodeUsage cap v = true.
Proof.
  revert rng. induction n as [| n IH]; intros rng; simpl; [discriminate |].
  destruct (randomEntry pool rng) as [value |]; [| apply IH].
  destruct (isAvoided avoid value) eqn:Havoid; [apply IH |].
  destruct (cellGe nodeUsage value cap) eqn:Hblocked; [apply IH |].
  intros Heq. inversion Heq. subst. unfold eligible. now rewrite Havoid, Hblocked.
Qed.

Lemma pickUnblocked_eligible (pool : list Z) (avoid : option Z) (nodeUsage : list Z)
  (cap : Z) (rng rng' : nat) (v : Z) :
  pickUnblocked pool avoid nodeUsage cap rng = (Some v, rng') ->
  In v pool /\ eligible avoid nodeUsage cap v = true.
Proof.
  intros Hpick. split; [eapply pickUnblocked_In; exact Hpick |].
  revert Hpick. unfold pickUnblocked.
  destruct (pickAttempts _ pool avoid nodeUsage cap rng) as [[value |] rng1] eqn:Hdraw.
  - intros Heq. inversion Heq. subst. eapply pickAttempts_eligible. exact Hdraw.
  - intros Heq. inversion Heq as [[Hfind Hrng]]. apply find_some in Hfind.
    exact (proj2 Hfind).
Qed.

(** The fallback scan visits the whole pool: [pickUnblocked] gives up only
    when no entry passes the tests. *)
Lemma pickUnblocked_exhausted (pool : list Z) (avoid : option Z) (nodeUsage : list Z)
  (cap : Z) (rng rng' : nat) :
  pickUnblocked pool avoid nodeUsage cap rng = (None, rng') ->
  forall v, In v pool -> eligible avoid nodeUsage cap v = false.
Proof.
  unfold pickUnblocked.
  destruct (pickAttempts _ pool avoid nodeUsage cap rng) as [[value |] rng1];
    [discriminate |].
  intros Heq v Hv. inversion Heq as [[Hfind Hrng]].
  exact (find_none _ _ Hfind v Hv).
Qed.

Lemma eligible_free (nodeUsage : list Z) (cap v : Z) :
  eligible None nodeUsage cap v = negb (cellGe nodeUsage v cap).
Proof. reflexivity. Qed.

(** The two picks behind a pair. *)
Lemma selectPair_picks (startNodes endNodes : list Z) (useSides : bool)
  (nodeUsage : list Z) (cap : Z) (rng rng' : nat) (pairS pairE : Z) :
  selectPair startNodes endNodes useSides nodeUsage cap rng = (Some (pairS, pairE), rng') ->
  exists rng1,
    pickUnblocked startNodes None nodeUsage cap rng = (Some pairS, rng1)
    /\ pickUnblocked endNodes (if useSides then None else Some pairS) nodeUsage cap rng1
       = (Some pairE, rng').
Proof.
  unfold selectPair.
  destruct ((lengthZ startNodes =? 0) || (lengthZ endNodes =? 0)); [discriminate |].
  destruct (pickUnblocked startNodes None nodeUsage cap rng) as [[s1 |] rng1] eqn:Hs;
    [| discriminate].
  destruct (pickUnblocked endNodes _ nodeUsage cap rng1) as [[e1 |] rng2] eqn:He;
    [| discriminate].
  intros Heq. inversion Heq. subst s1 e1 rng2. exists rng1. now split.
Qed.

Lemma selectPair_distinct (startNodes endNodes : list Z) (nodeUsage : list Z) (cap : Z)
  (rng rng' : nat) (pairS pairE : Z) :
  selectPair startNodes endNodes false nodeUsage cap rng = (Some (pairS, pairE), rng') ->
  pairS <> pairE.
Proof.
  intros Hpair. destruct (selectPair_picks _ _ _ _ _ _ _ _ _ Hpair) as [rng1 [_ He]].
  apply pickUnblocked_eligible in He. destruct He as [_ He].
  unfold eligible in He. apply andb_true_iff in He. destruct He as [Havoid _].
  apply negb_true_iff in Havoid. simpl in Havoid. intros Hsame. subst pairE.
  rewrite Z.eqb_refl in Havoid. discriminate.
Qed.

(** X1: a pair returned by [selectPair] consists of a node of the start
    pool and a node of the end pool, both below the usage cap, and the
    two differ unless the pools are the two sides. *)
Theorem selected_pair_is_usable (startNodes endNodes : list Z) (useSides : bool)
  (nodeUsage : list Z) (cap : Z) (rng rng' : nat) (pairS pairE : Z) :
  selectPair startNodes endNodes useSides nodeUsage cap rng = (Some (pairS, pairE), rng') ->
  In pairS startNodes /\ In pairE endNodes
  /\ cellGe nodeUsage pairS cap = false /\ cellGe nodeUsage pairE cap = false
  /\ (useSides = false -> pairS <> pairE).
Proof.
  intros Hpair. destruct (selectPair_picks _ _ _ _ _ _ _ _ _ Hpair) as [rng1 [Hs He]].
  apply pickUnblocked_eligible in Hs. destruct Hs as [HsIn Hs].
  apply pickUnblocked_eligible in He. destruct He as [HeIn He].
  rewrite eligible_free in Hs. apply negb_true_iff in Hs.
  unfold eligible in He. apply andb_true_iff in He. destruct He as [_ Hfree].
  apply negb_true_iff in Hfree.
  repeat split; try assumption.
  intros Hsides. subst useSides. eapply selectPair_distinct. exact Hpair.
Qed.

(** X2: [selectPair] returns null only when the pools leave it no choice:
    every node of the start pool is at its cap, or the start node it
    picked is below its cap and every node of the end pool is at its cap
    or, outside the two-sided mode, is that start node. *)
Theorem no_pair_without_candidates (startNodes endNodes : list Z) (useSides : bool)
  (nodeUsage : list Z) (cap : Z) (rng rng' : nat) :
  selectPair startNodes endNodes useSides nodeUsage cap rng = (None, rng') ->
  (forall s, In s startNodes -> cellGe nodeUsage s cap = true)
  \/ (exists s, In s startNodes /\ cellGe nodeUsage s cap = false
        /\ forall e, In e endNodes ->
             cellGe nodeUsage e cap = true \/ (useSides = false /\ e = s)).
Proof.
  unfold selectPair.
  destruct ((lengthZ startNodes =? 0) || (lengthZ endNodes =? 0)) eqn:Hempty.
  - intros _. apply orb_true_iff in Hempty. destruct Hempty as [Hstart | Hend].
    + left. destruct startNodes; [intros s [] | discriminate].
    + assert (Hnil : endNodes = []) by (destruct endNodes; [reflexivity | discriminate]).
      subst endNodes.
      destruct (existsb (fun s => negb (cellGe nodeUsage s cap)) startNodes) eqn:Hsome.
      * right. apply existsb_exists in Hsome.
        destruct Hsome as [s [Hs Hfree]]. apply negb_true_iff in Hfree.
        exists s. repeat split; [exact Hs | exact Hfree | intros e []].
      * left. intros s Hs.
        destruct (cellGe nodeUsage s cap) eqn:Hblocked; [reflexivity |].
        assert (Hyes : existsb (fun s => negb (cellGe nodeUsage s cap)) startNodes = true).
        { apply existsb_exists. exists s. now rewrite Hblocked. }
        congruence.
  - destruct (pickUnblocked startNodes None nodeUsage cap rng) as [[s1 |] rng1] eqn:Hs.
    + destruct (pickUnblocked endNodes _ nodeUsage cap rng1) as [[e1 |] rng2] eqn:He;
        [discriminate |].
      intros _. right. exists s1.
      apply pickUnblocked_eligible in Hs. destruct Hs as [HsIn Hs].
      rewrite eligible_free in Hs. apply negb_true_iff in Hs.
      repeat split; [exact HsIn | exact Hs |].
      intros e Hin. pose proof (pickUnblocked_exhausted _ _ _ _ _ _ He e Hin) as Hno.
      unfold eligible in Hno. apply andb_false_iff in Hno.
      destruct Hno as [Havoid | Hblocked].
      * right. apply negb_false_iff in Havoid. destruct useSides; [discriminate |].
        simpl in Havoid. apply Z.eqb_eq in Havoid. now split.
      * left. now apply negb_false_iff in Hblocked.
    + intros _. left. intros s Hin.
      pose proof (pickUnblocked_exhausted _ _ _ _ _ _ Hs s Hin) as Hno.
      rewrite eligible_free in Hno. now apply negb_false_iff in Hno.
Qed.

Lemma goodPicks_snoc (pool : list Z) (count : Z) (nodeUsage : list Z) (cap : Z)
  (picks : list Z) (value : Z) :
  goodPicks pool count nodeUsage cap picks ->
  lengthZ picks < count -> In value pool ->
  pickable picks nodeUsage cap value = true ->
  goodPicks pool count nodeUsage cap (picks ++ [value]).
Proof.
  intros [Hnd [Hlen Hall]] Hroom Hpool Hpick.
  unfold pickable in Hpick. apply andb_true_iff in Hpick. destruct Hpick as [Hnew Hfree].
  apply negb_true_iff in Hnew. apply negb_true_iff in Hfree.
  assert (Hnotin : ~ In value picks).
  { intros Hin. apply existsb_eqb_In in Hin. congruence. }
  split; [| split].
  - apply NoDup_rev in Hnd. rewrite <- (rev_involutive (picks ++ [value])).
    apply NoDup_rev. rewrite rev_app_distr. simpl. constructor; [| exact Hnd].
    rewrite <- in_rev. exact Hnotin.
  - unfold lengthZ in *. rewrite length_app. simpl. lia.
  - intros v Hv. apply in_app_or in Hv. destruct Hv as [Hv | [<- | []]];
      [now apply Hall | now split].
Qed.

Lemma drawDistinct_good (n : nat) (pool : list Z) (count : Z) (nodeUsage : list Z)
  (cap : Z) (picks : list Z) (rng : nat) :
  goodPicks pool count nodeUsage cap picks ->
  goodPicks pool count nodeUsage cap
            (fst (drawDistinct n pool count nodeUsage cap picks rng)).
Proof.
  revert picks rng. induction n as [| n IH]; intros picks rng Hgood; simpl; [exact Hgood |].
  destruct (lengthZ picks <? count) eqn:Hroom; [| exact Hgood].
  apply Z.ltb_lt in Hroom.
  destruct (randomEntry pool rng) as [value |] eqn:Hentry; [| now apply IH].
  destruct (pickable picks nodeUsage cap value) eqn:Hpick; [| now apply IH].
  apply IH. apply goodPicks_snoc; try assumption. eapply randomEntry_In. exact Hentry.
Qed.

Lemma scanDistinct_good (rest pool : list Z) (count : Z) (nodeUsage : list Z) (cap : Z)
  (picks : list Z) :
  (forall x, In x rest -> In x pool) ->
  goodPicks pool count nodeUsage cap picks ->
  goodPicks pool count nodeUsage cap (scanDistinct rest count nodeUsage cap picks).
Proof.
  revert picks. induction rest as [| value rest IH]; intros picks Hrest Hgood; simpl;
    [exact Hgood |].
  destruct (lengthZ picks <? count) eqn:Hroom; [| exact Hgood].
  apply Z.ltb_lt in Hroom.
  assert (Hrest' : forall x, In x rest -> In x pool) by (intros x Hx; apply Hrest; now right).
  destruct (pickable picks nodeUsage cap value) eqn:Hpick; [| now apply IH].
  apply IH; [exact Hrest' |]. apply goodPicks_snoc; try assumption. apply Hrest. now left.
Qed.

(** The scan keeps what was picked, and passes over an entry only when it
    is already picked or at its cap, unless the picks are complete. *)
Lemma scanDistinct_covers (rest : list Z) (count : Z) (nodeUsage : list Z) (cap : Z)
  (picks : list Z) (v : Z) :
  lengthZ (scanDistinct rest count nodeUsage cap picks) < count ->
  In v picks \/ (In v rest /\ cellGe nodeUsage v cap = false) ->
  In v (scanDistinct rest count nodeUsage cap picks).
Proof.
  revert picks. induction rest as [| value rest IH]; intros picks; simpl.
  - intros _ [Hv | [[] _]]. exact Hv.
  - destruct (lengthZ picks <? count) eqn:Hroom.
    + destruct (pickable picks nodeUsage cap value) eqn:Hpick.
      * intros Hshort Hv. apply IH; [exact Hshort |].
        destruct Hv as [Hv | [[<- | Hv] Hfree]].
        -- left. apply in_or_app. now left.
        -- left. apply in_or_app. right. now left.
        -- right. now split.
      * intros Hshort Hv. apply IH; [exact Hshort |].
        destruct Hv as [Hv | [[<- | Hv] Hfree]]; [now left | | right; now split].
        left. unfold pickable in Hpick. rewrite Hfree in Hpick.
        rewrite andb_true_r in Hpick. apply negb_false_iff in Hpick.
        now apply existsb_eqb_In in Hpick.
    + intros Hshort. apply Z.ltb_ge in Hroom. lia.
Qed.

(** What [pickDistinct] returns passed the tests of both of its loops. *)
Lemma pickDistinct_good (pool : list Z) (count : Z) (nodeUsage : list Z)
  (cap : Z) (rng rng' : nat) (picks : list Z) :
  pickDistinct pool count nodeUsage cap rng = (Some picks, rng') ->
  goodPicks pool count nodeUsage cap picks /\ count <= lengthZ picks.
Proof.
  unfold pickDistinct. destruct (lengthZ pool <? count); [discriminate |].
  assert (Hstart : goodPicks pool count nodeUsage cap []).
  { split; [constructor | split; [unfold lengthZ; simpl; lia | intros v []]]. }
  pose proof (drawDistinct_good (maxPickAttempts pool) pool count nodeUsage cap [] rng Hstart)
    as Hdraw.
  destruct (drawDistinct _ pool count nodeUsage cap [] rng) as [drawn rng1].
  simpl in Hdraw.
  assert (Hfinal : goodPicks pool count nodeUsage cap
                     (if lengthZ drawn <? count
                      then scanDistinct pool count nodeUsage cap drawn else drawn)).
  { destruct (lengthZ drawn <? count); [| exact Hdraw].
    apply scanDistinct_good; [tauto | exact Hdraw]. }
  destruct (lengthZ (if lengthZ drawn <? count
                     then scanDistinct pool count nodeUsage cap drawn else drawn) <? count)
    eqn:Hshort; [discriminate |].
  intros Heq. inversion Heq. subst. apply Z.ltb_ge in Hshort. now split.
Qed.

(** X3: the nodes returned by [pickDistinct] are as many as were asked
    for, pairwise distinct, taken from the pool and below the usage
    cap. *)
Theorem distinct_picks_are_usable (pool : list Z) (count : Z) (nodeUsage : list Z)
  (cap : Z) (rng rng' : nat) (picks : list Z) :
  pickDistinct pool count nodeUsage cap rng = (Some picks, rng') ->
  lengthZ picks = Z.max 0 count /\ List.NoDup picks
  /\ forall v, In v picks -> In v pool /\ cellGe nodeUsage v cap = false.
Proof.
  intros Hpicks. destruct (pickDistinct_good _ _ _ _ _ _ _ Hpicks) as [Hgood Hfull].
  destruct Hgood as [Hnd [Hlen Hall]].
  split; [| split; [exact Hnd | exact Hall]].
  assert (Hnonneg : 0 <= lengthZ picks) by (unfold lengthZ; lia).
  lia.
Qed.

(** X4: [pickDistinct] returns null only when the pool does not hold
    [count] distinct nodes below the usage cap. *)
Theorem no_picks_without_candidates (pool : list Z) (count : Z) (nodeUsage : list Z)
  (cap : Z) (rng rng' : nat) :
  pickDistinct pool count nodeUsage cap rng = (None, rng') ->
  forall l, List.NoDup l ->
    (forall v, In v l -> In v pool /\ cellGe nodeUsage v cap = false) ->
    lengthZ l < count.
Proof.
  unfold pickDistinct. intros Hnone l Hnd Hl.
  destruct (lengthZ pool <? count) eqn:Hsmall.
  - apply Z.ltb_lt in Hsmall.
    assert (Hle : (length l <= length pool)%nat).
    { apply NoDup_incl_length; [exact Hnd |]. intros v Hv. now apply Hl. }
    unfold lengthZ in *. lia.
  - destruct (drawDistinct _ pool count nodeUsage cap [] rng) as [drawn rng1].
    destruct (lengthZ drawn <? count) eqn:Hdrawn.
    + destruct (lengthZ (scanDistinct pool count nodeUsage cap drawn) <? count)
        eqn:Hshort; [| discriminate].
      apply Z.ltb_lt in Hshort.
      assert (Hle : (length l <= length (scanDistinct pool count nodeUsage cap drawn))%nat).
      { apply NoDup_incl_length; [exact Hnd |]. intros v Hv.
        apply scanDistinct_covers; [exact Hshort |]. right. now apply Hl. }
      unfold lengthZ in *. lia.
    + rewrite Hdrawn in Hnone. discriminate.
Qed.

End SelectionProps.

Lemma selected_pair_is_usable_witness :
  In 0 [0; 1] /\ In 1 [0; 1]
  /\ cellGe [0; 0] 0 1 = false /\ cellGe [0; 0] 1 1 = false
  /\ (false = false -> 0 <> 1).
Proof.
  apply (@selected_pair_is_usable openCity [0; 1] [0; 1] false [0; 0] 1 0%nat 11%nat 0 1).
  vm_compute. reflexivity.
Defined.

Lemma no_pair_without_candidates_witness :
  (forall s, In s [0; 1] -> cellGe [1; 1] s 1 = true)
  \/ (exists s, In s [0; 1] /\ cellGe [1; 1] s 1 = false
        /\ forall e, In e [0; 1] ->
             cellGe [1; 1] e 1 = true \/ (false = false /\ e = s)).
Proof.
  apply (@no_pair_without_candidates openCity [0; 1] [0; 1] false [1; 1] 1 0%nat 10%nat).
  vm_compute. reflexivity.
Defined.

Lemma distinct_picks_are_usable_witness :
  lengthZ [0; 1] = Z.max 0 2 /\ List.NoDup [0; 1]
  /\ forall v, In v [0; 1] -> In v [0; 1; 2] /\ cellGe [0; 0; 0] v 1 = false.
Proof.
  apply (@distinct_picks_are_usable openCity [0; 1; 2] 2 [0; 0; 0] 1 0%nat 10%nat [0; 1]).
  vm_compute. reflexivity.
Defined.

Lemma no_picks_without_candidates_witness : lengthZ [1] < 2.
Proof.
  apply (@no_picks_without_candidates openCity [0; 1] 2 [1; 0] 1 0%nat 10%nat).
  - vm_compute. reflexivity.
  - constructor; [intros [] | constructor].
  - intros v [<- | []]. split; [right; now left | reflexivity].
Defined.
(** ** The messages of a build, in order *)

Section TranscriptFacts.
Context `{Platform}.

Lemma pathsOf_pathMessages (id : Z) (paths : list (list Z)) :
  pathsOf (pathMessages id paths) = paths.
Proof.
  destruct paths as [| first rest]; [reflexivity |].
  unfold pathMessages. change (pathsOf (?m :: ?l)) with (pathsOf l).
  unfold pathsOf. generalize (first :: rest). intros l.
  induction l as [| p l IH]; [reflexivity |]. simpl. now rewrite IH.
Qed.

Lemma pathMessages_snoc (id : Z) (paths : list (list Z)) (path : list Z) :
  pathMessages id (paths ++ [path])
  = pathMessages id paths
    ++ (if lengthZ paths =? 0
        then [DebugMessage id StagePath [("pathLength"%string, DNum (lengthZ path))]]
        else [])
    ++ [PathMessage id path].
Proof.
  destruct paths as [| first rest]; [reflexivity |].
  change ((first :: rest) ++ [path]) with (first :: (rest ++ [path])).
  unfold pathMessages. change (lengthZ (first :: rest) =? 0) with false.
  cbn [app List.map]. now rewrite List.map_app.
Qed.

Lemma isDone_pathMessages (id : Z) (paths : list (list Z)) :
  existsb isDone (pathMessages id paths) = false.
Proof.
  destruct paths as [| first rest]; [reflexivity |].
  unfold pathMessages. cbn [existsb isDone orb]. generalize (first :: rest). intros l.
  induction l as [| p l IH]; [reflexivity | exact IH].
Qed.

Section Loop.
Variable message : BuildMessage.
Variable token activeToken : Z.
Variable startNodes endNodes : list Z.
Variable opening : list OutboundMessage.

Lemma afterAttempt_transcript (st : LoopState) (result : PathResult) (sc : Scratch)
  (rng : nat) (pairS pairE pairT : Z) :
  transcriptInv message opening st ->
  placed st < maxPaths message ->
  match afterAttempt message st result sc rng pairS pairE pairT with
  | Continue st' | Exit _ st' => transcriptInv message opening st'
  end.
Proof.
  intros [paths [Hout [Hplaced Hbound]]] Hroom.
  destruct result as [path | |]; simpl.
  - exists (paths ++ [path]). simpl. rewrite Hout, Hplaced, pathMessages_snoc.
    rewrite <- app_assoc. split; [reflexivity |].
    unfold lengthZ in *. rewrite length_app. simpl. split; lia.
  - exists paths. simpl. repeat split; assumption.
  - exists paths. simpl. repeat split; assumption.
Qed.

Lemma placementStep_transcript (st : LoopState) :
  transcriptInv message opening st ->
  match placementStep message token activeToken startNodes endNodes st with
  | Continue st' | Exit _ st' => transcriptInv message opening st'
  end.
Proof.
  intros Hinv. unfold placementStep.
  destruct (placed st <? maxPaths message) eqn:Hroom; simpl; [| exact Hinv].
  apply Z.ltb_lt in Hroom.
  destruct (negb (token =? activeToken)); [exact Hinv |].
  destruct (maxAttemptsOf message <=? attempts st); [exact Hinv |].
  destruct (twoSided (grid message)).
  - destruct (buildLoop _ _ _ _ _ _ _ _ _) as [[result sc] rng].
    now apply afterAttempt_transcript.
  - destruct ((pairStart st =? -1) || (pairEnd st =? -1) || (maxTries message <=? pairTries st)).
    + destruct (selectPair _ _ _ _ _ _) as [[[pairS pairE] |] rng].
      * destruct (aStar _ _ _ _ _ _ _ _) as [result sc].
        now apply afterAttempt_transcript.
      * destruct Hinv as [paths Hinv]. exists paths. exact Hinv.
    + destruct (aStar _ _ _ _ _ _ _ _) as [result sc].
      now apply afterAttempt_transcript.
Qed.

Lemma placementLoop_transcript (fuel : nat) (st : LoopState) :
  transcriptInv message opening st ->
  transcriptInv message opening
    (snd (placementLoop message token activeToken startNodes endNodes fuel st)).
Proof.
  revert st. induction fuel as [| fuel IH]; intros st Hinv; [exact Hinv |].
  simpl. pose proof (placementStep_transcript st Hinv) as Hstep.
  destruct (placementStep message token activeToken startNodes endNodes st) as [st' | why st'].
  - now apply IH.
  - exact Hstep.
Qed.

End Loop.

Lemma initial_transcript (message : BuildMessage) (opening : list OutboundMessage)
  (rng : nat) :
  transcriptInv message opening (initialLoopState (grid message) rng opening).
Proof.
  exists []. simpl. rewrite app_nil_r. repeat split. unfold lengthZ. simpl. lia.
Qed.

(** With the build's token in force the classifier runs to its end. *)
Lemma classifyFrom_live (g : WorkerGrid) (token : Z) (indices : list Z) (pools : Pools) :
  classifyFrom g token token indices pools <> None.
Proof.
  revert pools. induction indices as [| idx rest IH]; intros pools; simpl; [discriminate |].
  unfold shouldCancel. rewrite Z.eqb_refl, andb_false_r. apply IH.
Qed.

(** How [buildPaths] ends, and what it has posted by then. *)
Inductive BuildShape (message : BuildMessage) (token activeToken : Z) (rng : nat)
  : Outcome -> Prop :=
| ShapeThrewEarly (o : Outcome) (text : string) :
    posted o = [] -> completion o = Threw text ->
    BuildShape message token activeToken rng o
| ShapeThrewRows (o : Outcome) (text : string) :
    posted o = [startMessage message] -> completion o = Threw text ->
    BuildShape message token activeToken rng o
| ShapeSuperseded (o : Outcome) :
    posted o = [startMessage message] -> completion o = Returned ->
    classify (grid message) token activeToken = None ->
    BuildShape message token activeToken rng o
| ShapeNoPool (o : Outcome) (pools : Pools) :
    classify (grid message) token activeToken = Some pools ->
    completion o = Returned ->
    posted o = [startMessage message; validMessage message pools]
               ++ doneMessages message 0 (validCount (grid message) pools) 0 0
                               (boundaryFlags pools) ->
    BuildShape message token activeToken rng o
| ShapeLoop (o : Outcome) (pools : Pools) (why : LoopExit) (st : LoopState)
    (closing : list OutboundMessage) :
    classify (grid message) token activeToken = Some pools ->
    completion o = Returned ->
    placementLoop message token activeToken
                  (startPool (grid message) pools) (endPool (grid message) pools)
                  (placementFuel message)
                  (initialLoopState (grid message) rng
                     [startMessage message; validMessage message pools]) = (why, st) ->
    posted o = emitted st ++ closing ->
    (closing = [] /\ (why = ExitToken \/ why = ExitSearchCancelled \/ token <> activeToken)
     \/ closing = doneMessages message (placed st) (validCount (grid message) pools)
                               (attempts st) (maxAttemptsOf message) (boundaryFlags pools)
        /\ token = activeToken) ->
    BuildShape message token activeToken rng o.

Lemma buildPaths_shape (message : BuildMessage) (token activeToken : Z) (rng : nat) :
  BuildShape message token activeToken rng (buildPaths message token activeToken rng).
Proof.
  unfold buildPaths.
  destruct (totalVertices (grid message) <? 0); [now eapply ShapeThrewEarly |].
  destruct (cellCount (grid message) <? 0); [now eapply ShapeThrewEarly |].
  destruct (instanceCount (grid message) <? 0); [now eapply ShapeThrewEarly |].
  destruct (totalNodeCount (grid message) <? 0); [now eapply ShapeThrewEarly |].
  destruct (gridZ (grid message) <? 0); [now eapply ShapeThrewRows |].
  destruct (classify (grid message) token activeToken) as [pools |] eqn:Hrun;
    [| now apply ShapeSuperseded].
  destruct ((lengthZ (startPool (grid message) pools) =? 0)
            || (lengthZ (endPool (grid message) pools) =? 0));
    [now apply (ShapeNoPool _ _ _ _ _ pools) |].
  destruct (twoSided (grid message)
            && ((lengthZ (startPool (grid message) pools) <? 2)
                || (lengthZ (endPool (grid message) pools) <? 2)));
    [now apply (ShapeNoPool _ _ _ _ _ pools) |].
  match goal with
  | |- context [placementLoop ?m ?t ?a ?s ?e ?f ?i] =>
      destruct (placementLoop m t a s e f i) as [why st] eqn:Hloop
  end.
  assert (Hquiet : forall reason : why = ExitToken \/ why = ExitSearchCancelled
                                   \/ token <> activeToken,
             BuildShape message token activeToken rng
               {| posted := emitted st; completion := Returned;
                  randomAfter := randomCalls st |}).
  { intros reason. apply (ShapeLoop _ _ _ _ _ pools why st []); try assumption;
      try reflexivity; [simpl; now rewrite app_nil_r | left; now split]. }
  assert (Hdone : BuildShape message token activeToken rng
            (if negb (token =? activeToken)
             then {| posted := emitted st; completion := Returned;
                     randomAfter := randomCalls st |}
             else {| posted := emitted st
                                ++ doneMessages message (placed st)
                                     (validCount (grid message) pools) (attempts st)
                                     (maxAttemptsOf message) (boundaryFlags pools);
                     completion := Returned; randomAfter := randomCalls st |})).
  { destruct (token =? activeToken) eqn:Htoken; simpl.
    - apply Z.eqb_eq in Htoken.
      eapply ShapeLoop; [exact Hrun | reflexivity | exact Hloop | reflexivity |].
      right. now split.
    - apply Z.eqb_neq in Htoken. apply Hquiet. right. now right. }
  destruct why; try exact Hdone; apply Hquiet; [now left | right; now left].
Qed.

Lemma loop_transcript (message : BuildMessage) (token activeToken : Z) (rng : nat)
  (pools : Pools) (why : LoopExit) (st : LoopState) :
  placementLoop message token activeToken
                (startPool (grid message) pools) (endPool (grid message) pools)
                (placementFuel message)
                (initialLoopState (grid message) rng
                   [startMessage message; validMessage message pools]) = (why, st) ->
  transcriptInv message [startMessage message; validMessage message pools] st.
Proof.
  intros Hloop.
  pose proof (placementLoop_transcript message token activeToken
                (startPool (grid message) pools) (endPool (grid message) pools)
                [startMessage message; validMessage message pools]
                (placementFuel message) _ (initial_transcript message _ rng)) as Hinv.
  now rewrite Hloop in Hinv.
Qed.

(** X5: a build never posts more path messages than the request asks
    for: their number is at most [max(0, maxPaths)]. *)
Theorem path_count_within_request (message : BuildMessage) (token activeToken : Z)
  (rng : nat) :
  lengthZ (pathsOf (posted (buildPaths message token activeToken rng)))
  <= Z.max 0 (maxPaths message).
Proof.
  assert (Hnone : lengthZ (@nil (list Z)) <= Z.max 0 (maxPaths message))
    by (unfold lengthZ; simpl; lia).
  destruct (buildPaths_shape message token activeToken rng)
    as [o text Hposted _ | o text Hposted _ | o Hposted _ _ | o pools _ _ Hposted
        | o pools why st closing _ _ Hloop Hposted Hclosing];
    rewrite Hposted; try exact Hnone.
  apply loop_transcript in Hloop. destruct Hloop as [paths [Hout [_ Hbound]]].
  assert (Hpaths : pathsOf (emitted st ++ closing) = paths).
  { rewrite Hout. destruct Hclosing as [[-> _] | [-> _]].
    - rewrite app_nil_r, pathsOf_app. apply pathsOf_pathMessages.
    - rewrite pathsOf_done, pathsOf_app. apply pathsOf_pathMessages. }
  now rewrite Hpaths.
Qed.

(** X6: the messages of a build come in a fixed order: the debug record
    of stage 'start' and, once the classifier has run, that of stage
    'valid'; then, if any path was accepted, one debug record of stage
    'path' carrying the length of the first path, followed by the path
    messages; and last, if at all, the debug record of stage 'done' and
    the done message, whose [placed] is the number of path messages. *)
Theorem build_transcript (message : BuildMessage) (token activeToken : Z) (rng : nat) :
  let out := posted (buildPaths message token activeToken rng) in
  exists opening closing,
    out = opening ++ pathMessages (msg_id message) (pathsOf out) ++ closing
    /\ (opening = [] \/ opening = [startMessage message]
        \/ exists pools, classify (grid message) token activeToken = Some pools
             /\ opening = [startMessage message; validMessage message pools])
    /\ (closing = []
        \/ exists pools attemptCount maxAttempts,
             classify (grid message) token activeToken = Some pools
             /\ closing = doneMessages message (lengthZ (pathsOf out))
                            (validCount (grid message) pools) attemptCount maxAttempts
                            (boundaryFlags pools)).
Proof.
  cbv zeta.
  destruct (buildPaths_shape message token activeToken rng)
    as [o text Hposted _ | o text Hposted _ | o Hposted _ _ | o pools Hrun _ Hposted
        | o pools why st closing Hrun _ Hloop Hposted Hclosing];
    rewrite Hposted.
  - exists [], []. repeat split; now left.
  - exists [startMessage message], []. repeat split; [right; now left | now left].
  - exists [startMessage message], []. repeat split; [right; now left | now left].
  - exists [startMessage message; validMessage message pools],
           (doneMessages message 0 (validCount (grid message) pools) 0 0
                         (boundaryFlags pools)).
    repeat split.
    + right. right. exists pools. now split.
    + right. exists pools, 0, 0. now split.
  - apply loop_transcript in Hloop. destruct Hloop as [paths [Hout [Hplaced _]]].
    assert (Hpaths : pathsOf (emitted st ++ closing) = paths).
    { rewrite Hout. destruct Hclosing as [[-> _] | [-> _]].
      - rewrite app_nil_r, pathsOf_app. apply pathsOf_pathMessages.
      - rewrite pathsOf_done, pathsOf_app. apply pathsOf_pathMessages. }
    rewrite Hpaths.
    exists [startMessage message; validMessage message pools], closing.
    split; [rewrite Hout; now rewrite <- app_assoc |]. split.
    + right. right. exists pools. now split.
    + destruct Hclosing as [[-> _] | [-> _]]; [now left |].
      right. exists pools, (attempts st), (maxAttemptsOf message).
      split; [exact Hrun | now rewrite Hplaced].
Qed.

(** A build that is not superseded while it runs and does not throw ends
    with exactly one done message, posted last, and the [placed] field of
    that message is the number of path messages posted before it. *)
Lemma buildPaths_live_done (message : BuildMessage) (token : Z) (rng : nat) :
  completion (buildPaths message token token rng) = Returned ->
  exists front pools,
    classify (grid message) token token = Some pools
    /\ posted (buildPaths message token token rng)
       = front ++ [DoneMessage (msg_id message) (lengthZ (pathsOf front))
                     (validCount (grid message) pools) (boundaryFlags pools)]
    /\ existsb isDone front = false.
Proof.
  destruct (buildPaths_shape message token token rng)
    as [o text _ Hthrew | o text _ Hthrew | o _ _ Hrun | o pools Hrun _ Hposted
        | o pools why st closing Hrun _ Hloop Hposted Hclosing];
    intros Hreturned; try congruence.
  - exfalso. unfold classify in Hrun. exact (classifyFrom_live _ _ _ _ Hrun).
  - exists [startMessage message; validMessage message pools;
            DebugMessage (msg_id message) StageDone
              [("placed", DNum 0); ("validCount", DNum (validCount (grid message) pools));
               ("attempts", DNum 0); ("maxAttempts", DNum 0)]%string], pools.
    split; [exact Hrun |]. split; [exact Hposted | reflexivity].
  - pose proof (placementLoop_stops message token token
                  (startPool (grid message) pools) (endPool (grid message) pools)
                  (placementFuel message)
                  (initialLoopState (grid message) rng
                     [startMessage message; validMessage message pools])) as Hstop.
    rewrite Hloop in Hstop. cbn [fst snd] in Hstop.
    assert (Hexit : exitCondition message token token
                      (startPool (grid message) pools) (endPool (grid message) pools)
                      why st).
    { apply Hstop. unfold placementFuel, initialLoopState, maxAttemptsOf. simpl. lia. }
    apply loop_transcript in Hloop. destruct Hloop as [paths [Hout [Hplaced _]]].
    destruct Hclosing as [[_ Hquiet] | [-> _]].
    + exfalso. destruct Hquiet as [-> | [-> | Hstale]];
        [destruct Hexit as [_ Hstale]; now apply Hstale | exact Hexit | now apply Hstale].
    + exists (emitted st
              ++ [DebugMessage (msg_id message) StageDone
                    [("placed", DNum (placed st));
                     ("validCount", DNum (validCount (grid message) pools));
                     ("attempts", DNum (attempts st));
                     ("maxAttempts", DNum (maxAttemptsOf message))]%string]), pools.
      split; [exact Hrun |]. split.
      * rewrite Hposted. unfold doneMessages. rewrite <- app_assoc. cbn [app].
        rewrite pathsOf_app. cbn [pathsOf flat_map app]. rewrite app_nil_r.
        rewrite Hout, pathsOf_app, pathsOf_pathMessages. cbn [pathsOf flat_map app].
        now rewrite Hplaced.
      * rewrite Hout, !existsb_app, isDone_pathMessages. reflexivity.
Qed.

(** X7: every build request is answered.  The handler of a build
    message posts, as its last message, either the done message of the
    request, whose [placed] field is the number of path messages posted
    before it, or the error message of the request; no other done or
    error message is posted for it. *)
Theorem every_build_is_answered (w : WorkerState) (message : BuildMessage) :
  exists front final,
    map payload (snd (onmessage w (Build message))) = front ++ [final]
    /\ existsb isDone front = false /\ existsb isError front = false
    /\ match final with
       | DoneMessage id placedCount _ _ =>
           id = msg_id message /\ placedCount = lengthZ (pathsOf front)
       | ErrorMessage id _ => id = msg_id message
       | _ => False
       end.
Proof.
  cbn [onmessage snd]. rewrite map_map. cbn [payload]. rewrite map_id.
  set (token := activeTokenOf w + 1).
  pose proof (buildPaths_no_error message token token (randomUsed w)) as Hquiet.
  destruct (completion (buildPaths message token token (randomUsed w))) as [| text]
    eqn:Hend.
  - destruct (buildPaths_live_done message token (randomUsed w) Hend)
      as [front [pools [_ [Hposted Hfront]]]].
    exists front. eexists. split; [exact Hposted |].
    rewrite Hposted, existsb_isError_app in Hquiet.
    apply orb_false_iff in Hquiet. destruct Hquiet as [Hquiet _].
    repeat split; assumption.
  - exists (posted (buildPaths message token token (randomUsed w))). eexists.
    split; [reflexivity |]. split; [| split; [exact Hquiet | reflexivity]].
    destruct (buildPaths_shape message token token (randomUsed w))
      as [o text' Hposted _ | o text' Hposted _ | o _ Hreturned _ | o pools _ Hreturned _
          | o pools why st closing _ Hreturned _ _ _];
      try congruence; rewrite Hposted; reflexivity.
Qed.

End TranscriptFacts.
(** ** The ends of the posted paths *)

Section EndFacts.
Context `{Platform}.

Lemma last_glue (l k : list Z) (x : Z) :
  last l = Some x -> head k = Some x -> last (l ++ tail k) = last k.
Proof.
  intros Hl Hk. destruct k as [| y k']; [discriminate |].
  simpl in Hk. inversion Hk. subst y. simpl.
  destruct k' as [| z k'']; [now rewrite app_nil_r |].
  rewrite last_app. change (last (x :: z :: k'')) with (last (z :: k'')).
  destruct (last (z :: k'')) eqn:Hlast; [reflexivity |].
  apply last_None in Hlast. discriminate.
Qed.

Lemma head_glue (l k : list Z) (x : Z) : head l = Some x -> head (l ++ k) = Some x.
Proof. destruct l; [discriminate | exact (fun Hl => Hl)]. Qed.

Lemma last_In (l : list Z) (x : Z) : last l = Some x -> In x l.
Proof.
  intros Hl. apply last_Some in Hl. destruct Hl as [l' ->].
  apply in_or_app. right. now left.
Qed.

Lemma In_glue (l k : list Z) (x v : Z) :
  last l = Some x -> head k = Some x -> In v k -> In v (l ++ tail k).
Proof.
  intros Hl Hk Hv. destruct k as [| y k']; [contradiction |].
  simpl in Hk. inversion Hk. subst y. apply in_or_app.
  destruct Hv as [<- | Hv]; [left; now apply last_In | now right].
Qed.

(** The four chained segments of a loop, merged. *)
Lemma mergeSegments_loop (seg1 seg2 seg3 seg4 : list Z) (a1 a2 b1 b2 : Z) :
  head seg1 = Some a1 -> last seg1 = Some a2 ->
  head seg2 = Some a2 -> last seg2 = Some b1 ->
  head seg3 = Some b1 -> last seg3 = Some b2 ->
  head seg4 = Some b2 -> last seg4 = Some a1 ->
  let path := mergeSegments [seg1; seg2; seg3; seg4] in
  head path = Some a1 /\ last path = Some a1
  /\ In a2 path /\ In b1 path /\ In b2 path.
Proof.
  intros Hh1 Hl1 Hh2 Hl2 Hh3 Hl3 Hh4 Hl4. unfold mergeSegments. cbn [mergeFrom].
  rewrite app_nil_r.
  assert (H12 : last (seg1 ++ tail seg2) = Some b1)
    by (rewrite (last_glue _ _ a2 Hl1 Hh2); exact Hl2).
  assert (H123 : last ((seg1 ++ tail seg2) ++ tail seg3) = Some b2)
    by (rewrite (last_glue _ _ b1 H12 Hh3); exact Hl3).
  assert (H1234 : last (((seg1 ++ tail seg2) ++ tail seg3) ++ tail seg4) = Some a1)
    by (rewrite (last_glue _ _ b2 H123 Hh4); exact Hl4).
  rewrite !app_assoc. repeat split.
  - rewrite <- !app_assoc. now apply head_glue.
  - exact H1234.
  - apply in_or_app. left. apply in_or_app. left. apply in_or_app. left.
    now apply last_In.
  - apply in_or_app. left. apply in_or_app. left. now apply last_In.
  - apply in_or_app. left. now apply last_In.
Qed.

Section Loop.
Variable message : BuildMessage.
Variable token activeToken : Z.
Variable startNodes endNodes : list Z.

Local Abbreviation g := (grid message).
Local Abbreviation cap := (usageCap message).
Local Abbreviation EInv := (endsInv message startNodes endNodes).

Lemma afterAttempt_ends (st : LoopState) (result : PathResult) (sc : Scratch)
  (rng : nat) (pairS pairE pairT : Z) :
  EInv st ->
  ScratchReady (usage st) sc ->
  ((pairS = -1 \/ pairE = -1)
   \/ (In pairS startNodes /\ In pairE endNodes /\ pairS <> pairE)) ->
  (twoSided g = true -> pairS = pairStart st /\ pairE = pairEnd st) ->
  (forall path, result = Found path -> endsOfPath g startNodes endNodes path) ->
  match afterAttempt message st result sc rng pairS pairE pairT with
  | Continue st' | Exit _ st' => EInv st'
  end.
Proof.
  intros [_ [Hpair Hpaths]] Hsc Hnew Hkeep Hfound.
  destruct result as [path | |]; simpl; (split; [| split]); simpl; try assumption.
  - apply (ScratchReady_usage (usage st)); [apply blockPath_length | exact Hsc].
  - destruct (twoSided g); [exact Hpair | left; now left].
  - intros p. erewrite pathsOf_accept by reflexivity.
    rewrite in_app_iff. intros [Hp | [<- | []]]; [now apply Hpaths | now apply Hfound].
Qed.

Lemma placementStep_ends (st : LoopState) :
  EInv st ->
  match placementStep message token activeToken startNodes endNodes st with
  | Continue st' | Exit _ st' => EInv st'
  end.
Proof.
  intros Hinv. pose proof Hinv as [Hready [Hpair Hpaths]]. unfold placementStep.
  destruct (negb (placed st <? maxPaths message)); [exact Hinv |].
  destruct (negb (token =? activeToken)); [exact Hinv |].
  destruct (maxAttemptsOf message <=? attempts st); [exact Hinv |].
  destruct (twoSided g) eqn:Hsided.
  - destruct (buildLoop _ _ _ _ _ _ _ _ _) as [[result sc] rng] eqn:Hloop.
    revert Hloop. unfold buildLoop.
    destruct (pickDistinct startNodes 2 (usage st) cap (randomCalls st))
      as [sideA rng1] eqn:HA.
    destruct (pickDistinct endNodes 2 (usage st) cap rng1) as [sideB rng2] eqn:HB.
    assert (Hother : forall other sc0 rng0,
               ScratchReady (usage st) sc0 -> (forall p, other <> Found p) ->
               match afterAttempt message st other sc0 rng0 (pairStart st) (pairEnd st)
                                  (pairTries st) with
               | Continue st' | Exit _ st' => EInv st'
               end).
    { intros other sc0 rng0 Hsc0 Hno. apply afterAttempt_ends; try assumption; [tauto |].
      intros p Hp. now destruct (Hno p). }
    destruct sideA as [[| a1 [| a2 restA]] |];
      try (intros Heq; inversion Heq; subst; now apply Hother);
      destruct sideB as [[| b1 [| b2 restB]] |];
      try (intros Heq; inversion Heq; subst; now apply Hother).
    destruct (pickDistinct_good _ _ _ _ _ _ _ HA) as [[HndA [_ HinA]] _].
    destruct (pickDistinct_good _ _ _ _ _ _ _ HB) as [[HndB [_ HinB]] _].
    destruct (aStar g cap token activeToken (usage st) (scratch st) a1 a2)
      as [r1 sc1] eqn:H1.
    destruct (aStar_spec g cap (usage st) token activeToken _ _ _ _ _ Hready H1)
      as [Hsc1 Hf1].
    destruct r1 as [seg1 | |];
      try (intros Heq; inversion Heq; subst; now apply Hother).
    destruct (aStar g cap token activeToken (usage st) sc1 a2 b1) as [r2 sc2] eqn:H2.
    destruct (aStar_spec g cap (usage st) token activeToken _ _ _ _ _ Hsc1 H2)
      as [Hsc2 Hf2].
    destruct r2 as [seg2 | |];
      try (intros Heq; inversion Heq; subst; now apply Hother).
    destruct (aStar g cap token activeToken (usage st) sc2 b1 b2) as [r3 sc3] eqn:H3.
    destruct (aStar_spec g cap (usage st) token activeToken _ _ _ _ _ Hsc2 H3)
      as [Hsc3 Hf3].
    destruct r3 as [seg3 | |];
      try (intros Heq; inversion Heq; subst; now apply Hother).
    destruct (aStar g cap token activeToken (usage st) sc3 b2 a1) as [r4 sc4] eqn:H4.
    destruct (aStar_spec g cap (usage st) token activeToken _ _ _ _ _ Hsc3 H4)
      as [Hsc4 Hf4].
    destruct r4 as [seg4 | |];
      try (intros Heq; inversion Heq; subst; now apply Hother).
    intros Heq. inversion Heq. subst result sc rng.
    apply afterAttempt_ends; try assumption; [tauto |].
    intros path Hpath. inversion Hpath. subst path. unfold endsOfPath. rewrite Hsided.
    destruct (Hf1 _ eq_refl) as [[Hh1 [Hl1 _]] _].
    destruct (Hf2 _ eq_refl) as [[Hh2 [Hl2 _]] _].
    destruct (Hf3 _ eq_refl) as [[Hh3 [Hl3 _]] _].
    destruct (Hf4 _ eq_refl) as [[Hh4 [Hl4 _]] _].
    destruct (mergeSegments_loop seg1 seg2 seg3 seg4 a1 a2 b1 b2
                Hh1 Hl1 Hh2 Hl2 Hh3 Hl3 Hh4 Hl4) as [Hhead [Hlast [Hi1 [Hi2 Hi3]]]].
    exists a1, a2, b1, b2.
    inversion HndA as [| ? ? HnotA _]. inversion HndB as [| ? ? HnotB _].
    repeat split; try assumption.
    + apply HinA. now left.
    + apply HinA. right. now left.
    + intros ->. apply HnotA. now left.
    + apply HinB. now left.
    + apply HinB. right. now left.
    + intros ->. apply HnotB. now left.
  - assert (Hsearch : forall pairS pairE rng pairT,
               In pairS startNodes /\ In pairE endNodes /\ pairS <> pairE ->
               match (let '(result, sc) :=
                        aStar g cap token activeToken (usage st) (scratch st) pairS pairE in
                      afterAttempt message st result sc rng pairS pairE pairT) with
               | Continue st' | Exit _ st' => EInv st'
               end).
    { intros pairS pairE rng pairT [HinS [HinE Hne]].
      destruct (aStar g cap token activeToken (usage st) (scratch st) pairS pairE)
        as [result sc] eqn:Hrun.
      destruct (aStar_spec g cap (usage st) token activeToken _ _ _ _ _ Hready Hrun)
        as [Hsc Hfound].
      apply afterAttempt_ends; try assumption; [now right | rewrite Hsided; discriminate |].
      intros path Hpath. destruct (Hfound path Hpath) as [[Hh [Hl _]] [Hnd _]].
      unfold endsOfPath. rewrite Hsided. exists pairS, pairE. repeat split; assumption. }
    destruct ((pairStart st =? -1) || (pairEnd st =? -1) || (maxTries message <=? pairTries st))
      eqn:Hselect.
    + destruct (selectPair _ _ _ _ _ _) as [[[pairS pairE] |] rng] eqn:Hpairs.
      * apply Hsearch.
        destruct (selectPair_In _ _ _ _ _ _ _ _ _ Hpairs) as [HinS HinE].
        repeat split; try assumption. eapply selectPair_distinct. exact Hpairs.
      * split; [exact Hready | split; [exact Hpair | exact Hpaths]].
    + apply Hsearch.
      apply orb_false_iff in Hselect. destruct Hselect as [Hselect _].
      apply orb_false_iff in Hselect. destruct Hselect as [Hs He].
      apply Z.eqb_neq in Hs. apply Z.eqb_neq in He.
      destruct Hpair as [[Hunset | Hunset] | Hset]; [contradiction | contradiction | exact Hset].
Qed.

Lemma placementLoop_ends (fuel : nat) (st : LoopState) :
  EInv st ->
  EInv (snd (placementLoop message token activeToken startNodes endNodes fuel st)).
Proof.
  revert st. induction fuel as [| fuel IH]; intros st Hinv; [exact Hinv |].
  simpl. pose proof (placementStep_ends st Hinv) as Hstep.
  destruct (placementStep message token activeToken startNodes endNodes st) as [st' | why st'].
  - now apply IH.
  - exact Hstep.
Qed.

End Loop.
End EndFacts.

Section BuildEnds.
Context `{Platform}.

(** X8: every path posted by a build has its ends in the pools the
    classifier produced.  In single-path mode it starts at a node of the
    start pool, ends at a different node of the end pool and visits no
    node twice; in two-sided mode it is a closed loop that returns to the
    start-pool node it left, after passing through a second start-pool node
    and two distinct end-pool nodes. *)
Theorem posted_paths_join_pools (message : BuildMessage) (token activeToken : Z)
  (rng : nat) (pools : Pools) (path : list Z) :
  classify (grid message) token activeToken = Some pools ->
  In path (pathsOf (posted (buildPaths message token activeToken rng))) ->
  endsOfPath (grid message) (startPool (grid message) pools)
             (endPool (grid message) pools) path.
Proof.
  intros Hpools.
  destruct (buildPaths_shape message token activeToken rng)
    as [o text Hposted _ | o text Hposted _ | o Hposted _ _ | o pools' _ _ Hposted
        | o pools' why st closing Hrun _ Hloop Hposted Hclosing];
    rewrite Hposted; try (intros []).
  assert (pools' = pools) by congruence. subst pools'.
  assert (Hsame : pathsOf (emitted st ++ closing) = pathsOf (emitted st)).
  { destruct Hclosing as [[-> _] | [-> _]];
      [now rewrite app_nil_r | apply pathsOf_done]. }
  rewrite Hsame.
  pose proof (placementLoop_ends message token activeToken
                (startPool (grid message) pools) (endPool (grid message) pools)
                (placementFuel message)
                (initialLoopState (grid message) rng
                   [startMessage message; validMessage message pools])) as Hinv.
  rewrite Hloop in Hinv. cbn [snd] in Hinv.
  apply Hinv. split; [apply initialScratch_ready |].
  split; [left; now left | intros p []].
Qed.

End BuildEnds.

Lemma posted_paths_join_pools_witness :
  exists pools,
    @classify openCity sampleGrid 1 1 = Some pools
    /\ endsOfPath sampleGrid (startPool sampleGrid pools) (endPool sampleGrid pools) [0; 1].
Proof.
  destruct (@classify openCity sampleGrid 1 1) as [pools |] eqn:Hrun;
    [| vm_compute in Hrun; discriminate].
  exists pools. split; [reflexivity |].
  apply (@posted_paths_join_pools openCity twoPathsMessage 1 1 0%nat pools [0; 1] Hrun).
  vm_compute. left. reflexivity.
Defined.
(** ** Node indices: lattice vertices, hole centers, posted paths *)

Section IndexFacts.
Context `{Platform}.

(** X9: on a lattice whose counts are not negative, the index arithmetic
    of the worker is a bijection between the vertex coordinates in range
    and the indices below [totalVertices]: [idx % vertexCountX],
    [floor(idx / vertexCountX) % vertexCountY] and [floor(idx / strideZ)]
    recover the coordinates from [x + y * strideY + z * strideZ], and
    every index below [totalVertices] is the index of its coordinates. *)
Theorem lattice_index_bijection (g : WorkerGrid) :
  regularGrid g ->
  (forall x y z,
     0 <= x < vertexCountX g -> 0 <= y < vertexCountY g -> 0 <= z < vertexCountZ g ->
     0 <= vertexIndex g x y z < totalVertices g
     /\ ixOf g (vertexIndex g x y z) = x
     /\ iyOf g (vertexIndex g x y z) = y
     /\ izOf g (vertexIndex g x y z) = z)
  /\ (forall idx,
        0 <= idx < totalVertices g ->
        vertexIndex g (ixOf g idx) (iyOf g idx) (izOf g idx) = idx
        /\ 0 <= ixOf g idx < vertexCountX g
        /\ 0 <= iyOf g idx < vertexCountY g
        /\ 0 <= izOf g idx < vertexCountZ g).
Proof.
  intros Hregular. split.
  - intros x y z Hx Hy Hz. unfold vertexIndex.
    destruct (lattice_encode g x y z Hx Hy (proj1 Hz)) as [Ex [Ey [Ez [Hlow Hhigh]]]].
    repeat split; try assumption. apply Hhigh. lia.
  - intros idx Hidx. unfold vertexIndex.
    destruct (lattice_decode g Hregular idx Hidx) as [Heq [Hx [Hy Hz]]].
    repeat split; try lia.
Qed.

Lemma holeIndexByCell_inverse (g : WorkerGrid) (cell h : Z) :
  geti (holeIndexByCell g) cell = Some h -> 0 <= h ->
  geti (holeCells g) h = Some cell.
Proof.
  intros Hget Hh. unfold holeIndexByCell, holeCells, holeRegistration in *.
  destruct (useHoleCenters g && (0 <? cellCount g)).
  - apply registerHole_fold_inverse with (acc := (replicate (Z.to_nat (cellCount g)) (-1), []));
      [| exact Hget | exact Hh].
    simpl. intros c x Hc Hx. apply geti_replicate in Hc. lia.
  - simpl in Hget. apply geti_replicate in Hget. lia.
Qed.

Lemma holeNodesOfCell_In (g : WorkerGrid) (cell v : Z) :
  In v (holeNodesOfCell g cell) ->
  exists h iy,
    geti (holeIndexByCell g) cell = Some h /\ 0 <= h
    /\ 0 <= iy < vertexCountY g
    /\ v = holeCenterBaseIndex g + h * vertexCountY g + iy.
Proof.
  unfold holeNodesOfCell.
  destruct (geti (holeIndexByCell g) cell) as [h |] eqn:Hget; [| intros []].
  destruct (h <? 0) eqn:Hneg; [intros [] |]. apply Z.ltb_ge in Hneg.
  rewrite in_map_iff. intros [iy [Hv Hiy]]. apply In_seqZ in Hiy.
  exists h, iy. repeat split; try lia.
Qed.

(** X10: node indices are unambiguous.  A hole-center node of a cell lies
    at or above [totalVertices], so it is no lattice vertex, and below
    [totalNodeCount]; it belongs to no other cell; and the nodes of one
    cell are pairwise distinct. *)
Theorem hole_nodes_are_separate (g : WorkerGrid) (cell v : Z) :
  In v (holeNodesOfCell g cell) ->
  totalVertices g <= v < totalNodeCount g
  /\ (forall cell', In v (holeNodesOfCell g cell') -> cell' = cell)
  /\ List.NoDup (holeNodesOfCell g cell).
Proof.
  intros Hv. destruct (holeNodesOfCell_In g cell v Hv) as [h [iy [Hget [Hh [Hiy ->]]]]].
  pose proof (holeIndexByCell_inverse g cell h Hget Hh) as Hcell.
  split; [| split].
  - apply (hole_node_range g h iy); [| exact Hiy].
    apply geti_Some_range in Hcell. lia.
  - intros cell' Hv'.
    destruct (holeNodesOfCell_In g cell' _ Hv') as [h' [iy' [Hget' [Hh' [Hiy' Heq]]]]].
    destruct (hole_encode g h iy Hh Hiy) as [Hcol _].
    destruct (hole_encode g h' iy' Hh' Hiy') as [Hcol' _].
    rewrite Heq in Hcol. rewrite Hcol' in Hcol. subst h'.
    pose proof (holeIndexByCell_inverse g cell' h Hget' Hh) as Hcell'. congruence.
  - unfold holeNodesOfCell. rewrite Hget.
    destruct (h <? 0); [constructor |].
    apply Finite.Injective_map_NoDup; [intros a b Hab; lia |].
    apply NoDup_ListNoDup. apply NoDup_seqZ.
Qed.

Section Lengths.
Variable message : BuildMessage.
Variable token activeToken : Z.
Variable startNodes endNodes : list Z.

Lemma afterAttempt_length (st : LoopState) (result : PathResult) (sc : Scratch)
  (rng : nat) (pairS pairE pairT : Z) :
  match afterAttempt message st result sc rng pairS pairE pairT with
  | Continue st' | Exit _ st' => length (usage st') = length (usage st)
  end.
Proof. destruct result; simpl; [apply blockPath_length | reflexivity | reflexivity]. Qed.

Lemma placementStep_length (st : LoopState) :
  match placementStep message token activeToken startNodes endNodes st with
  | Continue st' | Exit _ st' => length (usage st') = length (usage st)
  end.
Proof.
  unfold placementStep.
  destruct (negb (placed st <? maxPaths message)); [reflexivity |].
  destruct (negb (token =? activeToken)); [reflexivity |].
  destruct (maxAttemptsOf message <=? attempts st); [reflexivity |].
  destruct (twoSided (grid message)).
  - destruct (buildLoop _ _ _ _ _ _ _ _ _) as [[result sc] rng]. apply afterAttempt_length.
  - destruct ((pairStart st =? -1) || (pairEnd st =? -1) || (maxTries message <=? pairTries st)).
    + destruct (selectPair _ _ _ _ _ _) as [[[pairS pairE] |] rng]; [| reflexivity].
      destruct (aStar _ _ _ _ _ _ _ _) as [result sc]. apply afterAttempt_length.
    + destruct (aStar _ _ _ _ _ _ _ _) as [result sc]. apply afterAttempt_length.
Qed.

Lemma placementLoop_length (fuel : nat) (st : LoopState) :
  length (usage (snd (placementLoop message token activeToken startNodes endNodes fuel st)))
  = length (usage st).
Proof.
  revert st. induction fuel as [| fuel IH]; intros st; [reflexivity |].
  simpl. pose proof (placementStep_length st) as Hstep.
  destruct (placementStep message token activeToken startNodes endNodes st) as [st' | why st'].
  - rewrite IH. exact Hstep.
  - exact Hstep.
Qed.

End Lengths.

(** X11: every node of every posted path is a node index of the build:
    it is not negative and lies below [totalNodeCount], also when the
    building grid reaches beyond the lattice. *)
Theorem posted_nodes_are_valid (message : BuildMessage) (token activeToken : Z)
  (rng : nat) (path : list Z) (v : Z) :
  0 <= countY (grid message) ->
  In path (pathsOf (posted (buildPaths message token activeToken rng))) ->
  In v path ->
  0 <= v < totalNodeCount (grid message).
Proof.
  intros Hy.
  destruct (buildPaths_shape message token activeToken rng)
    as [o text Hposted _ | o text Hposted _ | o Hposted _ _ | o pools _ _ Hposted
        | o pools why st closing Hrun _ Hloop Hposted Hclosing];
    rewrite Hposted; try (intros []).
  assert (Hsame : pathsOf (emitted st ++ closing) = pathsOf (emitted st)).
  { destruct Hclosing as [[-> _] | [-> _]];
      [now rewrite app_nil_r | apply pathsOf_done]. }
  rewrite Hsame. intros Hpath Hv.
  pose proof (placementLoop_inv message token activeToken _ _ (placementFuel message) _
                (initial_UsageInv message token activeToken pools rng
                   [startMessage message; validMessage message pools] Hrun Hy eq_refl))
    as Hinv.
  pose proof (placementLoop_length message token activeToken
                (startPool (grid message) pools) (endPool (grid message) pools)
                (placementFuel message)
                (initialLoopState (grid message) rng
                   [startMessage message; validMessage message pools])) as Hlen.
  rewrite Hloop in Hinv, Hlen. cbn [snd] in Hinv, Hlen.
  destruct Hinv as [_ _ _ Hnodes _]. specialize (Hnodes path v Hpath Hv).
  unfold lengthZ in Hnodes. rewrite Hlen in Hnodes. simpl in Hnodes.
  rewrite length_replicate in Hnodes. lia.
Qed.

(** X12: [blockPath] counts occurrences: afterwards the counter of a node
    is its old value plus the number of times the node occurs in the
    path, and the cap when that sum reaches the cap; the table keeps its
    length. *)
Theorem usage_counts_occurrences (cap : Z) (path nodeUsage : list Z) (v u : Z) :
  geti nodeUsage v = Some u -> u <= cap ->
  geti (blockPath cap nodeUsage path) v
  = Some (Z.min cap (u + Z.of_nat (count_occ Z.eq_dec path v)))
  /\ length (blockPath cap nodeUsage path) = length nodeUsage.
Proof.
  intros Hget Hu. split.
  - now apply blockPath_lookup.
  - apply blockPath_length.
Qed.

(** X13: a search terminates.  On a lattice whose counts are not
    negative, the main loop of a search that starts from a clean heap
    and a start node that is not negative is left by its own tests
    within [31 * totalNodeCount + 2] passes; the heap it leaves is clean
    again, as is the heap a build starts with. *)
Theorem search_loop_terminates (g : WorkerGrid) (cap token activeToken : Z)
  (nodeUsage : list Z) (sc : Scratch) (startIndex endIndex : Z)
  (endCoords : Coords) (score : num) :
  regularGrid g -> heapClean g sc -> 0 <= startIndex ->
  let pushed := heapPush (markStart (bumpStamp sc) startIndex) startIndex score 0 in
  (forall left,
     searchLoop g cap nodeUsage endCoords token activeToken endIndex
                (searchFuel (fst pushed)) (fst pushed) (snd pushed) 0 <> LoopFuel left)
  /\ searchFuel (fst pushed) = Z.to_nat (31 * totalNodeCount g + 2)
  /\ heapClean g (snd (aStar g cap token activeToken nodeUsage sc startIndex endIndex))
  /\ heapClean g (initialScratch g).
Proof.
  intros Hregular Hclean Hstart pushed.
  pose proof (aStar_fuel g cap token activeToken Hregular nodeUsage sc startIndex endIndex
                endCoords score Hclean Hstart) as Hrun.
  cbv zeta in Hrun. fold pushed in Hrun.
  split; [| split; [| split]].
  - intros left Hleft. rewrite Hleft in Hrun. exact Hrun.
  - assert (Hpushed : heapClean g (fst pushed)).
    { apply heapPush_clean; [| exact Hstart].
      apply markStart_clean. now apply bumpStamp_clean. }
    destruct Hpushed as [_ Hlen]. unfold searchFuel, lengthZ in *. lia.
  - now apply aStar_clean.
  - now apply initialScratch_clean.
Qed.

End IndexFacts.

Lemma lattice_index_bijection_witness : ixOf sampleGrid 1 = 1 /\ iyOf sampleGrid 1 = 0.
Proof.
  assert (Hregular : regularGrid sampleGrid) by (vm_compute; repeat split; discriminate).
  destruct (lattice_index_bijection sampleGrid Hregular) as [Hencode _].
  destruct (Hencode 1 0 0) as [_ [Hx [Hy _]]];
    try (vm_compute; split; [discriminate | reflexivity]).
  split; [exact Hx | exact Hy].
Defined.

Lemma hole_nodes_are_separate_witness :
  totalVertices voidCellGrid <= 9 < totalNodeCount voidCellGrid
  /\ (forall cell', In 9 (holeNodesOfCell voidCellGrid cell') -> cell' = 0)
  /\ List.NoDup (holeNodesOfCell voidCellGrid 0).
Proof.
  apply (hole_nodes_are_separate voidCellGrid 0 9). vm_compute. right. now left.
Defined.

Lemma posted_nodes_are_valid_witness : 0 <= 1 < totalNodeCount (grid twoPathsMessage).
Proof.
  apply (@posted_nodes_are_valid openCity twoPathsMessage 1 1 0%nat [0; 1] 1).
  - vm_compute. discriminate.
  - vm_compute. now left.
  - right. now left.
Defined.

Lemma usage_counts_occurrences_witness :
  geti (blockPath 2 [0; 1; 0] [1; 0; 1; 1]) 1 = Some (Z.min 2 (1 + 3))
  /\ length (blockPath 2 [0; 1; 0] [1; 0; 1; 1]) = length [0; 1; 0].
Proof.
  apply (usage_counts_occurrences 2 [1; 0; 1; 1] [0; 1; 0] 1 1).
  - reflexivity.
  - lia.
Defined.

Lemma search_loop_terminates_witness :
  heapClean sampleGrid
    (snd (@aStar openCity sampleGrid 1 1 1 [0; 0] (initialScratch sampleGrid) 0 1)).
Proof.
  assert (Hregular : regularGrid sampleGrid) by (vm_compute; repeat split; discriminate).
  assert (Hclean : heapClean sampleGrid (initialScratch sampleGrid)).
  { split; [vm_compute; repeat constructor; discriminate | reflexivity]. }
  destruct (@search_loop_terminates openCity sampleGrid 1 1 1 [0; 0]
              (initialScratch sampleGrid) 0 1 (0, 0, 0)%Q (Fin 0) Hregular Hclean)
    as [_ [_ [Hafter _]]]; [lia | exact Hafter].
Defined.
(** ** The pools of the classifier *)

Section PoolFacts.
Context `{Platform}.

Lemma pushIf_app (c : bool) (l : list Z) (v : Z) :
  pushIf c l v = l ++ (if c then [v] else []).
Proof. unfold pushIf. destruct c; [reflexivity | now rewrite app_nil_r]. Qed.

Lemma chosen_cons (test : Z -> bool) (idx : Z) (rest : list Z) :
  chosen test (idx :: rest) = (if test idx then [idx] else []) ++ chosen test rest.
Proof. unfold chosen. simpl. destruct (test idx); reflexivity. Qed.

Lemma classifyVertex_lists (g : WorkerGrid) (pools : Pools) (idx : Z) :
  PoolsAre g [idx] pools (classifyVertex g pools idx).
Proof.
  unfold classifyVertex. rewrite vertexFlags_eq.
  fold (abovePlatform g idx).
  destruct (hasClearEdge g idx) eqn:Hclear; simpl.
  - split; unfold chosen; simpl; rewrite ?Hclear, ?pushIf_app; simpl; reflexivity.
  - split; unfold chosen; simpl; rewrite Hclear; simpl; now rewrite app_nil_r.
Qed.

Lemma PoolsAre_step (g : WorkerGrid) (idx : Z) (rest : list Z) (a b c : Pools) :
  PoolsAre g [idx] a b -> PoolsAre g rest b c -> PoolsAre g (idx :: rest) a c.
Proof.
  intros [A1 A2 A3 A4 A5 A6] [B1 B2 B3 B4 B5 B6].
  split; rewrite chosen_cons;
    [rewrite B1, A1 | rewrite B2, A2 | rewrite B3, A3
     | rewrite B4, A4 | rewrite B5, A5 | rewrite B6, A6];
    unfold chosen; simpl; rewrite <- app_assoc; f_equal;
    match goal with |- context [if ?c then _ else _] => destruct c end;
    now rewrite ?app_nil_r.
Qed.

Lemma classifyFrom_lists (g : WorkerGrid) (token activeToken : Z) (indices : list Z)
  (pools pools' : Pools) :
  classifyFrom g token activeToken indices pools = Some pools' ->
  PoolsAre g indices pools pools'.
Proof.
  revert pools. induction indices as [| idx rest IH]; intros pools; simpl.
  - intros Heq. inversion Heq. subst. split; unfold chosen; simpl; now rewrite app_nil_r.
  - destruct (shouldCancel idx token activeToken); [discriminate |].
    intros Hrest. eapply PoolsAre_step; [apply classifyVertex_lists | now apply IH].
Qed.

(** X14: the pool lists a completed classification leaves are selections
    from the vertex indices [0 .. totalVertices - 1] in increasing order:
    the vertices with a clear edge; among them the boundary vertices,
    which also have a blocked edge; and in two-sided mode the same two
    selections split by the test [y0 >= basePlatformHeight]. *)
Theorem pools_are_selections (g : WorkerGrid) (token activeToken : Z) (pools : Pools) :
  classify g token activeToken = Some pools ->
  let all := seqZ 0 (totalVertices g) in
  anyClearIndices pools = chosen (hasClearEdge g) all
  /\ boundaryIndices pools = chosen (fun i => hasClearEdge g i && hasBlockedEdge g i) all
  /\ anyClearPositive pools
     = chosen (fun i => hasClearEdge g i && (twoSided g && abovePlatform g i)) all
  /\ anyClearNegative pools
     = chosen (fun i => hasClearEdge g i && (twoSided g && negb (abovePlatform g i))) all
  /\ boundaryPositive pools
     = chosen (fun i => hasClearEdge g i
                        && (twoSided g && abovePlatform g i && hasBlockedEdge g i)) all
  /\ boundaryNegative pools
     = chosen (fun i => hasClearEdge g i
                        && (twoSided g && negb (abovePlatform g i) && hasBlockedEdge g i))
              all.
Proof.
  intros Hrun all. unfold classify in Hrun. fold all in Hrun.
  destruct (classifyFrom_lists g token activeToken all (initialPools g) pools Hrun)
    as [A1 A2 A3 A4 A5 A6].
  simpl in A1, A2, A3, A4, A5, A6. repeat split; assumption.
Qed.

Lemma chosen_In (test : Z -> bool) (indices : list Z) (v : Z) :
  In v (chosen test indices) <-> In v indices /\ test v = true.
Proof. unfold chosen. apply filter_In. Qed.

Lemma chosen_NoDup (test : Z -> bool) (indices : list Z) :
  List.NoDup indices -> List.NoDup (chosen test indices).
Proof. unfold chosen. apply List.NoDup_filter. Qed.

(** X15: the start and the end pool hold each vertex at most once, and
    only lattice vertices with a clear edge.  In two-sided mode the start
    pool lies at or above the platform height and the end pool below it,
    so the two pools share no vertex. *)
Theorem pools_are_separated (g : WorkerGrid) (token activeToken : Z) (pools : Pools) :
  classify g token activeToken = Some pools ->
  List.NoDup (startPool g pools) /\ List.NoDup (endPool g pools)
  /\ (forall v, In v (startPool g pools) \/ In v (endPool g pools) ->
        0 <= v < totalVertices g /\ hasClearEdge g v = true)
  /\ (twoSided g = true ->
      (forall v, In v (startPool g pools) -> abovePlatform g v = true)
      /\ (forall v, In v (endPool g pools) -> abovePlatform g v = false)).
Proof.
  intros Hrun.
  unfold classify in Hrun.
  destruct (classifyFrom_lists g token activeToken _ (initialPools g) pools Hrun)
    as [A1 A2 A3 A4 A5 A6].
  simpl in A1, A2, A3, A4, A5, A6.
  pose proof (proj1 (NoDup_ListNoDup _) (NoDup_seqZ 0 (totalVertices g))) as Hnd.
  unfold startPool, endPool.
  assert (Hpick : forall (c : bool) (a b : list Z) (P : list Z -> Prop),
             P a -> P b -> P (if c then a else b))
    by (intros [] a b P Ha Hb; assumption).
  split; [| split; [| split]].
  - repeat apply Hpick; rewrite ?A1, ?A2, ?A3, ?A5; now apply chosen_NoDup.
  - repeat apply Hpick; rewrite ?A1, ?A2, ?A4, ?A6; now apply chosen_NoDup.
  - intros v Hv.
    assert (Hin : In v (seqZ 0 (totalVertices g)) /\ hasClearEdge g v = true).
    { revert Hv. rewrite A1, A2, A3, A4, A5, A6.
      destruct (twoSided g);
        repeat match goal with |- context [if ?c then _ else _] => destruct c end;
        rewrite !chosen_In; intros [[Hin Ht] | [Hin Ht]];
        (split; [exact Hin |]);
        try (apply andb_true_iff in Ht; destruct Ht as [Ht _]); exact Ht. }
    destruct Hin as [Hin Hclear]. apply In_seqZ in Hin. split; [lia | exact Hclear].
  - intros Hsided. rewrite Hsided, A3, A4, A5, A6. split; intros v.
    + destruct (0 <? _); rewrite chosen_In; intros [_ Ht];
        rewrite Hsided in Ht; simpl in Ht;
        destruct (abovePlatform g v); [reflexivity | | reflexivity |];
        simpl in Ht; rewrite ?andb_false_r in Ht; discriminate.
    + destruct (0 <? _); rewrite chosen_In; intros [_ Ht];
        rewrite Hsided in Ht; simpl in Ht;
        destruct (abovePlatform g v); [| reflexivity | | reflexivity];
        simpl in Ht; rewrite ?andb_false_r in Ht; discriminate.
Qed.

End PoolFacts.

Lemma pools_are_selections_witness :
  exists pools,
    @classify openCity sampleGrid 1 1 = Some pools
    /\ anyClearIndices pools = chosen (@hasClearEdge openCity sampleGrid) [0; 1].
Proof.
  destruct (@classify openCity sampleGrid 1 1) as [pools |] eqn:Hrun;
    [| vm_compute in Hrun; discriminate].
  exists pools. split; [reflexivity |].
  destruct (@pools_are_selections openCity sampleGrid 1 1 pools Hrun) as [Hclear _].
  exact Hclear.
Defined.

Lemma pools_are_separated_witness :
  exists pools,
    @classify openCity sampleGrid 1 1 = Some pools
    /\ List.NoDup (startPool sampleGrid pools).
Proof.
  destruct (@classify openCity sampleGrid 1 1) as [pools |] eqn:Hrun;
    [| vm_compute in Hrun; discriminate].
  exists pools. split; [reflexivity |].
  destruct (@pools_are_separated openCity sampleGrid 1 1 pools Hrun) as [Hstart _].
  exact Hstart.
Defined.
(** ** Row pruning: the bisections and what they may skip *)

Section RowFacts.

Lemma Qltb_lt (a b : Q) : Qltb a b = true <-> (a < b)%Q.
Proof.
  unfold Qltb. rewrite negb_true_iff. split.
  - intros Hle. apply Qnot_le_lt. intros Hba. apply Qle_bool_iff in Hba. congruence.
  - intros Hlt. destruct (Qle_bool b a) eqn:Hle; [| reflexivity].
    apply Qle_bool_iff in Hle. lra.
Qed.

Lemma Qltb_ge (a b : Q) : Qltb a b = false <-> (b <= a)%Q.
Proof.
  unfold Qltb. rewrite negb_false_iff. apply Qle_bool_iff.
Qed.

Lemma Qle_bool_gt (a b : Q) : Qle_bool a b = false <-> (b < a)%Q.
Proof.
  split.
  - intros Hle. apply Qnot_le_lt. intros Hab. apply Qle_bool_iff in Hab. congruence.
  - intros Hlt. destruct (Qle_bool a b) eqn:Hle; [| reflexivity].
    apply Qle_bool_iff in Hle. lra.
Qed.

Lemma shiftr_mid (low high : Z) :
  0 <= low -> low <= high -> low <= Z.shiftr (low + high) 1 <= high.
Proof.
  intros Hlow Hle. rewrite Z.shiftr_div_pow2 by lia. change (2 ^ 1) with 2.
  pose proof (Z.div_mod (low + high) 2). pose proof (Z.mod_pos_bound (low + high) 2). lia.
Qed.

(** Cells that are [span] rows apart differ by at most [span] slacks. *)
Lemma nearlySorted_span (slack : Q) (cells : list Q) (span : nat) (row : Z) (x y : Q) :
  (0 <= slack)%Q -> nearlySorted slack cells -> 0 <= row ->
  geti cells row = Some x -> geti cells (row + Z.of_nat span) = Some y ->
  (x - inject_Z (Z.of_nat span) * slack <= y)%Q.
Proof.
  intros Hslack Hnear Hrow Hx. revert y. induction span as [| span IH]; intros y Hy.
  - rewrite Z.add_0_r in Hy. assert (x = y) by congruence. subst y.
    change (inject_Z (Z.of_nat 0)) with 0%Q. lra.
  - destruct (geti_in_range cells (row + Z.of_nat span)) as [w Hw].
    { apply geti_Some_range in Hy. lia. }
    specialize (IH w Hw).
    assert (Hstep : (w - slack <= y)%Q).
    { apply (Hnear (row + Z.of_nat span)); [exact Hw |].
      rewrite <- Hy. f_equal. lia. }
    rewrite Nat2Z.inj_succ. unfold Z.succ. rewrite inject_Z_plus.
    change (inject_Z 1) with 1%Q. lra.
Qed.

Lemma nearlySorted_pair (slack : Q) (cells : list Q) (gridZ i j : Z) (x y : Q) :
  (0 <= slack)%Q -> nearlySorted slack cells -> lengthZ cells = gridZ ->
  0 <= i -> i <= j ->
  geti cells i = Some x -> geti cells j = Some y ->
  (x - inject_Z gridZ * slack <= y)%Q.
Proof.
  intros Hslack Hnear Hlen Hi Hij Hx Hy.
  pose proof (nearlySorted_span slack cells (Z.to_nat (j - i)) i x y Hslack Hnear Hi Hx)
    as Hspan.
  rewrite Z2Nat.id in Hspan by lia. replace (i + (j - i)) with j in Hspan by lia.
  specialize (Hspan Hy).
  assert (Hle : (inject_Z (j - i) * slack <= inject_Z gridZ * slack)%Q).
  { apply Qmult_le_compat_r; [| exact Hslack]. rewrite <- Zle_Qle.
    apply geti_Some_range in Hy. lia. }
  lra.
Qed.

Section Bisection.
Variable slack : Q.
Variable gridZ : Z.
Hypothesis Hslack : (0 <= slack)%Q.

(** The invariant of [findMinRow]'s loop: [result] is the row above
    [high]; it passes the test if it is a row; and every row below [low]
    fails it by less than the margin. *)
Lemma minRowLoop_spec (rowWorldMaxZ : list Q) (segmentMinZ : Q) (fuel : nat)
  (low high : Z) :
  nearlySorted slack rowWorldMaxZ -> lengthZ rowWorldMaxZ = gridZ ->
  0 <= low -> low <= high + 1 -> high < gridZ ->
  (Z.to_nat (high - low + 1) <= fuel)%nat ->
  (forall i x, 0 <= i < low -> geti rowWorldMaxZ i = Some x ->
     (x < segmentMinZ + inject_Z gridZ * slack)%Q) ->
  (high + 1 < gridZ ->
   exists x, geti rowWorldMaxZ (high + 1) = Some x /\ (segmentMinZ <= x)%Q) ->
  let r := minRowLoop fuel rowWorldMaxZ segmentMinZ low high (high + 1) in
  0 <= r <= gridZ
  /\ (forall i x, 0 <= i < r -> geti rowWorldMaxZ i = Some x ->
        (x < segmentMinZ + inject_Z gridZ * slack)%Q)
  /\ (r < gridZ -> exists x, geti rowWorldMaxZ r = Some x /\ (segmentMinZ <= x)%Q).
Proof.
  intros Hnear Hlen. revert low high.
  induction fuel as [| fuel IH]; intros low high Hlow Hgap Hhigh Hfuel Hbelow Hres; simpl.
  - assert (low = high + 1) by lia. subst low. repeat split; try lia; assumption.
  - destruct (low <=? high) eqn:Hloop.
    + apply Z.leb_le in Hloop.
      pose proof (shiftr_mid low high Hlow Hloop) as Hmid.
      set (mid := Z.shiftr (low + high) 1) in *.
      destruct (geti_in_range rowWorldMaxZ mid) as [m Hm]; [lia |].
      rewrite Hm. simpl.
      destruct (Qle_bool segmentMinZ m) eqn:Htest.
      * apply Qle_bool_iff in Htest.
        pose proof (IH low (mid - 1)) as Hnext.
        replace (mid - 1 + 1) with mid in Hnext by lia.
        apply Hnext; try lia; [exact Hbelow |].
        intros _. exists m. now split.
      * apply Qle_bool_gt in Htest.
        apply IH; try lia; [| exact Hres].
        intros i x Hi Hx.
        pose proof (nearlySorted_pair slack rowWorldMaxZ gridZ i mid x m Hslack Hnear Hlen
                      (proj1 Hi)) as Hpair.
        assert (Hle : (x - inject_Z gridZ * slack <= m)%Q) by (apply Hpair; [lia | | ]; assumption).
        lra.
    + apply Z.leb_gt in Hloop. assert (low = high + 1) by lia. subst low.
      repeat split; try lia; assumption.
Qed.

(** The invariant of [findMaxRow]'s loop, the mirror image. *)
Lemma maxRowLoop_spec (rowWorldMinZ : list Q) (segmentMaxZ : Q) (fuel : nat)
  (low high : Z) :
  nearlySorted slack rowWorldMinZ -> lengthZ rowWorldMinZ = gridZ ->
  0 <= low -> low <= high + 1 -> high < gridZ ->
  (Z.to_nat (high - low + 1) <= fuel)%nat ->
  (forall i x, high < i < gridZ -> geti rowWorldMinZ i = Some x ->
     (segmentMaxZ - inject_Z gridZ * slack < x)%Q) ->
  (0 <= low - 1 ->
   exists x, geti rowWorldMinZ (low - 1) = Some x /\ (x <= segmentMaxZ)%Q) ->
  let r := maxRowLoop fuel rowWorldMinZ segmentMaxZ low high (low - 1) in
  -1 <= r < gridZ
  /\ (forall i x, r < i < gridZ -> geti rowWorldMinZ i = Some x ->
        (segmentMaxZ - inject_Z gridZ * slack < x)%Q)
  /\ (0 <= r -> exists x, geti rowWorldMinZ r = Some x /\ (x <= segmentMaxZ)%Q).
Proof.
  intros Hnear Hlen. revert low high.
  induction fuel as [| fuel IH]; intros low high Hlow Hgap Hhigh Hfuel Habove Hres; simpl.
  - assert (high = low - 1) by lia. subst high. repeat split; try lia; assumption.
  - destruct (low <=? high) eqn:Hloop.
    + apply Z.leb_le in Hloop.
      pose proof (shiftr_mid low high Hlow Hloop) as Hmid.
      set (mid := Z.shiftr (low + high) 1) in *.
      destruct (geti_in_range rowWorldMinZ mid) as [m Hm]; [lia |].
      rewrite Hm. simpl.
      destruct (Qle_bool m segmentMaxZ) eqn:Htest.
      * apply Qle_bool_iff in Htest.
        pose proof (IH (mid + 1) high) as Hnext.
        replace (mid + 1 - 1) with mid in Hnext by lia.
        apply Hnext; try lia; [exact Habove |].
        intros _. exists m. now split.
      * apply Qle_bool_gt in Htest.
        apply IH; try lia; [| exact Hres].
        intros i x Hi Hx.
        assert (Hle : (m - inject_Z gridZ * slack <= x)%Q).
        { apply (nearlySorted_pair slack rowWorldMinZ gridZ mid i m x Hslack Hnear Hlen);
            try lia; assumption. }
        lra.
    + apply Z.leb_gt in Hloop. assert (high = low - 1) by lia. subst high.
      repeat split; try lia; assumption.
Qed.

Lemma findMinRow_spec (rowWorldMaxZ : list Q) (segmentMinZ : Q) :
  nearlySorted slack rowWorldMaxZ -> lengthZ rowWorldMaxZ = gridZ ->
  let r := findMinRow gridZ true rowWorldMaxZ segmentMinZ in
  0 <= r <= gridZ
  /\ (forall i x, 0 <= i < r -> geti rowWorldMaxZ i = Some x ->
        (x < segmentMinZ + inject_Z gridZ * slack)%Q)
  /\ (r < gridZ -> exists x, geti rowWorldMaxZ r = Some x /\ (segmentMinZ <= x)%Q).
Proof.
  intros Hnear Hlen. unfold findMinRow. cbn [negb].
  assert (Hrows : 0 <= gridZ) by (unfold lengthZ in Hlen; lia).
  pose proof (minRowLoop_spec rowWorldMaxZ segmentMinZ (rowFuel gridZ) 0 (gridZ - 1)
                Hnear Hlen) as Hloop.
  replace (gridZ - 1 + 1) with gridZ in Hloop by lia. cbv zeta in Hloop.
  assert (Hfuel : (Z.to_nat (gridZ - 1 - 0 + 1) <= rowFuel gridZ)%nat)
    by (unfold rowFuel; lia).
  assert (Hbelow : forall i x, 0 <= i < 0 -> geti rowWorldMaxZ i = Some x ->
                     (x < segmentMinZ + inject_Z gridZ * slack)%Q)
    by (intros i x Hi; lia).
  assert (Hres : gridZ < gridZ ->
                 exists x, geti rowWorldMaxZ gridZ = Some x /\ (segmentMinZ <= x)%Q)
    by (intros Hi; lia).
  specialize (Hloop (Z.le_refl 0) ltac:(lia) ltac:(lia) Hfuel Hbelow Hres).
  destruct Hloop as [Hrange Hrest].
  cbv zeta. destruct (_ =? gridZ) eqn:Hfull.
  - apply Z.eqb_eq in Hfull. rewrite Hfull in Hrest. split; [lia | exact Hrest].
  - split; [exact Hrange | exact Hrest].
Qed.

Lemma findMaxRow_spec (rowWorldMinZ : list Q) (segmentMaxZ : Q) :
  nearlySorted slack rowWorldMinZ -> lengthZ rowWorldMinZ = gridZ ->
  let r := findMaxRow gridZ true rowWorldMinZ segmentMaxZ in
  -1 <= r < gridZ
  /\ (forall i x, r < i < gridZ -> geti rowWorldMinZ i = Some x ->
        (segmentMaxZ - inject_Z gridZ * slack < x)%Q)
  /\ (0 <= r -> exists x, geti rowWorldMinZ r = Some x /\ (x <= segmentMaxZ)%Q).
Proof.
  intros Hnear Hlen. unfold findMaxRow. cbn [negb].
  assert (Hrows : 0 <= gridZ) by (unfold lengthZ in Hlen; lia).
  pose proof (maxRowLoop_spec rowWorldMinZ segmentMaxZ (rowFuel gridZ) 0 (gridZ - 1)
                Hnear Hlen) as Hloop.
  change (0 - 1) with (-1) in Hloop. cbv zeta in Hloop.
  assert (Hfuel : (Z.to_nat (gridZ - 1 - 0 + 1) <= rowFuel gridZ)%nat)
    by (unfold rowFuel; lia).
  apply Hloop; try lia; exact Hfuel.
Qed.

End Bisection.
End RowFacts.

(** The fuel of the bisections is never used up: once it covers the rows
    between [low] and [high], more fuel changes nothing. *)
Lemma minRowLoop_fuel (fuel : nat) (rowWorldMaxZ : list Q) (segmentMinZ : Q)
  (low high result : Z) :
  0 <= low -> (Z.to_nat (high - low + 1) <= fuel)%nat ->
  minRowLoop (S fuel) rowWorldMaxZ segmentMinZ low high result
  = minRowLoop fuel rowWorldMaxZ segmentMinZ low high result.
Proof.
  revert low high result. induction fuel as [| fuel IH]; intros low high result Hlow Hfuel.
  - cbn [minRowLoop]. replace (low <=? high) with false; [reflexivity |].
    symmetry. apply Z.leb_gt. lia.
  - change (minRowLoop (S (S fuel)) rowWorldMaxZ segmentMinZ low high result)
      with (if low <=? high
            then let mid := Z.shiftr (low + high) 1 in
                 if optLe (Some segmentMinZ) (geti rowWorldMaxZ mid)
                 then minRowLoop (S fuel) rowWorldMaxZ segmentMinZ low (mid - 1) mid
                 else minRowLoop (S fuel) rowWorldMaxZ segmentMinZ (mid + 1) high result
            else result).
    change (minRowLoop (S fuel) rowWorldMaxZ segmentMinZ low high result)
      with (if low <=? high
            then let mid := Z.shiftr (low + high) 1 in
                 if optLe (Some segmentMinZ) (geti rowWorldMaxZ mid)
                 then minRowLoop fuel rowWorldMaxZ segmentMinZ low (mid - 1) mid
                 else minRowLoop fuel rowWorldMaxZ segmentMinZ (mid + 1) high result
            else result).
    destruct (low <=? high) eqn:Hloop; [| reflexivity]. apply Z.leb_le in Hloop.
    pose proof (shiftr_mid low high Hlow Hloop) as Hmid. cbv zeta.
    destruct (optLe _ _); apply IH; lia.
Qed.

Lemma maxRowLoop_fuel (fuel : nat) (rowWorldMinZ : list Q) (segmentMaxZ : Q)
  (low high result : Z) :
  0 <= low -> (Z.to_nat (high - low + 1) <= fuel)%nat ->
  maxRowLoop (S fuel) rowWorldMinZ segmentMaxZ low high result
  = maxRowLoop fuel rowWorldMinZ segmentMaxZ low high result.
Proof.
  revert low high result. induction fuel as [| fuel IH]; intros low high result Hlow Hfuel.
  - cbn [maxRowLoop]. replace (low <=? high) with false; [reflexivity |].
    symmetry. apply Z.leb_gt. lia.
  - change (maxRowLoop (S (S fuel)) rowWorldMinZ segmentMaxZ low high result)
      with (if low <=? high
            then let mid := Z.shiftr (low + high) 1 in
                 if optLe (geti rowWorldMinZ mid) (Some segmentMaxZ)
                 then maxRowLoop (S fuel) rowWorldMinZ segmentMaxZ (mid + 1) high mid
                 else maxRowLoop (S fuel) rowWorldMinZ segmentMaxZ low (mid - 1) result
            else result).
    change (maxRowLoop (S fuel) rowWorldMinZ segmentMaxZ low high result)
      with (if low <=? high
            then let mid := Z.shiftr (low + high) 1 in
                 if optLe (geti rowWorldMinZ mid) (Some segmentMaxZ)
                 then maxRowLoop fuel rowWorldMinZ segmentMaxZ (mid + 1) high mid
                 else maxRowLoop fuel rowWorldMinZ segmentMaxZ low (mid - 1) result
            else result).
    destruct (low <=? high) eqn:Hloop; [| reflexivity]. apply Z.leb_le in Hloop.
    pose proof (shiftr_mid low high Hlow Hloop) as Hmid. cbv zeta.
    destruct (optLe _ _); apply IH; lia.
Qed.

Section RowSelection.

Lemma rowsMonotonic_near (gridZ : Z) (rowWorldMinZ rowWorldMaxZ : list Q) :
  rowsMonotonic gridZ rowWorldMinZ rowWorldMaxZ = true ->
  lengthZ rowWorldMinZ = gridZ -> lengthZ rowWorldMaxZ = gridZ ->
  nearlySorted rowTolerance rowWorldMinZ /\ nearlySorted rowTolerance rowWorldMaxZ.
Proof.
  intros Hflag HlenMin HlenMax. unfold rowsMonotonic in Hflag.
  rewrite forallb_forall in Hflag.
  assert (Hrow : forall row, 0 <= row -> row + 1 < gridZ ->
                   rowBreaksOrder rowWorldMinZ rowWorldMaxZ (row + 1) = false).
  { intros row Hrow Hnext. apply negb_true_iff. apply Hflag. apply In_seqZ. lia. }
  split; intros row x y Hx Hy.
  - pose proof (geti_Some_range _ _ _ Hx) as Hr. pose proof (geti_Some_range _ _ _ Hy) as Hn.
    specialize (Hrow row ltac:(lia) ltac:(lia)). unfold rowBreaksOrder in Hrow.
    replace (row + 1 - 1) with row in Hrow by lia. rewrite Hx, Hy in Hrow.
    replace (0 <? row + 1) with true in Hrow by (symmetry; apply Z.ltb_lt; lia).
    simpl in Hrow. apply orb_false_iff in Hrow. destruct Hrow as [Hmin _].
    now apply Qltb_ge in Hmin.
  - pose proof (geti_Some_range _ _ _ Hx) as Hr. pose proof (geti_Some_range _ _ _ Hy) as Hn.
    specialize (Hrow row ltac:(lia) ltac:(lia)). unfold rowBreaksOrder in Hrow.
    replace (row + 1 - 1) with row in Hrow by lia. rewrite Hx, Hy in Hrow.
    replace (0 <? row + 1) with true in Hrow by (symmetry; apply Z.ltb_lt; lia).
    simpl in Hrow. apply orb_false_iff in Hrow. destruct Hrow as [_ Hmax].
    now apply Qltb_ge in Hmax.
Qed.

(** The linear scan keeps the first and the last row it did not skip. *)
Lemma scanRows_spec (rowWorldMinZ rowWorldMaxZ : list Q) (segmentMinZ segmentMaxZ : Q)
  (rows : list Z) (range : Z * Z) :
  let found := fold_left (scanRow rowWorldMinZ rowWorldMaxZ segmentMinZ segmentMaxZ)
                         rows range in
  (fst found = fst range \/ In (fst found) rows)
  /\ fst found <= fst range /\ snd range <= snd found
  /\ forall row lo hi,
       In row rows -> geti rowWorldMinZ row = Some lo -> geti rowWorldMaxZ row = Some hi ->
       (lo <= segmentMaxZ)%Q -> (segmentMinZ <= hi)%Q ->
       fst found <= row <= snd found.
Proof.
  revert range. induction rows as [| r rows IH]; intros [minRow maxRow].
  - simpl. split; [now left |]. split; [lia |]. split; [lia |]. intros row lo hi [].
  - cbn [fold_left].
    assert (Hstep : let next := scanRow rowWorldMinZ rowWorldMaxZ segmentMinZ segmentMaxZ
                                        (minRow, maxRow) r in
                    (fst next = minRow \/ fst next = r)
                    /\ fst next <= minRow /\ maxRow <= snd next
                    /\ forall lo hi,
                         geti rowWorldMinZ r = Some lo -> geti rowWorldMaxZ r = Some hi ->
                         (lo <= segmentMaxZ)%Q -> (segmentMinZ <= hi)%Q ->
                         fst next <= r <= snd next).
    { unfold scanRow.
      destruct (optLt (Some segmentMaxZ) (geti rowWorldMinZ r)
                || optLt (geti rowWorldMaxZ r) (Some segmentMinZ)) eqn:Hskip; simpl.
      - split; [now left |]. split; [lia |]. split; [lia |].
        intros lo hi Hlo Hhi Hin Hout.
        rewrite Hlo, Hhi in Hskip. simpl in Hskip. apply orb_true_iff in Hskip.
        destruct Hskip as [Hskip | Hskip]; apply Qltb_lt in Hskip; lra.
      - destruct (r <? minRow) eqn:Hfirst; destruct (maxRow <? r) eqn:Hlast;
          rewrite ?Z.ltb_lt, ?Z.ltb_ge in *;
          (split; [tauto |]); (split; [lia |]); (split; [lia |]); intros; lia. }
    cbv zeta in Hstep.
    set (next := scanRow rowWorldMinZ rowWorldMaxZ segmentMinZ segmentMaxZ
                         (minRow, maxRow) r) in *.
    destruct Hstep as [Hfrom1 [Hlow1 [Hhigh1 Hcover1]]].
    specialize (IH next). cbv zeta in IH.
    set (found := fold_left (scanRow rowWorldMinZ rowWorldMaxZ segmentMinZ segmentMaxZ)
                            rows next) in *.
    destruct IH as [Hfrom [Hlow [Hhigh Hcover]]]. cbn [fst snd].
    split; [| split; [| split]]; try lia.
    + destruct Hfrom as [Hfrom | Hfrom]; [| right; now right].
      rewrite Hfrom. destruct Hfrom1 as [-> | ->]; [now left | right; now left].
    + intros row lo hi [<- | Hin] Hlo Hhi Hinside Houtside.
      * specialize (Hcover1 lo hi Hlo Hhi Hinside Houtside). lia.
      * now apply (Hcover row lo hi).
Qed.

Lemma minRowLoop_range (fuel : nat) (rowWorldMaxZ : list Q) (segmentMinZ : Q)
  (low high result : Z) :
  0 <= low ->
  let r := minRowLoop fuel rowWorldMaxZ segmentMinZ low high result in
  r = result \/ low <= r <= high.
Proof.
  revert low high result. induction fuel as [| fuel IH]; intros low high result Hlow;
    cbn [minRowLoop]; cbv zeta; [now left |].
  destruct (low <=? high) eqn:Hloop; [| now left]. apply Z.leb_le in Hloop.
  pose proof (shiftr_mid low high Hlow Hloop) as Hmid.
  destruct (optLe (Some segmentMinZ) (geti rowWorldMaxZ (Z.shiftr (low + high) 1))).
  - destruct (IH low (Z.shiftr (low + high) 1 - 1) (Z.shiftr (low + high) 1) Hlow)
      as [-> | Hin]; right; lia.
  - destruct (IH (Z.shiftr (low + high) 1 + 1) high result ltac:(lia)) as [-> | Hin];
      [now left | right; lia].
Qed.

Lemma maxRowLoop_range (fuel : nat) (rowWorldMinZ : list Q) (segmentMaxZ : Q)
  (low high result : Z) :
  0 <= low ->
  let r := maxRowLoop fuel rowWorldMinZ segmentMaxZ low high result in
  r = result \/ low <= r <= high.
Proof.
  revert low high result. induction fuel as [| fuel IH]; intros low high result Hlow;
    cbn [maxRowLoop]; cbv zeta; [now left |].
  destruct (low <=? high) eqn:Hloop; [| now left]. apply Z.leb_le in Hloop.
  pose proof (shiftr_mid low high Hlow Hloop) as Hmid.
  destruct (optLe (geti rowWorldMinZ (Z.shiftr (low + high) 1)) (Some segmentMaxZ)).
  - destruct (IH (Z.shiftr (low + high) 1 + 1) high (Z.shiftr (low + high) 1) ltac:(lia))
      as [-> | Hin]; right; lia.
  - destruct (IH low (Z.shiftr (low + high) 1 - 1) result Hlow) as [-> | Hin];
      [now left | right; lia].
Qed.

(** X16: on row bounds that do not decrease from one row to the next,
    the two bisections are exact: [findMinRow] returns the first row whose
    upper bound reaches [segmentMinZ] (or [gridZ] when there is none), and
    [findMaxRow] the last row whose lower bound does not exceed
    [segmentMaxZ] (or -1). *)
Theorem bisection_finds_first_and_last (gridZ : Z) (rowWorldMinZ rowWorldMaxZ : list Q)
  (segmentMinZ segmentMaxZ : Q) :
  lengthZ rowWorldMinZ = gridZ -> lengthZ rowWorldMaxZ = gridZ ->
  nearlySorted 0 rowWorldMinZ -> nearlySorted 0 rowWorldMaxZ ->
  0 <= findMinRow gridZ true rowWorldMaxZ segmentMinZ <= gridZ
  /\ -1 <= findMaxRow gridZ true rowWorldMinZ segmentMaxZ < gridZ
  /\ (forall row x, geti rowWorldMaxZ row = Some x ->
        ((segmentMinZ <= x)%Q <-> findMinRow gridZ true rowWorldMaxZ segmentMinZ <= row))
  /\ (forall row x, geti rowWorldMinZ row = Some x ->
        ((x <= segmentMaxZ)%Q <-> row <= findMaxRow gridZ true rowWorldMinZ segmentMaxZ)).
Proof.
  intros HlenMin HlenMax HsortedMin HsortedMax.
  assert (Hzero : (0 <= 0)%Q) by lra.
  destruct (findMinRow_spec 0 gridZ Hzero rowWorldMaxZ segmentMinZ HsortedMax HlenMax)
    as [HrangeA [HbelowA HatA]].
  destruct (findMaxRow_spec 0 gridZ Hzero rowWorldMinZ segmentMaxZ HsortedMin HlenMin)
    as [HrangeB [HaboveB HatB]].
  split; [exact HrangeA |]. split; [exact HrangeB |]. split.
  - intros row x Hx. pose proof (geti_Some_range _ _ _ Hx) as Hrow. split.
    + intros Hreach.
      destruct (Z_lt_le_dec row (findMinRow gridZ true rowWorldMaxZ segmentMinZ))
        as [Hskipped | Hkept]; [| exact Hkept].
      specialize (HbelowA row x ltac:(lia) Hx). lra.
    + intros Hkept. destruct HatA as [w [Hw Hreach]]; [lia |].
      pose proof (nearlySorted_pair 0 rowWorldMaxZ gridZ _ row w x Hzero HsortedMax HlenMax
                    (proj1 HrangeA) Hkept Hw Hx) as Hpair.
      lra.
  - intros row x Hx. pose proof (geti_Some_range _ _ _ Hx) as Hrow. split.
    + intros Hreach.
      destruct (Z_lt_le_dec (findMaxRow gridZ true rowWorldMinZ segmentMaxZ) row)
        as [Hskipped | Hkept]; [| exact Hkept].
      specialize (HaboveB row x ltac:(lia) Hx). lra.
    + intros Hkept. destruct HatB as [w [Hw Hreach]]; [lia |].
      pose proof (nearlySorted_pair 0 rowWorldMinZ gridZ row _ x w Hzero HsortedMin HlenMin
                    (proj1 Hrow) Hkept Hx Hw) as Hpair.
      lra.
Qed.

(** X17: the row selection of [segmentHitsBuildings] prunes
    conservatively.  A row whose Z interval meets the interval of the
    segment lies between the first and the last selected row.  When the
    worker's monotonicity flag is set and the bisections are used, this
    holds for the rows that meet the segment's interval with a margin of
    [gridZ * 1e-6], the decrease the flag tolerates over the grid. *)
Theorem overlapping_rows_are_selected (gridZ : Z) (rowWorldMinZ rowWorldMaxZ : list Q)
  (segmentMinZ segmentMaxZ : Q) (row : Z) (lo hi : Q) :
  lengthZ rowWorldMinZ = gridZ -> lengthZ rowWorldMaxZ = gridZ ->
  geti rowWorldMinZ row = Some lo -> geti rowWorldMaxZ row = Some hi ->
  let flag := rowsMonotonic gridZ rowWorldMinZ rowWorldMaxZ in
  (lo + pruningMargin gridZ flag <= segmentMaxZ)%Q ->
  (segmentMinZ + pruningMargin gridZ flag <= hi)%Q ->
  exists first last,
    selectRows gridZ flag rowWorldMinZ rowWorldMaxZ segmentMinZ segmentMaxZ
    = Some (first, last)
    /\ 0 <= first <= row /\ row <= last < gridZ.
Proof.
  intros HlenMin HlenMax Hlo Hhi flag Hinside Houtside.
  pose proof (geti_Some_range _ _ _ Hlo) as Hrow. rewrite HlenMin in Hrow.
  assert (Hfound : forall minRow maxRow,
             minRow <= row <= maxRow ->
             exists first last,
               (if (maxRow <? minRow) || (gridZ <=? minRow) || (maxRow <? 0) then None
                else Some (Z.max 0 minRow, Z.min (gridZ - 1) maxRow)) = Some (first, last)
               /\ 0 <= first <= row /\ row <= last < gridZ).
  { intros minRow maxRow Hbetween.
    replace (maxRow <? minRow) with false by (symmetry; apply Z.ltb_ge; lia).
    replace (gridZ <=? minRow) with false by (symmetry; apply Z.leb_gt; lia).
    replace (maxRow <? 0) with false by (symmetry; apply Z.ltb_ge; lia).
    simpl. eexists. eexists. split; [reflexivity | lia]. }
  unfold selectRows. destruct flag eqn:Hflag; unfold pruningMargin in *; cbn [negb].
  - destruct (rowsMonotonic_near gridZ rowWorldMinZ rowWorldMaxZ Hflag HlenMin HlenMax)
      as [HnearMin HnearMax].
    assert (Htol : (0 <= rowTolerance)%Q) by (unfold rowTolerance; lra).
    destruct (findMinRow_spec rowTolerance gridZ Htol rowWorldMaxZ segmentMinZ HnearMax HlenMax)
      as [HrangeA [HbelowA _]].
    destruct (findMaxRow_spec rowTolerance gridZ Htol rowWorldMinZ segmentMaxZ HnearMin HlenMin)
      as [HrangeB [HaboveB _]].
    apply Hfound. split.
    + destruct (Z_lt_le_dec row (findMinRow gridZ true rowWorldMaxZ segmentMinZ))
        as [Hskipped | Hkept]; [| exact Hkept].
      specialize (HbelowA row hi ltac:(lia) Hhi). lra.
    + destruct (Z_lt_le_dec (findMaxRow gridZ true rowWorldMinZ segmentMaxZ) row)
        as [Hskipped | Hkept]; [| exact Hkept].
      specialize (HaboveB row lo ltac:(lia) Hlo). lra.
  - pose proof (scanRows_spec rowWorldMinZ rowWorldMaxZ segmentMinZ segmentMaxZ
                  (seqZ 0 gridZ) (gridZ, -1)) as Hscan.
    cbv zeta in Hscan. destruct Hscan as [_ [_ [_ Hcover]]].
    destruct (fold_left _ _ _) as [minRow maxRow]. apply Hfound.
    apply (Hcover row lo hi); try assumption; [apply In_seqZ; lia | lra | lra].
Qed.

(** X18: the selected rows exist: whatever the bounds and the flag, a
    selection runs from a first to a last row inside the grid, so the row
    loop reads no cell outside the per-row arrays. *)
Theorem selected_rows_exist (gridZ : Z) (rowWorldMonotonic : bool)
  (rowWorldMinZ rowWorldMaxZ : list Q) (segmentMinZ segmentMaxZ : Q) (first last : Z) :
  selectRows gridZ rowWorldMonotonic rowWorldMinZ rowWorldMaxZ segmentMinZ segmentMaxZ
  = Some (first, last) ->
  0 <= first <= last /\ last < gridZ.
Proof.
  unfold selectRows.
  assert (Hfound : forall minRow maxRow,
             (minRow = gridZ \/ 0 <= minRow < gridZ) ->
             (if (maxRow <? minRow) || (gridZ <=? minRow) || (maxRow <? 0) then None
              else Some (Z.max 0 minRow, Z.min (gridZ - 1) maxRow)) = Some (first, last) ->
             0 <= first <= last /\ last < gridZ).
  { intros minRow maxRow Hmin.
    destruct (maxRow <? minRow) eqn:H1; [discriminate |].
    destruct (gridZ <=? minRow) eqn:H2; [discriminate |].
    destruct (maxRow <? 0) eqn:H3; [discriminate |].
    simpl. intros Heq. inversion Heq. lia. }
  destruct rowWorldMonotonic; cbn [negb].
  - apply Hfound. unfold findMinRow. cbn [negb].
    pose proof (minRowLoop_range (rowFuel gridZ) rowWorldMaxZ segmentMinZ 0 (gridZ - 1) gridZ
                  (Z.le_refl 0)) as Hrange.
    cbv zeta in Hrange. destruct (_ =? gridZ) eqn:Hfull; [now left |].
    apply Z.eqb_neq in Hfull. destruct Hrange as [Hsame | Hin]; [contradiction | right; lia].
  - pose proof (scanRows_spec rowWorldMinZ rowWorldMaxZ segmentMinZ segmentMaxZ
                  (seqZ 0 gridZ) (gridZ, -1)) as Hscan.
    cbv zeta in Hscan. destruct Hscan as [Hfrom _].
    destruct (fold_left _ _ _) as [minRow maxRow]. apply Hfound. simpl in Hfrom.
    destruct Hfrom as [-> | Hin]; [now left | right; apply In_seqZ in Hin; lia].
Qed.

End RowSelection.

Lemma bisection_finds_first_and_last_witness :
  findMinRow 3 true [1; 2; 3]%Q (3 # 2) = 1
  /\ findMaxRow 3 true [0; 1; 2]%Q (3 # 2) = 1
  /\ 0 <= findMinRow 3 true [1; 2; 3]%Q (3 # 2) <= 3.
Proof.
  split; [reflexivity |]. split; [reflexivity |].
  assert (Hsorted : forall cells : list Q,
             cells = [0; 1; 2]%Q \/ cells = [1; 2; 3]%Q -> nearlySorted 0 cells).
  { intros cells Hcells row x y Hx Hy.
    pose proof (geti_Some_range _ _ _ Hy) as Hrow.
    assert (Hcases : row = 0 \/ row = 1).
    { destruct Hcells as [-> | ->]; unfold lengthZ in Hrow; simpl in Hrow;
        apply geti_Some_range in Hx; lia. }
    destruct Hcells as [-> | ->]; destruct Hcases as [-> | ->];
      vm_compute in Hx, Hy; inversion Hx; inversion Hy; subst; vm_compute; discriminate. }
  destruct (bisection_finds_first_and_last 3 [0; 1; 2]%Q [1; 2; 3]%Q (3 # 2) (3 # 2)
              eq_refl eq_refl (Hsorted _ (or_introl eq_refl))
              (Hsorted _ (or_intror eq_refl))) as [Hrange _].
  exact Hrange.
Defined.

Lemma overlapping_rows_are_selected_witness :
  exists first last,
    selectRows 3 (rowsMonotonic 3 [0; 1; 2]%Q [1; 2; 3]%Q) [0; 1; 2]%Q [1; 2; 3]%Q
               (3 # 2) (7 # 4)
    = Some (first, last)
    /\ 0 <= first <= 1 /\ 1 <= last < 3.
Proof.
  apply (overlapping_rows_are_selected 3 [0; 1; 2]%Q [1; 2; 3]%Q (3 # 2) (7 # 4) 1 1 2);
    try reflexivity; vm_compute; discriminate.
Defined.

Lemma selected_rows_exist_witness : 0 <= 1 <= 2 /\ 2 < 3.
Proof.
  apply (selected_rows_exist 3 false [0; 1; 2]%Q [1; 2; 3]%Q (3 # 2) (5 # 2)).
  vm_compute. reflexivity.
Defined.

(** The margin of the row selection cannot be dropped: a decrease of an
    upper bound that the monotonicity test tolerates sends the bisection
    past a row that meets the segment.  Row 0 below reaches from 0 to 1.0000005 and
    the segment from 1.0000003 to 2, yet the selection is row 2 alone. *)
Lemma tolerated_decrease_prunes_a_row :
  let rowWorldMinZ := [0; 0; 0]%Q in
  let rowWorldMaxZ := [10000005 # 10000000; 1; 10000005 # 10000000]%Q in
  rowsMonotonic 3 rowWorldMinZ rowWorldMaxZ = true
  /\ selectRows 3 true rowWorldMinZ rowWorldMaxZ (10000003 # 10000000) 2 = Some (2, 2)
  /\ optLe (geti rowWorldMinZ 0) (Some 2%Q) = true
  /\ optLe (Some (10000003 # 10000000)%Q) (geti rowWorldMaxZ 0) = true.
Proof. cbv zeta. repeat split; vm_compute; reflexivity. Qed.
(** ** The frustum test: no hit is missed, and a reported hit is near *)

Section FrustumFacts.

Lemma Qabs'_cases (a : Q) :
  ((0 <= a)%Q /\ Qabs' a = a) \/ ((a < 0)%Q /\ Qabs' a = (- a)%Q).
Proof.
  unfold Qabs'. destruct (Qle_bool 0 a) eqn:Hsign.
  - left. apply Qle_bool_iff in Hsign. now split.
  - right. apply Qle_bool_gt in Hsign. now split.
Qed.

Lemma mul_unit_bounds (t d : Q) :
  (0 <= t)%Q -> (t <= 1)%Q -> (- Qabs' d <= t * d)%Q /\ (t * d <= Qabs' d)%Q.
Proof.
  intros H0 H1. destruct (Qabs'_cases d) as [[Hd ->] | [Hd ->]].
  - assert (0 <= t * d)%Q by (apply Qmult_le_0_compat; assumption).
    assert (0 <= (1 - t) * d)%Q by (apply Qmult_le_0_compat; lra).
    split; lra.
  - assert (0 <= t * - d)%Q by (apply Qmult_le_0_compat; lra).
    assert (0 <= (1 - t) * - d)%Q by (apply Qmult_le_0_compat; lra).
    split; lra.
Qed.

Lemma div_bound_pos (num denom t : Q) :
  (0 < denom)%Q -> ((t <= num / denom)%Q <-> (t * denom <= num)%Q).
Proof.
  intros Hpos. split.
  - intros Hle. apply (Qmult_le_compat_r _ _ denom) in Hle; [| lra].
    assert (Heq : (num / denom * denom == num)%Q) by (field; lra).
    rewrite Heq in Hle. exact Hle.
  - intros Hle. now apply Qle_shift_div_l.
Qed.

Lemma div_bound_neg (num denom t : Q) :
  (denom < 0)%Q -> ((num / denom <= t)%Q <-> (t * denom <= num)%Q).
Proof.
  intros Hneg.
  assert (Heq : (num / denom == (- num) / (- denom))%Q) by (field; lra).
  rewrite Heq. split.
  - intros Hle. apply (Qmult_le_compat_r _ _ (- denom)) in Hle; [| lra].
    assert (Hsame : (- num / - denom * - denom == - num)%Q) by (field; lra).
    rewrite Hsame in Hle. lra.
  - intros Hle. apply Qle_shift_div_r; lra.
Qed.

Section Segment.
Variables x0 y0 z0 x1 y1 z1 : Q.

Local Abbreviation along p t :=
  (planeValue p (pointAt x0 x1 t) (pointAt y0 y1 t) (pointAt z0 z1 t)).

Lemma along_linear (p : Plane) (t : Q) :
  (along p t
   == (normalX p * x0 + normalY p * y0 + normalZ p * z0)
      + t * (normalX p * (x1 - x0) + normalY p * (y1 - y0) + normalZ p * (z1 - z0)))%Q.
Proof. unfold planeValue, pointAt. ring. Qed.

(** A parameter whose point lies under the plane by [EPS] survives the
    clip. *)
Lemma clip_keeps (p : Plane) (t0 t1 t : Q) :
  (0 <= t)%Q -> (t <= 1)%Q -> (t0 <= t)%Q -> (t <= t1)%Q ->
  (along p t <= offset p - EPS)%Q ->
  exists t0' t1',
    clip x0 y0 z0 (x1 - x0) (y1 - y0) (z1 - z0) (t0, t1) p = Some (t0', t1')
    /\ (t0' <= t)%Q /\ (t <= t1')%Q.
Proof.
  intros H0 H1 Hlow Hhigh Hunder. rewrite along_linear in Hunder. unfold clip.
  set (denom := (normalX p * (x1 - x0) + normalY p * (y1 - y0)
                 + normalZ p * (z1 - z0))%Q) in *.
  set (num := (offset p - (normalX p * x0 + normalY p * y0 + normalZ p * z0))%Q).
  assert (Hnum : (t * denom + EPS <= num)%Q) by (unfold num; lra).
  assert (HEPS : (parallelBound < EPS)%Q) by reflexivity.
  destruct (Qltb (Qabs' denom) parallelBound) eqn:Hparallel.
  - apply Qltb_lt in Hparallel.
    destruct (mul_unit_bounds t denom H0 H1) as [Hbound _].
    assert (Hkeep : Qltb num 0 = false) by (apply Qltb_ge; lra).
    rewrite Hkeep. exists t0, t1. now repeat split.
  - apply Qltb_ge in Hparallel.
    assert (Hbig : (0 < parallelBound)%Q) by reflexivity.
    destruct (Qltb 0 denom) eqn:Hsign.
    + apply Qltb_lt in Hsign.
      assert (Hcut : (t <= num / denom)%Q) by (apply div_bound_pos; [exact Hsign | lra]).
      destruct (Qltb (num / denom) t1) eqn:Hcloser.
      * assert (Hok : Qle_bool t0 (num / denom) = true) by (apply Qle_bool_iff; lra).
        rewrite Hok. exists t0, (num / denom)%Q. now repeat split.
      * assert (Hok : Qle_bool t0 t1 = true) by (apply Qle_bool_iff; lra).
        rewrite Hok. exists t0, t1. now repeat split.
    + apply Qltb_ge in Hsign.
      assert (Hneg : (denom < 0)%Q).
      { destruct (Qabs'_cases denom) as [[Hd Habs] | [Hd _]]; [| exact Hd].
        rewrite Habs in Hparallel. lra. }
      assert (Hcut : (num / denom <= t)%Q) by (apply div_bound_neg; [exact Hneg | lra]).
      destruct (Qltb t0 (num / denom)) eqn:Hcloser.
      * assert (Hok : Qle_bool (num / denom) t1 = true) by (apply Qle_bool_iff; lra).
        rewrite Hok. exists (num / denom)%Q, t1. now repeat split.
      * assert (Hok : Qle_bool t0 t1 = true) by (apply Qle_bool_iff; lra).
        rewrite Hok. exists t0, t1. now repeat split.
Qed.

Lemma clipAll_keeps (planes : list Plane) (t0 t1 t : Q) :
  (0 <= t)%Q -> (t <= 1)%Q -> (t0 <= t)%Q -> (t <= t1)%Q ->
  (forall p, In p planes -> (along p t <= offset p - EPS)%Q) ->
  exists t0' t1',
    clipAll x0 y0 z0 (x1 - x0) (y1 - y0) (z1 - z0) planes (t0, t1) = Some (t0', t1')
    /\ (t0' <= t)%Q /\ (t <= t1')%Q.
Proof.
  intros H0 H1. revert t0 t1.
  induction planes as [| p rest IH]; intros t0 t1 Hlow Hhigh Hunder; cbn [clipAll].
  - exists t0, t1. now repeat split.
  - destruct (clip_keeps p t0 t1 t H0 H1 Hlow Hhigh (Hunder p (or_introl eq_refl)))
      as [t0' [t1' [Hclip [Hlow' Hhigh']]]].
    rewrite Hclip. apply IH; try assumption.
    intros q Hq. apply Hunder. now right.
Qed.

(** What a clip leaves: a narrower interval every parameter of which
    lies under the plane, up to the parallel bound. *)
Lemma clip_cuts (p : Plane) (t0 t1 t0' t1' : Q) :
  (0 <= t0)%Q -> (t0 <= t1)%Q -> (t1 <= 1)%Q ->
  clip x0 y0 z0 (x1 - x0) (y1 - y0) (z1 - z0) (t0, t1) p = Some (t0', t1') ->
  (t0 <= t0')%Q /\ (t0' <= t1')%Q /\ (t1' <= t1)%Q
  /\ forall t, (t0' <= t)%Q -> (t <= t1')%Q ->
       (along p t <= offset p + parallelBound)%Q.
Proof.
  intros H0 Horder H1. unfold clip.
  set (denom := (normalX p * (x1 - x0) + normalY p * (y1 - y0)
                 + normalZ p * (z1 - z0))%Q).
  set (num := (offset p - (normalX p * x0 + normalY p * y0 + normalZ p * z0))%Q).
  assert (Hform : forall t, (along p t == offset p - num + t * denom)%Q).
  { intros t. rewrite along_linear. unfold num, denom. ring. }
  assert (Hbig : (0 < parallelBound)%Q) by reflexivity.
  destruct (Qltb (Qabs' denom) parallelBound) eqn:Hparallel.
  - apply Qltb_lt in Hparallel.
    destruct (Qltb num 0) eqn:Hsign; [discriminate |]. apply Qltb_ge in Hsign.
    intros Heq. inversion Heq. subst t0' t1'.
    split; [lra |]. split; [exact Horder |]. split; [lra |].
    intros t Hlow Hhigh. rewrite Hform.
    destruct (mul_unit_bounds t denom) as [_ Hbound]; lra.
  - apply Qltb_ge in Hparallel.
    destruct (Qltb 0 denom) eqn:Hsign.
    + apply Qltb_lt in Hsign.
      destruct (Qle_bool t0 (if Qltb (num / denom) t1 then (num / denom)%Q else t1))
        eqn:Hkept; [| discriminate].
      apply Qle_bool_iff in Hkept. intros Heq. inversion Heq. subst t0' t1'.
      destruct (Qltb (num / denom) t1) eqn:Hcloser.
      * apply Qltb_lt in Hcloser. split; [lra |]. split; [exact Hkept |]. split; [lra |].
        intros t Hlow Hhigh. rewrite Hform.
        apply (div_bound_pos num denom t Hsign) in Hhigh. lra.
      * apply Qltb_ge in Hcloser. split; [lra |]. split; [exact Hkept |]. split; [lra |].
        intros t Hlow Hhigh. rewrite Hform.
        assert (Hcut : (t <= num / denom)%Q) by lra.
        apply (div_bound_pos num denom t Hsign) in Hcut. lra.
    + apply Qltb_ge in Hsign.
      assert (Hneg : (denom < 0)%Q).
      { destruct (Qabs'_cases denom) as [[Hd Habs] | [Hd _]]; [| exact Hd].
        rewrite Habs in Hparallel. lra. }
      destruct (Qle_bool (if Qltb t0 (num / denom) then (num / denom)%Q else t0) t1)
        eqn:Hkept; [| discriminate].
      apply Qle_bool_iff in Hkept. intros Heq. inversion Heq. subst t0' t1'.
      destruct (Qltb t0 (num / denom)) eqn:Hcloser.
      * apply Qltb_lt in Hcloser. split; [lra |]. split; [exact Hkept |]. split; [lra |].
        intros t Hlow Hhigh. rewrite Hform.
        apply (div_bound_neg num denom t Hneg) in Hlow. lra.
      * apply Qltb_ge in Hcloser. split; [lra |]. split; [exact Hkept |]. split; [lra |].
        intros t Hlow Hhigh. rewrite Hform.
        assert (Hcut : (num / denom <= t)%Q) by lra.
        apply (div_bound_neg num denom t Hneg) in Hcut. lra.
Qed.

Lemma clipAll_cuts (planes : list Plane) (t0 t1 t0' t1' : Q) :
  (0 <= t0)%Q -> (t0 <= t1)%Q -> (t1 <= 1)%Q ->
  clipAll x0 y0 z0 (x1 - x0) (y1 - y0) (z1 - z0) planes (t0, t1) = Some (t0', t1') ->
  (0 <= t0')%Q /\ (t0' <= t1')%Q /\ (t1' <= 1)%Q
  /\ (t0 <= t0')%Q /\ (t1' <= t1)%Q
  /\ forall p t, In p planes -> (t0' <= t)%Q -> (t <= t1')%Q ->
       (along p t <= offset p + parallelBound)%Q.
Proof.
  revert t0 t1. induction planes as [| p rest IH]; intros t0 t1 H0 Horder H1; cbn [clipAll].
  - intros Heq. inversion Heq. subst t0' t1'.
    repeat split; try lra. intros p t [].
  - destruct (clip x0 y0 z0 (x1 - x0) (y1 - y0) (z1 - z0) (t0, t1) p)
      as [[s0 s1] |] eqn:Hclip; [| discriminate].
    destruct (clip_cuts p t0 t1 s0 s1 H0 Horder H1 Hclip) as [Ha [Hb [Hc Hunder]]].
    intros Hrest.
    destruct (IH s0 s1 ltac:(lra) Hb ltac:(lra) Hrest)
      as [I0 [I1 [I2 [I3 [I4 Hothers]]]]].
    repeat split; try lra.
    intros q t [<- | Hq] Hlow Hhigh.
    + apply Hunder; lra.
    + now apply (Hothers q t).
Qed.

End Segment.

Lemma halfWidthAt_slope (yMin yMax baseHalf topHalf y : Q) :
  (yMin < yMax)%Q ->
  (halfWidthAt yMin yMax baseHalf topHalf y
   == baseHalf + (topHalf - baseHalf) / (yMax - yMin) * (y - yMin))%Q.
Proof. intros Hheight. unfold halfWidthAt. field. lra. Qed.

(** X19: the frustum test misses no hit.  If the frustum has a positive
    height and positive half extents and some point of the segment lies
    in it, [segmentIntersectsFrustum] returns true (in exact arithmetic;
    the rounding of doubles is not modelled). *)
Theorem frustum_hit_is_reported
  (x0 y0 z0 x1 y1 z1 yMin yMax baseHalfX baseHalfZ topHalfX topHalfZ t : Q) :
  (yMin < yMax)%Q ->
  (0 < baseHalfX)%Q -> (0 < baseHalfZ)%Q -> (0 < topHalfX)%Q -> (0 < topHalfZ)%Q ->
  (0 <= t)%Q -> (t <= 1)%Q ->
  insideFrustum 0 yMin yMax baseHalfX baseHalfZ topHalfX topHalfZ
                (pointAt x0 x1 t) (pointAt y0 y1 t) (pointAt z0 z1 t) ->
  segmentIntersectsFrustum x0 y0 z0 x1 y1 z1 yMin yMax
                           baseHalfX baseHalfZ topHalfX topHalfZ = true.
Proof.
  intros Hheight HbX HbZ HtX HtZ H0 H1 [Hy1 [Hy2 [Hx1 [Hx2 [Hz1 Hz2]]]]].
  unfold segmentIntersectsFrustum.
  replace (Qle_bool yMax yMin) with false by (symmetry; now apply Qle_bool_gt).
  replace (Qle_bool baseHalfX 0) with false by (symmetry; now apply Qle_bool_gt).
  replace (Qle_bool baseHalfZ 0) with false by (symmetry; now apply Qle_bool_gt).
  replace (Qle_bool topHalfX 0) with false by (symmetry; now apply Qle_bool_gt).
  replace (Qle_bool topHalfZ 0) with false by (symmetry; now apply Qle_bool_gt).
  cbn [orb].
  rewrite (halfWidthAt_slope yMin yMax baseHalfX topHalfX _ Hheight) in Hx1, Hx2.
  rewrite (halfWidthAt_slope yMin yMax baseHalfZ topHalfZ _ Hheight) in Hz1, Hz2.
  destruct (clipAll_keeps x0 y0 z0 x1 y1 z1
              (frustumPlanes yMin yMax baseHalfX baseHalfZ topHalfX topHalfZ) 0 1 t
              H0 H1 H0 H1) as [t0 [t1 [Hclip [Hlow Hhigh]]]].
  { unfold frustumPlanes.
    set (slopeX := ((topHalfX - baseHalfX) / (yMax - yMin))%Q) in *.
    set (slopeZ := ((topHalfZ - baseHalfZ) / (yMax - yMin))%Q) in *.
    intros p [<- | [<- | [<- | [<- | [<- | [<- | []]]]]]];
      unfold planeValue, rhs; cbn [normalX normalY normalZ offset]; lra. }
  rewrite Hclip. apply andb_true_iff. split; apply Qle_bool_iff; lra.
Qed.

(** X20: a reported hit is near.  If [segmentIntersectsFrustum] returns
    true, the frustum has a positive height and positive half extents,
    and some point of the segment lies in the frustum enlarged on every
    side by [1e-6 + 1e-10], the two tolerances of the clipping (in exact
    arithmetic). *)
Theorem reported_hit_is_near
  (x0 y0 z0 x1 y1 z1 yMin yMax baseHalfX baseHalfZ topHalfX topHalfZ : Q) :
  segmentIntersectsFrustum x0 y0 z0 x1 y1 z1 yMin yMax
                           baseHalfX baseHalfZ topHalfX topHalfZ = true ->
  ((yMin < yMax)%Q
   /\ (0 < baseHalfX)%Q /\ (0 < baseHalfZ)%Q /\ (0 < topHalfX)%Q /\ (0 < topHalfZ)%Q)
  /\ exists t,
       (0 <= t)%Q /\ (t <= 1)%Q
       /\ insideFrustum (EPS + parallelBound) yMin yMax baseHalfX baseHalfZ topHalfX topHalfZ
                        (pointAt x0 x1 t) (pointAt y0 y1 t) (pointAt z0 z1 t).
Proof.
  unfold segmentIntersectsFrustum.
  destruct (Qle_bool yMax yMin) eqn:Hheight; [discriminate |].
  apply Qle_bool_gt in Hheight.
  destruct (Qle_bool baseHalfX 0) eqn:HbX; [discriminate |].
  destruct (Qle_bool baseHalfZ 0) eqn:HbZ; [discriminate |].
  destruct (Qle_bool topHalfX 0) eqn:HtX; [discriminate |].
  destruct (Qle_bool topHalfZ 0) eqn:HtZ; [discriminate |].
  apply Qle_bool_gt in HbX, HbZ, HtX, HtZ. cbn [orb].
  destruct (clipAll _ _ _ _ _ _ _ _) as [[t0 t1] |] eqn:Hclip; [| discriminate].
  intros _. split; [now repeat split |].
  assert (Hunit : (0 <= 0)%Q /\ (0 <= 1)%Q /\ (1 <= 1)%Q) by (repeat split; lra).
  destruct Hunit as [U0 [U1 U2]].
  destruct (clipAll_cuts x0 y0 z0 x1 y1 z1 _ 0 1 t0 t1 U0 U1 U2 Hclip)
    as [I0 [I1 [I2 [_ [_ Hunder]]]]].
  exists t0. split; [exact I0 |]. split; [lra |].
  assert (Hplane : forall p,
             In p (frustumPlanes yMin yMax baseHalfX baseHalfZ topHalfX topHalfZ) ->
             (planeValue p (pointAt x0 x1 t0) (pointAt y0 y1 t0) (pointAt z0 z1 t0)
              <= offset p + parallelBound)%Q).
  { intros p Hp. apply (Hunder p t0 Hp); lra. }
  unfold insideFrustum.
  rewrite (halfWidthAt_slope yMin yMax baseHalfX topHalfX _ Hheight).
  rewrite (halfWidthAt_slope yMin yMax baseHalfZ topHalfZ _ Hheight).
  unfold frustumPlanes in Hplane.
  set (slopeX := ((topHalfX - baseHalfX) / (yMax - yMin))%Q) in *.
  set (slopeZ := ((topHalfZ - baseHalfZ) / (yMax - yMin))%Q) in *.
  pose proof (Hplane _ (or_introl eq_refl)) as P1.
  pose proof (Hplane _ (or_intror (or_introl eq_refl))) as P2.
  pose proof (Hplane _ (or_intror (or_intror (or_introl eq_refl)))) as P3.
  pose proof (Hplane _ (or_intror (or_intror (or_intror (or_introl eq_refl))))) as P4.
  pose proof (Hplane _ (or_intror (or_intror (or_intror (or_intror (or_introl eq_refl))))))
    as P5.
  pose proof (Hplane _ (or_intror (or_intror (or_intror (or_intror
                          (or_intror (or_introl eq_refl))))))) as P6.
  unfold planeValue, rhs in P1, P2, P3, P4, P5, P6.
  cbn [normalX normalY normalZ offset] in P1, P2, P3, P4, P5, P6.
  repeat split; lra.
Qed.

End FrustumFacts.

Lemma frustum_hit_is_reported_witness :
  segmentIntersectsFrustum 0 (-1) 0 0 2 0 0 1 1 1 (1 # 2) (1 # 2) = true.
Proof.
  apply (frustum_hit_is_reported 0 (-1) 0 0 2 0 0 1 1 1 (1 # 2) (1 # 2) (1 # 2));
    try reflexivity; try (vm_compute; discriminate).
  repeat split; vm_compute; discriminate.
Defined.

Lemma reported_hit_is_near_witness :
  ((0 < 1)%Q /\ (0 < 1)%Q /\ (0 < 1)%Q /\ (0 < 1 # 2)%Q /\ (0 < 1 # 2)%Q)
  /\ exists t,
       (0 <= t)%Q /\ (t <= 1)%Q
       /\ insideFrustum (EPS + parallelBound) 0 1 1 1 (1 # 2) (1 # 2)
                        (pointAt 0 0 t) (pointAt (-1) 2 t) (pointAt 0 0 t).
Proof.
  apply (reported_hit_is_near 0 (-1) 0 0 2 0 0 1 1 1 (1 # 2) (1 # 2)).
  vm_compute. reflexivity.
Defined.
(** ** Per-instance geometry: the extents are nested *)

Section GeometryFacts.

Lemma Math_max_spec (a b : Q) :
  (a <= Math_max a b)%Q /\ (b <= Math_max a b)%Q
  /\ (Math_max a b = a \/ Math_max a b = b).
Proof.
  unfold Math_max. destruct (Qle_bool a b) eqn:Hle.
  - apply Qle_bool_iff in Hle. repeat split; try lra. now right.
  - apply Qle_bool_gt in Hle. repeat split; try lra. now left.
Qed.

Lemma Math_min_spec (a b : Q) :
  (Math_min a b <= a)%Q /\ (Math_min a b <= b)%Q
  /\ (Math_min a b = a \/ Math_min a b = b).
Proof.
  unfold Math_min. destruct (Qle_bool a b) eqn:Hle.
  - apply Qle_bool_iff in Hle. repeat split; try lra. now left.
  - apply Qle_bool_gt in Hle. repeat split; try lra. now right.
Qed.

Lemma clamp01_range (value : Q) : (0 <= clamp01 value)%Q /\ (clamp01 value <= 1)%Q.
Proof.
  unfold clamp01.
  destruct (Math_min_spec 1 (Math_max 0 value)) as [H1 [H2 He]].
  destruct (Math_max_spec 0 value) as [H3 _]. split; [| exact H1].
  destruct He as [He | He]; rewrite He; [lra | exact H3].
Qed.

Lemma Math_max_le (a b c : Q) : (a <= c)%Q -> (b <= c)%Q -> (Math_max a b <= c)%Q.
Proof. intros Ha Hb. unfold Math_max. destruct (Qle_bool a b); assumption. Qed.

Lemma Math_min_ge (a b c : Q) : (c <= a)%Q -> (c <= b)%Q -> (c <= Math_min a b)%Q.
Proof. intros Ha Hb. unfold Math_min. destruct (Qle_bool a b); assumption. Qed.

(** [mixValue] with a parameter in [0, 1] stays between its ends. *)
Lemma mixValue_between (a b t lower upper : Q) :
  (0 <= t)%Q -> (t <= 1)%Q ->
  (lower <= a)%Q -> (lower <= b)%Q -> (a <= upper)%Q -> (b <= upper)%Q ->
  (lower <= mixValue a b t)%Q /\ (mixValue a b t <= upper)%Q.
Proof.
  intros H0 H1 Hla Hlb Hau Hbu. unfold mixValue.
  assert (Heq : (a + (b - a) * t == (1 - t) * a + t * b)%Q) by ring.
  rewrite Heq.
  assert (0 <= (1 - t) * (a - lower))%Q by (apply Qmult_le_0_compat; lra).
  assert (0 <= t * (b - lower))%Q by (apply Qmult_le_0_compat; lra).
  assert (0 <= (1 - t) * (upper - a))%Q by (apply Qmult_le_0_compat; lra).
  assert (0 <= t * (upper - b))%Q by (apply Qmult_le_0_compat; lra).
  split; lra.
Qed.

Lemma taper_range (lowest highest t : Q) :
  let taper := mixValue (clamp01 lowest) (clamp01 highest) (clamp01 t) in
  (0 <= Math_max 0 (1 - taper))%Q /\ (Math_max 0 (1 - taper) <= 1)%Q.
Proof.
  cbv zeta.
  destruct (clamp01_range lowest) as [L0 L1]. destruct (clamp01_range highest) as [U0 U1].
  destruct (clamp01_range t) as [T0 T1].
  destruct (mixValue_between (clamp01 lowest) (clamp01 highest) (clamp01 t) 0 1
              T0 T1 L0 U0 L1 U1) as [M0 M1].
  destruct (Math_max_spec 0 (1 - mixValue (clamp01 lowest) (clamp01 highest) (clamp01 t)))
    as [H0 [_ [-> | ->]]]; split; lra.
Qed.

Lemma scaled_within (size factor : Q) :
  (0 <= size)%Q -> (0 <= factor)%Q -> (factor <= 1)%Q ->
  (0 <= size * factor)%Q /\ (size * factor <= size)%Q.
Proof.
  intros Hs H0 H1.
  assert (0 <= size * factor)%Q by (apply Qmult_le_0_compat; assumption).
  assert (0 <= size * (1 - factor))%Q by (apply Qmult_le_0_compat; lra).
  split; lra.
Qed.

Variable Math_pow : Q -> Q -> Q.
Variable s : BuildingSettings.
Variables a0 a1 a2 a3 b0 b1 b2 b3 c0 c1 : Q.

(** X21: the cells derived for an instance are nested, whatever the
    packed parameters and the settings: the half extents of the base,
    the pedestal base and the tower base are at least the float32
    number nearest to 0.005, which is positive; the pedestal base is
    square; each top lies between zero and its base; and the platform
    height is not negative. *)
Theorem derived_extents_are_nested :
  let geometry := deriveInstance Math_pow s a0 a1 a2 a3 b0 b1 b2 b3 c0 c1 in
  (0 < fround (1 # 200))%Q
  /\ ((fround (1 # 200) <= instanceBaseHalf geometry)%Q
      /\ (0 <= instanceBasePlatformHeight geometry)%Q)
  /\ ((fround (1 # 200) <= instancePedestalBaseHalfX geometry)%Q
      /\ instancePedestalBaseHalfZ geometry = instancePedestalBaseHalfX geometry
      /\ (0 <= instancePedestalTopHalfX geometry)%Q
      /\ (instancePedestalTopHalfX geometry <= instancePedestalBaseHalfX geometry)%Q
      /\ (0 <= instancePedestalTopHalfZ geometry)%Q
      /\ (instancePedestalTopHalfZ geometry <= instancePedestalBaseHalfZ geometry)%Q)
  /\ ((fround (1 # 200) <= instanceTowerBaseHalfX geometry)%Q
      /\ (fround (1 # 200) <= instanceTowerBaseHalfZ geometry)%Q
      /\ (0 <= instanceTowerTopHalfX geometry)%Q
      /\ (instanceTowerTopHalfX geometry <= instanceTowerBaseHalfX geometry)%Q
      /\ (0 <= instanceTowerTopHalfZ geometry)%Q
      /\ (instanceTowerTopHalfZ geometry <= instanceTowerBaseHalfZ geometry)%Q).
Proof.
  intros geometry. subst geometry.
  unfold deriveInstance. cbv zeta. cbn [instanceBaseHalf instanceBasePlatformHeight
    instancePedestalBaseHalfX instancePedestalBaseHalfZ instancePedestalTopHalfX
    instancePedestalTopHalfZ instanceTowerBaseHalfX instanceTowerBaseHalfZ
    instanceTowerTopHalfX instanceTowerTopHalfZ].
  set (baseSize := Math_max (1 # 100) a0).
  set (pedestalPadding := mixValue (minPedestalPaddingUnits s) (maxPedestalPaddingUnits s)
                                   (clamp01 c1)).
  set (pedestalBase := Math_max (1 # 100) (baseSize - pedestalPadding * 2)).
  set (shrinkPX := Math_max 0 (1 - mixValue (clamp01 (minPedestalTaperX s))
                                          (clamp01 (maxPedestalTaperX s)) (clamp01 b0))).
  set (shrinkPZ := Math_max 0 (1 - mixValue (clamp01 (minPedestalTaperZ s))
                                          (clamp01 (maxPedestalTaperZ s)) (clamp01 b1))).
  set (shrinkTX := Math_max 0 (1 - mixValue (clamp01 (minTaperX s))
                                          (clamp01 (maxTaperX s)) (clamp01 b2))).
  set (shrinkTZ := Math_max 0 (1 - mixValue (clamp01 (minTaperZ s))
                                          (clamp01 (maxTaperZ s)) (clamp01 b3))).
  set (pedestalTopX := (pedestalBase * shrinkPX)%Q).
  set (pedestalTopZ := (pedestalBase * shrinkPZ)%Q).
  set (paddingLimit := (Math_min pedestalTopX pedestalTopZ * (49 # 100))%Q).
  set (paddingCap := Math_max 0 (Math_min paddingLimit (paddingLimitCap s))).
  set (padding := mixValue (Math_min (minPaddingUnits s) paddingCap)
                           (Math_min (maxPaddingUnits s) paddingCap) (clamp01 a1)).
  set (towerBaseX := Math_max (1 # 100) (pedestalTopX - padding * 2)).
  set (towerBaseZ := Math_max (1 # 100) (pedestalTopZ - padding * 2)).
  destruct (Math_max_spec (1 # 100) a0) as [Hbase _]. fold baseSize in Hbase.
  destruct (Math_max_spec 0 c0) as [Hplatform _].
  destruct (Math_max_spec (1 # 100) (baseSize - pedestalPadding * 2)) as [Hpedestal _].
  fold pedestalBase in Hpedestal.
  pose proof (taper_range (minPedestalTaperX s) (maxPedestalTaperX s) b0) as HPX.
  pose proof (taper_range (minPedestalTaperZ s) (maxPedestalTaperZ s) b1) as HPZ.
  pose proof (taper_range (minTaperX s) (maxTaperX s) b2) as HTX.
  pose proof (taper_range (minTaperZ s) (maxTaperZ s) b3) as HTZ.
  cbv zeta in HPX, HPZ, HTX, HTZ.
  fold shrinkPX in HPX. fold shrinkPZ in HPZ. fold shrinkTX in HTX. fold shrinkTZ in HTZ.
  destruct (scaled_within pedestalBase shrinkPX) as [HtopX0 HtopX1]; try lra.
  destruct (scaled_within pedestalBase shrinkPZ) as [HtopZ0 HtopZ1]; try lra.
  fold pedestalTopX in HtopX0, HtopX1. fold pedestalTopZ in HtopZ0, HtopZ1.
  destruct (Math_max_spec (1 # 100) (pedestalTopX - padding * 2)) as [HtowerX [HroomX _]].
  destruct (Math_max_spec (1 # 100) (pedestalTopZ - padding * 2)) as [HtowerZ [HroomZ _]].
  fold towerBaseX in HtowerX, HroomX. fold towerBaseZ in HtowerZ, HroomZ.
  destruct (scaled_within towerBaseX shrinkTX) as [HtX0 HtX1]; try lra.
  destruct (scaled_within towerBaseZ shrinkTZ) as [HtZ0 HtZ1]; try lra.
  split; [now destruct fround_half_hundredth as [_ [Hpos _]] |].
  repeat split; try reflexivity;
    try (apply fround_le; lra); try (apply fround_nonneg; lra).
Qed.

(** A bound by the larger of 0.005 and a second number survives the
    storing of both sides: the float32 number nearest to 0.005 lies
    below it. *)
Lemma fround_below_floor (x y : Q) :
  (x <= Math_max (1 # 200) y)%Q -> (fround x <= Math_max (1 # 200) (fround y))%Q.
Proof.
  intros Hle. destruct fround_half_hundredth as [_ [_ Hfloor]].
  destruct (Math_max_spec (1 # 200) (fround y)) as [H1 [H2 _]].
  destruct (Math_max_spec (1 # 200) y) as [_ [_ [He | He]]]; rewrite He in Hle;
    apply fround_le in Hle; lra.
Qed.

(** X22: with padding settings that are not negative, no part is wider
    than the part it stands on, the minimum width of 0.01 apart: the
    pedestal base is at most as wide as the instance base, and the tower
    base at most as wide as the pedestal top or 0.01. *)
Theorem parts_do_not_overhang :
  (0 <= minPedestalPaddingUnits s)%Q -> (0 <= maxPedestalPaddingUnits s)%Q ->
  (0 <= minPaddingUnits s)%Q -> (0 <= maxPaddingUnits s)%Q ->
  let geometry := deriveInstance Math_pow s a0 a1 a2 a3 b0 b1 b2 b3 c0 c1 in
  (instancePedestalBaseHalfX geometry <= instanceBaseHalf geometry)%Q
  /\ (instanceTowerBaseHalfX geometry
      <= Math_max (1 # 200) (instancePedestalTopHalfX geometry))%Q
  /\ (instanceTowerBaseHalfZ geometry
      <= Math_max (1 # 200) (instancePedestalTopHalfZ geometry))%Q.
Proof.
  intros HminP HmaxP Hmin Hmax geometry. subst geometry.
  unfold deriveInstance. cbv zeta. cbn [instanceBaseHalf instancePedestalBaseHalfX
    instancePedestalTopHalfX instancePedestalTopHalfZ instanceTowerBaseHalfX
    instanceTowerBaseHalfZ].
  set (baseSize := Math_max (1 # 100) a0).
  set (pedestalPadding := mixValue (minPedestalPaddingUnits s) (maxPedestalPaddingUnits s)
                                   (clamp01 c1)).
  set (pedestalBase := Math_max (1 # 100) (baseSize - pedestalPadding * 2)).
  set (pedestalTopX :=
         (pedestalBase * Math_max 0 (1 - mixValue (clamp01 (minPedestalTaperX s))
                                           (clamp01 (maxPedestalTaperX s)) (clamp01 b0)))%Q).
  set (pedestalTopZ :=
         (pedestalBase * Math_max 0 (1 - mixValue (clamp01 (minPedestalTaperZ s))
                                           (clamp01 (maxPedestalTaperZ s)) (clamp01 b1)))%Q).
  set (paddingCap := Math_max 0 (Math_min (Math_min pedestalTopX pedestalTopZ * (49 # 100))
                                          (paddingLimitCap s))).
  set (padding := mixValue (Math_min (minPaddingUnits s) paddingCap)
                           (Math_min (maxPaddingUnits s) paddingCap) (clamp01 a1)).
  destruct (clamp01_range c1) as [C0 C1]. destruct (clamp01_range a1) as [T0 T1].
  assert (HpadP : (0 <= pedestalPadding)%Q).
  { destruct (mixValue_between (minPedestalPaddingUnits s) (maxPedestalPaddingUnits s)
                (clamp01 c1) 0
                (Math_max (minPedestalPaddingUnits s) (maxPedestalPaddingUnits s))
                C0 C1 HminP HmaxP) as [Hlow _]; try exact Hlow;
      destruct (Math_max_spec (minPedestalPaddingUnits s) (maxPedestalPaddingUnits s))
        as [Ha [Hb _]]; assumption. }
  assert (Hcap0 : (0 <= paddingCap)%Q).
  { unfold paddingCap. apply Math_max_spec. }
  assert (Hpad : (0 <= padding)%Q).
  { assert (Hlow : (0 <= Math_min (minPaddingUnits s) paddingCap)%Q)
      by (destruct (Math_min_spec (minPaddingUnits s) paddingCap) as [_ [_ [-> | ->]]];
          assumption).
    assert (Hup : (0 <= Math_min (maxPaddingUnits s) paddingCap)%Q)
      by (destruct (Math_min_spec (maxPaddingUnits s) paddingCap) as [_ [_ [-> | ->]]];
          assumption).
    destruct (mixValue_between (Math_min (minPaddingUnits s) paddingCap)
                (Math_min (maxPaddingUnits s) paddingCap) (clamp01 a1) 0
                (Math_max (Math_min (minPaddingUnits s) paddingCap)
                          (Math_min (maxPaddingUnits s) paddingCap))
                T0 T1 Hlow Hup) as [Hmix _]; try exact Hmix;
      destruct (Math_max_spec (Math_min (minPaddingUnits s) paddingCap)
                              (Math_min (maxPaddingUnits s) paddingCap))
        as [Ha [Hb _]]; assumption. }
  destruct (Math_max_spec (1 # 100) a0) as [Hbase _]. fold baseSize in Hbase.
  split; [| split].
  - apply fround_le. unfold pedestalBase.
    destruct (Math_max_spec (1 # 100) (baseSize - pedestalPadding * 2))
      as [_ [_ [-> | ->]]]; lra.
  - apply fround_below_floor.
    destruct (Math_max_spec (1 # 200) (pedestalTopX * (1 # 2))) as [Hfloor [Htop _]].
    destruct (Math_max_spec (1 # 100) (pedestalTopX - padding * 2))
      as [_ [_ [-> | ->]]]; lra.
  - apply fround_below_floor.
    destruct (Math_max_spec (1 # 200) (pedestalTopZ * (1 # 2))) as [Hfloor [Htop _]].
    destruct (Math_max_spec (1 # 100) (pedestalTopZ - padding * 2))
      as [_ [_ [-> | ->]]]; lra.
Qed.

End GeometryFacts.

Lemma parts_do_not_overhang_witness :
  (instancePedestalBaseHalfX sampleGeometry <= instanceBaseHalf sampleGeometry)%Q
  /\ (instanceTowerBaseHalfX sampleGeometry
      <= Math_max (1 # 200) (instancePedestalTopHalfX sampleGeometry))%Q
  /\ (instanceTowerBaseHalfZ sampleGeometry
      <= Math_max (1 # 200) (instancePedestalTopHalfZ sampleGeometry))%Q.
Proof.
  apply (parts_do_not_overhang firstPower unitSettings 4 (1 # 2) (1 # 2) (1 # 2)
           (1 # 2) (1 # 2) (1 # 2) (1 # 2) 0 (1 # 2));
    vm_compute; discriminate.
Defined.

Lemma aligned_paths_follow_graph_witness :
  @pathsFollowGraph openCity twoPathsMessage 1 1 0.
Proof.
  apply (@aligned_paths_follow_graph openCity twoPathsMessage 1 1 0%nat).
  - unfold regularGrid. simpl. lia.
  - unfold alignedGrid. simpl. lia.
Defined.
(** ** The search heap is a priority queue *)

Section HeapFacts.

Lemma replace_perm {A : Type} (l : list A) (j : nat) (a y : A) :
  l !! j = Some y -> Permutation (a :: l) (y :: <[j := a]> l).
Proof.
  revert j. induction l as [| b l IH]; intros j Hj; [discriminate |].
  destruct j as [| j]; simpl in *.
  - inversion Hj. subst b. apply perm_swap.
  - etransitivity; [apply perm_swap |]. etransitivity; [| apply perm_swap].
    apply perm_skip. now apply IH.
Qed.

(** Exchanging two cells of a list. *)
Lemma swap_perm {A : Type} (l : list A) (i j : nat) (x y : A) :
  l !! i = Some x -> l !! j = Some y ->
  Permutation (<[j := x]> (<[i := y]> l)) l.
Proof.
  revert i j. induction l as [| a l IH]; intros i j Hi Hj; [discriminate |].
  destruct i as [| i], j as [| j]; simpl in *.
  - inversion Hi. inversion Hj. subst. reflexivity.
  - inversion Hi. subst a. symmetry. now apply replace_perm.
  - inversion Hj. subst a. symmetry. now apply replace_perm.
  - apply perm_skip. now apply IH.
Qed.

Lemma zip_insert {A B : Type} (l : list A) (k : list B) (n : nat) (a : A) (b : B) :
  zip (<[n := a]> l) (<[n := b]> k) = <[n := (a, b)]> (zip l k).
Proof.
  revert k n. induction l as [| x l IH]; intros k n; [reflexivity |].
  destruct k as [| y k]; [destruct n; reflexivity |].
  destruct n as [| n]; simpl; [reflexivity |]. now rewrite IH.
Qed.

Lemma zip_seti (indices : list Z) (scores : list num) (i : Z) (a : Z) (b : num) :
  zip (seti indices i a) (seti scores i b) = seti (zip indices scores) i (a, b).
Proof. unfold seti. destruct (i <? 0); [reflexivity | apply zip_insert]. Qed.

Lemma geti_zip (indices : list Z) (scores : list num) (i : Z) :
  length indices = length scores -> 0 <= i < lengthZ scores ->
  geti (zip indices scores) i = Some (getInt indices i, getNum scores i).
Proof.
  intros Hlen Hi. unfold getInt, getNum.
  destruct (geti_in_range indices i) as [a Ha]; [unfold lengthZ in *; lia |].
  destruct (geti_in_range scores i) as [b Hb]; [exact Hi |].
  rewrite Ha, Hb. simpl. unfold geti in *. destruct (i <? 0); [discriminate |].
  apply lookup_zip_with_Some. exists a, b. now repeat split.
Qed.

Lemma geti_take {A : Type} (l : list A) (m i : Z) :
  0 <= i < m -> geti (take (Z.to_nat m) l) i = geti l i.
Proof.
  intros Hi. unfold geti. destruct (i <? 0); [reflexivity |].
  apply lookup_take_lt. lia.
Qed.

(** Exchanging two cells inside the first [m] cells. *)
Lemma swap_take_perm {A : Type} (l : list A) (m i j : Z) (x y : A) :
  0 <= i < m -> 0 <= j < m -> geti l i = Some x -> geti l j = Some y ->
  Permutation (take (Z.to_nat m) (seti (seti l i y) j x)) (take (Z.to_nat m) l).
Proof.
  intros Hi Hj Hx Hy. unfold seti, geti in *.
  destruct (i <? 0) eqn:Hni; [lia |]. destruct (j <? 0) eqn:Hnj; [lia |].
  rewrite !take_insert_lt by lia.
  apply swap_perm; rewrite lookup_take_lt by lia; assumption.
Qed.

Lemma heapParent_range (j : Z) : 0 < j -> 0 <= heapParent j < j.
Proof.
  intros Hj. unfold heapParent. rewrite Z.shiftr_div_pow2 by lia. change (2 ^ 1) with 2.
  pose proof (Z.div_mod (j - 1) 2). pose proof (Z.mod_pos_bound (j - 1) 2). lia.
Qed.

Lemma heapParent_child (i j : Z) :
  0 < j -> (heapParent j = i <-> j = 2 * i + 1 \/ j = 2 * i + 2).
Proof.
  intros Hj. unfold heapParent. rewrite Z.shiftr_div_pow2 by lia. change (2 ^ 1) with 2.
  pose proof (Z.div_mod (j - 1) 2). pose proof (Z.mod_pos_bound (j - 1) 2). lia.
Qed.

Lemma num_le_trans (a b c : num) :
  num_le a b = true -> num_le b c = true -> num_le a c = true.
Proof.
  destruct a as [x | | |], b as [y | | |], c as [z | | |]; simpl; try discriminate; trivial.
  rewrite !Qle_bool_iff. intros Hxy Hyz. lra.
Qed.

Lemma num_le_total (a b : num) :
  a <> NaN -> b <> NaN -> num_le a b = false -> num_le b a = true.
Proof.
  destruct a as [x | | |], b as [y | | |]; simpl; try congruence.
  intros _ _ Hle. apply Qle_bool_gt in Hle. apply Qle_bool_iff. lra.
Qed.

Lemma num_lt_le (a b : num) : num_lt a b = true -> num_le a b = true.
Proof.
  destruct a as [x | | |], b as [y | | |]; simpl; try discriminate; trivial.
  intros Hlt. apply Qltb_lt in Hlt. apply Qle_bool_iff. lra.
Qed.

Lemma num_lt_total (a b : num) :
  a <> NaN -> b <> NaN -> num_lt a b = false -> num_le b a = true.
Proof.
  destruct a as [x | | |], b as [y | | |]; simpl; try congruence.
  intros _ _ Hlt. apply Qltb_ge in Hlt. now apply Qle_bool_iff.
Qed.

Lemma getNum_seti_eq (scores : list num) (i : Z) (v : num) :
  0 <= i < lengthZ scores -> getNum (seti scores i v) i = v.
Proof. intros Hi. unfold getNum. now rewrite geti_seti_eq. Qed.

Lemma getNum_seti_ne (scores : list num) (i j : Z) (v : num) :
  i <> j -> getNum (seti scores i v) j = getNum scores j.
Proof. intros Hne. unfold getNum. now rewrite geti_seti_ne. Qed.


Section SiftUp.
Variable m : Z.
Variable idx : Z.
Variable score : num.
Hypothesis Hscore : score <> NaN.

(** The loop of [heapPush]: the entry being inserted sits at position
    [i], its score stored in the cell; the heap order holds everywhere
    except between [i] and its parent, and the children of [i] are not
    below the parent of [i].  The loop compares the cell of the parent
    with the score as passed: the cells being float32 numbers, the
    stored score is on the same side. *)
Lemma siftUp_heap (fuel : nat) (indices : list Z) (scores : list num) (i : Z) :
  length indices = length scores -> 0 <= i < m -> m <= lengthZ scores ->
  (Z.to_nat i <= fuel)%nat ->
  getInt indices i = idx -> getNum scores i = toFloat32 score ->
  (forall j, 0 <= j < m -> getNum scores j <> NaN) ->
  (forall j, 0 <= j < m -> isFloat32 (getNum scores j)) ->
  (forall j, 0 < j < m -> j <> i ->
     num_le (getNum scores (heapParent j)) (getNum scores j) = true) ->
  (0 < i -> forall j, 0 < j < m -> heapParent j = i ->
     num_le (getNum scores (heapParent i)) (getNum scores j) = true) ->
  let r := siftUp fuel indices scores i idx score in
  length (fst r) = length (snd r) /\ length (snd r) = length scores
  /\ heapOrdered (snd r) m
  /\ Permutation (take (Z.to_nat m) (zip (fst r) (snd r)))
                 (take (Z.to_nat m) (zip indices scores)).
Proof.
  assert (Hstored : toFloat32 score <> NaN)
    by (intros Hnan; apply Hscore; now apply toFloat32_nan).
  revert indices scores i.
  induction fuel as [| fuel IH];
    intros indices scores i Hlen Hi Hm Hfuel Hidx Hsc Hfinite Hfloat Hothers Hchildren;
    cbn [siftUp]; cbv zeta.
  - assert (i = 0) by lia. subst i. cbn [fst snd]. repeat split; try reflexivity; trivial.
    intros j Hj. apply Hothers; lia.
  - destruct (i <=? 0) eqn:Hroot.
    + apply Z.leb_le in Hroot. assert (i = 0) by lia. subst i. cbn [fst snd].
      repeat split; try reflexivity; trivial. intros j Hj. apply Hothers; lia.
    + apply Z.leb_gt in Hroot. fold (heapParent i).
      pose proof (heapParent_range i Hroot) as Hp. set (p := heapParent i) in *.
      assert (Hcell : toFloat32 (getNum scores p) = getNum scores p)
        by (apply Hfloat; lia).
      destruct (num_le (getNum scores p) score) eqn:Hstop.
      * cbn [fst snd]. repeat split; try reflexivity; trivial.
        intros j Hj. destruct (Z.eq_dec j i) as [-> | Hne]; [| now apply Hothers].
        fold p. rewrite Hsc, <- Hcell. now apply toFloat32_le.
      * assert (Hup : num_le (toFloat32 score) (getNum scores p) = true).
        { rewrite <- Hcell. apply toFloat32_le.
          apply num_le_total; [apply Hfinite; lia | exact Hscore | exact Hstop]. }
        set (indices2 := seti (seti indices i (getInt indices p)) p idx).
        set (scores2 := seti (seti scores i (getNum scores p)) p (toFloat32 score)).
        assert (Hat : forall j, getNum scores2 j
                                = if j =? p then toFloat32 score
                                  else if j =? i then getNum scores p
                                  else getNum scores j).
        { intros j. unfold scores2. destruct (j =? p) eqn:Hjp.
          - apply Z.eqb_eq in Hjp. subst j. apply getNum_seti_eq.
            rewrite lengthZ_seti. lia.
          - apply Z.eqb_neq in Hjp. rewrite getNum_seti_ne by congruence.
            destruct (j =? i) eqn:Hji.
            + apply Z.eqb_eq in Hji. subst j. apply getNum_seti_eq. lia.
            + apply Z.eqb_neq in Hji. apply getNum_seti_ne. congruence. }
        assert (Hlen2 : length indices2 = length scores2).
        { unfold indices2, scores2. now rewrite !length_seti. }
        assert (Hlens : length scores2 = length scores).
        { unfold scores2. now rewrite !length_seti. }
        destruct (IH indices2 scores2 p Hlen2) as [R1 [R2 [R3 R4]]]; try lia.
        -- unfold lengthZ in *. rewrite Hlens. lia.
        -- unfold indices2, getInt. rewrite geti_seti_eq; [reflexivity |].
           rewrite lengthZ_seti. unfold lengthZ in *. lia.
        -- rewrite Hat. now rewrite Z.eqb_refl.
        -- intros j Hj. rewrite Hat. destruct (j =? p); [exact Hstored |].
           destruct (j =? i); apply Hfinite; lia.
        -- intros j Hj. rewrite Hat. destruct (j =? p); [apply toFloat32_idem |].
           destruct (j =? i); apply Hfloat; lia.
        -- intros j Hj Hjp. pose proof (heapParent_range j (proj1 Hj)) as Hq.
           rewrite !Hat. replace (j =? p) with false by (symmetry; now apply Z.eqb_neq).
           destruct (Z.eq_dec j i) as [-> | Hji].
           ++ fold p. now rewrite !Z.eqb_refl.
           ++ replace (j =? i) with false by (symmetry; now apply Z.eqb_neq).
              destruct (Z.eq_dec (heapParent j) p) as [Hpj | Hpj].
              ** rewrite Hpj, Z.eqb_refl. apply (num_le_trans _ (getNum scores p));
                   [exact Hup |]. rewrite <- Hpj. now apply Hothers.
              ** replace (heapParent j =? p) with false by (symmetry; now apply Z.eqb_neq).
                 destruct (Z.eq_dec (heapParent j) i) as [Hij | Hij].
                 --- rewrite Hij, Z.eqb_refl. now apply Hchildren.
                 --- replace (heapParent j =? i) with false
                       by (symmetry; now apply Z.eqb_neq).
                     now apply Hothers.
        -- intros Hppos j Hj Hjp. pose proof (heapParent_range p Hppos) as Hpp.
           rewrite !Hat.
           replace (heapParent p =? p) with false by (symmetry; apply Z.eqb_neq; lia).
           replace (heapParent p =? i) with false by (symmetry; apply Z.eqb_neq; lia).
           pose proof (heapParent_range j (proj1 Hj)) as Hq.
           replace (j =? p) with false by (symmetry; apply Z.eqb_neq; lia).
           assert (Hgrand : num_le (getNum scores (heapParent p)) (getNum scores p) = true)
             by (apply Hothers; lia).
           destruct (j =? i) eqn:Hji; [exact Hgrand |]. apply Z.eqb_neq in Hji.
           apply (num_le_trans _ (getNum scores p)); [exact Hgrand |].
           rewrite <- Hjp. now apply Hothers.
        -- split; [exact R1 |]. split; [congruence |]. split; [exact R3 |].
           etransitivity; [exact R4 |]. unfold indices2, scores2. rewrite !zip_seti.
           apply swap_take_perm; try lia.
           ++ rewrite geti_zip by (trivial; lia). now rewrite Hidx, Hsc.
           ++ apply geti_zip; [exact Hlen | lia].
Qed.

End SiftUp.

Section SiftDown.
Variable m : Z.
Variable lastIdx : Z.
Variable lastScore : num.
Hypothesis Hlast : lastScore <> NaN.

(** The loop of [heapPop]: position [i] is a hole that the last entry is
    to fill; the heap order holds away from the hole, the parent of the
    hole is not above the last entry, nor above the children of the
    hole. *)
Lemma siftDown_heap (fuel : nat) (indices : list Z) (scores : list num) (i : Z) :
  length indices = length scores -> 0 <= i < m -> m <= lengthZ scores ->
  (Z.to_nat (m - i) <= fuel)%nat ->
  (forall j, 0 <= j < m -> getNum scores j <> NaN) ->
  (forall j, 0 < j < m -> j <> i -> heapParent j <> i ->
     num_le (getNum scores (heapParent j)) (getNum scores j) = true) ->
  (0 < i -> num_le (getNum scores (heapParent i)) lastScore = true) ->
  (0 < i -> forall j, 0 < j < m -> heapParent j = i ->
     num_le (getNum scores (heapParent i)) (getNum scores j) = true) ->
  let r := siftDown fuel indices scores i m lastScore in
  let indices' := seti (fst (fst r)) (snd r) lastIdx in
  let scores' := seti (snd (fst r)) (snd r) lastScore in
  length indices' = length scores' /\ length scores' = length scores
  /\ heapOrdered scores' m
  /\ Permutation (take (Z.to_nat m) (zip indices' scores'))
                 (take (Z.to_nat m) (seti (zip indices scores) i (lastIdx, lastScore))).
Proof.
  revert indices scores i.
  induction fuel as [| fuel IH];
    intros indices scores i Hlen Hi Hm Hfuel Hfinite Hothers Hparent Hgrand;
    [lia |].
  cbn [siftDown]; cbv zeta.
  set (left := i * 2 + 1). set (right := left + 1).
  assert (Hplace : forall (stop : forall j, 0 < j < m -> heapParent j = i ->
                             num_le lastScore (getNum scores j) = true),
             length (seti indices i lastIdx) = length (seti scores i lastScore)
             /\ length (seti scores i lastScore) = length scores
             /\ heapOrdered (seti scores i lastScore) m
             /\ Permutation
                  (take (Z.to_nat m) (zip (seti indices i lastIdx) (seti scores i lastScore)))
                  (take (Z.to_nat m) (seti (zip indices scores) i (lastIdx, lastScore)))).
  { intros stop. rewrite !length_seti. split; [exact Hlen |]. split; [reflexivity |].
    split; [| now rewrite zip_seti].
    intros j Hj. pose proof (heapParent_range j (proj1 Hj)) as Hq.
    destruct (Z.eq_dec j i) as [-> | Hji].
    - rewrite getNum_seti_eq by lia. rewrite getNum_seti_ne by lia. now apply Hparent.
    - rewrite (getNum_seti_ne _ i j) by congruence.
      destruct (Z.eq_dec (heapParent j) i) as [Hpj | Hpj].
      + rewrite Hpj. rewrite getNum_seti_eq by lia. now apply stop.
      + rewrite getNum_seti_ne by congruence. now apply Hothers. }
  destruct (m <=? left) eqn:Hleaf.
  - apply Z.leb_le in Hleaf. cbn [fst snd]. apply Hplace.
    intros j Hj Hpj. apply heapParent_child in Hpj; [| lia]. unfold left in Hleaf. lia.
  - apply Z.leb_gt in Hleaf.
    set (child := if (right <? m) && num_lt (getNum scores right) (getNum scores left)
                  then right else left).
    assert (Hchild : (child = left \/ child = right) /\ i < child < m).
    { unfold child. destruct ((right <? m) && num_lt (getNum scores right) (getNum scores left))
        eqn:Hpick.
      - apply andb_true_iff in Hpick. destruct Hpick as [Hr _]. apply Z.ltb_lt in Hr.
        unfold right, left in *. split; [now right | lia].
      - unfold left in *. split; [now left | lia]. }
    destruct Hchild as [Hwhich Hrange].
    assert (Hleast : forall j, 0 < j < m -> heapParent j = i ->
                       num_le (getNum scores child) (getNum scores j) = true).
    { intros j Hj Hpj. apply heapParent_child in Hpj; [| lia].
      assert (Hrefl : forall k, 0 <= k < m ->
                        num_le (getNum scores k) (getNum scores k) = true).
      { intros k Hk. specialize (Hfinite k Hk). destruct (getNum scores k); simpl;
          [apply Qle_bool_iff; lra | reflexivity | reflexivity | congruence]. }
      unfold child.
      destruct ((right <? m) && num_lt (getNum scores right) (getNum scores left))
        eqn:Hpick.
      - apply andb_true_iff in Hpick. destruct Hpick as [Hr Hlt]. apply Z.ltb_lt in Hr.
        destruct Hpj as [-> | ->].
        + replace (2 * i + 1) with left by (unfold left; lia). now apply num_lt_le.
        + replace (2 * i + 2) with right by (unfold right, left; lia). apply Hrefl. lia.
      - destruct Hpj as [-> | ->].
        + replace (2 * i + 1) with left by (unfold left; lia). apply Hrefl. lia.
        + replace (2 * i + 2) with right in * by (unfold right, left; lia).
          replace (right <? m) with true in Hpick by (symmetry; apply Z.ltb_lt; lia).
          simpl in Hpick. apply num_lt_total; try apply Hfinite; try lia. exact Hpick. }
    destruct (num_ge (getNum scores child) lastScore) eqn:Hstop.
    + cbn [fst snd]. apply Hplace. intros j Hj Hpj.
      apply (num_le_trans _ (getNum scores child)); [exact Hstop | now apply Hleast].
    + assert (Hdown : num_le (getNum scores child) lastScore = true).
      { apply num_le_total; [exact Hlast | apply Hfinite; lia | exact Hstop]. }
      set (indices1 := seti indices i (getInt indices child)).
      set (scores1 := seti scores i (getNum scores child)).
      assert (Hat : forall j, getNum scores1 j
                              = if j =? i then getNum scores child else getNum scores j).
      { intros j. unfold scores1. destruct (j =? i) eqn:Hji.
        - apply Z.eqb_eq in Hji. subst j. apply getNum_seti_eq. lia.
        - apply Z.eqb_neq in Hji. apply getNum_seti_ne. congruence. }
      assert (Hlen1 : length indices1 = length scores1)
        by (unfold indices1, scores1; now rewrite !length_seti).
      assert (Hlens : length scores1 = length scores)
        by (unfold scores1; now rewrite length_seti).
      assert (Hpc : heapParent child = i).
      { apply heapParent_child; [lia |]. unfold right, left in Hwhich. lia. }
      destruct (IH indices1 scores1 child Hlen1) as [R1 [R2 [R3 R4]]]; try lia.
      * unfold lengthZ in *. rewrite Hlens. lia.
      * intros j Hj. rewrite Hat. destruct (j =? i); apply Hfinite; lia.
      * intros j Hj Hjc Hpjc. pose proof (heapParent_range j (proj1 Hj)) as Hq.
        rewrite !Hat. destruct (Z.eq_dec j i) as [-> | Hji].
        -- rewrite Z.eqb_refl.
           replace (heapParent i =? i) with false by (symmetry; apply Z.eqb_neq; lia).
           apply Hgrand; [lia | lia | exact Hpc].
        -- replace (j =? i) with false by (symmetry; now apply Z.eqb_neq).
           destruct (Z.eq_dec (heapParent j) i) as [Hpj | Hpj].
           ++ rewrite Hpj, Z.eqb_refl. now apply Hleast.
           ++ replace (heapParent j =? i) with false by (symmetry; now apply Z.eqb_neq).
              now apply Hothers.
      * intros _. rewrite Hpc, Hat, Z.eqb_refl. exact Hdown.
      * intros _ j Hj Hpj. pose proof (heapParent_range j (proj1 Hj)) as Hq.
        rewrite Hpc, !Hat, Z.eqb_refl.
        replace (j =? i) with false by (symmetry; apply Z.eqb_neq; lia).
        rewrite <- Hpj. apply Hothers; lia.
      * cbv zeta in R1, R2, R3, R4. cbv zeta.
        split; [exact R1 |]. split; [congruence |]. split; [exact R3 |].
        etransitivity; [exact R4 |]. unfold indices1, scores1. rewrite zip_seti.
        set (entries := zip indices scores).
        assert (Hsame : seti entries i (getInt indices child, getNum scores child)
                        = seti (seti entries i (lastIdx, lastScore)) i
                               (getInt indices child, getNum scores child)).
        { unfold seti. destruct (i <? 0); [reflexivity |].
          now rewrite list_insert_insert_eq. }
        rewrite Hsame. apply swap_take_perm; try lia.
        -- apply geti_seti_eq. unfold entries, lengthZ in *. rewrite length_zip. lia.
        -- rewrite geti_seti_ne by lia. unfold entries. apply geti_zip; [exact Hlen | lia].
Qed.

End SiftDown.

Lemma heapEntries_lookup (sc : Scratch) (size j : Z) :
  length (heapIndices sc) = length (heapScores sc) ->
  0 <= j < size -> size <= lengthZ (heapScores sc) ->
  geti (heapEntries sc size) j
  = Some (getInt (heapIndices sc) j, getNum (heapScores sc) j).
Proof.
  intros Hlen Hj Hsize. unfold heapEntries. rewrite geti_take by exact Hj.
  apply geti_zip; [exact Hlen | lia].
Qed.

Lemma heapEntries_finite (sc : Scratch) (size j : Z) :
  length (heapIndices sc) = length (heapScores sc) ->
  0 <= j < size -> size <= lengthZ (heapScores sc) ->
  Forall (fun e => snd e <> NaN) (heapEntries sc size) ->
  getNum (heapScores sc) j <> NaN.
Proof.
  intros Hlen Hj Hsize Hall.
  pose proof (heapEntries_lookup sc size j Hlen Hj Hsize) as Hlook.
  unfold geti in Hlook. destruct (j <? 0); [discriminate |].
  exact (Forall_lookup_1 _ _ _ _ Hall Hlook).
Qed.

Lemma take_snoc_seti {A : Type} (l : list A) (size : Z) (x : A) :
  0 <= size < lengthZ l ->
  take (Z.to_nat (size + 1)) (seti l size x) = take (Z.to_nat size) l ++ [x].
Proof.
  intros Hsize. unfold seti, lengthZ in *. destruct (size <? 0) eqn:Hneg; [lia |].
  replace (Z.to_nat (size + 1)) with (S (Z.to_nat size)) by lia.
  erewrite take_S_r; [| apply list_lookup_insert_eq; lia].
  now rewrite take_insert_ge by lia.
Qed.

Lemma heapEntries_float32 (sc : Scratch) (size j : Z) :
  length (heapIndices sc) = length (heapScores sc) ->
  0 <= j < size -> size <= lengthZ (heapScores sc) ->
  float32Cells sc size -> isFloat32 (getNum (heapScores sc) j).
Proof.
  intros Hlen Hj Hsize Hall.
  pose proof (heapEntries_lookup sc size j Hlen Hj Hsize) as Hlook.
  unfold geti in Hlook. destruct (j <? 0); [discriminate |].
  exact (Forall_lookup_1 _ _ _ _ Hall Hlook).
Qed.

(** What [heapPush] does to a heap with a free cell. *)
Lemma heapPush_heap (sc : Scratch) (idx : Z) (score : num) (size : Z) :
  isHeap sc size -> float32Cells sc size ->
  size < lengthZ (heapScores sc) -> score <> NaN ->
  snd (heapPush sc idx score size) = size + 1
  /\ isHeap (fst (heapPush sc idx score size)) (size + 1)
  /\ float32Cells (fst (heapPush sc idx score size)) (size + 1)
  /\ Permutation (heapEntries (fst (heapPush sc idx score size)) (size + 1))
                 ((idx, toFloat32 score) :: heapEntries sc size).
Proof.
  intros [Hlen [Hsize [Hfinite Horder]]] Hfloat Hroom Hscore.
  assert (Hstored : toFloat32 score <> NaN)
    by (intros Hnan; apply Hscore; now apply toFloat32_nan).
  pose proof (siftUp_heap (size + 1) idx score Hscore (Z.to_nat size)
                (seti (heapIndices sc) size idx)
                (seti (heapScores sc) size (toFloat32 score)) size)
    as Hsift.
  unfold heapPush.
  destruct (siftUp (Z.to_nat size) (seti (heapIndices sc) size idx)
                   (seti (heapScores sc) size (toFloat32 score)) size idx score)
    as [indices scores] eqn:Hrun.
  cbn [fst snd] in *. split; [reflexivity |].
  destruct Hsift as [R1 [R2 [R3 R4]]].
  - now rewrite !length_seti.
  - lia.
  - rewrite lengthZ_seti. lia.
  - lia.
  - unfold getInt. rewrite geti_seti_eq; [reflexivity | unfold lengthZ in *; lia].
  - apply getNum_seti_eq. lia.
  - intros j Hj. destruct (Z.eq_dec j size) as [-> | Hne].
    + rewrite getNum_seti_eq by lia. exact Hstored.
    + rewrite getNum_seti_ne by congruence.
      apply (heapEntries_finite sc size j Hlen); [lia | lia | exact Hfinite].
  - intros j Hj. destruct (Z.eq_dec j size) as [-> | Hne].
    + rewrite getNum_seti_eq by lia. apply toFloat32_idem.
    + rewrite getNum_seti_ne by congruence.
      apply (heapEntries_float32 sc size j Hlen); [lia | lia | exact Hfloat].
  - intros j Hj Hne. pose proof (heapParent_range j (proj1 Hj)) as Hq.
    rewrite !getNum_seti_ne by lia. apply Horder. lia.
  - intros _ j Hj Hpj. pose proof (heapParent_range j (proj1 Hj)) as Hq. lia.
  - assert (Hentries : Permutation (take (Z.to_nat (size + 1)) (zip indices scores))
                                   ((idx, toFloat32 score) :: heapEntries sc size)).
    { etransitivity; [exact R4 |]. rewrite zip_seti. rewrite take_snoc_seti.
      - unfold heapEntries. symmetry. apply Permutation_cons_append.
      - unfold lengthZ in *. rewrite length_zip. lia. }
    split; [| split; [| exact Hentries]].
    + unfold isHeap, heapEntries. cbn [heapIndices heapScores].
      rewrite length_seti in R2.
      split; [exact R1 |]. split; [unfold lengthZ in *; lia |]. split; [| exact R3].
      eapply Permutation_Forall; [symmetry; exact Hentries |].
      constructor; [exact Hstored | exact Hfinite].
    + unfold float32Cells, heapEntries. cbn [heapIndices heapScores].
      eapply Permutation_Forall; [symmetry; exact Hentries |].
      constructor; [apply toFloat32_idem | exact Hfloat].
Qed.

(** X24: [heapPush] keeps the heap a heap.  Pushed into a heap in heap
    order whose cells hold float32 numbers, none of them [NaN], and
    which has a free cell, an entry with a score that is not [NaN]
    leaves a heap of one more entry, again in heap order and of float32
    numbers, whose entries are the old ones and the new one, its score
    rounded to the float32 number that the cell holds. *)
Theorem heap_push_keeps_heap (sc : Scratch) (idx : Z) (score : num) (size : Z) :
  isHeap sc size -> float32Cells sc size ->
  size < lengthZ (heapScores sc) -> score <> NaN ->
  snd (heapPush sc idx score size) = size + 1
  /\ isHeap (fst (heapPush sc idx score size)) (size + 1)
  /\ float32Cells (fst (heapPush sc idx score size)) (size + 1)
  /\ Permutation (heapEntries (fst (heapPush sc idx score size)) (size + 1))
                 ((idx, toFloat32 score) :: heapEntries sc size).
Proof. apply heapPush_heap. Qed.

Lemma heap_root_least (scores : list num) (size : Z) :
  heapOrdered scores size ->
  (forall j, 0 <= j < size -> getNum scores j <> NaN) ->
  forall j, 0 <= j < size -> num_le (getNum scores 0) (getNum scores j) = true.
Proof.
  intros Horder Hfinite j Hj.
  assert (Hall : forall n : nat, forall k, 0 <= k < size -> (Z.to_nat k <= n)%nat ->
                   num_le (getNum scores 0) (getNum scores k) = true).
  { induction n as [| n IH]; intros k Hk Hn.
    - assert (k = 0) by lia. subst k. specialize (Hfinite 0 Hk).
      destruct (getNum scores 0); simpl; [apply Qle_bool_iff; lra | reflexivity | reflexivity | congruence].
    - destruct (Z.eq_dec k 0) as [-> | Hpos]; [apply IH; lia |].
      pose proof (heapParent_range k ltac:(lia)) as Hq.
      apply (num_le_trans _ (getNum scores (heapParent k))); [apply IH; lia |].
      apply Horder. lia. }
  apply (Hall (Z.to_nat j)); [exact Hj | lia].
Qed.

(** What [heapPop] does to a heap that is not empty. *)
Lemma heapPop_heap (sc : Scratch) (size : Z) :
  isHeap sc size -> 0 < size ->
  exists idx score sc',
    heapPop sc size = Some (idx, score, sc', size - 1)
    /\ isHeap sc' (size - 1)
    /\ Permutation (heapEntries sc size) ((idx, score) :: heapEntries sc' (size - 1))
    /\ Forall (fun e => num_le score (snd e) = true) (heapEntries sc size).
Proof.
  intros [Hlen [Hsize [Hfinite Horder]]] Hpos.
  assert (Hnan : forall j, 0 <= j < size -> getNum (heapScores sc) j <> NaN).
  { intros j Hj. apply (heapEntries_finite sc size j Hlen Hj); [lia | exact Hfinite]. }
  assert (Hleast : Forall (fun e => num_le (getNum (heapScores sc) 0) (snd e) = true)
                          (heapEntries sc size)).
  { apply Forall_lookup_2. intros n e Hn.
    assert (Hrange : (n < Z.to_nat size)%nat).
    { apply lookup_lt_Some in Hn. unfold heapEntries in Hn. rewrite length_take in Hn. lia. }
    pose proof (heapEntries_lookup sc size (Z.of_nat n) Hlen ltac:(lia) ltac:(lia)) as Hlook.
    unfold geti in Hlook. destruct (Z.of_nat n <? 0) eqn:Hneg; [lia |].
    rewrite Nat2Z.id in Hlook. rewrite Hn in Hlook. inversion Hlook. subst e. cbn [snd].
    apply (heap_root_least _ size Horder Hnan). lia. }
  unfold heapPop. replace (size =? 0) with false by (symmetry; apply Z.eqb_neq; lia).
  destruct (0 <? size - 1) eqn:Hmore.
  - apply Z.ltb_lt in Hmore. set (m := size - 1) in *.
    set (lastIdx := getInt (heapIndices sc) m). set (lastScore := getNum (heapScores sc) m).
    assert (Hlast : lastScore <> NaN) by (apply Hnan; lia).
    pose proof (siftDown_heap m lastIdx lastScore Hlast (Z.to_nat m)
                  (heapIndices sc) (heapScores sc) 0 Hlen) as Hsift.
    destruct (siftDown (Z.to_nat m) (heapIndices sc) (heapScores sc) 0 m lastScore)
      as [[indices1 scores1] i] eqn:Hrun.
    cbv zeta in Hsift. cbn [fst snd] in Hsift.
    destruct Hsift as [R1 [R2 [R3 R4]]]; try lia.
    + intros j Hj. apply Hnan. lia.
    + intros j Hj _ _. apply Horder. lia.
    + eexists. eexists. eexists. split; [reflexivity |].
      assert (Hentries : Permutation (heapEntries sc size)
                ((getInt (heapIndices sc) 0, getNum (heapScores sc) 0)
                 :: take (Z.to_nat m) (zip (seti indices1 i lastIdx)
                                           (seti scores1 i lastScore)))).
      { unfold heapEntries. replace (Z.to_nat size) with (S (Z.to_nat m)) by lia.
        set (entries := zip (heapIndices sc) (heapScores sc)) in *.
        assert (Hat : entries !! Z.to_nat m = Some (lastIdx, lastScore)).
        { pose proof (geti_zip (heapIndices sc) (heapScores sc) m Hlen ltac:(lia)) as Hg.
          unfold geti in Hg. destruct (m <? 0) eqn:Hneg; [| exact Hg].
          apply Z.ltb_lt in Hneg. lia. }
        rewrite (take_S_r _ _ _ Hat).
        etransitivity; [symmetry; apply Permutation_cons_append |].
        etransitivity; [| apply perm_skip; symmetry; exact R4].
        unfold seti. cbn [Z.ltb Z.compare]. change (Z.to_nat 0) with 0%nat.
        rewrite take_insert_lt by lia.
        apply replace_perm. rewrite lookup_take_lt by lia.
        pose proof (geti_zip (heapIndices sc) (heapScores sc) 0 Hlen ltac:(lia)) as Hg.
        exact Hg. }
      split; [| split; [exact Hentries | exact Hleast]].
      unfold isHeap, heapEntries. cbn [heapIndices heapScores]. fold m.
      split; [exact R1 |]. split; [unfold lengthZ in *; lia |]. split; [| exact R3].
      assert (Hall : Forall (fun e => snd e <> NaN)
                       ((getInt (heapIndices sc) 0, getNum (heapScores sc) 0)
                        :: take (Z.to_nat m) (zip (seti indices1 i lastIdx)
                                                  (seti scores1 i lastScore))))
        by (eapply Permutation_Forall; [exact Hentries | exact Hfinite]).
      now inversion Hall.
  - apply Z.ltb_ge in Hmore. assert (size = 1) by lia. subst size.
    eexists. eexists. eexists. split; [reflexivity |].
    split; [| split; [| exact Hleast]].
    + unfold isHeap, heapEntries. cbn [heapIndices heapScores].
      split; [exact Hlen |]. split; [lia |]. split; [constructor |].
      intros j Hj. lia.
    + unfold heapEntries. cbn [heapIndices heapScores]. change (Z.to_nat (1 - 1)) with 0%nat.
      change (Z.to_nat 1) with 1%nat. cbn [take].
      pose proof (geti_zip (heapIndices sc) (heapScores sc) 0 Hlen ltac:(lia)) as Hg.
      unfold geti in Hg. cbn in Hg.
      destruct (zip (heapIndices sc) (heapScores sc)) as [| e rest]; [discriminate |].
      cbn in Hg. inversion Hg. reflexivity.
Qed.

(** X25: [heapPop] takes a least entry.  From a heap in heap order that
    holds no [NaN] score and is not empty it returns an entry whose score
    no entry of the heap undercuts, and leaves a heap, again in heap
    order, of exactly the other entries. *)
Theorem heap_pop_takes_least (sc : Scratch) (size : Z) :
  isHeap sc size -> 0 < size ->
  exists idx score sc',
    heapPop sc size = Some (idx, score, sc', size - 1)
    /\ isHeap sc' (size - 1)
    /\ Permutation (heapEntries sc size) ((idx, score) :: heapEntries sc' (size - 1))
    /\ Forall (fun e => num_le score (snd e) = true) (heapEntries sc size).
Proof. apply heapPop_heap. Qed.

End HeapFacts.

Lemma sampleHeap_isHeap : isHeap sampleHeap 2.
Proof.
  split; [reflexivity |]. split; [vm_compute; split; discriminate |].
  split; [repeat constructor; discriminate |].
  intros j Hj. assert (j = 1) by lia. subst j. reflexivity.
Qed.

Lemma sampleHeap_float32 : float32Cells sampleHeap 2.
Proof. repeat constructor. Qed.

(** The score one third is not a float32 number: the cell takes the
    nearest one. *)
Lemma heap_push_keeps_heap_witness :
  snd (heapPush sampleHeap 9 (Fin (1 # 3)) 2) = 2 + 1
  /\ isHeap (fst (heapPush sampleHeap 9 (Fin (1 # 3)) 2)) (2 + 1)
  /\ float32Cells (fst (heapPush sampleHeap 9 (Fin (1 # 3)) 2)) (2 + 1)
  /\ Permutation (heapEntries (fst (heapPush sampleHeap 9 (Fin (1 # 3)) 2)) (2 + 1))
                 ((9, toFloat32 (Fin (1 # 3))) :: heapEntries sampleHeap 2).
Proof.
  apply (heap_push_keeps_heap sampleHeap 9 (Fin (1 # 3)) 2).
  - exact sampleHeap_isHeap.
  - exact sampleHeap_float32.
  - reflexivity.
  - discriminate.
Defined.

Lemma stored_third : toFloat32 (Fin (1 # 3)) = Fin (11184811 # 33554432).
Proof. reflexivity. Qed.

Lemma heap_pop_takes_least_witness :
  exists idx score sc',
    heapPop sampleHeap 2 = Some (idx, score, sc', 2 - 1)
    /\ isHeap sc' (2 - 1)
    /\ Permutation (heapEntries sampleHeap 2) ((idx, score) :: heapEntries sc' (2 - 1))
    /\ Forall (fun e => num_le score (snd e) = true) (heapEntries sampleHeap 2).
Proof.
  apply (heap_pop_takes_least sampleHeap 2).
  - exact sampleHeap_isHeap.
  - reflexivity.
Defined.

Section HoleCells.

Lemma registerHole_fold_cells_list (g : WorkerGrid) (cells : list Z) (acc : list Z * list Z) :
  snd (fold_left (registerHole g) cells acc) = snd acc ++ chosen (registersCell g) cells.
Proof.
  revert acc. induction cells as [| c cells IH]; intros [byCell sofar].
  - simpl. now rewrite app_nil_r.
  - cbn [fold_left]. rewrite IH, registerHole_eq, chosen_cons.
    destruct (registersCell g c); cbn [snd]; [now rewrite <- app_assoc | reflexivity].
Qed.

(** Every registered cell can be found again through its index. *)
Lemma registerHole_fold_index (g : WorkerGrid) (cells : list Z) (acc : list Z * list Z) :
  List.NoDup cells ->
  (forall c, In c cells -> 0 <= c < lengthZ (fst acc) /\ ~ In c (snd acc)) ->
  (forall h c, geti (snd acc) h = Some c -> geti (fst acc) c = Some h) ->
  forall h c,
    geti (snd (fold_left (registerHole g) cells acc)) h = Some c ->
    geti (fst (fold_left (registerHole g) cells acc)) c = Some h.
Proof.
  revert acc. induction cells as [| cell cells IH]; intros [byCell sofar] Hnd Hcells Hacc;
    [exact Hacc |].
  cbn [fold_left]. inversion Hnd as [| ? ? Hfresh Hrest]. subst.
  destruct (Hcells cell (or_introl eq_refl)) as [Hrange Hnew].
  rewrite registerHole_eq. cbn [fst snd] in *.
  destruct (registersCell g cell) eqn:Hreg.
  - apply IH; [exact Hrest | |]; cbn [fst snd].
    + intros c Hc. destruct (Hcells c (or_intror Hc)) as [Hr Hn].
      rewrite lengthZ_seti. split; [exact Hr |].
      intros Hin. apply in_app_or in Hin. destruct Hin as [Hin | [Heq | []]];
        [contradiction | subst c; contradiction].
    + intros h c Hget.
      destruct (Z.eq_dec h (lengthZ sofar)) as [-> | Hne].
      * rewrite geti_snoc in Hget. inversion Hget. subst c.
        now apply geti_seti_eq.
      * assert (Hold : geti sofar h = Some c).
        { unfold geti in *. destruct (h <? 0) eqn:Hneg; [discriminate |].
          apply Z.ltb_ge in Hneg.
          pose proof (lookup_lt_Some _ _ _ Hget) as Hlt. rewrite length_app in Hlt.
          simpl in Hlt. unfold lengthZ in Hne.
          rewrite lookup_app_l in Hget by lia. exact Hget. }
        rewrite geti_seti_ne; [now apply Hacc |].
        intros Hsame. subst c. apply Hnew. eapply geti_In. exact Hold.
  - apply IH; [exact Hrest | | exact Hacc]; cbn [fst snd].
    intros c Hc. exact (Hcells c (or_intror Hc)).
Qed.

(** X26: the hole cells are registered in increasing cell order without
    gaps: [holeCells] lists the cells that pass the registration test
    (first instance slot present, direction 0) in increasing order, and
    [holeIndexByCell] is its inverse: a cell has the hole index [h]
    exactly when [holeCells[h]] is that cell. *)
Theorem hole_cells_are_selection (g : WorkerGrid) :
  holeCells g
  = (if useHoleCenters g && (0 <? cellCount g)
     then chosen (registersCell g) (seqZ 0 (cellCount g)) else [])
  /\ forall cell h,
       (geti (holeIndexByCell g) cell = Some h /\ 0 <= h)
       <-> geti (holeCells g) h = Some cell.
Proof.
  split.
  - unfold holeCells, holeRegistration.
    destruct (useHoleCenters g && (0 <? cellCount g)); [| reflexivity].
    now rewrite registerHole_fold_cells_list.
  - intros cell h. split.
    + intros [Hget Hh]. now apply holeIndexByCell_inverse.
    + intros Hget. pose proof (geti_Some_range _ _ _ Hget) as Hrange.
      split; [| lia]. revert Hget. unfold holeCells, holeIndexByCell, holeRegistration.
      assert (Hnone : forall k c, geti (@nil Z) k = Some c -> False).
      { intros k c Hnil. apply geti_Some_range in Hnil. unfold lengthZ in Hnil.
        simpl in Hnil. lia. }
      destruct (useHoleCenters g && (0 <? cellCount g));
        [| cbn [snd]; intros Hnil; destruct (Hnone _ _ Hnil)].
      apply registerHole_fold_index.
      * apply NoDup_ListNoDup. apply NoDup_seqZ.
      * intros c Hc. apply In_seqZ in Hc. cbn [fst snd].
        rewrite lengthZ_replicate. split; [lia | intros []].
      * cbn [fst snd]. intros k c Hnil. destruct (Hnone _ _ Hnil).
Qed.

End HoleCells.

(** ** The rounding error of a stored score *)

Lemma roundMagnitude_error (q : Q) :
  (0 <= q)%Q ->
  (q - float32Ulp q * (1 # 2) <= roundMagnitude q <= q + float32Ulp q * (1 # 2))%Q.
Proof.
  intros Hq. unfold roundMagnitude. pose proof (float32Ulp_pos q) as Hu.
  pose proof (roundEven_near (q / float32Ulp q)) as [Hlow Hhigh].
  set (r := inject_Z (roundEven (q / float32Ulp q))) in *.
  assert (Hquot : (q / float32Ulp q * float32Ulp q == q)%Q) by (field; lra).
  split.
  - assert (Hm : ((q / float32Ulp q - (1 # 2)) * float32Ulp q <= r * float32Ulp q)%Q)
      by (apply Qmult_le_compat_r; lra).
    lra.
  - assert (Hm : (r * float32Ulp q <= (q / float32Ulp q + (1 # 2)) * float32Ulp q)%Q)
      by (apply Qmult_le_compat_r; lra).
    lra.
Qed.

Lemma float32Ulp_half (q M : Q) :
  (0 <= q)%Q -> (q <= M)%Q -> (float32Ulp q * (1 # 2) <= float32Error M \/ q == 0)%Q.
Proof.
  intros Hq HM. destruct (Qlt_le_dec 0 q) as [Hpos | Hzero]; [left | right; lra].
  destruct (binade_spec q Hpos) as [Hlow _]. unfold float32Ulp, float32Error.
  pose proof (pow2_pos (-150)) as Hsub. pose proof (pow2_pos (-24)) as H24.
  destruct (Z.max_spec (binade q) (-126)) as [[Hlt ->] | [Hge ->]].
  - change (-126 - 23) with (-149).
    assert (Hs : (2 ^ (-149) * (1 # 2) == 2 ^ (-150))%Q) by reflexivity.
    assert (0 <= M * 2 ^ (-24))%Q by (apply Qmult_le_0_compat; lra). lra.
  - assert (Hs : (2 ^ (binade q - 23) * (1 # 2) == 2 ^ (binade q) * 2 ^ (-24))%Q).
    { rewrite (pow2_split (binade q - 23) (-23)).
      replace (binade q - 23 - -23) with (binade q) by lia.
      assert (Hc : (2 ^ (-23) * (1 # 2) == 2 ^ (-24))%Q) by reflexivity.
      rewrite <- Hc. ring. }
    assert (Hm : (2 ^ binade q * 2 ^ (-24) <= M * 2 ^ (-24))%Q)
      by (apply Qmult_le_compat_r; lra).
    lra.
Qed.

(** Stored in a cell, a number between [0] and [M] moves by
    [float32Error M] at most. *)
Lemma fround_error (q M : Q) :
  (0 <= q)%Q -> (q <= M)%Q ->
  (q - float32Error M <= fround q <= q + float32Error M)%Q.
Proof.
  intros Hq HM. rewrite fround_eq.
  assert (Hpos : Qle_bool 0 q = true) by (now apply Qle_bool_iff). rewrite Hpos.
  assert (Herr : (0 <= float32Error M)%Q).
  { unfold float32Error. pose proof (pow2_pos (-150)). pose proof (pow2_pos (-24)).
    assert (0 <= M * 2 ^ (-24))%Q by (apply Qmult_le_0_compat; lra). lra. }
  destruct (float32Ulp_half q M Hq HM) as [Hhalf | Hzero].
  - pose proof (roundMagnitude_error q Hq). lra.
  - pose proof (roundMagnitude_zero q Hzero). lra.
Qed.

(** A number between [0] and [2^127] is stored as a finite number. *)
Lemma toFloat32_fin (q : Q) :
  (0 <= q)%Q -> (q <= 2 ^ 127)%Q -> toFloat32 (Fin q) = Fin (fround q).
Proof.
  intros Hq HM. unfold toFloat32. cbv zeta.
  assert (Hup : (fround q <= 2 ^ 127)%Q).
  { rewrite fround_eq.
    assert (Hpos : Qle_bool 0 q = true) by (now apply Qle_bool_iff). rewrite Hpos.
    apply roundMagnitude_below; [exact Hq | exact HM |].
    destruct (Qlt_le_dec 0 q) as [Hp | Hz].
    - destruct (binade_spec q Hp) as [Hlow _].
      assert (Hb : binade q < 127 + 1) by (apply pow2_lt_inv; pose proof (pow2_lt 127 (127 + 1) ltac:(lia)); lra).
      lia.
    - assert (Hbin : binade q <= 127).
      { destruct q as [n d]. unfold binade. cbv zeta. cbn [Qnum Qden].
        assert (Hn : n <= 0) by (unfold Qle in Hz; cbn [Qnum Qden] in Hz; lia).
        assert (Hl : Z.log2 n = 0) by (apply Z.log2_nonpos; exact Hn).
        rewrite Hl. pose proof (Z.log2_nonneg (Z.pos d)).
        match goal with |- (if ?b then _ else _) <= _ => destruct b end; lia. }
      lia. }
  pose proof (fround_nonneg q Hq) as Hlow.
  assert (Hlim : (2 ^ 127 < float32Limit)%Q) by reflexivity.
  assert (Hneg : (- float32Limit < 0)%Q) by reflexivity.
  destruct (Qle_bool float32Limit (fround q)) eqn:H1;
    [apply Qle_bool_iff in H1; lra |].
  destruct (Qle_bool (fround q) (- float32Limit)) eqn:H2;
    [apply Qle_bool_iff in H2; lra |].
  reflexivity.
Qed.

(** ** Walks, their costs and the estimate *)

Lemma map_flat_map {A B C : Type} (h : B -> C) (f : A -> list B) (l : list A) :
  map h (flat_map f l) = flat_map (fun x => map h (f x)) l.
Proof.
  induction l as [| x l IH]; [reflexivity |]. simpl. now rewrite map_app, IH.
Qed.

Lemma hops_one (a : Z) : (hops [a] == 0)%Q.
Proof. reflexivity. Qed.

Lemma hops_cons (a b : Z) (l : list Z) : (hops (a :: b :: l) == 1 + hops (b :: l))%Q.
Proof.
  unfold hops, lengthZ. cbn [length].
  replace (Z.of_nat (S (S (length l))) - 1) with (1 + (Z.of_nat (S (length l)) - 1)) by lia.
  rewrite inject_Z_plus. reflexivity.
Qed.

Lemma hops_nonneg (a : Z) (l : list Z) : (0 <= hops (a :: l))%Q.
Proof.
  unfold hops, lengthZ. cbn [length]. change 0%Q with (inject_Z 0).
  rewrite <- Zle_Qle. lia.
Qed.

Lemma hops_app (pre : list Z) (a : Z) (l : list Z) :
  (hops (pre ++ a :: l) == hops (pre ++ [a]) + hops (a :: l))%Q.
Proof.
  unfold hops, lengthZ. rewrite !length_app. cbn [length].
  rewrite <- inject_Z_plus. apply inject_Z_injective. lia.
Qed.

Lemma distinct_NoDup (l : list Z) : distinct l = true -> List.NoDup l.
Proof.
  induction l as [| x l IH]; [constructor |]. simpl. intros Hd.
  apply andb_true_iff in Hd. destruct Hd as [Hx Hl].
  constructor; [| now apply IH]. intros Hin.
  apply negb_true_iff in Hx.
  assert (Hex : existsb (Z.eqb x) l = true)
    by (apply existsb_exists; exists x; split; [exact Hin | apply Z.eqb_refl]).
  congruence.
Qed.

Lemma find_unique {A : Type} (l : list (Z * A)) (b : Z) (c : A) :
  List.NoDup (map fst l) -> In (b, c) l ->
  List.find (fun e => fst e =? b) l = Some (b, c).
Proof.
  induction l as [| [b' c'] l IH]; [intros _ [] |].
  simpl. intros Hnd Hin. inversion Hnd as [| ? ? Hnot Hrest]. subst.
  destruct Hin as [Heq | Hin].
  - inversion Heq. subst. now rewrite Z.eqb_refl.
  - destruct (b' =? b) eqn:Hb.
    + apply Z.eqb_eq in Hb. subst b'. exfalso. apply Hnot.
      apply in_map_iff. exists (b, c). split; [reflexivity | exact Hin].
    + now apply IH.
Qed.

Section WalkFacts.
Context `{Platform}.
Variable g : WorkerGrid.
Variable cap : Z.
Variable nodeUsage : list Z.
Variable endCoords : Coords.

Local Abbreviation edges := (edgesFrom g cap nodeUsage).
Local Abbreviation pushes := (pushesFrom g cap nodeUsage endCoords).
Local Abbreviation cost := (walkCost g cap nodeUsage).
Local Abbreviation est := (estimateOf g endCoords).

(** Without the estimates, the relaxations of a node are its edges. *)
Lemma edgesFrom_pushes (a : Z) : edges a = map fst (pushes a).
Proof.
  unfold edgesFrom, pushesFrom. destruct (a <? holeCenterBaseIndex g).
  - rewrite map_app. f_equal.
    + unfold latticeEdges, latticePushes. rewrite map_flat_map.
      apply flat_map_ext. intros o.
      destruct (inLattice g _ _ _ && _ && _ && _); reflexivity.
    + unfold holeEntryEdges, holeEntryPushes.
      destruct (0 <? holeCenterCount g); [| reflexivity].
      rewrite map_flat_map. apply flat_map_ext. intros cell.
      destruct (holeIndexAt g (fst cell) (snd cell)); [| reflexivity].
      destruct (cellGe nodeUsage _ cap); reflexivity.
  - unfold holeEdges, holePushes. cbv zeta.
    destruct ((_ <? 0) || _); [reflexivity |].
    rewrite !map_app, map_flat_map. f_equal; [| f_equal].
    + apply flat_map_ext. intros corner.
      destruct (cellGe nodeUsage _ cap); reflexivity.
    + destruct ((0 <? _) && negb (cellGe nodeUsage (a - 1) cap)); reflexivity.
    + destruct (_ && negb (cellGe nodeUsage (a + 1) cap)); reflexivity.
Qed.

Lemma pushes_edge (a b : Z) (c hb : Q) : In (b, c, hb) (pushes a) -> In (b, c) (edges a).
Proof.
  intros Hin. rewrite edgesFrom_pushes. apply in_map_iff.
  exists (b, c, hb). split; [reflexivity | exact Hin].
Qed.

Lemma edge_pushes (a b : Z) (c : Q) :
  In (b, c) (edges a) -> exists hb, In (b, c, hb) (pushes a).
Proof.
  rewrite edgesFrom_pushes. intros Hin. apply in_map_iff in Hin.
  destruct Hin as [[[b' c'] hb] [Heq Hin]]. simpl in Heq. inversion Heq. subst.
  now exists hb.
Qed.

Lemma walkCost_app (pre : list Z) (a : Z) (l : list Z) :
  (cost (pre ++ a :: l) == cost (pre ++ [a]) + cost (a :: l))%Q.
Proof.
  induction pre as [| x pre IH]; [simpl; ring |].
  destruct pre as [| y pre'].
  - simpl. ring.
  - change ((x :: y :: pre') ++ a :: l) with (x :: y :: (pre' ++ a :: l)).
    change ((x :: y :: pre') ++ [a]) with (x :: y :: (pre' ++ [a])).
    change (cost (x :: y :: pre' ++ a :: l))
      with (edgeCost g cap nodeUsage x y + cost ((y :: pre') ++ a :: l))%Q.
    change (cost (x :: y :: pre' ++ [a]))
      with (edgeCost g cap nodeUsage x y + cost ((y :: pre') ++ [a]))%Q.
    rewrite IH. ring.
Qed.

Lemma linked_snoc (E : Z -> Z -> Prop) (pre : list Z) (a b : Z) :
  linked E (pre ++ [a]) -> E a b -> linked E ((pre ++ [a]) ++ [b]).
Proof.
  induction pre as [| x pre IH]; intros Hl He.
  - simpl. split; [exact He | exact I].
  - destruct pre as [| y pre'].
    + simpl in *. destruct Hl as [Hxa _]. repeat split; assumption.
    + change (linked E (x :: (y :: pre') ++ [a])) in Hl.
      change (linked E (x :: ((y :: pre') ++ [a]) ++ [b])).
      simpl in Hl. destruct Hl as [Hxy Hrest]. simpl. split; [exact Hxy |].
      apply IH; assumption.
Qed.

Lemma isWalk_snoc (startIndex a b : Z) (pre : list Z) :
  isWalk g cap nodeUsage startIndex a (pre ++ [a]) ->
  searchEdge g cap nodeUsage a b ->
  isWalk g cap nodeUsage startIndex b ((pre ++ [a]) ++ [b]).
Proof.
  intros [Hhead [_ Hlinked]] Hedge. split; [| split].
  - destruct pre; exact Hhead.
  - apply last_snoc.
  - now apply linked_snoc.
Qed.

Section Consistent.
Variables eta cmax hmax : Q.
Hypothesis Hfits : consistentEstimate g cap nodeUsage endCoords eta cmax hmax.

Lemma fits_estimate (a : Z) :
  0 <= a < lengthZ nodeUsage -> (0 <= est a <= hmax)%Q.
Proof.
  intros Ha. specialize (Hfits a Ha). unfold nodeFits in Hfits.
  rewrite !andb_true_iff in Hfits. destruct Hfits as [[[H1 H2] _] _].
  split; now apply Qle_bool_iff.
Qed.

Lemma fits_push (a b : Z) (c hb : Q) :
  0 <= a < lengthZ nodeUsage -> In (b, c, hb) (pushes a) ->
  0 <= b < lengthZ nodeUsage
  /\ (0 <= c <= cmax)%Q /\ (0 <= hb <= hmax)%Q
  /\ (est b - eta <= hb <= est b + eta)%Q
  /\ (est a <= c + est b + eta)%Q.
Proof.
  intros Ha Hin. specialize (Hfits a Ha). unfold nodeFits in Hfits.
  apply andb_true_iff in Hfits. destruct Hfits as [_ Hall].
  rewrite forallb_forall in Hall. specialize (Hall _ Hin). unfold edgeFits in Hall.
  rewrite !andb_true_iff in Hall.
  destruct Hall as [[[[[[[[H1 H2] H3] H4] H5] H6] H7] H8] H9].
  apply Z.leb_le in H1. apply Z.ltb_lt in H2.
  apply Qle_bool_iff in H3, H4, H5, H6, H7, H8, H9.
  repeat split; assumption.
Qed.

Lemma fits_edge (a b : Z) (c : Q) :
  0 <= a < lengthZ nodeUsage -> In (b, c) (edges a) ->
  0 <= b < lengthZ nodeUsage /\ (0 <= c <= cmax)%Q
  /\ (est a <= c + est b + eta)%Q
  /\ edgeCost g cap nodeUsage a b = c.
Proof.
  intros Ha Hin. destruct (edge_pushes a b c Hin) as [hb Hpush].
  destruct (fits_push a b c hb Ha Hpush) as [Hb [Hc [_ [_ Hcons]]]].
  repeat split; try tauto.
  unfold edgeCost. rewrite (find_unique (edges a) b c); [reflexivity | | exact Hin].
  rewrite edgesFrom_pushes, map_map. apply distinct_NoDup.
  specialize (Hfits a Ha). unfold nodeFits in Hfits.
  apply andb_true_iff in Hfits. destruct Hfits as [Hfits _].
  apply andb_true_iff in Hfits. destruct Hfits as [_ Hd]. exact Hd.
Qed.

(** The estimate of the first node of a chain of edges exceeds the
    estimate of the last by the cost of the chain and [eta] per edge at
    most. *)
Lemma estimate_chain (l : list Z) (a u : Z) :
  0 <= a < lengthZ nodeUsage ->
  linked (searchEdge g cap nodeUsage) (a :: l) -> last (a :: l) = Some u ->
  (est a <= cost (a :: l) + hops (a :: l) * eta + est u)%Q
  /\ (0 <= cost (a :: l))%Q /\ 0 <= u < lengthZ nodeUsage.
Proof.
  revert a. induction l as [| b l IH]; intros a Ha Hlinked Hlast.
  - simpl in Hlast. inversion Hlast. subst u. rewrite hops_one. simpl.
    split; [lra | split; [lra | exact Ha]].
  - destruct Hlinked as [[c Hedge] Hrest].
    destruct (fits_edge a b c Ha Hedge) as [Hb [Hc [Hcons Hcost]]].
    rewrite last_cons_cons in Hlast.
    destruct (IH b Hb Hrest Hlast) as [Hchain [Hpos Hu]].
    rewrite hops_cons.
    change (cost (a :: b :: l)) with (edgeCost g cap nodeUsage a b + cost (b :: l))%Q.
    rewrite Hcost. split; [lra | split; [lra | exact Hu]].
Qed.

End Consistent.
End WalkFacts.

(** ** The scores during a search *)

Lemma siftUp_lengths_scores (fuel : nat) (indices : list Z) (scores : list num) (i idx : Z)
  (score : num) :
  length (snd (siftUp fuel indices scores i idx score)) = length scores.
Proof.
  revert indices scores i. induction fuel as [| fuel IH]; intros indices scores i;
    [reflexivity |].
  simpl. destruct (i <=? 0); [reflexivity |].
  destruct (num_le _ _); [reflexivity |]. rewrite IH. now rewrite !length_seti.
Qed.

Lemma siftDown_lengths_scores (fuel : nat) (indices : list Z) (scores : list num)
  (i lastIndex : Z) (lastScore : num) :
  length (snd (fst (siftDown fuel indices scores i lastIndex lastScore))) = length scores.
Proof.
  revert indices scores i.
  induction fuel as [| fuel IH]; intros indices scores i; [reflexivity |].
  simpl. destruct (lastIndex <=? i * 2 + 1); [reflexivity |].
  destruct (num_ge _ _); [reflexivity |].
  rewrite IH. apply length_seti.
Qed.

Lemma heapPush_fields (sc : Scratch) (idx : Z) (score : num) (size : Z) :
  parents (fst (heapPush sc idx score size)) = parents sc
  /\ closed (fst (heapPush sc idx score size)) = closed sc
  /\ gScore (fst (heapPush sc idx score size)) = gScore sc
  /\ gStamp (fst (heapPush sc idx score size)) = gStamp sc
  /\ stamp (fst (heapPush sc idx score size)) = stamp sc
  /\ length (heapScores (fst (heapPush sc idx score size))) = length (heapScores sc).
Proof.
  unfold heapPush.
  pose proof (siftUp_lengths_scores (Z.to_nat size) (seti (heapIndices sc) size idx)
                (seti (heapScores sc) size (toFloat32 score)) size idx score) as Hlen.
  destruct (siftUp _ _ _ _ _ _) as [indices scores]. cbn [fst snd] in *.
  rewrite length_seti in Hlen. repeat split; try reflexivity. exact Hlen.
Qed.

Lemma heapPop_fields (sc sc' : Scratch) (size size' idx : Z) (score : num) :
  heapPop sc size = Some (idx, score, sc', size') ->
  parents sc' = parents sc /\ closed sc' = closed sc /\ gScore sc' = gScore sc
  /\ gStamp sc' = gStamp sc /\ stamp sc' = stamp sc
  /\ length (heapScores sc') = length (heapScores sc).
Proof.
  unfold heapPop. destruct (size =? 0); [discriminate |].
  destruct (0 <? size - 1).
  - pose proof (siftDown_lengths_scores (Z.to_nat (size - 1)) (heapIndices sc)
                  (heapScores sc) 0 (size - 1) (getNum (heapScores sc) (size - 1))) as Hlen.
    destruct (siftDown _ _ _ _ _ _) as [[indices1 scores1] i]. cbn [fst snd] in Hlen.
    intros Hpop. inversion Hpop. subst. cbn. rewrite length_seti.
    repeat split; try reflexivity. exact Hlen.
  - intros Hpop. inversion Hpop. subst. cbn. repeat split; reflexivity.
Qed.

Lemma scoreOf_ext (sc sc' : Scratch) (n : Z) :
  gScore sc' = gScore sc -> scoreOf sc' n = scoreOf sc n.
Proof. intros Hg. unfold scoreOf. now rewrite Hg. Qed.

Lemma isHeap_ext (sc sc' : Scratch) (size : Z) :
  heapIndices sc' = heapIndices sc -> heapScores sc' = heapScores sc ->
  isHeap sc size -> isHeap sc' size.
Proof. intros Hi Hs. unfold isHeap, heapEntries. now rewrite Hi, Hs. Qed.

Section SearchCostFacts.
Context `{Platform}.
Variable g : WorkerGrid.
Variable cap : Z.
Variable nodeUsage : list Z.
Variable endCoords : Coords.
Variable startIndex : Z.
Variable s : Z.
Variable capacity : Z.
Variables eta cmax hmax M : Q.

Hypothesis Hfits : consistentEstimate g cap nodeUsage endCoords eta cmax hmax.
Hypothesis Heta : (0 <= eta)%Q.
Hypothesis Hcmax : (0 <= cmax)%Q.
Hypothesis HM : (0 <= M)%Q.
Hypothesis Hrange :
  (inject_Z (lengthZ nodeUsage) * (cmax + float32Error M) + hmax <= M)%Q.
Hypothesis Hlimit : (M <= 2 ^ 127)%Q.

Local Abbreviation rounding := (float32Error M).
Local Abbreviation Inv := (CostInv g cap nodeUsage endCoords startIndex s capacity
                                   eta cmax (float32Error M)).
Local Abbreviation edges := (edgesFrom g cap nodeUsage).
Local Abbreviation pushes := (pushesFrom g cap nodeUsage endCoords).
Local Abbreviation est := (estimateOf g endCoords).

Lemma rounding_pos : (0 < rounding)%Q.
Proof.
  unfold float32Error. pose proof (pow2_pos (-150)). pose proof (pow2_pos (-24)).
  assert (0 <= M * 2 ^ (-24))%Q by (apply Qmult_le_0_compat; lra). lra.
Qed.

(** A score the search computes lies in the range of the cells: the
    score of a closed node, plus an edge, plus an estimate. *)
Lemma score_in_range (r : nat) (k : nat) (sc : Scratch) (q c hb : Q) :
  (r < k)%nat -> (k + unclosed sc)%nat = length nodeUsage ->
  (0 <= q)%Q -> (q <= inject_Z (Z.of_nat r) * (cmax + rounding))%Q ->
  (0 <= c <= cmax)%Q -> (0 <= hb <= hmax)%Q ->
  (0 <= q + c)%Q /\ (q + c <= M)%Q /\ (0 <= q + c + hb)%Q /\ (q + c + hb <= M)%Q
  /\ (q + c + rounding <= inject_Z (Z.of_nat k) * (cmax + rounding))%Q.
Proof.
  intros Hr Hk Hq Hqr Hc Hhb. pose proof rounding_pos as Hd.
  assert (Hstep : (inject_Z (Z.of_nat r) * (cmax + rounding) + (cmax + rounding)
                   <= inject_Z (Z.of_nat k) * (cmax + rounding))%Q).
  { assert (Hle : (inject_Z (Z.of_nat r) + 1 <= inject_Z (Z.of_nat k))%Q).
    { change 1%Q with (inject_Z 1). rewrite <- inject_Z_plus. rewrite <- Zle_Qle. lia. }
    assert (Hm : ((inject_Z (Z.of_nat r) + 1) * (cmax + rounding)
                  <= inject_Z (Z.of_nat k) * (cmax + rounding))%Q)
      by (apply Qmult_le_compat_r; lra).
    lra. }
  assert (Htop : (inject_Z (Z.of_nat k) * (cmax + rounding)
                  <= inject_Z (lengthZ nodeUsage) * (cmax + rounding))%Q).
  { apply Qmult_le_compat_r; [| lra]. rewrite <- Zle_Qle. unfold lengthZ. lia. }
  repeat split; lra.
Qed.

(** Edges that are settled or relaxed already may be added to the
    settled ones. *)
Lemma CostInv_settle (settled settled' : Z -> Z -> Q -> Prop) (rank : Z -> nat) (k : nat)
  (sc : Scratch) (heapSize : Z) :
  Inv settled rank k sc heapSize ->
  (forall p b c, cellIs (closed sc) p s = true -> In (b, c) (edges p) ->
     settled' p b c -> settled p b c \/ relaxedEdge s rounding sc p b c) ->
  Inv settled' rank k sc heapSize.
Proof.
  intros [HI Hlen Hcount Hheap Hcap Hcells Hstart Hroot Hstamped Hscore Hcscore
          Hentry Hopen Hclosed Hrelaxed Hparent] Hmore.
  split; try assumption.
  intros p b c Hp Hin Hs. destruct (Hmore p b c Hp Hin Hs) as [Hold | Hnew];
    [now apply Hrelaxed | exact Hnew].
Qed.

Lemma slack_pos : (0 < slack)%Q.
Proof. reflexivity. Qed.

(** The relaxation of one edge out of the node being expanded. *)
Lemma relax_cost (rank : Z -> nat) (k : nat) (idx : Z) (baseCost : num)
  (done : list (Z * Q)) (sc : Scratch) (heapSize : Z) (b : Z) (c hb : Q) :
  costExpanding g cap nodeUsage endCoords startIndex s capacity eta cmax rounding
                rank k idx baseCost done (sc, heapSize) ->
  In (b, c, hb) (pushes idx) ->
  cellIs (closed sc) b s = false ->
  snd (relax sc heapSize idx b (num_add baseCost c) hb) <= capacity ->
  costExpanding g cap nodeUsage endCoords startIndex s capacity eta cmax rounding
                rank k idx baseCost (done ++ [(b, c)])
                (relax sc heapSize idx b (num_add baseCost c) hb).
Proof.
  intros [HC [Hidx Hbase]] Hpush Hopen Hroom. cbn [fst snd] in HC, Hidx, Hbase.
  pose proof rounding_pos as Hd.
  pose proof HC as [HI Hlen Hcount Hheap Hcap Hcells Hstart Hroot Hstamped Hscore Hcscore
                    Hentry Hopenset Hclosed Hrelaxed Hparent].
  pose proof HI as [Hs Hl1 Hl2 Hl3 _ _ _ Hrank].
  assert (Hirange : 0 <= idx < lengthZ nodeUsage).
  { apply cellIs_range in Hidx. unfold lengthZ in *. lia. }
  destruct (fits_push g cap nodeUsage endCoords eta cmax hmax Hfits idx b c hb Hirange Hpush)
    as [Hbrange [Hc [Hhb [Hnear _]]]].
  pose proof (pushes_edge g cap nodeUsage endCoords idx b c hb Hpush) as Hedge.
  destruct (Hscore idx (Hstamped idx Hidx)) as [gp [Hgp [Hgp0 [_ _]]]].
  assert (Hsp : scoreOf sc idx = gp) by (unfold scoreOf; now rewrite Hgp).
  pose proof (Hcscore idx Hidx) as Hgpr. rewrite Hsp in Hgpr.
  destruct (score_in_range (rank idx) k sc gp c hb (Hrank idx Hidx) Hcount Hgp0 Hgpr Hc Hhb)
    as [Ht0 [HtM [Hk0 [HkM Hnext]]]].
  assert (Hstartclosed : cellIs (closed sc) startIndex s = true).
  { destruct (Z.eq_dec idx startIndex) as [<- | Hne]; [exact Hidx |].
    exact (Hroot idx (Hstamped idx Hidx) Hne). }
  assert (Hbstart : b <> startIndex) by (intros ->; congruence).
  assert (Hbidx : b <> idx) by (intros ->; congruence).
  rewrite <- Hbase in *. rewrite Hgp in *. cbn [num_add] in *.
  pose proof (relax_inv g cap nodeUsage startIndex s rank k sc heapSize idx b
                (Fin (gp + c)) hb HI Hopen (ex_intro _ c Hedge) (fun _ => Hidx))
    as [HI' Hclosed'].
  unfold relax in *. rewrite Hs in *.
  destruct (cellIsNot (gStamp sc) b s
            || num_lt (Fin (gp + c)) (num_add (getNum (gScore sc) b) (- slack))) eqn:Htest.
  2: { (* the score of the target stands *)
    apply orb_false_iff in Htest. destruct Htest as [Hst Hlt].
    unfold cellIsNot in Hst. apply negb_false_iff in Hst.
    destruct (Hscore b Hst) as [gb [Hgb _]]. rewrite Hgb in Hlt. cbn in Hlt.
    apply Qltb_ge in Hlt.
    split; [| split; [exact Hidx | exact Hgp]]. cbn [fst snd].
    eapply CostInv_settle; [exact HC |].
    intros p b' c' Hp Hin [Hne | Hdone]; [left; now left |].
    apply in_app_or in Hdone. destruct Hdone as [Hdone | [Heq | []]]; [left; now right |].
    inversion Heq. subst b' c'.
    destruct (Z.eq_dec p idx) as [-> | Hne]; [| left; now left].
    right. right. split; [exact Hst |]. unfold scoreOf. rewrite Hgb, Hgp. lra. }
  (* the target takes the new score and is pushed *)
  cbv iota in Hroom. cbn [num_add] in Hroom |- *.
  set (mid := {| parents := seti (parents sc) b idx; closed := closed sc;
                 gScore := seti (gScore sc) b (toFloat32 (Fin (gp + c)));
                 gStamp := seti (gStamp sc) b s;
                 heapIndices := heapIndices sc; heapScores := heapScores sc;
                 stamp := s |}) in *.
  pose proof (heapPush_size mid b (Fin (gp + c + hb)) heapSize) as Hsize.
  rewrite Hsize in Hroom.
  assert (Hmidheap : isHeap mid heapSize) by exact Hheap.
  assert (Hmidcells : float32Cells mid heapSize) by exact Hcells.
  assert (Hmidroom : heapSize < lengthZ (heapScores mid)) by (cbn; lia).
  destruct (heapPush_heap mid b (Fin (gp + c + hb)) heapSize Hmidheap Hmidcells Hmidroom
              ltac:(discriminate)) as [_ [Hheap' [Hcells' Hperm]]].
  destruct (heapPush_fields mid b (Fin (gp + c + hb)) heapSize)
    as [Fp [Fc [Fg [Fs [Ft Fl]]]]].
  set (pushed := heapPush mid b (Fin (gp + c + hb)) heapSize) in *.
  unfold costExpanding. rewrite Hsize. cbn [parents closed gScore gStamp stamp heapScores mid] in Fp, Fc, Fg, Fs, Ft, Fl.
  rewrite (toFloat32_fin (gp + c)) in Fg by lra.
  rewrite (toFloat32_fin (gp + c + hb)) in Hperm by lra.
  pose proof (fround_error (gp + c) M Ht0 HtM) as [Hg1 Hg2].
  pose proof (fround_error (gp + c + hb) M Hk0 HkM) as [Hk1 Hk2].
  pose proof (fround_nonneg (gp + c) Ht0) as Hg0.
  assert (Hblen : 0 <= b < lengthZ (gScore sc)) by (unfold lengthZ in *; lia).
  assert (Hnew : scoreOf (fst pushed) b = fround (gp + c)).
  { unfold scoreOf. rewrite Fg, getNum_seti_eq by exact Hblen. reflexivity. }
  assert (Hsame : forall n, n <> b -> scoreOf (fst pushed) n = scoreOf sc n).
  { intros n Hn. unfold scoreOf. rewrite Fg, getNum_seti_ne by congruence. reflexivity. }
  assert (Hkeep : forall n, n <> b ->
            cellIs (gStamp (fst pushed)) n s = cellIs (gStamp sc) n s).
  { intros n Hn. rewrite Fs. apply cellIs_seti_ne. congruence. }
  assert (Hbst : cellIs (gStamp (fst pushed)) b s = true).
  { rewrite Fs. apply cellIs_seti_eq. unfold lengthZ in *. lia. }
  assert (Hdown : forall n, cellIs (gStamp sc) n s = true ->
            (scoreOf (fst pushed) n <= scoreOf sc n)%Q).
  { intros n Hn. destruct (Z.eq_dec n b) as [-> | Hne]; [| rewrite Hsame by exact Hne; lra].
    rewrite Hnew. unfold cellIsNot in Htest. rewrite Hn in Htest. cbn in Htest.
    destruct (Hscore b Hn) as [gb [Hgb [_ [Hfix _]]]]. rewrite Hgb in Htest. cbn in Htest.
    apply Qltb_lt in Htest. unfold scoreOf. rewrite Hgb.
    rewrite <- Hfix. apply fround_le. pose proof slack_pos. lra. }
  assert (Hin' : forall e, In e (heapEntries (fst pushed) (heapSize + 1)) <->
                           e = (b, Fin (fround (gp + c + hb))) \/ In e (heapEntries sc heapSize)).
  { intros e. split.
    - intros He. apply (Permutation_in _ Hperm) in He. destruct He as [<- | He]; [now left |].
      right. exact He.
    - intros He. apply (Permutation_in _ (Permutation_sym Hperm)).
      destruct He as [-> | He]; [now left | right; exact He]. }
  split; [| split].
  2: { cbn [fst]. rewrite Fc. exact Hidx. }
  2: { cbn [fst]. rewrite Fg, getNum_seti_ne by congruence. exact Hgp. }
  cbn [fst snd]. split.
  - exact HI'.
  - rewrite Fg, length_seti. exact Hlen.
  - rewrite (unclosed_ext sc (fst pushed) Fc (eq_trans Ft (eq_sym Hs))). exact Hcount.
  - exact Hheap'.
  - unfold lengthZ in *. rewrite Fl. exact Hcap.
  - exact Hcells'.
  - split.
    + rewrite Hkeep by congruence. apply Hstart.
    + rewrite Fg, getNum_seti_ne by congruence. apply Hstart.
  - intros n _ _. rewrite Fc. exact Hstartclosed.
  - intros n Hn. rewrite Fc in Hn. destruct (Z.eq_dec n b) as [-> | Hne]; [exact Hbst |].
    rewrite Hkeep by exact Hne. now apply Hstamped.
  - intros n Hn. destruct (Z.eq_dec n b) as [-> | Hne].
    + exists (fround (gp + c)). rewrite Fg, getNum_seti_eq by exact Hblen.
      split; [reflexivity |]. split; [exact Hg0 |]. split; [apply fround_idem | lra].
    + rewrite Hkeep in Hn by exact Hne. rewrite Fg, getNum_seti_ne by congruence.
      now apply Hscore.
  - intros n Hn. rewrite Fc in Hn.
    assert (Hne : n <> b) by (intros ->; congruence).
    rewrite Hsame by exact Hne. now apply Hcscore.
  - intros n x Hx. apply Hin' in Hx. destruct Hx as [Heq | Hold].
    + inversion Heq. subst n x. split; [exact Hbst |].
      exists (fround (gp + c + hb)). split; [reflexivity |]. rewrite Hnew. lra.
    + destruct (Hentry n x Hold) as [Hn [key [Hx Hkey]]].
      split.
      * destruct (Z.eq_dec n b) as [-> | Hne]; [exact Hbst | now rewrite Hkeep].
      * exists key. split; [exact Hx |]. pose proof (Hdown n Hn). lra.
  - intros n Hn Hnc. rewrite Fc in Hnc. destruct (Z.eq_dec n b) as [-> | Hne].
    + exists (fround (gp + c + hb)). split; [apply Hin'; now left |]. rewrite Hnew. lra.
    + rewrite Hkeep in Hn by exact Hne.
      destruct (Hopenset n Hn Hnc) as [key [Hin Hkey]].
      exists key. split; [apply Hin'; now right |]. rewrite Hsame by exact Hne. exact Hkey.
  - intros u w Hu Hw. rewrite Fc in Hu.
    assert (Hne : u <> b) by (intros ->; congruence).
    rewrite Hsame by exact Hne. now apply Hclosed.
  - intros p b' c' Hp Hin Hset. rewrite Fc in Hp.
    assert (Hpb : p <> b) by (intros ->; congruence).
    assert (Hcarry : relaxedEdge s rounding sc p b' c' ->
                     relaxedEdge s rounding (fst pushed) p b' c').
    { intros [Hcl | [Hst Hle]]; [left; now rewrite Fc |].
      right. split.
      - destruct (Z.eq_dec b' b) as [-> | Hne]; [exact Hbst | now rewrite Hkeep].
      - rewrite (Hsame p Hpb). pose proof (Hdown b' Hst). lra. }
    destruct Hset as [Hne | Hdone]; [apply Hcarry; apply Hrelaxed; auto |].
    apply in_app_or in Hdone. destruct Hdone as [Hdone | [Heq | []]];
      [apply Hcarry; apply Hrelaxed; auto |].
    inversion Heq. subst b' c'.
    destruct (Z.eq_dec p idx) as [-> | Hne]; [| apply Hcarry; apply Hrelaxed; auto].
    right. split; [exact Hbst |]. rewrite Hnew, (Hsame idx) by congruence.
    rewrite Hsp. pose proof slack_pos. lra.
  - intros n Hn Hns. destruct (Z.eq_dec n b) as [-> | Hne].
    + exists idx, c. rewrite Fp, Fc.
      split; [apply geti_seti_eq; unfold lengthZ in *; lia |].
      split; [exact Hidx |]. split; [exact Hedge |].
      rewrite Hnew, (Hsame idx) by congruence. rewrite Hsp. lra.
    + rewrite Hkeep in Hn by exact Hne.
      destruct (Hparent n Hn Hns) as [p [c' [Hp [Hpc [Hpe Hps]]]]].
      exists p, c'. rewrite Fp, Fc.
      split; [rewrite geti_seti_ne by congruence; exact Hp |].
      split; [exact Hpc |]. split; [exact Hpe |].
      assert (Hpb : p <> b) by (intros ->; congruence).
      rewrite (Hsame p Hpb), (Hsame n Hne). exact Hps.
Qed.

Lemma relax_size (sc : Scratch) (heapSize idx nIdx : Z) (tentative : num) (h : Q) :
  heapSize <= snd (relax sc heapSize idx nIdx tentative h).
Proof.
  unfold relax. destruct (cellIsNot _ _ _ || num_lt _ _); [| simpl; lia].
  rewrite heapPush_size. lia.
Qed.

(** A loop of relaxations: the heap does not shrink, and as long as it
    fits its arrays the invariant holds with the edges of the passes
    added to the relaxed ones. *)
Lemma fold_cost {B : Type} (inv : list (Z * Q) -> Scratch * Z -> Prop)
  (f : Scratch * Z -> B -> Scratch * Z) (F : B -> list (Z * Q)) (l : list B)
  (done : list (Z * Q)) (st : Scratch * Z) :
  (forall x st0, In x l -> snd st0 <= snd (f st0 x)) ->
  (forall x st0 done0, In x l -> inv done0 st0 -> snd (f st0 x) <= capacity ->
     inv (done0 ++ F x) (f st0 x)) ->
  (snd st <= capacity -> inv done st) ->
  snd st <= snd (fold_left f l st)
  /\ (snd (fold_left f l st) <= capacity -> inv (done ++ flat_map F l) (fold_left f l st)).
Proof.
  revert done st. induction l as [| x l IH]; intros done st Hmono Hstep Hst.
  - simpl. rewrite app_nil_r. split; [lia | exact Hst].
  - simpl fold_left. simpl flat_map.
    assert (Hx : snd st <= snd (f st x)) by (apply Hmono; now left).
    destruct (IH (done ++ F x) (f st x)) as [Hsize Hinv].
    + intros y st0 Hy. apply Hmono. now right.
    + intros y st0 done0 Hy. apply Hstep. now right.
    + intros Hroom. apply Hstep; [now left | apply Hst; lia | exact Hroom].
    + split; [lia |]. rewrite app_assoc. exact Hinv.
Qed.

Section Expansion.
Variable rank : Z -> nat.
Variable k : nat.
Variable idx : Z.
Variable baseCost : num.

Local Abbreviation expandingWith :=
  (costExpanding g cap nodeUsage endCoords startIndex s capacity eta cmax rounding
                 rank k idx baseCost).

Lemma expanding_stamp (done : list (Z * Q)) (st : Scratch * Z) :
  expandingWith done st -> stamp (fst st) = s.
Proof. intros [[[Hs _ _ _ _ _ _ _] _ _ _ _ _ _ _ _ _ _ _ _ _ _ _] _]. exact Hs. Qed.

(** An edge whose target is closed counts as relaxed. *)
Lemma closed_cost (done : list (Z * Q)) (st : Scratch * Z) (b : Z) (c : Q) :
  expandingWith done st -> cellIs (closed (fst st)) b s = true ->
  expandingWith (done ++ [(b, c)]) st.
Proof.
  intros [HC Hrest] Hb. split; [| exact Hrest].
  eapply CostInv_settle; [exact HC |].
  intros p b' c' Hp Hin [Hne | Hdone]; [left; now left |].
  apply in_app_or in Hdone. destruct Hdone as [Hdone | [Heq | []]]; [left; now right |].
  inversion Heq. subst b' c'. right. now left.
Qed.

(** The edge of one pass, entered or found closed. *)
Lemma edge_cost (done : list (Z * Q)) (sc : Scratch) (heapSize b : Z) (c hb : Q) :
  expandingWith done (sc, heapSize) -> In (b, c, hb) (pushes idx) ->
  snd (if cellIs (closed sc) b s then (sc, heapSize)
       else relax sc heapSize idx b (num_add baseCost c) hb) <= capacity ->
  expandingWith (done ++ [(b, c)])
    (if cellIs (closed sc) b s then (sc, heapSize)
     else relax sc heapSize idx b (num_add baseCost c) hb).
Proof.
  intros Hst Hpush Hroom. destruct (cellIs (closed sc) b s) eqn:Hclosed.
  - now apply closed_cost.
  - now apply relax_cost.
Qed.

Lemma nothing_cost (done : list (Z * Q)) (st : Scratch * Z) :
  expandingWith done st -> expandingWith (done ++ []) st.
Proof. now rewrite app_nil_r. Qed.

Lemma relaxNeighbor_size (st : Scratch * Z) (o : NeighborOffset) :
  snd st <= snd (relaxNeighbor g cap nodeUsage endCoords idx baseCost st o).
Proof.
  destruct st as [sc heapSize]. unfold relaxNeighbor.
  repeat match goal with
         | |- context [if ?b then _ else _] => destruct b
         end; simpl; try lia; apply relax_size.
Qed.

Lemma relaxNeighbor_cost (done : list (Z * Q)) (st : Scratch * Z) (o : NeighborOffset) :
  idx < holeCenterBaseIndex g -> In o (neighborOffsets g) ->
  expandingWith done st ->
  snd (relaxNeighbor g cap nodeUsage endCoords idx baseCost st o) <= capacity ->
  expandingWith
    (done ++ (if inLattice g (ixOf g idx + dx o) (iyOf g idx + dy o) (izOf g idx + dz o)
                 && negb (isBoundaryEdge g (ixOf g idx) (ixOf g idx + dx o) (izOf g idx)
                                         (izOf g idx + dz o))
                 && negb (cellGe nodeUsage (idx + delta o) cap)
                 && negb (segmentHitsBuildings g idx (idx + delta o))
              then [(idx + delta o, cost o)] else []))
    (relaxNeighbor g cap nodeUsage endCoords idx baseCost st o).
Proof.
  intros Hbase Ho Hst. pose proof (expanding_stamp done st Hst) as Hs.
  destruct st as [sc heapSize]. cbn [fst] in Hs. unfold relaxNeighbor. rewrite Hs.
  destruct (inLattice g (ixOf g idx + dx o) (iyOf g idx + dy o) (izOf g idx + dz o))
    eqn:Hin; cbn [negb andb]; [| intros _; now apply nothing_cost].
  destruct (isBoundaryEdge g (ixOf g idx) (ixOf g idx + dx o) (izOf g idx)
              (izOf g idx + dz o)) eqn:Hseal; cbn [negb andb];
    [intros _; now apply nothing_cost |].
  destruct (cellGe nodeUsage (idx + delta o) cap) eqn:Hcap; cbn [negb andb];
    [intros _; now apply nothing_cost |].
  destruct (segmentHitsBuildings g idx (idx + delta o)) eqn:Hhit; cbn [negb].
  - destruct (cellIs (closed sc) (idx + delta o) s); intros _; now apply nothing_cost.
  - intros Hroom.
    assert (Hpush : In (idx + delta o, cost o,
              heuristic endCoords
                (vertexStartX g + inject_Z (ixOf g idx) * voxelSizeXZ g
                 + inject_Z (dx o) * voxelSizeXZ g)%Q
                (vertexStartY g + inject_Z (iyOf g idx) * voxelHeight g
                 + inject_Z (dy o) * voxelHeight g)%Q
                (vertexStartZ g + inject_Z (izOf g idx) * voxelSizeXZ g
                 + inject_Z (dz o) * voxelSizeXZ g)%Q) (pushes idx)).
    { unfold pushesFrom.
      destruct (idx <? holeCenterBaseIndex g) eqn:Hlt; [| apply Z.ltb_ge in Hlt; lia].
      apply in_or_app. left. unfold latticePushes. apply in_flat_map. exists o.
      split; [exact Ho |]. rewrite Hin, Hseal, Hcap, Hhit. now left. }
    pose proof (edge_cost done sc heapSize _ _ _ Hst Hpush) as Hstep.
    destruct (cellIs (closed sc) (idx + delta o) s); now apply Hstep.
Qed.

Lemma relaxHoleCenter_size (st : Scratch * Z) (cell : Z * Z) :
  snd st <= snd (relaxHoleCenter g cap nodeUsage endCoords idx baseCost st cell).
Proof.
  destruct st as [sc heapSize]. destruct cell as [cellX cellZ]. unfold relaxHoleCenter.
  destruct (holeIndexAt g cellX cellZ); [| simpl; lia].
  repeat match goal with
         | |- context [if ?b then _ else _] => destruct b
         end; simpl; try lia; apply relax_size.
Qed.

Lemma relaxHoleCenter_cost (done : list (Z * Q)) (st : Scratch * Z) (cell : Z * Z) :
  idx < holeCenterBaseIndex g -> 0 < holeCenterCount g ->
  In cell (adjacentCells g (ixOf g idx) (izOf g idx)) ->
  expandingWith done st ->
  snd (relaxHoleCenter g cap nodeUsage endCoords idx baseCost st cell) <= capacity ->
  expandingWith
    (done ++ match holeIndexAt g (fst cell) (snd cell) with
             | Some holeIndex =>
                 let b := holeCenterBaseIndex g + holeIndex * vertexCountY g + iyOf g idx in
                 if cellGe nodeUsage b cap then []
                 else
                   let x0 := (vertexStartX g + inject_Z (ixOf g idx) * voxelSizeXZ g)%Q in
                   let z0 := (vertexStartZ g + inject_Z (izOf g idx) * voxelSizeXZ g)%Q in
                   let centerX := (gridStartX g + inject_Z (fst cell) * step g)%Q in
                   let centerZ := (gridStartZ g + inject_Z (snd cell) * step g)%Q in
                   let ddx := (centerX - x0)%Q in
                   let ddz := (centerZ - z0)%Q in
                   [(b, Math_sqrt (ddx * ddx + ddz * ddz)%Q)]
             | None => []
             end)
    (relaxHoleCenter g cap nodeUsage endCoords idx baseCost st cell).
Proof.
  intros Hbase Hholes Hcell Hst. pose proof (expanding_stamp done st Hst) as Hs.
  destruct st as [sc heapSize]. cbn [fst] in Hs. unfold relaxHoleCenter. rewrite Hs.
  destruct cell as [cellX cellZ]. cbn [fst snd]. cbv zeta.
  destruct (holeIndexAt g cellX cellZ) as [holeIndex |] eqn:Hhole;
    [| intros _; now apply nothing_cost].
  destruct (cellGe nodeUsage _ cap) eqn:Hcap; [intros _; now apply nothing_cost |].
  intros Hroom.
  match goal with
  | |- context [relax sc heapSize idx ?b (num_add baseCost ?c) ?hb] =>
      assert (Hpush : In (b, c, hb) (pushes idx))
  end.
  { unfold pushesFrom.
    destruct (idx <? holeCenterBaseIndex g) eqn:Hlt; [| apply Z.ltb_ge in Hlt; lia].
    apply in_or_app. right. unfold holeEntryPushes.
    destruct (0 <? holeCenterCount g) eqn:Hpos; [| apply Z.ltb_ge in Hpos; lia].
    apply in_flat_map. exists (cellX, cellZ). split; [exact Hcell |].
    cbn [fst snd]. rewrite Hhole. cbv zeta. rewrite Hcap. now left. }
  pose proof (edge_cost done sc heapSize _ _ _ Hst Hpush) as Hstep.
  match goal with
  | |- context [cellIs (closed sc) ?b s] => destruct (cellIs (closed sc) b s)
  end; now apply Hstep.
Qed.

Lemma expanding_base (done : list (Z * Q)) (st : Scratch * Z) :
  expandingWith done st -> baseCostOf (fst st) idx = baseCost.
Proof.
  intros Hst. pose proof (expanding_stamp done st Hst) as Hs.
  destruct Hst as [HC [Hidx Hbase]]. unfold baseCostOf. rewrite Hs.
  rewrite (ci_stamped _ _ _ _ _ _ _ _ _ _ _ _ _ _ _ HC idx Hidx). exact Hbase.
Qed.

(** Once all edges out of the expanded node are relaxed, the invariant
    of the loop head holds again. *)
Lemma expanding_done (st : Scratch * Z) :
  expandingWith (edges idx) st ->
  Inv (fun _ _ _ => True) rank k (fst st) (snd st).
Proof.
  intros [HC _]. eapply CostInv_settle; [exact HC |].
  intros p b c _ Hin _. left.
  destruct (Z.eq_dec p idx) as [-> | Hne]; [now right | now left].
Qed.

Lemma expandLattice_cost (st : Scratch * Z) :
  idx < holeCenterBaseIndex g ->
  expandingWith [] st ->
  snd st <= snd (expandLattice g cap nodeUsage endCoords idx st)
  /\ (snd (expandLattice g cap nodeUsage endCoords idx st) <= capacity ->
      Inv (fun _ _ _ => True) rank k
          (fst (expandLattice g cap nodeUsage endCoords idx st))
          (snd (expandLattice g cap nodeUsage endCoords idx st))).
Proof.
  intros Hbase Hst. unfold expandLattice. rewrite (expanding_base [] st Hst).
  assert (Hedges : edges idx = latticeEdges g cap nodeUsage idx
                               ++ holeEntryEdges g cap nodeUsage idx).
  { unfold edgesFrom. destruct (idx <? holeCenterBaseIndex g) eqn:Hlt; [reflexivity |].
    apply Z.ltb_ge in Hlt. lia. }
  destruct (fold_cost expandingWith
              (relaxNeighbor g cap nodeUsage endCoords idx baseCost) _
              (neighborOffsets g) [] st
              (fun o st0 _ => relaxNeighbor_size st0 o)
              (fun o st0 done0 Ho => relaxNeighbor_cost done0 st0 o Hbase Ho)
              (fun _ => Hst)) as [Hsize1 Hinv1].
  set (st1 := fold_left _ (neighborOffsets g) st) in *.
  change (flat_map _ (neighborOffsets g)) with (latticeEdges g cap nodeUsage idx) in Hinv1.
  cbn [app] in Hinv1.
  destruct (0 <? holeCenterCount g) eqn:Hholes.
  - apply Z.ltb_lt in Hholes.
    destruct (fold_cost expandingWith
                (relaxHoleCenter g cap nodeUsage endCoords idx baseCost) _
                (adjacentCells g (ixOf g idx) (izOf g idx))
                (latticeEdges g cap nodeUsage idx) st1
                (fun cell st0 _ => relaxHoleCenter_size st0 cell)
                (fun cell st0 done0 Hc =>
                   relaxHoleCenter_cost done0 st0 cell Hbase Hholes Hc)
                Hinv1) as [Hsize2 Hinv2].
    split; [lia |]. intros Hroom. apply expanding_done. rewrite Hedges.
    specialize (Hinv2 Hroom). unfold holeEntryEdges.
    destruct (0 <? holeCenterCount g) eqn:Hpos; [| apply Z.ltb_ge in Hpos; lia].
    exact Hinv2.
  - split; [exact Hsize1 |]. intros Hroom. apply expanding_done. rewrite Hedges.
    unfold holeEntryEdges. rewrite Hholes. rewrite app_nil_r. now apply Hinv1.
Qed.

End Expansion.

Section HoleExpansion.
Variable rank : Z -> nat.
Variable k : nat.
Variable idx : Z.
Variable baseCost : num.

Local Abbreviation expandingHole :=
  (costExpanding g cap nodeUsage endCoords startIndex s capacity eta cmax rounding
                 rank k idx baseCost).

Lemma relaxCorner_size (cellX cellZ iy : Z) (st : Scratch * Z) (corner : Z * Z) :
  snd st <= snd (relaxCorner g cap nodeUsage endCoords idx cellX cellZ iy baseCost st corner).
Proof.
  destruct st as [sc heapSize]. unfold relaxCorner.
  repeat match goal with
         | |- context [if ?b then _ else _] => destruct b
         end; simpl; try lia; apply relax_size.
Qed.

Lemma relaxVertical_size (nIdx : Z) (x0 y1 z0 : Q) (st : Scratch * Z) :
  snd st <= snd (relaxVertical g endCoords idx nIdx baseCost x0 y1 z0 st).
Proof.
  destruct st as [sc heapSize]. unfold relaxVertical.
  destruct (cellIsNot _ _ _); [apply relax_size | simpl; lia].
Qed.

Lemma relaxVertical_cost (done : list (Z * Q)) (nIdx : Z) (x0 y1 z0 : Q)
  (st : Scratch * Z) :
  In (nIdx, voxelHeight g, heuristic endCoords x0 y1 z0) (pushes idx) ->
  expandingHole done st ->
  snd (relaxVertical g endCoords idx nIdx baseCost x0 y1 z0 st) <= capacity ->
  expandingHole (done ++ [(nIdx, voxelHeight g)])
                (relaxVertical g endCoords idx nIdx baseCost x0 y1 z0 st).
Proof.
  intros Hpush Hst. pose proof (expanding_stamp rank k idx baseCost done st Hst) as Hs.
  destruct st as [sc heapSize]. cbn [fst] in Hs. unfold relaxVertical, cellIsNot.
  rewrite Hs. intros Hroom.
  pose proof (edge_cost rank k idx baseCost done sc heapSize _ _ _ Hst Hpush) as Hstep.
  destruct (cellIs (closed sc) nIdx s); now apply Hstep.
Qed.

Lemma expandHole_cost (st : Scratch * Z) :
  holeCenterBaseIndex g <= idx ->
  expandingHole [] st ->
  snd st <= snd (expandHole g cap nodeUsage endCoords idx st)
  /\ (snd (expandHole g cap nodeUsage endCoords idx st) <= capacity ->
      Inv (fun _ _ _ => True) rank k
          (fst (expandHole g cap nodeUsage endCoords idx st))
          (snd (expandHole g cap nodeUsage endCoords idx st))).
Proof.
  intros Hbase Hst. unfold expandHole.
  rewrite (expanding_base rank k idx baseCost [] st Hst).
  assert (Hedges : edges idx = holeEdges g cap nodeUsage idx).
  { unfold edgesFrom. destruct (idx <? holeCenterBaseIndex g) eqn:Hlt; [| reflexivity].
    apply Z.ltb_lt in Hlt. lia. }
  assert (Hpushes : pushes idx = holePushes g cap nodeUsage endCoords idx).
  { unfold pushesFrom. destruct (idx <? holeCenterBaseIndex g) eqn:Hlt; [| reflexivity].
    apply Z.ltb_lt in Hlt. lia. }
  destruct (((idx - holeCenterBaseIndex g) / vertexCountY g <? 0)
            || (Z.of_nat (length (holeCells g))
                <=? (idx - holeCenterBaseIndex g) / vertexCountY g)) eqn:Hcol.
  { split; [lia |]. intros _. apply (expanding_done rank k idx baseCost).
    rewrite Hedges. unfold holeEdges. rewrite Hcol. exact Hst. }
  set (holeIndex := (idx - holeCenterBaseIndex g) / vertexCountY g) in *.
  set (iy := idx - holeCenterBaseIndex g - holeIndex * vertexCountY g).
  set (cellX := Z.rem (getInt (holeCells g) holeIndex) (gridX g)).
  set (cellZ := getInt (holeCells g) holeIndex / gridX g).
  set (x0 := (gridStartX g + inject_Z cellX * step g)%Q).
  set (y0 := (vertexStartY g + inject_Z iy * voxelHeight g)%Q).
  set (z0 := (gridStartZ g + inject_Z cellZ * step g)%Q).
  set (cornerEdge := fun corner : Z * Z =>
         if cellGe nodeUsage (cellX + fst corner + iy * strideY g
                              + (cellZ + snd corner) * strideZ g) cap
         then []
         else [(cellX + fst corner + iy * strideY g + (cellZ + snd corner) * strideZ g,
                Math_sqrt ((vertexStartX g + inject_Z (cellX + fst corner) * voxelSizeXZ g - x0)
                           * (vertexStartX g + inject_Z (cellX + fst corner) * voxelSizeXZ g - x0)
                           + (vertexStartZ g + inject_Z (cellZ + snd corner) * voxelSizeXZ g - z0)
                             * (vertexStartZ g + inject_Z (cellZ + snd corner) * voxelSizeXZ g - z0))%Q)]).
  set (down := if (0 <? iy) && negb (cellGe nodeUsage (idx - 1) cap)
               then [(idx - 1, voxelHeight g)] else []).
  set (up := if (iy + 1 <? vertexCountY g)
                && negb ((0 <? iy) && cellGe nodeUsage (idx - 1) cap)
                && negb (cellGe nodeUsage (idx + 1) cap)
             then [(idx + 1, voxelHeight g)] else []).
  assert (Hall : holeEdges g cap nodeUsage idx = flat_map cornerEdge cornerOffsets ++ down ++ up).
  { unfold holeEdges. fold holeIndex. rewrite Hcol. reflexivity. }
  assert (Hcorner : forall corner st0 done0, In corner cornerOffsets ->
            expandingHole done0 st0 ->
            snd (relaxCorner g cap nodeUsage endCoords idx cellX cellZ iy baseCost st0 corner)
            <= capacity ->
            expandingHole (done0 ++ cornerEdge corner)
              (relaxCorner g cap nodeUsage endCoords idx cellX cellZ iy baseCost st0 corner)).
  { intros corner st0 done0 Hin Hst0.
    pose proof (expanding_stamp rank k idx baseCost done0 st0 Hst0) as Hs.
    destruct st0 as [sc heapSize]. cbn [fst] in Hs. unfold relaxCorner, cornerEdge.
    rewrite Hs. cbv zeta.
    match goal with
    | |- context [if cellGe nodeUsage ?b cap then _ else _] =>
        destruct (cellGe nodeUsage b cap) eqn:Hcap
    end; [intros _; now apply (nothing_cost rank k idx baseCost) |].
    intros Hroom.
    match goal with
    | |- context [relax sc heapSize idx ?b (num_add baseCost ?c) ?hb] =>
        assert (Hpush : In (b, c, hb) (pushes idx))
    end.
    { rewrite Hpushes. unfold holePushes. fold holeIndex. rewrite Hcol. cbv zeta.
      apply in_or_app. left. apply in_flat_map. exists corner. split; [exact Hin |].
      fold iy. fold cellX. fold cellZ. rewrite Hcap. now left. }
    pose proof (edge_cost rank k idx baseCost done0 sc heapSize _ _ _ Hst0 Hpush) as Hstep.
    match goal with
    | |- context [cellIs (closed sc) ?b s] => destruct (cellIs (closed sc) b s)
    end; now apply Hstep. }
  destruct (fold_cost expandingHole
              (relaxCorner g cap nodeUsage endCoords idx cellX cellZ iy baseCost)
              cornerEdge cornerOffsets [] st
              (fun corner st0 _ => relaxCorner_size cellX cellZ iy st0 corner)
              Hcorner (fun _ => Hst)) as [Hsize1 Hinv1].
  set (st1 := fold_left _ cornerOffsets st) in *. cbn [app] in Hinv1.
  destruct ((0 <? iy) && cellGe nodeUsage (idx - 1) cap) eqn:Hskip.
  { split; [exact Hsize1 |]. intros Hroom. apply (expanding_done rank k idx baseCost).
    rewrite Hedges, Hall.
    assert (Hd : down = []).
    { unfold down. apply andb_true_iff in Hskip. destruct Hskip as [-> ->]. reflexivity. }
    assert (Hu : up = []).
    { unfold up. rewrite ?Hskip. cbn [negb]. now rewrite andb_false_r. }
    rewrite Hd, Hu, !app_nil_r. now apply Hinv1. }
  set (st2 := if 0 <? iy
              then relaxVertical g endCoords idx (idx - 1) baseCost x0
                                 (y0 - voxelHeight g)%Q z0 st1
              else st1).
  assert (Hsize2 : snd st1 <= snd st2).
  { unfold st2. destruct (0 <? iy); [apply relaxVertical_size | lia]. }
  assert (Hinv2 : snd st2 <= capacity ->
                  expandingHole (flat_map cornerEdge cornerOffsets ++ down) st2).
  { intros Hroom. unfold st2, down in *. destruct (0 <? iy) eqn:Hiy.
    - cbn [andb] in Hskip. rewrite ?Hskip. cbn [andb negb].
      apply relaxVertical_cost; [| apply Hinv1; lia | exact Hroom].
      rewrite Hpushes. unfold holePushes. fold holeIndex. rewrite Hcol. cbv zeta.
      fold iy. apply in_or_app. right. apply in_or_app. left.
      rewrite ?Hiy, ?Hskip. cbn [andb negb]. rewrite ?Hskip. now left.
    - cbn [andb]. rewrite app_nil_r. now apply Hinv1. }
  fold x0 y0 z0. fold st2.
  destruct ((iy + 1 <? vertexCountY g) && cellGe nodeUsage (idx + 1) cap) eqn:Hskip2.
  { split; [lia |]. intros Hroom. apply (expanding_done rank k idx baseCost).
    rewrite Hedges, Hall.
    assert (Hu : up = []).
    { unfold up. apply andb_true_iff in Hskip2. destruct Hskip2 as [_ ->].
      cbn [negb]. now rewrite andb_false_r. }
    rewrite Hu, app_nil_r. now apply Hinv2. }
  destruct (iy + 1 <? vertexCountY g) eqn:Hup.
  - cbn [andb] in Hskip2. split; [pose proof (relaxVertical_size (idx + 1) x0 (y0 + voxelHeight g)%Q z0 st2); lia |].
    intros Hroom. apply (expanding_done rank k idx baseCost). rewrite Hedges, Hall.
    assert (Hu : up = [(idx + 1, voxelHeight g)]).
    { unfold up. rewrite ?Hup, ?Hskip, ?Hskip2. cbn [andb negb]. rewrite ?Hskip2.
      reflexivity. }
    rewrite Hu, app_assoc.
    apply relaxVertical_cost; [| apply Hinv2 | exact Hroom].
    + rewrite Hpushes. unfold holePushes. fold holeIndex. rewrite Hcol. cbv zeta.
      fold iy. apply in_or_app. right. apply in_or_app. right.
      rewrite ?Hup, ?Hskip, ?Hskip2. cbn [andb negb]. rewrite ?Hskip2. now left.
    + pose proof (relaxVertical_size (idx + 1) x0 (y0 + voxelHeight g)%Q z0 st2). lia.
  - split; [lia |]. intros Hroom. apply (expanding_done rank k idx baseCost).
    rewrite Hedges, Hall.
    assert (Hu : up = []) by (unfold up; now rewrite ?Hup).
    rewrite Hu, app_nil_r. now apply Hinv2.
Qed.

End HoleExpansion.

(** The invariant does not depend on the heap arrays beyond the entries
    they hold. *)
Lemma CostInv_heap (settled : Z -> Z -> Q -> Prop) (rank : Z -> nat) (k : nat)
  (sc sc1 : Scratch) (size size1 : Z) :
  Inv settled rank k sc size ->
  parents sc1 = parents sc -> closed sc1 = closed sc -> gScore sc1 = gScore sc ->
  gStamp sc1 = gStamp sc -> stamp sc1 = stamp sc ->
  isHeap sc1 size1 -> lengthZ (heapScores sc1) = capacity -> float32Cells sc1 size1 ->
  (forall e, In e (heapEntries sc1 size1) -> In e (heapEntries sc size)) ->
  (forall n key, In (n, Fin key) (heapEntries sc size) -> cellIs (closed sc) n s = false ->
     In (n, Fin key) (heapEntries sc1 size1)) ->
  Inv settled rank k sc1 size1.
Proof.
  intros [HI Hlen Hcount Hheap Hcap Hcells Hstart Hroot Hstamped Hscore Hcscore
          Hentry Hopen Hclosed Hrelaxed Hparent] Fp Fc Fg Fs Ft Hheap1 Hcap1 Hcells1
         Hsub Hsup.
  assert (Hsc : forall n, scoreOf sc1 n = scoreOf sc n)
    by (intros n; now apply scoreOf_ext).
  split; unfold relaxedEdge in *; rewrite ?Fp, ?Fc, ?Fg, ?Fs; try assumption.
  - eapply SearchInv_core; [| exact HI]. repeat split; assumption.
  - rewrite (unclosed_ext sc sc1 Fc Ft). exact Hcount.
  - intros n Hn. rewrite Hsc. now apply Hcscore.
  - intros n x Hx. rewrite Hsc. apply Hentry. now apply Hsub.
  - intros n Hn Hnc. rewrite Hsc. destruct (Hopen n Hn Hnc) as [key [Hin Hkey]].
    exists key. split; [now apply Hsup | exact Hkey].
  - intros u w Hu Hw. rewrite Hsc. now apply Hclosed.
  - intros p b c Hp Hin Hset. rewrite !Hsc. now apply Hrelaxed.
  - intros n Hn Hns. destruct (Hparent n Hn Hns) as [p [c Hrest]].
    exists p, c. rewrite !Hsc. exact Hrest.
Qed.

(** What a pop leaves of the heap. *)
Lemma heapPop_entries (sc sc1 : Scratch) (size size1 idx : Z) (x : num) :
  isHeap sc size -> float32Cells sc size -> 0 < size ->
  heapPop sc size = Some (idx, x, sc1, size1) ->
  size1 = size - 1 /\ isHeap sc1 size1 /\ float32Cells sc1 size1
  /\ In (idx, x) (heapEntries sc size)
  /\ (forall e, In e (heapEntries sc1 size1) -> In e (heapEntries sc size))
  /\ (forall e, In e (heapEntries sc size) -> e = (idx, x) \/ In e (heapEntries sc1 size1))
  /\ (forall e, In e (heapEntries sc size) -> num_le x (snd e) = true).
Proof.
  intros Hheap Hcells Hpos Hpop.
  destruct (heapPop_heap sc size Hheap Hpos) as [idx' [x' [sc' [Hpop' [Hheap' [Hperm Hleast]]]]]].
  rewrite Hpop in Hpop'. inversion Hpop'. subst idx' x' sc' size1.
  split; [reflexivity |]. split; [exact Hheap' |].
  split; [| split; [| split; [| split]]].
  - unfold float32Cells in *.
    pose proof (Permutation_Forall Hperm Hcells) as Hall. now inversion Hall.
  - apply (Permutation_in _ (Permutation_sym Hperm)). now left.
  - intros e He. apply (Permutation_in _ (Permutation_sym Hperm)). now right.
  - intros e He. apply (Permutation_in _ Hperm) in He. destruct He as [<- | He]; auto.
  - intros e He. rewrite List.Forall_forall in Hleast. now apply Hleast.
Qed.

(** A popped entry of a closed node is dropped. *)
Lemma pop_skip_cost (rank : Z -> nat) (k : nat) (sc sc1 : Scratch) (size size1 idx : Z)
  (x : num) :
  Inv (fun _ _ _ => True) rank k sc size -> 0 < size ->
  heapPop sc size = Some (idx, x, sc1, size1) ->
  cellIs (closed sc1) idx s = true ->
  Inv (fun _ _ _ => True) rank k sc1 size1.
Proof.
  intros HC Hpos Hpop Hidx.
  destruct (heapPop_fields sc sc1 size size1 idx x Hpop) as [Fp [Fc [Fg [Fs [Ft Fl]]]]].
  destruct (heapPop_entries sc sc1 size size1 idx x (ci_heap _ _ _ _ _ _ _ _ _ _ _ _ _ _ _ HC)
              (ci_cells _ _ _ _ _ _ _ _ _ _ _ _ _ _ _ HC) Hpos Hpop)
    as [_ [Hheap1 [Hcells1 [_ [Hsub [Hsup _]]]]]].
  apply (CostInv_heap _ rank k sc sc1 size size1 HC Fp Fc Fg Fs Ft Hheap1); try assumption.
  - unfold lengthZ. rewrite Fl. exact (ci_capacity _ _ _ _ _ _ _ _ _ _ _ _ _ _ _ HC).
  - intros n key Hin Hnc. destruct (Hsup _ Hin) as [Heq | Hin1]; [| exact Hin1].
    inversion Heq. subst. rewrite Fc in Hidx. congruence.
Qed.

Section Closing.
Variable rank : Z -> nat.
Variable k : nat.
Variable sc : Scratch.
Variable size : Z.
Variable u : Z.
Hypothesis HC : Inv (fun _ _ _ => True) rank k sc size.
Hypothesis Hu : cellIs (closed sc) u s = false.
Hypothesis Hkey : forall v, cellIs (gStamp sc) v s = true -> cellIs (closed sc) v s = false ->
  (scoreOf sc u <= scoreOf sc v + est v - est u + 2 * eta + 4 * rounding)%Q.

Local Abbreviation tol := (searchTolerance eta rounding).
Local Abbreviation cost := (walkCost g cap nodeUsage).

Lemma closed_range (a : Z) : cellIs (closed sc) a s = true -> 0 <= a < lengthZ nodeUsage.
Proof.
  intros Ha. apply cellIs_range in Ha.
  pose proof (inv_len_closed _ _ _ _ _ _ _ _ (ci_search _ _ _ _ _ _ _ _ _ _ _ _ _ _ _ HC)).
  unfold lengthZ in *. lia.
Qed.

Lemma tol_facts : (0 <= tol - eta)%Q /\ (2 * eta + 4 * rounding <= tol - eta)%Q.
Proof.
  unfold searchTolerance. pose proof rounding_pos. pose proof slack_pos. split; lra.
Qed.

(** Along a walk whose first nodes are closed, the score of the popped
    node is bounded through the first node that is not closed. *)
Lemma walk_bound_from (suf pre : list Z) (a : Z) :
  isWalk g cap nodeUsage startIndex a (pre ++ [a]) ->
  cellIs (closed sc) a s = true ->
  linked (searchEdge g cap nodeUsage) (a :: suf) -> last (a :: suf) = Some u ->
  (scoreOf sc u <= cost ((pre ++ [a]) ++ suf) + hops ((pre ++ [a]) ++ suf) * tol)%Q.
Proof.
  revert pre a. induction suf as [| b suf IH]; intros pre a Hwalk Ha Hlinked Hlast.
  - simpl in Hlast. inversion Hlast. subst a. congruence.
  - destruct Hlinked as [[c Hedge] Hrest]. rewrite last_cons_cons in Hlast.
    pose proof (closed_range a Ha) as Harange.
    destruct (fits_edge g cap nodeUsage endCoords eta cmax hmax Hfits a b c Harange Hedge)
      as [Hbrange [Hc [_ Hcost]]].
    destruct (cellIs (closed sc) b s) eqn:Hb.
    + pose proof (IH (pre ++ [a]) b
                    (isWalk_snoc g cap nodeUsage startIndex a b pre Hwalk
                                 (ex_intro _ c Hedge)) Hb Hrest Hlast) as Hbound.
      rewrite <- (app_assoc (pre ++ [a]) [b] suf) in Hbound. exact Hbound.
    + destruct (ci_relaxed _ _ _ _ _ _ _ _ _ _ _ _ _ _ _ HC a b c Ha Hedge I)
        as [Hbc | [Hbst Hble]]; [congruence |].
      pose proof (ci_closed _ _ _ _ _ _ _ _ _ _ _ _ _ _ _ HC a (pre ++ [a]) Ha Hwalk) as Hpre.
      pose proof (Hkey b Hbst Hb) as Hk.
      destruct (estimate_chain g cap nodeUsage endCoords eta cmax hmax Hfits suf b u
                  Hbrange Hrest Hlast) as [Hchain [Hpos _]].
      rewrite <- (app_assoc pre [a] (b :: suf)). cbn [app].
      rewrite (walkCost_app g cap nodeUsage pre a (b :: suf)).
      rewrite (hops_app pre a (b :: suf)), (hops_cons a b suf).
      change (cost (a :: b :: suf)) with (edgeCost g cap nodeUsage a b + cost (b :: suf))%Q.
      rewrite Hcost.
      pose proof (hops_nonneg b suf) as Hh. destruct tol_facts as [Ht1 Ht2].
      assert (Hm : (0 <= hops (b :: suf) * (tol - eta))%Q)
        by (apply Qmult_le_0_compat; assumption).
      set (h := hops (b :: suf)) in *. set (hp := hops (pre ++ [a])) in *.
      unfold searchTolerance in *. lra.
Qed.

(** The score of the popped node exceeds the cost of no walk from the
    start by more than the tolerance per edge. *)
Lemma popped_bound (w : list Z) :
  isWalk g cap nodeUsage startIndex u w ->
  0 <= startIndex < lengthZ nodeUsage ->
  (scoreOf sc u <= cost w + hops w * tol)%Q.
Proof.
  intros [Hhead [Hlast Hlinked]] Hstart.
  destruct w as [| a suf]; [discriminate |]. simpl in Hhead. inversion Hhead. subst a.
  destruct (cellIs (closed sc) startIndex s) eqn:Hsc.
  - apply (walk_bound_from suf [] startIndex); try assumption.
    repeat split.
  - destruct (ci_start _ _ _ _ _ _ _ _ _ _ _ _ _ _ _ HC) as [Hst Hzero].
    assert (Hs0 : scoreOf sc startIndex = 0%Q) by (unfold scoreOf; now rewrite Hzero).
    destruct suf as [| b suf].
    + simpl in Hlast. inversion Hlast. subst u. rewrite Hs0. rewrite hops_one. simpl. lra.
    + pose proof (Hkey startIndex Hst Hsc) as Hk. rewrite Hs0 in Hk.
      destruct (estimate_chain g cap nodeUsage endCoords eta cmax hmax Hfits (b :: suf)
                  startIndex u Hstart Hlinked Hlast) as [Hchain [Hpos _]].
      rewrite hops_cons in *.
      pose proof (hops_nonneg b suf) as Hh. destruct tol_facts as [Ht1 Ht2].
      assert (Hm : (0 <= hops (b :: suf) * (tol - eta))%Q)
        by (apply Qmult_le_0_compat; assumption).
      set (h := hops (b :: suf)) in *.
      unfold searchTolerance in *. lra.
Qed.

End Closing.

Hypothesis Hstart : 0 <= startIndex < lengthZ nodeUsage.

(** Closing the popped node: its score is final, within the tolerance
    of every walk from the start. *)
Lemma close_cost (rank : Z -> nat) (k : nat) (sc sc1 : Scratch) (size size1 idx : Z)
  (x : num) :
  Inv (fun _ _ _ => True) rank k sc size -> 0 < size ->
  heapPop sc size = Some (idx, x, sc1, size1) ->
  cellIs (closed sc1) idx s = false ->
  costExpanding g cap nodeUsage endCoords startIndex s capacity eta cmax rounding
                (fun n => if n =? idx then k else rank n) (S k) idx
                (getNum (gScore sc1) idx) [] (setClosed sc1 idx, size1).
Proof.
  intros HC Hpos Hpop Hidx. pose proof rounding_pos as Hd.
  destruct (heapPop_fields sc sc1 size size1 idx x Hpop) as [Fp [Fc [Fg [Fs [Ft Fl]]]]].
  pose proof HC as [HI Hlen Hcount Hheap Hcap Hcells Hst Hroot Hstamped Hscore Hcscore
                    Hentry Hopen Hclosed Hrelaxed Hparent].
  pose proof HI as [Hs Hl1 Hl2 Hl3 _ _ _ Hrank].
  destruct (heapPop_entries sc sc1 size size1 idx x Hheap Hcells Hpos Hpop)
    as [_ [Hheap1 [Hcells1 [Hin [Hsub [Hsup Hleast]]]]]].
  rewrite Fc in Hidx.
  destruct (Hentry idx x Hin) as [Histamp [ku [Hx Hku]]]. subst x.
  assert (Hirange : 0 <= idx < lengthZ (closed sc)).
  { apply cellIs_range in Histamp. unfold lengthZ in *. lia. }
  assert (HI1 : SearchInv g cap nodeUsage startIndex s rank k sc1).
  { eapply SearchInv_core; [| exact HI]. repeat split; assumption. }
  assert (Hidx1 : cellIs (closed sc1) idx s = false) by (now rewrite Fc).
  destruct (setClosed_inv g cap nodeUsage startIndex s rank k sc1 idx HI1 Hidx1)
    as [HI2 _].
  assert (Hst1 : stamp sc1 = s) by congruence.
  assert (Hc2 : closed (setClosed sc1 idx) = seti (closed sc) idx s).
  { unfold setClosed. cbn [closed]. now rewrite Fc, Hst1. }
  assert (Hmono : forall n, cellIs (closed sc) n s = true ->
                            cellIs (seti (closed sc) idx s) n s = true)
    by (intros n; apply cellIs_seti_mono).
  assert (Hback : forall n, cellIs (seti (closed sc) idx s) n s = true ->
                            n = idx \/ (n <> idx /\ cellIs (closed sc) n s = true)).
  { intros n Hn. destruct (Z.eq_dec n idx) as [-> | Hne]; [now left |].
    right. split; [exact Hne |]. now rewrite cellIs_seti_ne in Hn by congruence. }
  assert (Hsc : forall n, scoreOf (setClosed sc1 idx) n = scoreOf sc n).
  { intros n. apply scoreOf_ext. exact Fg. }
  assert (Hkey : forall v, cellIs (gStamp sc) v s = true -> cellIs (closed sc) v s = false ->
            (scoreOf sc idx <= scoreOf sc v + est v - est idx + 2 * eta + 4 * rounding)%Q).
  { intros v Hv Hvc. destruct (Hopen v Hv Hvc) as [kv [Hvin Hkv]].
    pose proof (Hleast _ Hvin) as Hle. cbn in Hle. apply Qle_bool_iff in Hle. lra. }
  assert (Hbound : (inject_Z (Z.of_nat k) * (cmax + rounding)
                    <= inject_Z (Z.of_nat (S k)) * (cmax + rounding))%Q).
  { apply Qmult_le_compat_r; [| lra]. rewrite <- Zle_Qle. lia. }
  split; [| split].
  2: { cbn [fst]. rewrite Hc2. apply cellIs_seti_eq. exact Hirange. }
  2: { reflexivity. }
  cbn [fst snd]. split; unfold relaxedEdge; rewrite ?Hc2;
    change (gStamp (setClosed sc1 idx)) with (gStamp sc1);
    change (gScore (setClosed sc1 idx)) with (gScore sc1);
    change (parents (setClosed sc1 idx)) with (parents sc1);
    rewrite ?Fs, ?Fg, ?Fp; try assumption.
  - assert (Hless : S (unclosed (setClosed sc1 idx)) = unclosed sc1).
    { apply unclosed_setClosed_inside; [rewrite Fc; exact Hirange |].
      rewrite Hst1. exact Hidx1. }
    rewrite (unclosed_ext sc sc1 Fc Ft) in Hless. lia.
  - unfold lengthZ in *. cbn [heapScores setClosed]. rewrite Fl. exact Hcap.
  - intros n Hn Hns. apply Hmono. exact (Hroot n Hn Hns).
  - intros n Hn. destruct (Hback n Hn) as [-> | [_ Hold]]; [exact Histamp | now apply Hstamped].
  - intros n Hn. destruct (Hscore n Hn) as [q [Hq [Hq0 [Hfix Hqk]]]].
    exists q. repeat split; try assumption. lra.
  - intros n Hn. rewrite Hsc. destruct (Hback n Hn) as [-> | [Hne Hold]].
    + rewrite Z.eqb_refl. destruct (Hscore idx Histamp) as [q [Hq [_ [_ Hqk]]]].
      unfold scoreOf. rewrite Hq. exact Hqk.
    + destruct (n =? idx) eqn:Hni; [apply Z.eqb_eq in Hni; contradiction |].
      now apply Hcscore.
  - intros n x Hx. rewrite Hsc. apply Hentry. apply Hsub. exact Hx.
  - intros n Hn Hnc. rewrite Hsc.
    assert (Hne : n <> idx).
    { intros ->. rewrite cellIs_seti_eq in Hnc by exact Hirange. discriminate. }
    rewrite cellIs_seti_ne in Hnc by congruence.
    destruct (Hopen n Hn Hnc) as [key [Hkin Hkey']].
    exists key. split; [| exact Hkey'].
    destruct (Hsup _ Hkin) as [Heq | Hin1]; [inversion Heq; contradiction | exact Hin1].
  - intros u w Hu Hw. rewrite Hsc. destruct (Hback u Hu) as [-> | [_ Hold]].
    + apply (popped_bound rank k sc size idx HC Hidx Hkey w Hw Hstart).
    + now apply Hclosed.
  - intros p b c Hp Hin' [Hne | []]. rewrite !Hsc.
    destruct (Hback p Hp) as [-> | [_ Hold]]; [contradiction |].
    destruct (Hrelaxed p b c Hold Hin' I) as [Hbc | Hbs]; [left; now apply Hmono | now right].
  - intros n Hn Hns. destruct (Hparent n Hn Hns) as [p [c [Hp [Hpc Hrest]]]].
    exists p, c. rewrite !Hsc. split; [exact Hp |]. split; [now apply Hmono | exact Hrest].
Qed.

Lemma relax_capacity (sc : Scratch) (heapSize idx nIdx : Z) (tentative : num) (h : Q) :
  length (heapScores (fst (relax sc heapSize idx nIdx tentative h)))
  = length (heapScores sc).
Proof.
  unfold relax. destruct (cellIsNot _ _ _ || num_lt _ _); [| reflexivity].
  match goal with
  | |- context [heapPush ?x ?i ?v ?z] =>
      destruct (heapPush_fields x i v z) as [_ [_ [_ [_ [_ Hlen]]]]]
  end.
  exact Hlen.
Qed.

Lemma fold_capacity {B : Type} (f : Scratch * Z -> B -> Scratch * Z) (l : list B)
  (st : Scratch * Z) :
  (forall x st0, length (heapScores (fst (f st0 x))) = length (heapScores (fst st0))) ->
  length (heapScores (fst (fold_left f l st))) = length (heapScores (fst st)).
Proof.
  intros Hstep. apply (fold_left_invariant
    (fun st' => length (heapScores (fst st')) = length (heapScores (fst st))));
    [reflexivity |].
  intros x b _ Hb. now rewrite Hstep.
Qed.

Lemma relaxVertical_capacity (idx nIdx : Z) (baseCost : num) (x0 y1 z0 : Q)
  (st : Scratch * Z) :
  length (heapScores (fst (relaxVertical g endCoords idx nIdx baseCost x0 y1 z0 st)))
  = length (heapScores (fst st)).
Proof.
  destruct st as [sc heapSize]. unfold relaxVertical.
  destruct (cellIsNot _ _ _); [apply relax_capacity | reflexivity].
Qed.

(** The expansions leave the heap arrays their length. *)
Lemma expand_capacity (idx : Z) (st : Scratch * Z) :
  length (heapScores
            (fst (if idx <? holeCenterBaseIndex g
                  then expandLattice g cap nodeUsage endCoords idx st
                  else expandHole g cap nodeUsage endCoords idx st)))
  = length (heapScores (fst st)).
Proof.
  destruct (idx <? holeCenterBaseIndex g).
  - unfold expandLattice.
    assert (Hfirst : forall l st0,
              length (heapScores (fst (fold_left
                (relaxNeighbor g cap nodeUsage endCoords idx (baseCostOf (fst st) idx)) l st0)))
              = length (heapScores (fst st0))).
    { intros l st0. apply fold_capacity. intros o [sc heapSize]. unfold relaxNeighbor.
      repeat match goal with
             | |- context [if ?b then _ else _] => destruct b
             end; try reflexivity; apply relax_capacity. }
    destruct (0 <? holeCenterCount g); [| apply Hfirst].
    rewrite fold_capacity; [apply Hfirst |].
    intros [cellX cellZ] [sc heapSize]. unfold relaxHoleCenter.
    destruct (holeIndexAt g cellX cellZ); [| reflexivity].
    repeat match goal with
           | |- context [if ?b then _ else _] => destruct b
           end; try reflexivity; apply relax_capacity.
  - unfold expandHole.
    destruct ((_ <? 0) || _); [reflexivity |]. cbv zeta.
    match goal with
    | |- context [fold_left ?f cornerOffsets st] =>
        assert (Hcorners : length (heapScores (fst (fold_left f cornerOffsets st)))
                           = length (heapScores (fst st)));
        [| set (st1 := fold_left f cornerOffsets st) in * ]
    end.
    { apply fold_capacity. intros corner [sc heapSize]. unfold relaxCorner.
      repeat match goal with
             | |- context [if ?b then _ else _] => destruct b
             end; try reflexivity; apply relax_capacity. }
    repeat match goal with
           | |- context [if ?b then _ else _] => destruct b
           end; rewrite ?relaxVertical_capacity; exact Hcorners.
Qed.

Section Loop.
Variables token activeToken endIndex : Z.

(** The loop of the search keeps the invariant as long as the heap
    fits its arrays. *)
Lemma searchLoop_cost (fuel : nat) (sc : Scratch) (heapSize iterations : Z)
  (rank : Z -> nat) (k : nat) :
  Inv (fun _ _ _ => True) rank k sc heapSize ->
  heapFits g cap nodeUsage endCoords token activeToken endIndex fuel sc heapSize iterations
  = true ->
  exists settled rank' k' size',
    Inv settled rank' k'
        (exitScratch (searchLoop g cap nodeUsage endCoords token activeToken endIndex
                                 fuel sc heapSize iterations)) size'.
Proof.
  revert sc heapSize iterations rank k.
  induction fuel as [| fuel IH]; intros sc heapSize iterations rank k HC Hfit.
  - simpl. now exists (fun _ _ _ => True), rank, k, heapSize.
  - simpl in Hfit |- *. apply andb_true_iff in Hfit. destruct Hfit as [_ Hfit].
    destruct (heapSize <=? 0) eqn:Hempty;
      [now exists (fun _ _ _ => True), rank, k, heapSize |].
    apply Z.leb_gt in Hempty.
    destruct (shouldCancel iterations token activeToken);
      [now exists (fun _ _ _ => True), rank, k, heapSize |].
    destruct (heapPop sc heapSize) as [[[[idx x] sc1] size1] |] eqn:Hpop;
      [| now exists (fun _ _ _ => True), rank, k, heapSize].
    destruct (heapPop_fields sc sc1 heapSize size1 idx x Hpop) as [_ [_ [_ [_ [Ft Fl]]]]].
    assert (Hs : stamp sc = s)
      by (exact (inv_stamp _ _ _ _ _ _ _ _ (ci_search _ _ _ _ _ _ _ _ _ _ _ _ _ _ _ HC))).
    rewrite Ft, Hs in *.
    destruct (cellIs (closed sc1) idx s) eqn:Hclosed.
    + eapply IH; [| exact Hfit]. eapply pop_skip_cost; eassumption.
    + pose proof (close_cost rank k sc sc1 heapSize size1 idx x HC Hempty Hpop Hclosed)
        as Hexp.
      destruct (idx =? endIndex).
      { destruct Hexp as [HC2 _]. cbn [fst snd] in HC2. simpl.
        eexists. eexists. eexists. eexists. exact HC2. }
      assert (Hcap2 : lengthZ (heapScores (setClosed sc1 idx)) = capacity).
      { destruct Hexp as [HC2 _]. exact (ci_capacity _ _ _ _ _ _ _ _ _ _ _ _ _ _ _ HC2). }
      pose proof (expand_capacity idx (setClosed sc1 idx, size1)) as Hlen3.
      assert (Hnext : forall st3,
                st3 = (if idx <? holeCenterBaseIndex g
                       then expandLattice g cap nodeUsage endCoords idx (setClosed sc1 idx, size1)
                       else expandHole g cap nodeUsage endCoords idx (setClosed sc1 idx, size1)) ->
                snd st3 <= capacity ->
                Inv (fun _ _ _ => True) (fun n => if n =? idx then k else rank n) (S k)
                    (fst st3) (snd st3)).
      { intros st3 -> Hroom. destruct (idx <? holeCenterBaseIndex g) eqn:Hbase.
        - apply Z.ltb_lt in Hbase.
          now apply (expandLattice_cost _ _ idx _ _ Hbase Hexp).
        - apply Z.ltb_ge in Hbase.
          now apply (expandHole_cost _ _ idx _ _ Hbase Hexp). }
      destruct (if idx <? holeCenterBaseIndex g
                then expandLattice g cap nodeUsage endCoords idx (setClosed sc1 idx, size1)
                else expandHole g cap nodeUsage endCoords idx (setClosed sc1 idx, size1))
        as [sc3 size3] eqn:Hrun.
      cbn [fst snd] in Hlen3.
      assert (Hroom : size3 <= capacity).
      { destruct fuel; simpl in Hfit; apply andb_true_iff in Hfit;
          destruct Hfit as [Hle _]; apply Z.leb_le in Hle;
          unfold lengthZ in *; rewrite Hlen3 in Hle; lia. }
      eapply IH; [| exact Hfit]. exact (Hnext (sc3, size3) eq_refl Hroom).
Qed.

End Loop.

Lemma unclosed_fresh (sc : Scratch) :
  (forall n x, geti (closed sc) n = Some x -> x < stamp sc) ->
  unclosed sc = length (closed sc).
Proof.
  intros Hfresh. unfold unclosed.
  assert (Hall : forall l : list Z, (forall x, In x l -> x < stamp sc) ->
            length (List.filter (fun x => negb (x =? stamp sc)) l) = length l).
  { induction l as [| x l IH]; [reflexivity |]. intros Hl. simpl.
    assert (Hx : x < stamp sc) by (apply Hl; now left).
    destruct (x =? stamp sc) eqn:Heq; [apply Z.eqb_eq in Heq; lia |].
    simpl. f_equal. apply IH. intros y Hy. apply Hl. now right. }
  apply Hall. intros x Hx. apply list_elem_of_In in Hx.
  apply list_elem_of_lookup in Hx. destruct Hx as [i Hi].
  apply (Hfresh (Z.of_nat i)). unfold geti.
  destruct (Z.of_nat i <? 0) eqn:Hneg; [apply Z.ltb_lt in Hneg; lia |].
  now rewrite Nat2Z.id.
Qed.

(** The invariant holds when the loop of the search starts. *)
Lemma start_cost (sc0 : Scratch) :
  s = stamp sc0 ->
  length (gStamp sc0) = length nodeUsage ->
  length (closed sc0) = length nodeUsage ->
  length (parents sc0) = length nodeUsage ->
  length (gScore sc0) = length nodeUsage ->
  length (heapIndices sc0) = length (heapScores sc0) ->
  lengthZ (heapScores sc0) = capacity -> 0 < capacity ->
  (forall n x, geti (gStamp sc0) n = Some x -> x < stamp sc0) ->
  (forall n x, geti (closed sc0) n = Some x -> x < stamp sc0) ->
  Inv (fun _ _ _ => True) (fun _ => 0%nat) 0
      (fst (heapPush (markStart sc0 startIndex) startIndex (Fin (est startIndex)) 0))
      (snd (heapPush (markStart sc0 startIndex) startIndex (Fin (est startIndex)) 0)).
Proof.
  intros Hs Hl1 Hl2 Hl3 Hl4 Hl5 Hcap Hpos Hg Hc. pose proof rounding_pos as Hd.
  pose proof (markStart_inv g cap nodeUsage sc0 startIndex Hl1 Hl2 Hl3 Hg Hc) as HI1.
  rewrite <- Hs in HI1.
  set (sc1 := markStart sc0 startIndex) in *.
  destruct (fits_estimate g cap nodeUsage endCoords eta cmax hmax Hfits startIndex Hstart)
    as [Hh0 Hh1].
  assert (HhM : (est startIndex <= M)%Q).
  { assert (0 <= inject_Z (lengthZ nodeUsage) * (cmax + rounding))%Q.
    { apply Qmult_le_0_compat; [| lra]. change 0%Q with (inject_Z 0).
      rewrite <- Zle_Qle. lia. }
    lra. }
  assert (Hheap1 : isHeap sc1 0).
  { unfold isHeap, heapEntries. cbn [heapIndices heapScores sc1 markStart].
    split; [exact Hl5 |]. split; [lia |]. split; [constructor |]. intros j Hj. lia. }
  assert (Hcells1 : float32Cells sc1 0) by (unfold float32Cells, heapEntries; constructor).
  assert (Hroom1 : 0 < lengthZ (heapScores sc1)) by (cbn; lia).
  destruct (heapPush_heap sc1 startIndex (Fin (est startIndex)) 0 Hheap1 Hcells1 Hroom1
              ltac:(discriminate)) as [Hsize [Hheap2 [Hcells2 Hperm]]].
  destruct (heapPush_fields sc1 startIndex (Fin (est startIndex)) 0)
    as [Fp [Fc [Fg [Fs [Ft Fl]]]]].
  set (pushed := heapPush sc1 startIndex (Fin (est startIndex)) 0) in *.
  rewrite Hsize. change (0 + 1) with 1 in *.
  rewrite (toFloat32_fin (est startIndex)) in Hperm by lra.
  pose proof (fround_error (est startIndex) M Hh0 HhM) as [He1 He2].
  cbn [parents closed gScore gStamp stamp sc1 markStart] in Fp, Fc, Fg, Fs, Ft.
  rewrite <- Hs in *.
  assert (Honly : forall n, cellIs (gStamp (fst pushed)) n s = true -> n = startIndex).
  { intros n Hn. rewrite Fs in Hn. destruct (Z.eq_dec n startIndex) as [-> | Hne];
      [reflexivity |].
    rewrite cellIs_seti_ne in Hn by congruence. apply cellIs_true in Hn.
    specialize (Hg n _ Hn). lia. }
  assert (Hnone : forall n, cellIs (closed (fst pushed)) n s = true -> False).
  { intros n Hn. rewrite Fc in Hn. apply cellIs_true in Hn. specialize (Hc n _ Hn). lia. }
  assert (Hstamp : cellIs (gStamp (fst pushed)) startIndex s = true).
  { rewrite Fs. apply cellIs_seti_eq. unfold lengthZ in *. lia. }
  assert (Hzero : getNum (gScore (fst pushed)) startIndex = Fin 0).
  { rewrite Fg. apply getNum_seti_eq. unfold lengthZ in *. lia. }
  assert (Hs0 : scoreOf (fst pushed) startIndex = 0%Q)
    by (unfold scoreOf; now rewrite Hzero).
  assert (Hentries : forall e, In e (heapEntries (fst pushed) 1) <->
                               e = (startIndex, Fin (fround (est startIndex)))).
  { intros e. split.
    - intros He. apply (Permutation_in _ Hperm) in He.
      destruct He as [<- | []]. reflexivity.
    - intros ->. apply (Permutation_in _ (Permutation_sym Hperm)). now left. }
  split.
  - eapply SearchInv_core; [| exact HI1]. repeat split; assumption.
  - rewrite Fg, length_seti. exact Hl4.
  - rewrite (unclosed_ext sc0 (fst pushed) Fc (eq_trans Ft Hs)).
    rewrite unclosed_fresh by (intros n x Hx; rewrite <- Hs; eauto). exact Hl2.
  - exact Hheap2.
  - unfold lengthZ in *. rewrite Fl. exact Hcap.
  - exact Hcells2.
  - split; assumption.
  - intros n Hn Hne. apply Honly in Hn. contradiction.
  - intros n Hn. destruct (Hnone n Hn).
  - intros n Hn. apply Honly in Hn. subst n. exists 0%Q.
    split; [exact Hzero |]. split; [lra |]. split; [apply fround_zero |].
    change (inject_Z (Z.of_nat 0)) with 0%Q. lra.
  - intros n Hn. destruct (Hnone n Hn).
  - intros n x Hx. apply Hentries in Hx. inversion Hx. subst n x.
    split; [exact Hstamp |]. exists (fround (est startIndex)).
    split; [reflexivity |]. rewrite Hs0. lra.
  - intros n Hn _. apply Honly in Hn. subst n. exists (fround (est startIndex)).
    split; [now apply Hentries |]. rewrite Hs0. lra.
  - intros u w Hu. destruct (Hnone u Hu).
  - intros p b c Hp. destruct (Hnone p Hp).
  - intros n Hn Hne. apply Honly in Hn. contradiction.
Qed.

(** The path read off the parents costs no more than the score of its
    last node and one rounding error per edge. *)
Lemma walkParents_cost (settled : Z -> Z -> Q -> Prop) (rank : Z -> nat) (k : nat)
  (sc : Scratch) (size : Z) (endIndex : Z) (safety : nat) (current current' : Z)
  (path path' : list Z) :
  Inv settled rank k sc size ->
  (walkCost g cap nodeUsage (current :: rev path) + scoreOf sc current
   <= scoreOf sc endIndex + hops (current :: rev path) * rounding)%Q ->
  walkParents safety sc startIndex current path = Some (path', current') ->
  (walkCost g cap nodeUsage (current' :: rev path') + scoreOf sc current'
   <= scoreOf sc endIndex + hops (current' :: rev path') * rounding)%Q.
Proof.
  intros HC. revert current path.
  induction safety as [| safety IH]; intros current path Hcost Hrun; simpl in Hrun.
  - inversion Hrun. now subst.
  - destruct (current =? startIndex) eqn:Hcur; [inversion Hrun; now subst |].
    apply Z.eqb_neq in Hcur.
    destruct (cellIsNot (gStamp sc) current (stamp sc)) eqn:Hlab; [discriminate |].
    unfold cellIsNot in Hlab. apply negb_false_iff in Hlab.
    rewrite (inv_stamp _ _ _ _ _ _ _ _ (ci_search _ _ _ _ _ _ _ _ _ _ _ _ _ _ _ HC)) in Hlab.
    apply IH in Hrun; [exact Hrun |]. clear IH Hrun.
    destruct (ci_parent _ _ _ _ _ _ _ _ _ _ _ _ _ _ _ HC current Hlab Hcur)
      as [p [c [Hp [Hpc [Hedge Hscore]]]]].
    assert (Hget : getInt (parents sc) current = p) by (unfold getInt; now rewrite Hp).
    rewrite Hget, rev_unit.
    assert (Hprange : 0 <= p < lengthZ nodeUsage).
    { apply cellIs_range in Hpc.
      pose proof (inv_len_closed _ _ _ _ _ _ _ _
                    (ci_search _ _ _ _ _ _ _ _ _ _ _ _ _ _ _ HC)).
      unfold lengthZ in *. lia. }
    destruct (fits_edge g cap nodeUsage endCoords eta cmax hmax Hfits p current c
                Hprange Hedge) as [_ [_ [_ Hec]]].
    rewrite hops_cons.
    change (walkCost g cap nodeUsage (p :: current :: rev path))
      with (edgeCost g cap nodeUsage p current
            + walkCost g cap nodeUsage (current :: rev path))%Q.
    rewrite Hec. lra.
Qed.
End SearchCostFacts.

Section NearOptimal.
Context `{Platform}.

Lemma bumpStamp_scores (sc : Scratch) :
  gScore (bumpStamp sc) = gScore sc
  /\ heapIndices (bumpStamp sc) = heapIndices sc
  /\ heapScores (bumpStamp sc) = heapScores sc.
Proof. unfold bumpStamp. destruct (2147483646 <=? stamp sc + 1); repeat split. Qed.

Lemma heapFits_size (g : WorkerGrid) (cap : Z) (nodeUsage : list Z) (endCoords : Coords)
  (token activeToken endIndex : Z) (fuel : nat) (sc : Scratch) (heapSize iterations : Z) :
  heapFits g cap nodeUsage endCoords token activeToken endIndex fuel sc heapSize iterations
  = true ->
  heapSize <= lengthZ (heapScores sc).
Proof.
  destruct fuel; simpl; intros Hfit; apply andb_true_iff in Hfit;
    destruct Hfit as [Hle _]; now apply Z.leb_le in Hle.
Qed.


End NearOptimal.

Lemma consistentEstimateb_sound `{Platform} (g : WorkerGrid) (cap : Z) (nodeUsage : list Z)
  (endCoords : Coords) (eta cmax hmax : Q) :
  consistentEstimateb g cap nodeUsage endCoords eta cmax hmax = true ->
  consistentEstimate g cap nodeUsage endCoords eta cmax hmax.
Proof.
  unfold consistentEstimateb, consistentEstimate. intros Hall a Ha.
  rewrite forallb_forall in Hall. specialize (Hall (Z.to_nat a)).
  rewrite Z2Nat.id in Hall by lia. apply Hall. apply in_seq. unfold lengthZ in Ha. lia.
Qed.

